(** * A shallow embedding of the tableau simplex solver (services/solver.ts)

    The solver works on JavaScript numbers, which are IEEE 754 binary64
    values: they are modelled by Rocq's primitive floats, whose operations
    are exactly the binary64 ones.  Arrays are lists.  The rows of the
    tableau are JavaScript objects that the trace steps keep references to,
    so rows live in a store ([Heap]) and both the matrix and the trace steps
    hold addresses into it. *)

From Stdlib Require Import List String Ascii Bool Arith ZArith Lia.
From Stdlib Require Import Floats DecimalString.
From Stdlib Require DecimalNat DecimalFacts.
Import ListNotations.

#[local] Set Warnings "-inexact-float".
#[local] Open Scope string_scope.
#[local] Open Scope nat_scope.
#[local] Open Scope list_scope.

(** String concatenation of the source's template literals. *)
Infix "+++" := String.append (right associativity, at level 60).

(** ** Numbers *)

Definition number := float.

(** [x < y] and [x > y] of the source. *)
Definition lt (x y : number) : bool := PrimFloat.ltb x y.
Definition gt (x y : number) : bool := PrimFloat.ltb y x.
(** [x === 1] on numbers. *)
Definition strictEq (x y : number) : bool := PrimFloat.eqb x y.
(** [Math.abs]. *)
Definition Math_abs (x : number) : number := PrimFloat.abs x.

Definition M_VAL : number := 100000%float.

(** The literals [-1e-9], [1e-9] and [1e-5] of the source. *)
Definition negTol : number := (-1e-9)%float.
Definition tol : number := 1e-9%float.
Definition feasTol : number := 1e-5%float.

(** ** Arrays *)

(** [arr[i]] on an array of numbers: an absent element is [undefined], which
    every numeric operator and comparison of the solver coerces to NaN. *)
Definition jsGet (row : list number) (i : nat) : number := nth i row nan.

(** [arr[i] = v]: replaces the element in range and extends the array out of
    range, the skipped positions being holes (filled here with [hole]). *)
Fixpoint jsSet {A : Type} (hole : A) (i : nat) (v : A) (l : list A) : list A :=
  match i, l with
  | O, [] => [v]
  | O, _ :: t => v :: t
  | S i', [] => hole :: jsSet hole i' v []
  | S i', x :: t => x :: jsSet hole i' v t
  end.

(** [arr.forEach((x, i) => ...)] iterates over the elements with their index. *)
Definition indexed {A : Type} (l : list A) : list (nat * A) :=
  combine (seq 0 (List.length l)) l.

(** [arr.slice(1, -1)]. *)
Definition slice1m1 {A : Type} (l : list A) : list A := removelast (tl l).

(** Template literals print a natural number in decimal. *)
Definition showNat (n : nat) : string := NilZero.string_of_uint (Nat.to_uint n).

(** [s.startsWith('a')]. *)
Definition startsWithA (s : string) : bool := String.prefix "a" s.

(** [headers[i]] inside a template literal or as a label; an absent header
    is [undefined], printed as such. *)
Definition headerAt (hdrs : list string) (i : nat) : string :=
  nth i hdrs "undefined".

(** [headers[basis[k]]]. *)
Definition basisHeader (hdrs : list string) (basis : list nat) (k : nat) : string :=
  match nth_error basis k with
  | Some i => headerAt hdrs i
  | None => "undefined"
  end.

(** ** The row store *)

Definition Row := list number.

(** Rows are allocated once and then mutated in place; the address of a row
    is its position in the store. *)
Definition Heap := list Row.

(** [matrix: number[][]]: the array of row references. *)
Definition Matrix := list nat.

Definition rowAt (h : Heap) (a : nat) : Row := nth a h [].

Fixpoint updRow (h : Heap) (a : nat) (f : Row -> Row) : Heap :=
  match h, a with
  | [], _ => []
  | row :: h', O => f row :: h'
  | row :: h', S a' => row :: updRow h' a' f
  end.

Definition alloc (h : Heap) (row : Row) : Heap * nat := (h ++ [row], List.length h).

(** [matrix[r]]; every use below has [r] below [matrix.length]. *)
Definition rowAddr (m : Matrix) (r : nat) : nat := nth r m 0.

(** [matrix[r][c]]. *)
Definition cell (h : Heap) (m : Matrix) (r c : nat) : number :=
  jsGet (rowAt h (rowAddr m r)) c.

(** [matrix[r][c] = v]. *)
Definition setCell (h : Heap) (m : Matrix) (r c : nat) (v : number) : Heap :=
  updRow h (rowAddr m r) (jsSet nan c v).

(** [matrix[r][RHS_COL]] with [RHS_COL = colCount - 1]; index [-1] of an
    array is [undefined]. *)
Definition rhsCell (h : Heap) (m : Matrix) (colCount r : nat) : number :=
  match colCount with
  | O => nan
  | S k => cell h m r k
  end.

(** [for (let c = 0; c < n; c++) body]. *)
Definition forRange {S : Type} (from count : nat) (body : nat -> S -> S) (s : S) : S :=
  fold_left (fun acc i => body i acc) (seq from count) s.

(** ** Data model (types.ts) *)

Inductive OptimizationType := MAX | MIN.
Inductive Relation := LE | GE | EQ.
Inductive SolverMethod := SIMPLEX | BIG_M | TWO_PHASE.
Inductive Status := OPTIMAL | UNBOUNDED | INFEASIBLE | ERROR.

Record Constraint := {
  id : string;
  coefficients : list number;
  relation : Relation;
  rhs : number
}.

(** [coefficients: matrix[r]] stores the reference to the live row. *)
Record TableauRow := {
  basicVar : string;
  rowRef : nat;
  rowRhs : number
}.

Record TableauStep := {
  stepIndex : nat;
  description : string;
  tableau : list TableauRow;
  headers : list string;
  basicVars : list string;
  pivotRow : option nat;
  pivotCol : option nat;
  enteringVar : option string;
  leavingVar : option string;
  isPhase1 : bool;
  phase : nat
}.

(** The returned object, together with the store its trace steps point
    into: [store] is what the caller reads [row.coefficients] from. *)
Record SolveResult := {
  steps : list TableauStep;
  finalValues : list (string * number);
  zValue : number;
  status : Status;
  errorMessage : option string;
  store : Heap
}.

(** What a reader of a trace step sees in [row.coefficients] when the store
    is [h]. *)
Definition shownCoefficients (h : Heap) (s : TableauStep) : list Row :=
  map (fun row => rowAt h (rowRef row)) (tableau s).

(** ** Exceptions *)

Inductive Result (A : Type) :=
| Ok (a : A)
| Throw (e : string).
Arguments Ok {A} a.
Arguments Throw {A} e.

Definition bind {A B : Type} (x : Result A) (k : A -> Result B) : Result B :=
  match x with
  | Ok a => k a
  | Throw e => Throw e
  end.

Notation "x <- e1 ;; e2" := (bind e1 (fun x => e2))
  (at level 100, e1 at next level, right associativity).

Definition TypeError : string := "TypeError".

(** ** The pivot engine (runSimplexIterations) *)

Definition maxIter : nat := 50.

(** The objects the engine mutates. *)
Record EngineState := {
  st_heap : Heap;
  st_basis : list nat;
  st_steps : list TableauStep
}.

Inductive Flow :=
| Return (s : Status)
| Continue.

Section Engine.

Variable matrix : Matrix.
Variable hdrs : list string.
Variable phaseNo : nat.
Variable colCount rowCount : nat.

(** 1. Save current step. *)
Definition currentTableauRows (h : Heap) (basis : list nat) : list TableauRow :=
  map (fun r =>
         {| basicVar := if r =? 0 then (if phaseNo =? 1 then "W" else "Z")
                        else basisHeader hdrs basis (r - 1);
            rowRef := rowAddr matrix r;
            rowRhs := rhsCell h matrix colCount r |})
      (seq 0 rowCount).

(** 2. The scan for the entering column; [None] is the source's [-1]. *)
Definition enteringStep (h : Heap) (c : nat) (acc : option nat * number)
  : option nat * number :=
  if lt (cell h matrix 0 c) (snd acc) then (Some c, cell h matrix 0 c) else acc.

Definition findEntering (h : Heap) : option nat * number :=
  forRange 1 (colCount - 2) (enteringStep h) (None, negTol).

(** 3. The ratio test. *)
Definition leavingStep (h : Heap) (enteringCol : nat) (r : nat)
           (acc : option nat * number) : option nat * number :=
  let pivotVal := cell h matrix r enteringCol in
  if gt pivotVal tol then
    let ratio := (rhsCell h matrix colCount r / pivotVal)%float in
    if lt ratio (snd acc) then (Some r, ratio) else acc
  else acc.

Definition findLeaving (h : Heap) (enteringCol : nat) : option nat * number :=
  forRange 1 (rowCount - 1) (leavingStep h enteringCol) (None, infinity).

(** 4a. Normalize pivot row. *)
Definition normalizeRow (leavingRow : nat) (pivotValue : number) (h : Heap) : Heap :=
  forRange 0 colCount
    (fun c h => setCell h matrix leavingRow c
                  (cell h matrix leavingRow c / pivotValue)%float) h.

(** 4b. Eliminate other rows. *)
Definition eliminateRow (leavingRow : nat) (factor : number) (r : nat) (h : Heap) : Heap :=
  forRange 0 colCount
    (fun c h => setCell h matrix r c
                  (cell h matrix r c - factor * cell h matrix leavingRow c)%float) h.

Definition eliminate (leavingRow enteringCol : nat) (h : Heap) : Heap :=
  forRange 0 rowCount
    (fun r h =>
       if r =? leavingRow then h
       else
         let factor := cell h matrix r enteringCol in
         if gt (Math_abs factor) tol then eliminateRow leavingRow factor r h
         else h) h.

Definition pivot (leavingRow enteringCol : nat) (h : Heap) : Heap :=
  let pivotValue := cell h matrix leavingRow enteringCol in
  eliminate leavingRow enteringCol (normalizeRow leavingRow pivotValue h).

Definition phaseLabel : string :=
  if 0 <? phaseNo then "Fase " +++ showNat phaseNo else "Final".

Definition optimalStep (st : EngineState) : TableauStep :=
  {| stepIndex := List.length (st_steps st) + 1;
     description := "Solución Óptima encontrada (" +++ phaseLabel +++ ").";
     tableau := currentTableauRows (st_heap st) (st_basis st);
     headers := hdrs;
     basicVars := map (headerAt hdrs) (st_basis st);
     pivotRow := None; pivotCol := None;
     enteringVar := None; leavingVar := None;
     isPhase1 := phaseNo =? 1;
     phase := phaseNo |}.

Definition unboundedStep (st : EngineState) (enteringCol : nat) : TableauStep :=
  {| stepIndex := List.length (st_steps st) + 1;
     description := "Solución no acotada detectada. Variable entrante "
                      +++ headerAt hdrs enteringCol +++ " no tiene pivote positivo.";
     tableau := currentTableauRows (st_heap st) (st_basis st);
     headers := hdrs;
     basicVars := map (headerAt hdrs) (st_basis st);
     pivotRow := None; pivotCol := None;
     enteringVar := None; leavingVar := None;
     isPhase1 := phaseNo =? 1;
     phase := phaseNo |}.

Definition iterationStep (st : EngineState) (iter enteringCol leavingRow : nat)
  : TableauStep :=
  {| stepIndex := List.length (st_steps st) + 1;
     description := "Iteración " +++ showNat (iter + 1) +++ ": Entra "
                      +++ headerAt hdrs enteringCol +++ ", Sale "
                      +++ basisHeader hdrs (st_basis st) (leavingRow - 1)
                      +++ ". Pivote en fila " +++ showNat leavingRow
                      +++ ", col " +++ showNat enteringCol +++ ".";
     tableau := currentTableauRows (st_heap st) (st_basis st);
     headers := hdrs;
     basicVars := map (headerAt hdrs) (st_basis st);
     pivotRow := Some leavingRow; pivotCol := Some enteringCol;
     enteringVar := Some (headerAt hdrs enteringCol);
     leavingVar := Some (basisHeader hdrs (st_basis st) (leavingRow - 1));
     isPhase1 := phaseNo =? 1;
     phase := phaseNo |}.

(** One pass through the body of the [while] loop. *)
Definition iteration (iter : nat) (st : EngineState) : Flow * EngineState :=
  match fst (findEntering (st_heap st)) with
  | None =>
      (Return OPTIMAL,
       {| st_heap := st_heap st; st_basis := st_basis st;
          st_steps := st_steps st ++ [optimalStep st] |})
  | Some enteringCol =>
      match fst (findLeaving (st_heap st) enteringCol) with
      | None =>
          (Return UNBOUNDED,
           {| st_heap := st_heap st; st_basis := st_basis st;
              st_steps := st_steps st ++ [unboundedStep st enteringCol] |})
      | Some leavingRow =>
          (Continue,
           {| st_heap := pivot leavingRow enteringCol (st_heap st);
              st_basis := jsSet 0 (leavingRow - 1) enteringCol (st_basis st);
              st_steps := st_steps st ++ [iterationStep st iter enteringCol leavingRow] |})
      end
  end.

(** [while (iter < maxIter) { ... iter++ }] followed by
    [return 'UNBOUNDED']; [fuel] is [maxIter - iter]. *)
Fixpoint whileLoop (fuel iter : nat) (st : EngineState) : Status * EngineState :=
  match fuel with
  | O => (UNBOUNDED, st)
  | S fuel' =>
      match iteration iter st with
      | (Return s, st') => (s, st')
      | (Continue, st') => whileLoop fuel' (S iter) st'
      end
  end.

End Engine.

(** [matrix[0].length] raises a TypeError when the matrix has no row. *)
Definition runSimplexIterations (matrix : Matrix) (hdrs : list string)
           (phaseNo : nat) (st : EngineState) : Result (Status * EngineState) :=
  match matrix with
  | [] => Throw TypeError
  | a0 :: _ =>
      let colCount := List.length (rowAt (st_heap st) a0) in
      let rowCount := List.length matrix in
      Ok (whileLoop matrix hdrs phaseNo colCount rowCount maxIter 0 st)
  end.

(** ** The problem normalizer *)

Definition decisionHeaders (numDecisionVars : nat) : list string :=
  map (fun i => "x" +++ showNat i) (seq 1 numDecisionVars).

Definition slackVars (constraints : list Constraint) : list string :=
  flat_map (fun ic => match relation (snd ic) with
                      | LE => ["s" +++ showNat (fst ic + 1)]
                      | _ => []
                      end) (indexed constraints).

Definition surplusVars (constraints : list Constraint) : list string :=
  flat_map (fun ic => match relation (snd ic) with
                      | GE => ["e" +++ showNat (fst ic + 1)]
                      | _ => []
                      end) (indexed constraints).

Definition artificialVars (constraints : list Constraint) : list string :=
  flat_map (fun ic => match relation (snd ic) with
                      | GE | EQ => ["a" +++ showNat (fst ic + 1)]
                      | LE => []
                      end) (indexed constraints).

Definition buildHeaders (numDecisionVars : nat) (constraints : list Constraint)
  : list string :=
  ("Z" :: decisionHeaders numDecisionVars)
    ++ slackVars constraints ++ surplusVars constraints
    ++ artificialVars constraints ++ ["LD"].

Definition zeroRow (colCount : nat) : Row := repeat 0%float colCount.

(** [Array(numRows).fill(0).map(() => Array(colCount).fill(0))]: row [r] is
    allocated at address [r]. *)
Definition initHeap (numRows colCount : nat) : Heap := repeat (zeroRow colCount) numRows.
Definition initMatrix (numRows : nat) : Matrix := seq 0 numRows.

Record FillState := {
  f_heap : Heap;
  initialBasis : list nat;
  currentSlackIdx : nat;
  currentSurplusIdx : nat;
  currentArtificialIdx : nat
}.

(** The body of [constraints.forEach((c, rowIdx) => ...)]. *)
Definition fillConstraint (matrix : Matrix) (RHS_COL : nat) (s : FillState)
           (ic : nat * Constraint) : FillState :=
  let rowIdx := fst ic in
  let c := snd ic in
  let matrixRow := rowIdx + 1 in
  let h1 := fold_left (fun h jc => setCell h matrix matrixRow (fst jc + 1) (snd jc))
                      (indexed (coefficients c)) (f_heap s) in
  let h2 := setCell h1 matrix matrixRow RHS_COL (rhs c) in
  match relation c with
  | LE =>
      {| f_heap := setCell h2 matrix matrixRow (currentSlackIdx s) 1%float;
         initialBasis := jsSet 0 rowIdx (currentSlackIdx s) (initialBasis s);
         currentSlackIdx := currentSlackIdx s + 1;
         currentSurplusIdx := currentSurplusIdx s;
         currentArtificialIdx := currentArtificialIdx s |}
  | GE =>
      {| f_heap := setCell (setCell h2 matrix matrixRow (currentSurplusIdx s) (-1)%float)
                           matrix matrixRow (currentArtificialIdx s) 1%float;
         initialBasis := jsSet 0 rowIdx (currentArtificialIdx s) (initialBasis s);
         currentSlackIdx := currentSlackIdx s;
         currentSurplusIdx := currentSurplusIdx s + 1;
         currentArtificialIdx := currentArtificialIdx s + 1 |}
  | EQ =>
      {| f_heap := setCell h2 matrix matrixRow (currentArtificialIdx s) 1%float;
         initialBasis := jsSet 0 rowIdx (currentArtificialIdx s) (initialBasis s);
         currentSlackIdx := currentSlackIdx s;
         currentSurplusIdx := currentSurplusIdx s;
         currentArtificialIdx := currentArtificialIdx s + 1 |}
  end.

(** Setup Objective Function (Row 0). *)
Definition fillObjective (matrix : Matrix) (isMin : bool) (objCoeffs : list number)
           (h : Heap) : Heap :=
  fold_left (fun h jc => setCell h matrix 0 (fst jc + 1)
                           (if isMin then snd jc else (- snd jc)%float))
            (indexed objCoeffs) (setCell h matrix 0 0 1%float).

(** [headers.forEach((h, i) => { if (h.startsWith('a')) { matrix[0][i] = v;
    artIndices.push(i) } })]. *)
Definition markArtificials (matrix : Matrix) (hdrs : list string) (v : number)
           (h : Heap) : Heap * list nat :=
  fold_left (fun acc ih =>
               if startsWithA (snd ih)
               then (setCell (fst acc) matrix 0 (fst ih) v, snd acc ++ [fst ih])
               else acc)
            (indexed hdrs) (h, []).

(** Two-phase: [matrix[0][c] -= matrix[r][c]] for every row [r] holding a 1
    in an artificial column. *)
Definition phase1Eliminate (matrix : Matrix) (numRows colCount : nat)
           (artIndices : list nat) (h : Heap) : Heap :=
  fold_left (fun h artCol =>
               forRange 1 (numRows - 1)
                 (fun r h =>
                    if strictEq (cell h matrix r artCol) 1%float
                    then forRange 0 colCount
                           (fun c h => setCell h matrix 0 c
                                         (cell h matrix 0 c - cell h matrix r c)%float) h
                    else h) h)
            artIndices h.

(** Big-M: [matrix[0][c] -= M_VAL * matrix[r][c]]. *)
Definition bigMEliminate (matrix : Matrix) (numRows colCount : nat)
           (artIndices : list nat) (h : Heap) : Heap :=
  fold_left (fun h artCol =>
               forRange 1 (numRows - 1)
                 (fun r h =>
                    if strictEq (cell h matrix r artCol) 1%float
                    then forRange 0 colCount
                           (fun c h => setCell h matrix 0 c
                                         (cell h matrix 0 c - M_VAL * cell h matrix r c)%float) h
                    else h) h)
            artIndices h.

(** Prepare phase 2: zero out the basic variables in the restored Row 0. *)
Definition rezeroObjective (matrix : Matrix) (colCount : nat) (basis : list nat)
           (h : Heap) : Heap :=
  fold_left (fun h ib =>
               let row := fst ib + 1 in
               let basisCoeffInObj := cell h matrix 0 (snd ib) in
               if gt (Math_abs basisCoeffInObj) tol
               then forRange 0 colCount
                      (fun c h => setCell h matrix 0 c
                                    (cell h matrix 0 c
                                     - basisCoeffInObj * cell h matrix row c)%float) h
               else h)
            (indexed basis) h.

(** ** Orchestration (solveLinearProgram) *)

(** [finalValues[k] = v] on a plain object. *)
Fixpoint objSet (k : string) (v : number) (o : list (string * number))
  : list (string * number) :=
  match o with
  | [] => [(k, v)]
  | (k', v') :: t => if String.eqb k k' then (k, v) :: t else (k', v') :: objSet k v t
  end.

(** [matrix[r]] when the row is then indexed: a missing row raises. *)
Definition rowRefOf (matrix : Matrix) (r : nat) : Result nat :=
  match nth_error matrix r with
  | Some a => Ok a
  | None => Throw TypeError
  end.

(** The [{ status, steps, finalValues: {}, zValue: 0 }] of the early returns. *)
Definition earlyReturn (s : Status) (st : EngineState) : SolveResult :=
  {| steps := st_steps st; finalValues := []; zValue := 0%float; status := s;
     errorMessage := None; store := st_heap st |}.

(** Big-M feasibility check: [initialBasis.some((colIdx, i) => ...)]. *)
Fixpoint artInBasis (hdrs : list string) (matrix : Matrix) (h : Heap)
         (RHS_COL : nat) (ib : list (nat * nat)) : Result bool :=
  match ib with
  | [] => Ok false
  | (i, colIdx) :: rest =>
      a <- rowRefOf matrix (i + 1) ;;
      let val := jsGet (rowAt h a) RHS_COL in
      match nth_error hdrs colIdx with
      | None => Throw TypeError
      | Some name =>
          if startsWithA name && gt val feasTol then Ok true
          else artInBasis hdrs matrix h RHS_COL rest
      end
  end.

(** Read basis: [finalValues[headers[colIdx]] = matrix[rowIdx+1][RHS_COL]]. *)
Fixpoint readBasis (hdrs : list string) (matrix : Matrix) (h : Heap)
         (RHS_COL : nat) (ib : list (nat * nat)) (fv : list (string * number))
  : Result (list (string * number)) :=
  match ib with
  | [] => Ok fv
  | (rowIdx, colIdx) :: rest =>
      a <- rowRefOf matrix (rowIdx + 1) ;;
      readBasis hdrs matrix h RHS_COL rest
                (objSet (headerAt hdrs colIdx) (jsGet (rowAt h a) RHS_COL) fv)
  end.

(** EXTRACT RESULTS. *)
Definition extractResults (isMin : bool) (hdrs : list string) (matrix : Matrix)
           (RHS_COL : nat) (st : EngineState) : Result SolveResult :=
  let fv0 := fold_left (fun fv h => objSet h 0%float fv) (slice1m1 hdrs) [] in
  fv <- readBasis hdrs matrix (st_heap st) RHS_COL (indexed (st_basis st)) fv0 ;;
  a0 <- rowRefOf matrix 0 ;;
  let z := jsGet (rowAt (st_heap st) a0) RHS_COL in
  Ok {| steps := st_steps st;
        finalValues := fv;
        zValue := if isMin then (- z)%float else z;
        status := OPTIMAL;
        errorMessage := None;
        store := st_heap st |}.

(** The tableau handed to the first run of the engine. *)
Record Normalized := {
  n_headers : list string;
  n_colCount : nat;
  n_numRows : nat;
  n_matrix : Matrix;
  n_heap : Heap;
  n_basis : list nat
}.

Definition normalize (isMin : bool) (objCoeffs : list number)
           (constraints : list Constraint) : Normalized :=
  let numDecisionVars := List.length objCoeffs in
  let hdrs := buildHeaders numDecisionVars constraints in
  let colCount := List.length hdrs in
  let RHS_COL := colCount - 1 in
  let numRows := List.length constraints + 1 in
  let matrix := initMatrix numRows in
  let slack0 := 1 + numDecisionVars in
  let surplus0 := slack0 + List.length (slackVars constraints) in
  let art0 := surplus0 + List.length (surplusVars constraints) in
  let filled :=
    fold_left (fillConstraint matrix RHS_COL) (indexed constraints)
              {| f_heap := initHeap numRows colCount; initialBasis := [];
                 currentSlackIdx := slack0; currentSurplusIdx := surplus0;
                 currentArtificialIdx := art0 |} in
  {| n_headers := hdrs; n_colCount := colCount; n_numRows := numRows;
     n_matrix := matrix;
     n_heap := fillObjective matrix isMin objCoeffs (f_heap filled);
     n_basis := initialBasis filled |}.

Definition isOptimal (s : Status) : bool :=
  match s with OPTIMAL => true | _ => false end.
Definition isUnbounded (s : Status) : bool :=
  match s with UNBOUNDED => true | _ => false end.

(** [matrix[0] = row]: the matrix now refers to another row object. *)
Definition replaceRow0 (matrix : Matrix) (a : nat) : Matrix := jsSet 0 0 a matrix.

(** PHASE 1 of the TWO_PHASE branch: the true objective row is copied
    aside ([originalObjRow = [...matrix[0]]]), [matrix[0]] becomes a fresh
    row holding the auxiliary objective, and the artificial columns are
    eliminated from it. *)
Record Phase1 := {
  p1_matrix : Matrix;
  p1_originalObjRow : nat;
  p1_heap : Heap
}.

Definition preparePhase1 (n : Normalized) : Phase1 :=
  let colCount := n_colCount n in
  let '(h1, originalObjRow) :=
    alloc (n_heap n) (rowAt (n_heap n) (rowAddr (n_matrix n) 0)) in
  let '(h2, phase1Row) := alloc h1 (zeroRow colCount) in
  let matrix1 := replaceRow0 (n_matrix n) phase1Row in
  let h3 := setCell h2 matrix1 0 0 1%float in
  let '(h4, artIndices) := markArtificials matrix1 (n_headers n) 1%float h3 in
  {| p1_matrix := matrix1;
     p1_originalObjRow := originalObjRow;
     p1_heap := phase1Eliminate matrix1 (n_numRows n) colCount artIndices h4 |}.

(** PREPARE PHASE 2: [matrix[0] = originalObjRow], then the row is re-zeroed
    against the basis phase 1 ended with. *)
Definition preparePhase2 (n : Normalized) (p : Phase1) (st1 : EngineState)
  : Matrix * EngineState :=
  let matrix2 := replaceRow0 (p1_matrix p) (p1_originalObjRow p) in
  (matrix2,
   {| st_heap := rezeroObjective matrix2 (n_colCount n) (st_basis st1) (st_heap st1);
      st_basis := st_basis st1;
      st_steps := st_steps st1 |}).

(** The TWO_PHASE branch. *)
Definition solveTwoPhase (isMin : bool) (n : Normalized) : Result SolveResult :=
  let hdrs := n_headers n in
  let RHS_COL := n_colCount n - 1 in
  let p := preparePhase1 n in
  r1 <- runSimplexIterations (p1_matrix p) hdrs 1
          {| st_heap := p1_heap p; st_basis := n_basis n; st_steps := [] |} ;;
  let '(phase1Result, st1) := r1 in
  if isUnbounded phase1Result then Ok (earlyReturn UNBOUNDED st1)
  else if gt (Math_abs (cell (st_heap st1) (p1_matrix p) 0 RHS_COL)) feasTol
  then Ok (earlyReturn INFEASIBLE st1)
  else
    let '(matrix2, st1') := preparePhase2 n p st1 in
    r2 <- runSimplexIterations matrix2 hdrs 2 st1' ;;
    let '(phase2Result, st2) := r2 in
    if negb (isOptimal phase2Result) then Ok (earlyReturn phase2Result st2)
    else extractResults isMin hdrs matrix2 RHS_COL st2.

(** The objective row of the BIG_M branch: [M_VAL] in every artificial
    column, then the artificial rows are subtracted [M_VAL] times. *)
Definition prepareBigM (n : Normalized) : Heap :=
  let '(h1, artIndices) := markArtificials (n_matrix n) (n_headers n) M_VAL (n_heap n) in
  bigMEliminate (n_matrix n) (n_numRows n) (n_colCount n) artIndices h1.

(** The BIG_M branch. *)
Definition solveBigM (isMin : bool) (n : Normalized) : Result SolveResult :=
  let hdrs := n_headers n in
  let RHS_COL := n_colCount n - 1 in
  let matrix := n_matrix n in
  r <- runSimplexIterations matrix hdrs 0
         {| st_heap := prepareBigM n; st_basis := n_basis n; st_steps := [] |} ;;
  let '(res, st) := r in
  if negb (isOptimal res) then Ok (earlyReturn res st)
  else
    inBasis <- artInBasis hdrs matrix (st_heap st) RHS_COL (indexed (st_basis st)) ;;
    if (inBasis : bool) then Ok (earlyReturn INFEASIBLE st)
    else extractResults isMin hdrs matrix RHS_COL st.

(** The STANDARD SIMPLEX branch. *)
Definition solveStandard (isMin : bool) (n : Normalized) : Result SolveResult :=
  r <- runSimplexIterations (n_matrix n) (n_headers n) 0
         {| st_heap := n_heap n; st_basis := n_basis n; st_steps := [] |} ;;
  let '(res, st) := r in
  if negb (isOptimal res) then Ok (earlyReturn res st)
  else extractResults isMin (n_headers n) (n_matrix n) (n_colCount n - 1) st.

Definition isTwoPhase (m : SolverMethod) : bool :=
  match m with TWO_PHASE => true | _ => false end.
Definition isBigM (m : SolverMethod) : bool :=
  match m with BIG_M => true | _ => false end.

(** The body of the [try] block. *)
Definition solveBody (method : SolverMethod) (type : OptimizationType)
           (objCoeffs : list number) (constraints : list Constraint)
  : Result SolveResult :=
  let isMin := match type with MIN => true | MAX => false end in
  let n := normalize isMin objCoeffs constraints in
  let hasArtificials := 0 <? List.length (artificialVars constraints) in
  if isTwoPhase method && hasArtificials then solveTwoPhase isMin n
  else if isBigM method && hasArtificials then solveBigM isMin n
  else solveStandard isMin n.

(** The result of the [catch] block. *)
Definition errorResult : SolveResult :=
  {| steps := []; finalValues := []; zValue := 0%float; status := ERROR;
     errorMessage := Some "Error interno de cálculo"; store := [] |}.

(** [try { ... } catch (e) { console.error(e); return { status: 'ERROR', ... } }]:
    whatever the body raises is replaced by the result of the handler. *)
Definition tryCatch (body : Result SolveResult) : SolveResult :=
  match body with
  | Ok r => r
  | Throw _ => errorResult
  end.

Definition solveLinearProgram (method : SolverMethod) (type : OptimizationType)
           (objCoeffs : list number) (constraints : list Constraint) : SolveResult :=
  tryCatch (solveBody method type objCoeffs constraints).

(** ** The call from untyped code

    The parameter types are erased at run time: a JavaScript caller can pass
    [undefined] (or [null]) for either array, or an array of constraints
    that holds such an element.  Then [objCoeffs.length] (line 28) raises
    a TypeError, or [constraints.forEach] (line 43), or [c.relation] in its
    callback (line 44), in this order and all inside the [try] block that
    opens at line 24; [None] stands for [undefined]. *)
Fixpoint allDefined {A : Type} (l : list (option A)) : option (list A) :=
  match l with
  | [] => Some []
  | None :: _ => None
  | Some x :: t =>
      match allDefined t with
      | Some t' => Some (x :: t')
      | None => None
      end
  end.

Definition solveBodyJs (method : SolverMethod) (type : OptimizationType)
           (objCoeffs : option (list number))
           (constraints : option (list (option Constraint))) : Result SolveResult :=
  match objCoeffs with
  | None => Throw TypeError
  | Some oc =>
      match constraints with
      | None => Throw TypeError
      | Some cs =>
          match allDefined cs with
          | None => Throw TypeError
          | Some l => solveBody method type oc l
          end
      end
  end.

Definition solveLinearProgramJs (method : SolverMethod) (type : OptimizationType)
           (objCoeffs : option (list number))
           (constraints : option (list (option Constraint))) : SolveResult :=
  tryCatch (solveBodyJs method type objCoeffs constraints).

(** ** The copy helper (cloneMatrix, which nothing calls) *)

(** [matrix.map(row => [...row])]: every row is copied into a new row
    object, and the result is the array of the new references. *)
Definition cloneMatrix (h : Heap) (matrix : Matrix) : Heap * Matrix :=
  fold_left (fun acc a =>
               let '(h1, copy) := alloc (fst acc) (rowAt (fst acc) a) in
               (h1, snd acc ++ [copy]))
            matrix (h, []).

(** ** The summary of a result (components/SolutionView.tsx) *)

(** [key.startsWith('x')]. *)
Definition startsWithX (s : string) : bool := String.prefix "x" s.

(** [Object.entries(result.finalValues).map(([key, val]) => { if
    (!key.startsWith('x')) return null; return <card/> })]: the card of an
    entry, or [null]. *)
Definition summaryCards (fv : list (string * number)) : list (option (string * number)) :=
  map (fun kv => if negb (startsWithX (fst kv)) then None else Some kv) fv.

(** * Definitions used to state the properties

    Nothing below belongs to the program: these are the predicates and
    the specification-level functions the statements are written with. *)

(** ** The canonical form *)

(** [x] equals [target] within the floating tolerance [1e-9]. *)
Definition within (x target : number) : bool :=
  PrimFloat.leb (Math_abs (x - target)%float) tol.

(** Column [b] is the unit column of row [r]: 1 at [r], 0 at every other
    row of the matrix, the objective row included. *)
Definition canonicalColumn (h : Heap) (m : Matrix) (r b : nat) : bool :=
  forallb (fun r' => within (cell h m r' b) (if r' =? r then 1%float else 0%float))
          (seq 0 (List.length m)).

(** The canonical form of the tableau with respect to the basis: entry [k]
    of the basis belongs to constraint row [k + 1]. *)
Definition canonicalForm (h : Heap) (m : Matrix) (basis : list nat) : bool :=
  forallb (fun kb => canonicalColumn h m (fst kb + 1) (snd kb)) (indexed basis).

(** ** The exact canonical form *)

(** Column [b] is exactly the unit column of row [r]: [=== 1] at [r] and
    [=== 0] at every other row of the matrix. *)
Definition exactColumn (h : Heap) (m : Matrix) (r b : nat) : bool :=
  forallb (fun r' => strictEq (cell h m r' b) (if r' =? r then 1%float else 0%float))
          (seq 0 (List.length m)).

Definition exactForm (h : Heap) (m : Matrix) (basis : list nat) : bool :=
  forallb (fun kb => exactColumn h m (fst kb + 1) (snd kb)) (indexed basis).

(** The pivot on [(leavingRow, enteringCol)] finds finite entries in the
    entering column, and the rows its elimination skips (entries of
    magnitude at most [1e-9]) hold exactly 0 there. *)
Definition cleanPivot (h : Heap) (m : Matrix) (leavingRow enteringCol : nat) : bool :=
  forallb (fun r =>
             is_finite (cell h m r enteringCol)
             && ((r =? leavingRow)
                 || gt (Math_abs (cell h m r enteringCol)) tol
                 || strictEq (cell h m r enteringCol) 0%float))
          (seq 0 (List.length m)).

(** Every pivot of the run of [fuel] passes from [st] is clean. *)
Fixpoint cleanRun (matrix : Matrix) (hdrs : list string) (phaseNo colCount : nat)
         (fuel iter : nat) (st : EngineState) : bool :=
  match fuel with
  | O => true
  | S fuel' =>
      match fst (findEntering matrix colCount (st_heap st)) with
      | None => true
      | Some enteringCol =>
          match fst (findLeaving matrix colCount (List.length matrix) (st_heap st)
                                 enteringCol) with
          | None => true
          | Some leavingRow =>
              cleanPivot (st_heap st) matrix leavingRow enteringCol
              && cleanRun matrix hdrs phaseNo colCount fuel' (S iter)
                   (snd (iteration matrix hdrs phaseNo colCount (List.length matrix)
                                   iter st))
          end
      end
  end.

(** ** Trace steps *)

(** An iteration step records its pivot; the two terminal steps do not. *)
Definition isIterationStep (s : TableauStep) : bool :=
  match pivotRow s with
  | Some _ => true
  | None => false
  end.

Definition describesOptimal (s : TableauStep) : bool :=
  String.prefix "Solución Óptima encontrada" (description s).

Definition describesUnbounded (s : TableauStep) : bool :=
  String.prefix "Solución no acotada detectada" (description s).

Definition isTerminalStep (s : TableauStep) : bool :=
  describesOptimal s || describesUnbounded s.

(** The label of the [n]-th pass through the loop. *)
Definition iterationLabel (n : nat) : string :=
  "Iteración " +++ showNat n +++ ":".

(** [steps[steps.length - 1]]. *)
Definition finalStep (l : list TableauStep) : option TableauStep :=
  nth_error l (List.length l - 1).

(** What a run appends to the trace: iteration steps, numbered from
    [iter + 1], followed by a terminal step unless the fuel ran out. *)
Inductive RunShape (iter : nat) : nat -> Status -> list TableauStep -> Prop :=
| shape_optimal fuel t :
    describesOptimal t = true -> isIterationStep t = false ->
    RunShape iter (S fuel) OPTIMAL [t]
| shape_unbounded fuel t :
    describesUnbounded t = true -> isIterationStep t = false ->
    RunShape iter (S fuel) UNBOUNDED [t]
| shape_capped :
    RunShape iter 0 UNBOUNDED []
| shape_pivot fuel s t rest :
    String.prefix (iterationLabel (iter + 1)) (description t) = true ->
    isIterationStep t = true -> isTerminalStep t = false ->
    RunShape (S iter) fuel s rest ->
    RunShape iter (S fuel) s (t :: rest).

(** The last step of a run matches its result: the optimal step for
    OPTIMAL, and for UNBOUNDED either the unbounded step or, when the cap
    was hit, the iteration step of the last pass. *)
Definition RunEnd (lastIteration : nat) (s : Status) (t : TableauStep) : Prop :=
  (s = OPTIMAL /\ describesOptimal t = true)
  \/ (s = UNBOUNDED /\ describesUnbounded t = true)
  \/ (s = UNBOUNDED /\ isIterationStep t = true /\ isTerminalStep t = false
      /\ String.prefix (iterationLabel lastIteration) (description t) = true).

(** ** The selection scans *)

Section ScanDefinitions.

Variable qualifies : nat -> bool.
Variable value : nat -> number.
Variable bound0 : number.

Definition scanStep (i : nat) (acc : option nat * number) : option nat * number :=
  if qualifies i then
    if lt (value i) (snd acc) then (Some i, value i) else acc
  else acc.

(** What holds after the candidates [from .. from + count - 1] were seen. *)
Definition ScanInv (from count : nat) (acc : option nat * number) : Prop :=
  (forall i, from <= i < from + count -> qualifies i = true ->
             lt (value i) (snd acc) = false)
  /\ match fst acc with
     | None => snd acc = bound0
     | Some best =>
         from <= best < from + count
         /\ qualifies best = true
         /\ snd acc = value best
         /\ lt (value best) bound0 = true
         /\ (forall i, from <= i < best -> qualifies i = true ->
                       strictEq (value i) (value best) = false)
     end.

End ScanDefinitions.

Section SelectionDefinitions.

Variable matrix : Matrix.
Variable colCount : nat.

(** The ratio [RHS / coefficient] of row [r] for the entering column. *)
Definition ratio (h : Heap) (enteringCol r : nat) : number :=
  (rhsCell h matrix colCount r / cell h matrix r enteringCol)%float.

(** Row [r] has a coefficient above the tolerance in the entering column. *)
Definition positivePivot (h : Heap) (enteringCol r : nat) : bool :=
  gt (cell h matrix r enteringCol) tol.

End SelectionDefinitions.

(** ** One pass of the loop *)

Section IterationCases.

Variable matrix : Matrix.
Variable hdrs : list string.
Variable phaseNo : nat.
Variable colCount rowCount : nat.

(** The three ways through the loop body. *)
Inductive IterationCase (iter : nat) (st : EngineState) : Flow * EngineState -> Prop :=
| case_optimal :
    fst (findEntering matrix colCount (st_heap st)) = None ->
    IterationCase iter st
      (Return OPTIMAL,
       {| st_heap := st_heap st; st_basis := st_basis st;
          st_steps := st_steps st ++ [optimalStep matrix hdrs phaseNo colCount rowCount st] |})
| case_unbounded enteringCol :
    fst (findEntering matrix colCount (st_heap st)) = Some enteringCol ->
    fst (findLeaving matrix colCount rowCount (st_heap st) enteringCol) = None ->
    IterationCase iter st
      (Return UNBOUNDED,
       {| st_heap := st_heap st; st_basis := st_basis st;
          st_steps := st_steps st ++ [unboundedStep matrix hdrs phaseNo colCount rowCount st enteringCol] |})
| case_pivot enteringCol leavingRow :
    fst (findEntering matrix colCount (st_heap st)) = Some enteringCol ->
    fst (findLeaving matrix colCount rowCount (st_heap st) enteringCol) = Some leavingRow ->
    IterationCase iter st
      (Continue,
       {| st_heap := pivot matrix colCount rowCount leavingRow enteringCol (st_heap st);
          st_basis := jsSet 0 (leavingRow - 1) enteringCol (st_basis st);
          st_steps := st_steps st ++ [iterationStep matrix hdrs phaseNo colCount rowCount st iter enteringCol leavingRow] |}).

End IterationCases.

(** ** The store during a pivot *)

Section PivotDefinitions.

Variable matrix : Matrix.
Variable colCount : nat.

(** Every row of the matrix is allocated in the store. *)
Definition Allocated (h : Heap) : Prop :=
  forall r, r < List.length matrix -> rowAddr matrix r < List.length h.

(** The value row [r] ends with once it was visited by the elimination
    loop, in terms of the store [h] the loop started with. *)
Definition eliminated (h : Heap) (leavingRow enteringCol r c : nat) : number :=
  let factor := cell h matrix r enteringCol in
  if gt (Math_abs factor) tol then
    if c <? colCount
    then (cell h matrix r c - factor * cell h matrix leavingRow c)%float
    else cell h matrix r c
  else cell h matrix r c.

End PivotDefinitions.

(** The store [h'] has the rows of [h], and row [a] is the same in both. *)
Definition Keeps (a : nat) (h h' : Heap) : Prop :=
  List.length h' = List.length h /\ rowAt h' a = rowAt h a.

(** The length of row [a] of the store. *)
Definition rowLength (h : Heap) (a : nat) : nat := List.length (rowAt h a).

(** ** Calls of the engine *)

(** What the orchestration relies on about a call of the engine. *)
Record RunFacts (matrix : Matrix) (st : EngineState) (s : Status) (st' : EngineState)
  : Prop := {
  run_status : s = OPTIMAL \/ s = UNBOUNDED;
  run_steps : exists pre t, st_steps st' = st_steps st ++ pre ++ [t]
                            /\ RunEnd maxIter s t;
  run_basis_length :
    List.length matrix <= List.length (st_basis st) + 1 ->
    List.length (st_basis st') = List.length (st_basis st);
  run_basis_entries :
    forall P : nat -> Prop,
      List.length matrix <= List.length (st_basis st) + 1 ->
      (forall c, 1 <= c < List.length (rowAt (st_heap st) (rowAddr matrix 0)) - 1 -> P c) ->
      Forall P (st_basis st) -> Forall P (st_basis st')
}.

(** ** The normalized tableau *)

(** How many slack, surplus and artificial columns the constraints need. *)
Fixpoint countSlack (l : list Constraint) : nat :=
  match l with
  | [] => 0
  | c :: t => match relation c with LE => 1 | _ => 0 end + countSlack t
  end.

Fixpoint countSurplus (l : list Constraint) : nat :=
  match l with
  | [] => 0
  | c :: t => match relation c with GE => 1 | _ => 0 end + countSurplus t
  end.

Fixpoint countArtificial (l : list Constraint) : nat :=
  match l with
  | [] => 0
  | c :: t => match relation c with LE => 0 | _ => 1 end + countArtificial t
  end.

(** Column [i] is one of the artificial columns: they come after the
    objective column, the decision, slack and surplus columns. *)
Definition artificialColumn (numDecisionVars : nat) (constraints : list Constraint)
           (i : nat) : Prop :=
  1 + numDecisionVars + countSlack constraints + countSurplus constraints <= i
  /\ i < 1 + numDecisionVars + countSlack constraints + countSurplus constraints
         + countArtificial constraints.

(** What the orchestration relies on about the normalized tableau. *)
Record NormalizedFacts (objCoeffs : list number) (constraints : list Constraint)
       (n : Normalized) : Prop := {
  nf_matrix : n_matrix n = initMatrix (List.length constraints + 1);
  nf_numRows : n_numRows n = List.length constraints + 1;
  nf_headers : n_headers n = buildHeaders (List.length objCoeffs) constraints;
  nf_colCount : n_colCount n = List.length (n_headers n);
  nf_columns : List.length objCoeffs + 2 <= n_colCount n;
  nf_basis_length : List.length (n_basis n) = List.length constraints;
  nf_basis_entries : Forall (fun b => b < n_colCount n - 1) (n_basis n);
  nf_row0 : rowLength (n_heap n) 0 = n_colCount n
}.

(** ** The orchestration *)

(** [type === 'MIN']. *)
Definition isMinOf (type : OptimizationType) : bool :=
  match type with MIN => true | MAX => false end.

(** Some basis entry names a column whose header starts with ['a'] while
    the right-hand side of its row is above [1e-5]. *)
Definition artificialAtPositiveLevel (hdrs : list string) (matrix : Matrix)
           (RHS_COL : nat) (st : EngineState) : Prop :=
  exists i colIdx,
    nth_error (st_basis st) i = Some colIdx
    /\ startsWithA (headerAt hdrs colIdx) = true
    /\ gt (cell (st_heap st) matrix (i + 1) RHS_COL) feasTol = true.

(** Following the words of the specification: the objective row minus
    [factor] times a basic row, entry by entry. *)
Definition subtractMultiple (factor : number) (objRow basicRow : Row) : Row :=
  map (fun c => (jsGet objRow c - factor * jsGet basicRow c)%float)
      (seq 0 (List.length objRow)).

(** The objective row re-zeroed against the basis: for every basis entry
    [(k, b)] in turn (row [k + 1] is basic in column [b]), when the
    objective coefficient of column [b] is above [1e-9] in magnitude, that
    multiple of the basic row is subtracted. *)
Fixpoint rezeroedRow (objRow : Row) (basicRow : nat -> Row) (ib : list (nat * nat))
  : Row :=
  match ib with
  | [] => objRow
  | (k, b) :: rest =>
      let basicObjCoefficient := jsGet objRow b in
      rezeroedRow
        (if gt (Math_abs basicObjCoefficient) tol
         then subtractMultiple basicObjCoefficient objRow (basicRow (k + 1))
         else objRow)
        basicRow rest
  end.

(** What holds of a result that the body of the [try] block returns: its
    trace ends with the final step of the last run of the engine, whose
    status [s] decides the status of the result. *)
Definition RunOutcome (result : SolveResult) : Prop :=
  exists (s : Status) (prior pre : list TableauStep) (t : TableauStep),
    steps result = prior ++ pre ++ [t]
    /\ RunEnd maxIter s t
    /\ (status result = s \/ (s = OPTIMAL /\ status result = INFEASIBLE))
    /\ (status result <> OPTIMAL -> finalValues result = [] /\ zValue result = 0%float)
    /\ errorMessage result = None.

(** The same for the body, which may also raise. *)
Definition BodyOutcome (x : Result SolveResult) : Prop :=
  match x with
  | Ok r => RunOutcome r
  | Throw _ => True
  end.

(** How a result of the orchestration comes about: from the [catch] block,
    or from the body. *)
Inductive SolveOutcome (result : SolveResult) : Prop :=
| outcome_error : result = errorResult -> SolveOutcome result
| outcome_run : RunOutcome result -> SolveOutcome result.

(** ** Calls from untyped code *)

(** The arguments of a call when they have the declared types. *)
Definition typedArguments (objCoeffs : option (list number))
           (constraints : option (list (option Constraint)))
  : option (list number * list Constraint) :=
  match objCoeffs, constraints with
  | Some oc, Some cs =>
      match allDefined cs with
      | Some l => Some (oc, l)
      | None => None
      end
  | _, _ => None
  end.

(** ** The initial basis *)

(** The initial basis, constraint by constraint: the next slack column for
    [<=], the next artificial column for [>=] and [=]. *)
Fixpoint basisColumns (slackIdx artificialIdx : nat) (l : list Constraint) : list nat :=
  match l with
  | [] => []
  | c :: t =>
      match relation c with
      | LE => slackIdx :: basisColumns (slackIdx + 1) artificialIdx t
      | _ => artificialIdx :: basisColumns slackIdx (artificialIdx + 1) t
      end
  end.

(** The basic variable each constraint starts with: its slack for [<=],
    its artificial variable for [>=] and [=]. *)
Definition initialBasicVars (constraints : list Constraint) : list string :=
  map (fun ic => match relation (snd ic) with
                 | LE => "s" +++ showNat (fst ic + 1)
                 | _ => "a" +++ showNat (fst ic + 1)
                 end) (indexed constraints).

(** The basis has one entry per constraint row, each the index of a
    variable column. *)
Definition BasisOk (colCount rowCount : nat) (basis : list nat) : Prop :=
  List.length basis + 1 = rowCount /\ Forall (fun b => 1 <= b < colCount - 1) basis.

(** ** The rows of the normalized tableau *)

(** The sign the objective coefficients enter row 0 with. *)
Definition objectiveEntry (isMin : bool) (coef : number) : number :=
  if isMin then coef else (- coef)%float.

(** The entry the normalizer leaves in column [col] of the row of
    constraint [c], given the columns of its slack, surplus and artificial
    variable: later writes win over earlier ones, and cells that are not
    written stay 0. *)
Definition constraintCell (colCount slackCol surplusCol artificialCol : nat)
           (c : Constraint) (col : nat) : number :=
  if col =? (match relation c with LE => slackCol | _ => artificialCol end) then 1%float
  else if (match relation c with GE => col =? surplusCol | _ => false end) then (-1)%float
  else if col =? colCount - 1 then rhs c
  else if (1 <=? col) && (col <? 1 + List.length (coefficients c))
       then nth (col - 1) (coefficients c) nan
  else if col <? colCount then 0%float else nan.

(** ** What a step shows *)

(** What a step shows of the basis: the labels of the rows and the list
    [basicVars] agree, and name variables of the problem. *)
Definition StepWellFormed (hdrs : list string) (m : nat) (t : TableauStep) : Prop :=
  headers t = hdrs
  /\ map basicVar (tableau t) = (if isPhase1 t then "W" else "Z") :: basicVars t
  /\ List.length (basicVars t) = m
  /\ Forall (fun v => In v (slice1m1 hdrs)) (basicVars t).

(** A step either records a pivot, on a constraint row and a variable
    column, with the names of the entering and the leaving variable, or
    records none of the four. *)
Definition PivotRecorded (m colCount : nat) (t : TableauStep) : Prop :=
  match pivotRow t, pivotCol t, enteringVar t, leavingVar t with
  | Some r, Some c, Some entering, Some leaving =>
      1 <= r <= m /\ 1 <= c < colCount - 1
      /\ entering = headerAt (headers t) c
      /\ nth_error (basicVars t) (r - 1) = Some leaving
  | None, None, None, None => True
  | _, _, _, _ => False
  end.

(** The basis the step leaves behind: the entering variable takes the place
    of the leaving one. *)
Definition basicVarsAfter (t : TableauStep) : list string :=
  match pivotRow t, enteringVar t with
  | Some r, Some entering => jsSet "undefined" (r - 1) entering (basicVars t)
  | _, _ => basicVars t
  end.

(** Each step starts from the basis the step before left behind. *)
Fixpoint basisChain (current : list string) (l : list TableauStep) : Prop :=
  match l with
  | [] => True
  | t :: rest => basicVars t = current /\ basisChain (basicVarsAfter t) rest
  end.

(** The basis after the last step of a chain. *)
Definition basisAfter (current : list string) (l : list TableauStep) : list string :=
  fold_left (fun _ t => basicVarsAfter t) l current.

(** The right-hand side a step shows in row [r]. *)
Definition shownRhs (t : TableauStep) (r : nat) : option number :=
  option_map rowRhs (nth_error (tableau t) r).

(** ** Reading a result *)

(** How a result is read off the state [st] in which the last run of the
    engine, on [matrix], ended with status [s]: the values are extracted
    after OPTIMAL, and every other way out is an early return. *)
Definition Final (isMin : bool) (hdrs : list string) (colCount : nat)
           (matrix : Matrix) (s : Status) (st : EngineState) (result : SolveResult)
  : Prop :=
  (s = OPTIMAL /\ extractResults isMin hdrs matrix (colCount - 1) st = Ok result)
  \/ (exists s', result = earlyReturn s' st /\ s' <> OPTIMAL
                 /\ (s' = s \/ (s = OPTIMAL /\ s' = INFEASIBLE))).

(** [finalValues[k]]. *)
Fixpoint objGet (k : string) (o : list (string * number)) : option number :=
  match o with
  | [] => None
  | (k', v) :: t => if String.eqb k k' then Some v else objGet k t
  end.

(** ** Constraints up to their identifiers *)

(** Two constraints with the same coefficients, relation and right-hand
    side. *)
Definition sameData (c c' : Constraint) : Prop :=
  coefficients c = coefficients c' /\ relation c = relation c' /\ rhs c = rhs c'.

(** ** The rows of the store *)

(** Every row of the store has [colCount] cells. *)
Definition Rectangular (colCount : nat) (h : Heap) : Prop :=
  Forall (fun row => List.length row = colCount) h.

(** ** Binary64 values *)

(** The order of two finite values of one sign, as [SFcompare] computes
    it: exponents first, then mantissas. *)
Definition magnitudeCmp (e1 : Z) (m1 : positive) (e2 : Z) (m2 : positive)
  : comparison :=
  match Z.compare e1 e2 with
  | Lt => Lt
  | Gt => Gt
  | Eq => Pos.compare_cont Eq m1 m2
  end.

(** The number 1 as the specification sees it. *)
Definition SFoneV : spec_float := S754_finite false 4503599627370496 (-52).

(** ** Sample problems *)

(** Shorthand for writing down a constraint. *)
Definition mkConstraint (cs : list number) (r : Relation) (b : number) : Constraint :=
  {| id := ""; coefficients := cs; relation := r; rhs := b |}.

(** [maximize 3 x1 + 5 x2] subject to [x1 <= 4], [2 x2 <= 12] and
    [3 x1 + 2 x2 <= 18]. *)
Definition sampleConstraints : list Constraint :=
  [mkConstraint [1%float; 0%float] LE 4%float;
   mkConstraint [0%float; 2%float] LE 12%float;
   mkConstraint [3%float; 2%float] LE 18%float].

(** Its tableau, as the normalizer builds it. *)
Definition sampleInitial : Normalized :=
  normalize false [3%float; 5%float] sampleConstraints.

(** The state the engine starts from on it. *)
Definition sampleState : EngineState :=
  {| st_heap := n_heap sampleInitial;
     st_basis := n_basis sampleInitial;
     st_steps := [] |}.

(** [maximize 2 x1 + x2] subject to [x1 <= 4] and
    [1e-9 x1 + 2e-9 x2 <= 1]: the second row has coefficients at the
    tolerance. *)
Definition driftConstraints : list Constraint :=
  [mkConstraint [1%float; 0%float] LE 4%float;
   mkConstraint [1e-9%float; 2e-9%float] LE 1%float].

(** [x1 >= 5] and [x1 <= 2] have no common point. *)
Definition infeasibleConstraints : list Constraint :=
  [mkConstraint [1%float] GE 5%float; mkConstraint [1%float] LE 2%float].

(** A degenerate problem on which the engine cycles:
    [maximize 10 x1 - 57 x2 - 9 x3 - 24 x4] subject to
    [0.5 x1 - 5.5 x2 - 2.5 x3 + 9 x4 <= 0],
    [0.5 x1 - 1.5 x2 - 0.5 x3 + x4 <= 0] and [x1 <= 1]. *)
Definition cyclingConstraints : list Constraint :=
  [mkConstraint [0.5%float; (-5.5)%float; (-2.5)%float; 9%float] LE 0%float;
   mkConstraint [0.5%float; (-1.5)%float; (-0.5)%float; 1%float] LE 0%float;
   mkConstraint [1%float; 0%float; 0%float; 0%float] LE 1%float].

(** [maximize x1] subject to [x1 <= 5], [2 x1 <= 8], [x1 <= 4] and
    [0 x1 <= 1]: rows 2 and 3 tie at the smallest ratio, 4, and row 4 does
    not qualify. *)
Definition tieConstraints : list Constraint :=
  [mkConstraint [1%float] LE 5%float;
   mkConstraint [2%float] LE 8%float;
   mkConstraint [1%float] LE 4%float;
   mkConstraint [0%float] LE 1%float].

Definition tieInitial : Normalized := normalize false [1%float] tieConstraints.

Definition tieState : EngineState :=
  {| st_heap := n_heap tieInitial; st_basis := n_basis tieInitial; st_steps := [] |}.

(** * Facts about binary64 arithmetic

    Everything the proofs below need about JavaScript numbers, derived from
    the specification of the primitive operations ([SpecFloat]). *)

Module FloatFacts.

Lemma magnitudeCmp_lt e1 m1 e2 m2 :
  magnitudeCmp e1 m1 e2 m2 = Lt <->
  (e1 < e2 \/ (e1 = e2 /\ (m1 < m2)%positive))%Z.
Proof.
  unfold magnitudeCmp.
  change (Pos.compare_cont Eq m1 m2) with (Pos.compare m1 m2).
  destruct (Z.compare_spec e1 e2).
  - rewrite Pos.compare_lt_iff. intuition lia.
  - intuition lia.
  - split; [discriminate | lia].
Qed.

Lemma magnitudeCmp_gt e1 m1 e2 m2 :
  magnitudeCmp e1 m1 e2 m2 = Gt <->
  (e2 < e1 \/ (e1 = e2 /\ (m2 < m1)%positive))%Z.
Proof.
  unfold magnitudeCmp.
  change (Pos.compare_cont Eq m1 m2) with (Pos.compare m1 m2).
  destruct (Z.compare_spec e1 e2).
  - rewrite Pos.compare_gt_iff. intuition lia.
  - split; [discriminate | lia].
  - intuition lia.
Qed.

Lemma magnitudeCmp_eq e1 m1 e2 m2 :
  magnitudeCmp e1 m1 e2 m2 = Eq <-> (e1 = e2 /\ m1 = m2).
Proof.
  unfold magnitudeCmp.
  change (Pos.compare_cont Eq m1 m2) with (Pos.compare m1 m2).
  destruct (Z.compare_spec e1 e2).
  - rewrite Pos.compare_eq_iff. intuition lia.
  - split; [discriminate | lia].
  - split; [discriminate | lia].
Qed.

Lemma SFcompare_finite s1 m1 e1 s2 m2 e2 :
  SFcompare (S754_finite s1 m1 e1) (S754_finite s2 m2 e2) =
  Some (match s1, s2 with
        | true, false => Lt
        | false, true => Gt
        | false, false => magnitudeCmp e1 m1 e2 m2
        | true, true => CompOpp (magnitudeCmp e1 m1 e2 m2)
        end).
Proof.
  unfold magnitudeCmp; simpl. destruct s1, s2; try reflexivity.
  destruct (Z.compare e1 e2); reflexivity.
Qed.

Ltac by_signs :=
  repeat match goal with
         | s : bool |- _ => destruct s
         end;
  simpl in *; try discriminate; try reflexivity; try congruence.

Lemma SFltb_finite s1 m1 e1 s2 m2 e2 :
  SFltb (S754_finite s1 m1 e1) (S754_finite s2 m2 e2) = true <->
  match s1, s2 with
  | true, false => True
  | false, true => False
  | false, false => (e1 < e2 \/ (e1 = e2 /\ (m1 < m2)%positive))%Z
  | true, true => (e2 < e1 \/ (e1 = e2 /\ (m2 < m1)%positive))%Z
  end.
Proof.
  unfold SFltb. rewrite SFcompare_finite.
  destruct s1, s2.
  - rewrite <- magnitudeCmp_gt.
    destruct (magnitudeCmp e1 m1 e2 m2); simpl; split; congruence.
  - tauto.
  - split; [discriminate | tauto].
  - rewrite <- magnitudeCmp_lt.
    destruct (magnitudeCmp e1 m1 e2 m2); simpl; split; congruence.
Qed.

Lemma SFeqb_finite s1 m1 e1 s2 m2 e2 :
  SFeqb (S754_finite s1 m1 e1) (S754_finite s2 m2 e2) = true <->
  (s1 = s2 /\ e1 = e2 /\ m1 = m2).
Proof.
  unfold SFeqb. rewrite SFcompare_finite.
  pose proof (magnitudeCmp_eq e1 m1 e2 m2).
  destruct s1, s2;
    destruct (magnitudeCmp e1 m1 e2 m2); simpl; split; intros;
      try discriminate; intuition congruence.
Qed.

Lemma SFltb_trans x y z :
  SFltb x y = true -> SFltb y z = true -> SFltb x z = true.
Proof.
  destruct x as [sx|sx| |sx mx ex], y as [sy|sy| |sy my ey],
           z as [sz|sz| |sz mz ez];
    try (unfold SFltb; simpl; by_signs; fail).
  rewrite !SFltb_finite. destruct sx, sy, sz; try tauto; lia.
Qed.

Lemma SFltb_irrefl x : SFltb x x = false.
Proof.
  destruct x as [sx|sx| |sx mx ex]; try (unfold SFltb; simpl; by_signs; fail).
  destruct (SFltb (S754_finite sx mx ex) (S754_finite sx mx ex)) eqn:E; [|reflexivity].
  apply SFltb_finite in E. destruct sx; lia.
Qed.

Lemma SFeqb_ltb x y z :
  SFeqb x y = true -> SFltb y z = true -> SFltb x z = true.
Proof.
  destruct x as [sx|sx| |sx mx ex], y as [sy|sy| |sy my ey],
           z as [sz|sz| |sz mz ez];
    try (unfold SFltb, SFeqb; simpl; by_signs; fail).
  rewrite SFeqb_finite. intros (-> & -> & ->). trivial.
Qed.

Lemma SFltb_false_leb x y :
  x <> S754_nan -> y <> S754_nan -> SFltb x y = false -> SFleb y x = true.
Proof.
  destruct x as [sx|sx| |sx mx ex], y as [sy|sy| |sy my ey];
    try (unfold SFltb, SFleb; simpl; intros; by_signs; fail).
  intros _ _. unfold SFltb, SFleb. rewrite !SFcompare_finite.
  pose proof (magnitudeCmp_lt ex mx ey my) as Hlt.
  pose proof (magnitudeCmp_gt ex mx ey my) as Hgt.
  pose proof (magnitudeCmp_eq ex mx ey my) as Heq.
  pose proof (magnitudeCmp_lt ey my ex mx) as Hlt'.
  pose proof (magnitudeCmp_gt ey my ex mx) as Hgt'.
  pose proof (magnitudeCmp_eq ey my ex mx) as Heq'.
  destruct sx, sy; try reflexivity; try discriminate;
    destruct (magnitudeCmp ex mx ey my), (magnitudeCmp ey my ex mx); simpl;
      try reflexivity; try discriminate; intros _; exfalso;
      repeat match goal with H : _ <-> _ |- _ => destruct H end;
      intuition (try discriminate; try lia).
Qed.

Lemma div_eucl_shiftl (m : positive) :
  Z.div_eucl (Z.shiftl (Zpos m) 53) (Zpos m) = (9007199254740992, 0)%Z.
Proof.
  rewrite Z.shiftl_mul_pow2 by lia.
  pose proof (Z.div_mul (2 ^ 53) (Zpos m) ltac:(lia)) as Hq.
  pose proof (Z.mod_mul (2 ^ 53) (Zpos m) ltac:(lia)) as Hr.
  rewrite (Z.mul_comm (Zpos m)).
  unfold Z.div, Z.modulo in Hq, Hr.
  destruct (Z.div_eucl (2 ^ 53 * Zpos m) (Zpos m)) as [q r].
  simpl in Hq, Hr. subst. reflexivity.
Qed.

(** A finite non-zero value divided by itself is exactly 1: the quotient
    of the mantissas is a power of two and nothing is rounded. *)
Lemma SF64div_self s m e :
  SF64div (S754_finite s m e) (S754_finite s m e) = SFoneV.
Proof.
  unfold SF64div, SFdiv, SFdiv_core_binary.
  rewrite !Z.sub_diag.
  change (Z.min (fexp prec emax 0) 0) with (-53)%Z.
  change (0 - -53)%Z with 53%Z.
  cbv iota beta.
  change (match 53%Z with
          | Z0 => Zpos m
          | Zpos _ => Z.shiftl (Zpos m) 53
          | Zneg _ => 0%Z
          end) with (Z.shiftl (Zpos m) 53).
  rewrite div_eucl_shiftl.
  replace (new_location (Zpos m) 0) with loc_Exact
    by (unfold new_location, new_location_even, new_location_odd;
        destruct (Z.even (Zpos m)); reflexivity).
  destruct s; reflexivity.
Qed.

Lemma SF64sub_self s m e :
  SF64sub (S754_finite s m e) (S754_finite s m e) = S754_zero false.
Proof.
  unfold SF64sub, SFsub. rewrite Z.min_id. unfold shl_align.
  rewrite Z.sub_diag. cbv iota beta zeta. cbn [fst].
  rewrite ?Z.sub_diag. reflexivity.
Qed.

Lemma SF64sub_zero x : SF64sub x (S754_zero false) = x.
Proof. destruct x as [[|]|[|]| |s m e]; reflexivity. Qed.

Lemma canonical_fexp m e :
  canonical_mantissa prec emax m e = true ->
  fexp prec emax (Zpos (digits2_pos m) + e) = e.
Proof. unfold canonical_mantissa. intros H. apply Z.eqb_eq in H. exact H. Qed.

Lemma shr_fexp_canonical m e :
  canonical_mantissa prec emax m e = true ->
  shr_fexp prec emax (Zpos m) e loc_Exact
  = ({| shr_m := Zpos m; shr_r := false; shr_s := false |}, e).
Proof.
  intros H. unfold shr_fexp. simpl Zdigits2. rewrite (canonical_fexp _ _ H).
  rewrite Z.sub_diag. reflexivity.
Qed.

(** Multiplying the mantissa by that of 1 appends 52 zero bits, which the
    rounding step shifts out again without losing anything. *)
Lemma shr_fexp_times_one m e :
  canonical_mantissa prec emax m e = true ->
  shr_fexp prec emax (Zpos (m * 4503599627370496)) (e + -52) loc_Exact
  = ({| shr_m := Zpos m; shr_r := false; shr_s := false |}, e).
Proof.
  intros H. unfold shr_fexp.
  rewrite Pos.mul_comm.
  cbn [Pos.mul Zdigits2 digits2_pos].
  match goal with
  | |- context [fexp prec emax ?a] =>
      replace a with (Zpos (digits2_pos m) + e)%Z by lia
  end.
  rewrite (canonical_fexp _ _ H).
  replace (e - (e + -52))%Z with 52%Z by lia.
  cbn [shr shr_record_of_loc].
  f_equal. lia.
Qed.

Lemma SF64mul_one x :
  valid_binary x = true -> SF64mul x SFoneV = x.
Proof.
  destruct x as [s|s| |s m e]; try (destruct s; reflexivity).
  - reflexivity.
  - simpl. intros Hb. unfold bounded in Hb.
    apply andb_true_iff in Hb as [Hc Hle].
    unfold SF64mul, SFoneV, SFmul, binary_round_aux.
    rewrite (shr_fexp_times_one _ _ Hc).
    cbn [shr_m loc_of_shr_record round_nearest_even].
    rewrite (shr_fexp_canonical _ _ Hc).
    cbn [shr_m]. rewrite Hle. destruct s; reflexivity.
Qed.

(** ** The same facts on numbers *)

Lemma lt_trans x y z : lt x y = true -> lt y z = true -> lt x z = true.
Proof. unfold lt. rewrite !ltb_spec. apply SFltb_trans. Qed.

Lemma lt_irrefl x : lt x x = false.
Proof. unfold lt. rewrite ltb_spec. apply SFltb_irrefl. Qed.

Lemma strictEq_lt x y z :
  strictEq x y = true -> lt y z = true -> lt x z = true.
Proof. unfold lt, strictEq. rewrite eqb_spec, !ltb_spec. apply SFeqb_ltb. Qed.

(** Numbers that are neither NaN nor infinite are zeros or finite values. *)
Lemma is_finite_cases x :
  is_finite x = true ->
  (exists s, Prim2SF x = S754_zero s) \/
  (exists s m e, Prim2SF x = S754_finite s m e).
Proof.
  unfold is_finite, is_nan, is_infinity.
  rewrite !eqb_spec, abs_spec.
  change (Prim2SF infinity) with (S754_infinity false).
  destruct (Prim2SF x) as [s|[|]| |s m e]; simpl; try discriminate.
  - intros _. left. now exists s.
  - intros _. right. now exists s, m, e.
Qed.

Lemma mul_one x : (x * 1)%float = x.
Proof.
  apply Prim2SF_inj. rewrite mul_spec.
  change (Prim2SF 1) with SFoneV.
  apply SF64mul_one, Prim2SF_valid.
Qed.

Lemma sub_zero x : (x - 0)%float = x.
Proof.
  apply Prim2SF_inj. rewrite sub_spec.
  change (Prim2SF 0) with (S754_zero false). apply SF64sub_zero.
Qed.

Lemma sub_self x : is_finite x = true -> (x - x)%float = 0%float.
Proof.
  intros H. apply Prim2SF_inj. rewrite sub_spec.
  change (Prim2SF 0) with (S754_zero false).
  destruct (is_finite_cases x H) as [[s ->] | (s & m & e & ->)].
  - destruct s; reflexivity.
  - apply SF64sub_self.
Qed.

Lemma div_self x :
  is_finite x = true -> gt x tol = true -> (x / x)%float = 1%float.
Proof.
  intros H Hgt. apply Prim2SF_inj. rewrite div_spec.
  change (Prim2SF 1) with SFoneV.
  unfold gt in Hgt. rewrite ltb_spec in Hgt.
  destruct (is_finite_cases x H) as [[s E] | (s & m & e & E)];
    rewrite E in *.
  - destruct s; discriminate.
  - apply SF64div_self.
Qed.

(** A value that is not above the tolerance in magnitude, and is a
    number, is within the tolerance of zero. *)
Lemma small_within_zero x :
  is_finite x = true -> gt (Math_abs x) tol = false -> within x 0%float = true.
Proof.
  intros H Hgt. unfold within. rewrite sub_zero.
  unfold gt, Math_abs in *. rewrite ltb_spec in Hgt. rewrite leb_spec.
  apply SFltb_false_leb; [discriminate | | exact Hgt].
  rewrite abs_spec.
  destruct (is_finite_cases x H) as [[s ->] | (s & m & e & ->)]; discriminate.
Qed.

End FloatFacts.

(** * Strings *)

Lemma prefix_append (s t : string) : String.prefix s (s +++ t) = true.
Proof.
  induction s as [|a s IH]; simpl.
  - destruct t; reflexivity.
  - destruct (Ascii.ascii_dec a a) as [_|Hne]; [exact IH | congruence].
Qed.

Lemma prefix_append_cancel (s x y : string) :
  String.prefix (s +++ x) (s +++ y) = String.prefix x y.
Proof.
  induction s as [|a s IH]; simpl.
  - reflexivity.
  - destruct (Ascii.ascii_dec a a) as [_|Hne]; [exact IH | congruence].
Qed.

(** * The shape of a run of the pivot engine *)

Section EngineShape.

Variable matrix : Matrix.
Variable hdrs : list string.
Variable phaseNo : nat.
Variable colCount rowCount : nat.

Local Abbreviation iteration' := (iteration matrix hdrs phaseNo colCount rowCount).
Local Abbreviation whileLoop' := (whileLoop matrix hdrs phaseNo colCount rowCount).
Local Abbreviation optimalStep' := (optimalStep matrix hdrs phaseNo colCount rowCount).
Local Abbreviation unboundedStep' := (unboundedStep matrix hdrs phaseNo colCount rowCount).
Local Abbreviation iterationStep' := (iterationStep matrix hdrs phaseNo colCount rowCount).
Local Abbreviation findEntering' := (findEntering matrix colCount).
Local Abbreviation findLeaving' := (findLeaving matrix colCount rowCount).

Lemma iteration_cases iter st : IterationCase matrix hdrs phaseNo colCount rowCount iter st (iteration' iter st).
Proof.
  unfold iteration.
  destruct (fst (findEntering' (st_heap st))) as [ec|] eqn:He.
  - destruct (fst (findLeaving' (st_heap st) ec))
      as [lr|] eqn:Hl.
    + now apply case_pivot.
    + now apply case_unbounded.
  - now apply case_optimal.
Qed.

Lemma optimalStep_terminal st :
  describesOptimal (optimalStep' st) = true /\ isIterationStep (optimalStep' st) = false.
Proof. split; reflexivity. Qed.

Lemma unboundedStep_terminal st ec :
  describesUnbounded (unboundedStep' st ec) = true
  /\ isIterationStep (unboundedStep' st ec) = false.
Proof. split; reflexivity. Qed.

Lemma iterationStep_label st iter ec lr :
  String.prefix (iterationLabel (iter + 1)) (description (iterationStep' st iter ec lr)) = true
  /\ isIterationStep (iterationStep' st iter ec lr) = true
  /\ isTerminalStep (iterationStep' st iter ec lr) = false.
Proof.
  split; [|split]; try reflexivity.
  unfold iterationLabel, iterationStep; cbn [description].
  rewrite prefix_append_cancel, prefix_append_cancel.
  reflexivity.
Qed.

Lemma whileLoop_shape fuel : forall iter st,
  exists new,
    st_steps (snd (whileLoop' fuel iter st)) = st_steps st ++ new
    /\ RunShape iter fuel (fst (whileLoop' fuel iter st)) new.
Proof.
  induction fuel as [|fuel IH]; intros iter st.
  - exists []. simpl. rewrite app_nil_r. split; [reflexivity | constructor].
  - cbn [whileLoop].
    destruct (iteration_cases iter st) as [He | ec He Hl | ec lr He Hl].
    + eexists; split; [reflexivity|]. simpl.
      apply shape_optimal; apply optimalStep_terminal.
    + eexists; split; [reflexivity|]. simpl.
      apply shape_unbounded; apply (unboundedStep_terminal st ec).
    + match goal with |- context [whileLoop' fuel (S iter) ?st1] =>
        destruct (IH (S iter) st1) as (new & Hnew & Hshape) end.
      exists (iterationStep' st iter ec lr :: new). split.
      * rewrite Hnew. simpl. rewrite <- app_assoc. reflexivity.
      * apply shape_pivot; try apply iterationStep_label. exact Hshape.
Qed.

End EngineShape.

(** * The two selection scans

    Both the entering-column scan and the ratio test keep the smallest value
    seen so far among the candidates that qualify, and replace it only by a
    strictly smaller one. *)

Section Scan.

Variable qualifies : nat -> bool.
Variable value : nat -> number.
Variable bound0 : number.

Lemma forRange_S {S : Type} from count (body : nat -> S -> S) s :
  forRange from (Datatypes.S count) body s
  = body (from + count) (forRange from count body s).
Proof.
  unfold forRange. rewrite seq_S, fold_left_app. reflexivity.
Qed.

Lemma scan_invariant from count :
  ScanInv qualifies value bound0 from count (forRange from count (scanStep qualifies value) (None, bound0)).
Proof.
  induction count as [|count IH].
  - split; simpl; [intros; lia | reflexivity].
  - rewrite forRange_S.
    destruct IH as [Hmin Hbest].
    set (acc := forRange from count (scanStep qualifies value) (None, bound0)) in *.
    unfold scanStep.
    destruct (qualifies (from + count)) eqn:Hq;
      [destruct (lt (value (from + count)) (snd acc)) eqn:Hlt|].
    + (* a strictly smaller candidate replaces the best so far *)
      split; cbn [fst snd].
      * intros i Hi Hqi.
        destruct (Nat.eq_dec i (from + count)) as [->|Hne];
          [apply FloatFacts.lt_irrefl|].
        destruct (lt (value i) (value (from + count))) eqn:E; [|reflexivity].
        rewrite <- (Hmin i ltac:(lia) Hqi).
        symmetry. eapply FloatFacts.lt_trans; eassumption.
      * repeat split; try lia; try assumption.
        -- destruct (fst acc) as [best|].
           ++ destruct Hbest as (_ & _ & Hv & Hb & _).
              rewrite Hv in Hlt. eapply FloatFacts.lt_trans; eassumption.
           ++ now rewrite Hbest in Hlt.
        -- intros i Hi Hqi.
           destruct (strictEq (value i) (value (from + count))) eqn:E; [|reflexivity].
           rewrite <- (Hmin i ltac:(lia) Hqi).
           symmetry. eapply FloatFacts.strictEq_lt; eassumption.
    + split.
      * intros i Hi Hqi.
        destruct (Nat.eq_dec i (from + count)) as [->|Hne]; [assumption|].
        apply Hmin; [lia | assumption].
      * destruct (fst acc) as [best|]; [|assumption].
        destruct Hbest as (Hr & Hrest). split; [lia | assumption].
    + split.
      * intros i Hi Hqi.
        destruct (Nat.eq_dec i (from + count)) as [->|Hne]; [congruence|].
        apply Hmin; [lia | assumption].
      * destruct (fst acc) as [best|]; [|assumption].
        destruct Hbest as (Hr & Hrest). split; [lia | assumption].
Qed.

(** The outcome of a scan: either nothing qualifies below the initial
    bound, or the result is the first of the smallest qualifying values. *)
Lemma scan_result from count :
  match fst (forRange from count (scanStep qualifies value) (None, bound0)) with
  | None =>
      forall i, from <= i < from + count -> qualifies i = true ->
                lt (value i) bound0 = false
  | Some best =>
      from <= best < from + count
      /\ qualifies best = true
      /\ lt (value best) bound0 = true
      /\ (forall i, from <= i < from + count -> qualifies i = true ->
                    lt (value i) (value best) = false)
      /\ (forall i, from <= i < best -> qualifies i = true ->
                    strictEq (value i) (value best) = false)
  end.
Proof.
  destruct (scan_invariant from count) as [Hmin Hbest].
  destruct (fst (forRange from count (scanStep qualifies value) (None, bound0))) as [best|].
  - destruct Hbest as (Hr & Hq & Hv & Hb & Hfirst).
    rewrite Hv in Hmin. repeat split; try lia; assumption.
  - now rewrite Hbest in Hmin.
Qed.

End Scan.

(** * Writes to an array *)

Lemma nth_error_jsSet_same {A : Type} (hole : A) (i : nat) (v : A) (l : list A) :
  nth_error (jsSet hole i v l) i = Some v.
Proof. revert l. induction i as [|i IH]; intros [|x l]; simpl; auto. Qed.

Lemma nth_error_jsSet_other {A : Type} (hole : A) (i j : nat) (v : A) (l : list A) :
  i <> j -> j < List.length l -> nth_error (jsSet hole i v l) j = nth_error l j.
Proof.
  revert j l. induction i as [|i IH]; intros [|j] [|x l] Hne Hj; simpl in *;
    try congruence; try lia; auto.
  apply IH; [congruence | lia].
Qed.

(** * Entering and leaving variable selection *)

Section Selection.

Variable matrix : Matrix.
Variable hdrs : list string.
Variable phaseNo : nat.
Variable colCount rowCount : nat.

Lemma findEntering_scan h :
  findEntering matrix colCount h
  = forRange 1 (colCount - 2)
             (scanStep (fun _ => true) (fun c => cell h matrix 0 c)) (None, negTol).
Proof. reflexivity. Qed.

Lemma findLeaving_scan h enteringCol :
  findLeaving matrix colCount rowCount h enteringCol
  = forRange 1 (rowCount - 1)
             (scanStep (positivePivot matrix h enteringCol) (ratio matrix colCount h enteringCol))
             (None, infinity).
Proof. reflexivity. Qed.

Lemma findEntering_spec h :
  match fst (findEntering matrix colCount h) with
  | Some enteringCol =>
      1 <= enteringCol < colCount - 1
      /\ lt (cell h matrix 0 enteringCol) negTol = true
      /\ (forall c, 1 <= c < colCount - 1 ->
                    lt (cell h matrix 0 c) (cell h matrix 0 enteringCol) = false)
  | None =>
      forall c, 1 <= c < colCount - 1 -> lt (cell h matrix 0 c) negTol = false
  end.
Proof.
  pose proof (scan_result (fun _ => true) (fun c => cell h matrix 0 c) negTol
                          1 (colCount - 2)) as H.
  rewrite <- findEntering_scan in H.
  destruct (fst (findEntering matrix colCount h)) as [ec|].
  - destruct H as (Hr & _ & Hb & Hmin & _).
    repeat split; try lia; try assumption.
    intros c Hc. apply Hmin; [lia | reflexivity].
  - intros c Hc. apply H; [lia | reflexivity].
Qed.

Lemma findLeaving_spec h enteringCol :
  match fst (findLeaving matrix colCount rowCount h enteringCol) with
  | Some leavingRow =>
      1 <= leavingRow < rowCount
      /\ positivePivot matrix h enteringCol leavingRow = true
      /\ lt (ratio matrix colCount h enteringCol leavingRow) infinity = true
      /\ (forall r, 1 <= r < rowCount -> positivePivot matrix h enteringCol r = true ->
                    lt (ratio matrix colCount h enteringCol r) (ratio matrix colCount h enteringCol leavingRow) = false)
      /\ (forall r, 1 <= r < leavingRow -> positivePivot matrix h enteringCol r = true ->
                    strictEq (ratio matrix colCount h enteringCol r) (ratio matrix colCount h enteringCol leavingRow) = false)
  | None =>
      forall r, 1 <= r < rowCount -> positivePivot matrix h enteringCol r = true ->
                lt (ratio matrix colCount h enteringCol r) infinity = false
  end.
Proof.
  pose proof (scan_result (positivePivot matrix h enteringCol) (ratio matrix colCount h enteringCol)
                          infinity 1 (rowCount - 1)) as H.
  rewrite <- findLeaving_scan in H.
  destruct (fst (findLeaving matrix colCount rowCount h enteringCol)) as [lr|].
  - destruct H as (Hr & Hq & Hb & Hmin & Hfirst).
    repeat split; try lia; try assumption.
    intros r Hrr. apply Hmin. lia.
  - intros r Hr. apply H. lia.
Qed.

Lemma findEntering_first h enteringCol :
  fst (findEntering matrix colCount h) = Some enteringCol ->
  forall c, 1 <= c < enteringCol ->
            strictEq (cell h matrix 0 c) (cell h matrix 0 enteringCol) = false.
Proof.
  intros He.
  pose proof (scan_result (fun _ => true) (fun c => cell h matrix 0 c) negTol
                          1 (colCount - 2)) as H.
  rewrite <- findEntering_scan in H. rewrite He in H.
  destruct H as (_ & _ & _ & _ & Hfirst).
  intros c Hc. apply Hfirst; [lia | reflexivity].
Qed.

(** C1: in every pass of the loop the engine scans the objective row over
    the columns [1 .. colCount - 2].  When some column holds a value below
    [-1e-9], the entering column is such a column, no other column of the
    range holds a smaller value and none before it an equal one, and the
    pass goes on with this very column: it is the column of the ratio test,
    the column the unbounded step names, the column pivoted on, recorded in
    the iteration step and written into the basis.  When no column of the
    range is below [-1e-9], the pass appends the optimal step and returns
    OPTIMAL, leaving the tableau and the basis as they were. *)
Theorem entering_column_is_most_negative (iter : nat) (st : EngineState) :
  let result := iteration matrix hdrs phaseNo colCount rowCount iter st in
  match fst (findEntering matrix colCount (st_heap st)) with
  | Some enteringCol =>
      1 <= enteringCol < colCount - 1
      /\ lt (cell (st_heap st) matrix 0 enteringCol) negTol = true
      /\ (forall c, 1 <= c < colCount - 1 ->
            lt (cell (st_heap st) matrix 0 c)
               (cell (st_heap st) matrix 0 enteringCol) = false)
      /\ (forall c, 1 <= c < enteringCol ->
            strictEq (cell (st_heap st) matrix 0 c)
                     (cell (st_heap st) matrix 0 enteringCol) = false)
      /\ match fst (findLeaving matrix colCount rowCount (st_heap st) enteringCol) with
         | None =>
             result
             = (Return UNBOUNDED,
                {| st_heap := st_heap st;
                   st_basis := st_basis st;
                   st_steps := st_steps st
                     ++ [unboundedStep matrix hdrs phaseNo colCount rowCount st
                                       enteringCol] |})
             /\ (forall fuel,
                   fst (whileLoop matrix hdrs phaseNo colCount rowCount (S fuel) iter st)
                   = UNBOUNDED)
         | Some leavingRow =>
             fst result = Continue
             /\ st_heap (snd result)
                = pivot matrix colCount rowCount leavingRow enteringCol (st_heap st)
             /\ nth_error (st_basis (snd result)) (leavingRow - 1) = Some enteringCol
             /\ st_steps (snd result)
                = st_steps st
                  ++ [iterationStep matrix hdrs phaseNo colCount rowCount st iter
                                    enteringCol leavingRow]
             /\ pivotCol (iterationStep matrix hdrs phaseNo colCount rowCount st iter
                                        enteringCol leavingRow) = Some enteringCol
             /\ enteringVar (iterationStep matrix hdrs phaseNo colCount rowCount st iter
                                           enteringCol leavingRow)
                = Some (headerAt hdrs enteringCol)
             /\ (forall fuel,
                   whileLoop matrix hdrs phaseNo colCount rowCount (S fuel) iter st
                   = whileLoop matrix hdrs phaseNo colCount rowCount fuel (S iter)
                               (snd result))
         end
  | None =>
      (forall c, 1 <= c < colCount - 1 ->
         lt (cell (st_heap st) matrix 0 c) negTol = false)
      /\ result
         = (Return OPTIMAL,
            {| st_heap := st_heap st;
               st_basis := st_basis st;
               st_steps := st_steps st
                             ++ [optimalStep matrix hdrs phaseNo colCount rowCount st] |})
      /\ describesOptimal (optimalStep matrix hdrs phaseNo colCount rowCount st) = true
      /\ (forall fuel,
            fst (whileLoop matrix hdrs phaseNo colCount rowCount (S fuel) iter st)
            = OPTIMAL)
  end.
Proof.
  cbv zeta.
  pose proof (findEntering_spec (st_heap st)) as H.
  pose proof (findEntering_first (st_heap st)) as Hfirst.
  destruct (fst (findEntering matrix colCount (st_heap st))) as [ec|] eqn:He.
  - destruct H as (Hrange & Hlt & Hmin).
    split; [exact Hrange|]. split; [exact Hlt|]. split; [exact Hmin|].
    split; [now apply Hfirst|].
    destruct (fst (findLeaving matrix colCount rowCount (st_heap st) ec)) as [lr|] eqn:Hl.
    + assert (Hit : iteration matrix hdrs phaseNo colCount rowCount iter st
                    = (Continue,
                       {| st_heap := pivot matrix colCount rowCount lr ec (st_heap st);
                          st_basis := jsSet 0 (lr - 1) ec (st_basis st);
                          st_steps := st_steps st
                            ++ [iterationStep matrix hdrs phaseNo colCount rowCount st
                                              iter ec lr] |})).
      { unfold iteration. rewrite He, Hl. reflexivity. }
      rewrite Hit. cbn [fst snd st_heap st_basis st_steps].
      repeat split; try reflexivity.
      * apply nth_error_jsSet_same.
      * intros fuel. cbn [whileLoop]. rewrite Hit. reflexivity.
    + assert (Hit : iteration matrix hdrs phaseNo colCount rowCount iter st
                    = (Return UNBOUNDED,
                       {| st_heap := st_heap st;
                          st_basis := st_basis st;
                          st_steps := st_steps st
                            ++ [unboundedStep matrix hdrs phaseNo colCount rowCount st
                                              ec] |})).
      { unfold iteration. rewrite He, Hl. reflexivity. }
      split; [exact Hit|]. intros fuel. cbn [whileLoop]. rewrite Hit. reflexivity.
  - assert (Hit : iteration matrix hdrs phaseNo colCount rowCount iter st
                  = (Return OPTIMAL,
                     {| st_heap := st_heap st;
                        st_basis := st_basis st;
                        st_steps := st_steps st
                          ++ [optimalStep matrix hdrs phaseNo colCount rowCount st] |})).
    { unfold iteration. rewrite He. reflexivity. }
    repeat split; try assumption.
    intros fuel. simpl. rewrite Hit. reflexivity.
Qed.

(** C2 (as amended): once an entering column is selected, the leaving row
    is, among the rows [1 .. m] whose coefficient in that column exceeds
    [1e-9] and whose ratio is below [+Infinity], the one with the smallest
    ratio, the lowest row index winning exact ties, and the pass goes on
    with this very row: it is the row pivoted on, recorded in the iteration
    step, whose basic variable leaves the basis for the entering one.  When
    no row has such a coefficient and ratio, in particular when no
    coefficient exceeds [1e-9], the pass appends the unbounded step naming
    the entering variable and returns UNBOUNDED. *)
Theorem leaving_row_is_first_minimum_ratio
        (iter : nat) (st : EngineState) (enteringCol : nat) :
  fst (findEntering matrix colCount (st_heap st)) = Some enteringCol ->
  let result := iteration matrix hdrs phaseNo colCount rowCount iter st in
  match fst (findLeaving matrix colCount rowCount (st_heap st) enteringCol) with
  | Some leavingRow =>
      1 <= leavingRow < rowCount
      /\ positivePivot matrix (st_heap st) enteringCol leavingRow = true
      /\ lt (ratio matrix colCount (st_heap st) enteringCol leavingRow) infinity = true
      /\ (forall r, 1 <= r < rowCount ->
            positivePivot matrix (st_heap st) enteringCol r = true ->
            lt (ratio matrix colCount (st_heap st) enteringCol r)
               (ratio matrix colCount (st_heap st) enteringCol leavingRow) = false)
      /\ (forall r, 1 <= r < leavingRow ->
            positivePivot matrix (st_heap st) enteringCol r = true ->
            strictEq (ratio matrix colCount (st_heap st) enteringCol r)
                     (ratio matrix colCount (st_heap st) enteringCol leavingRow) = false)
      /\ fst result = Continue
      /\ st_heap (snd result)
         = pivot matrix colCount rowCount leavingRow enteringCol (st_heap st)
      /\ nth_error (st_basis (snd result)) (leavingRow - 1) = Some enteringCol
      /\ (forall k, k <> leavingRow - 1 -> k < List.length (st_basis st) ->
            nth_error (st_basis (snd result)) k = nth_error (st_basis st) k)
      /\ st_steps (snd result)
         = st_steps st
           ++ [iterationStep matrix hdrs phaseNo colCount rowCount st iter
                             enteringCol leavingRow]
      /\ pivotRow (iterationStep matrix hdrs phaseNo colCount rowCount st iter
                                 enteringCol leavingRow) = Some leavingRow
      /\ leavingVar (iterationStep matrix hdrs phaseNo colCount rowCount st iter
                                   enteringCol leavingRow)
         = Some (basisHeader hdrs (st_basis st) (leavingRow - 1))
  | None =>
      (forall r, 1 <= r < rowCount ->
         positivePivot matrix (st_heap st) enteringCol r = true ->
         lt (ratio matrix colCount (st_heap st) enteringCol r) infinity = false)
      /\ result
         = (Return UNBOUNDED,
            {| st_heap := st_heap st;
               st_basis := st_basis st;
               st_steps := st_steps st
                 ++ [unboundedStep matrix hdrs phaseNo colCount rowCount st enteringCol] |})
      /\ description (unboundedStep matrix hdrs phaseNo colCount rowCount st enteringCol)
         = "Solución no acotada detectada. Variable entrante "
             +++ headerAt hdrs enteringCol +++ " no tiene pivote positivo."
  end
  /\ ((forall r, 1 <= r < rowCount ->
         positivePivot matrix (st_heap st) enteringCol r = false) ->
      fst (findLeaving matrix colCount rowCount (st_heap st) enteringCol) = None).
Proof.
  intros He. cbv zeta.
  pose proof (findLeaving_spec (st_heap st) enteringCol) as H.
  destruct (fst (findLeaving matrix colCount rowCount (st_heap st) enteringCol))
    as [lr|] eqn:Hl.
  - split.
    + destruct H as (H1 & H2 & H3 & H4 & H5).
      unfold iteration. rewrite He, Hl. cbn [fst snd st_heap st_basis st_steps].
      repeat split; try assumption; try reflexivity; try lia.
      * apply nth_error_jsSet_same.
      * intros k Hk Hlen. apply nth_error_jsSet_other; auto.
    + intros Hnone. destruct H as (Hr & Hq & _).
      rewrite (Hnone lr Hr) in Hq. discriminate.
  - split; [|reflexivity].
    repeat split; try assumption.
    unfold iteration. rewrite He, Hl. reflexivity.
Qed.

End Selection.

(** C2, as stated, fails on [maximize x1 subject to 1e-8 x1 <= 1e308]: row 1
    has the coefficient [1e-8 > 1e-9] in the entering column, but its ratio
    overflows to [+Infinity], which is not below the initial [minRatio]; no
    leaving row is chosen and the run reports an unbounded problem. *)
Lemma leaving_row_not_chosen_for_infinite_ratio :
  let constraints := [mkConstraint [1e-8%float] LE 1e308%float] in
  let n := normalize false [1%float] constraints in
  fst (findEntering (n_matrix n) (n_colCount n) (n_heap n)) = Some 1
  /\ positivePivot (n_matrix n) (n_heap n) 1 1 = true
  /\ ratio (n_matrix n) (n_colCount n) (n_heap n) 1 1 = infinity
  /\ fst (findLeaving (n_matrix n) (n_colCount n) (n_numRows n) (n_heap n) 1) = None
  /\ status (solveLinearProgram SIMPLEX MAX [1%float] constraints) = UNBOUNDED
  /\ map description (steps (solveLinearProgram SIMPLEX MAX [1%float] constraints))
     = ["Solución no acotada detectada. Variable entrante x1 no tiene pivote positivo."].
Proof. vm_compute. repeat split; reflexivity. Qed.

(** * The iteration cap *)

Lemma RunShape_pivots iter fuel s new :
  RunShape iter fuel s new ->
  List.length (filter isIterationStep new) <= fuel
  /\ (List.length (filter isIterationStep new) = fuel ->
      s = UNBOUNDED /\ filter isIterationStep new = new).
Proof.
  induction 1 as [iter fuel t Ht Hi | iter fuel t Ht Hi | iter
                 | iter fuel s t rest Hl Hi Ht Hrest [IHle IHcap]]; simpl.
  - rewrite Hi. simpl. split; [lia | intros; lia].
  - rewrite Hi. simpl. split; [lia | intros; lia].
  - split; [lia | intros; split; reflexivity].
  - rewrite Hi. simpl. split; [lia|].
    intros Hlen. destruct IHcap as [-> Hall]; [lia|].
    split; [reflexivity | now rewrite Hall].
Qed.

(** C7: a call of the engine performs at most 50 pivots; when it performs
    50, no terminal step is appended and the result is UNBOUNDED; the call
    returns on every non-empty matrix (an empty one raises at
    [matrix[0].length]). *)
Theorem engine_stops_after_50_iterations
        (matrix : Matrix) (hdrs : list string) (phaseNo : nat) (st : EngineState) :
  match runSimplexIterations matrix hdrs phaseNo st with
  | Throw _ => matrix = []
  | Ok (s, st') =>
      exists new,
        st_steps st' = st_steps st ++ new
        /\ List.length (filter isIterationStep new) <= maxIter
        /\ (List.length (filter isIterationStep new) = maxIter ->
            s = UNBOUNDED /\ filter isIterationStep new = new)
  end.
Proof.
  unfold runSimplexIterations.
  destruct matrix as [|a0 rest]; [reflexivity|].
  set (cc := List.length (rowAt (st_heap st) a0)).
  set (rc := List.length (a0 :: rest)).
  destruct (whileLoop_shape (a0 :: rest) hdrs phaseNo cc rc maxIter 0 st)
    as (new & Hsteps & Hshape).
  destruct (whileLoop (a0 :: rest) hdrs phaseNo cc rc maxIter 0 st) as [s st'].
  exists new. split; [exact Hsteps|].
  apply (RunShape_pivots _ _ _ _ Hshape).
Qed.

(** On [tieConstraints], [x1] (column 1) enters; rows 2 and 3 share the
    smallest ratio, 4, and row 2, the first of them, leaves: the pass pivots
    on row 2 and column 1 and [x1] replaces [s2] in the basis. *)
Lemma leaving_row_sample :
  fst (findEntering (n_matrix tieInitial) (n_colCount tieInitial) (st_heap tieState))
  = Some 1
  /\ fst (findLeaving (n_matrix tieInitial) (n_colCount tieInitial)
                      (n_numRows tieInitial) (st_heap tieState) 1) = Some 2
  /\ map (ratio (n_matrix tieInitial) (n_colCount tieInitial) (st_heap tieState) 1)
         [1; 2; 3]
     = [5%float; 4%float; 4%float]
  /\ positivePivot (n_matrix tieInitial) (st_heap tieState) 1 4 = false
  /\ (forall r, 1 <= r < n_numRows tieInitial ->
        positivePivot (n_matrix tieInitial) (st_heap tieState) 1 r = true ->
        lt (ratio (n_matrix tieInitial) (n_colCount tieInitial) (st_heap tieState) 1 r)
           (ratio (n_matrix tieInitial) (n_colCount tieInitial) (st_heap tieState) 1 2)
        = false)
  /\ (forall r, 1 <= r < 2 ->
        positivePivot (n_matrix tieInitial) (st_heap tieState) 1 r = true ->
        strictEq (ratio (n_matrix tieInitial) (n_colCount tieInitial)
                        (st_heap tieState) 1 r)
                 (ratio (n_matrix tieInitial) (n_colCount tieInitial)
                        (st_heap tieState) 1 2) = false)
  /\ (let result := iteration (n_matrix tieInitial) (n_headers tieInitial) 0
                              (n_colCount tieInitial) (n_numRows tieInitial)
                              0 tieState in
      fst result = Continue
      /\ st_heap (snd result)
         = pivot (n_matrix tieInitial) (n_colCount tieInitial) (n_numRows tieInitial)
                 2 1 (st_heap tieState)
      /\ nth_error (st_basis (snd result)) (2 - 1) = Some 1
      /\ leavingVar (iterationStep (n_matrix tieInitial) (n_headers tieInitial) 0
                                   (n_colCount tieInitial) (n_numRows tieInitial)
                                   tieState 0 1 2)
         = Some (basisHeader (n_headers tieInitial) (st_basis tieState) (2 - 1))).
Proof.
  assert (He : fst (findEntering (n_matrix tieInitial) (n_colCount tieInitial)
                                 (st_heap tieState)) = Some 1)
    by (vm_compute; reflexivity).
  assert (Hl : fst (findLeaving (n_matrix tieInitial) (n_colCount tieInitial)
                                (n_numRows tieInitial) (st_heap tieState) 1) = Some 2)
    by (vm_compute; reflexivity).
  split; [exact He | split; [exact Hl|]].
  split; [vm_compute; reflexivity|]. split; [vm_compute; reflexivity|].
  pose proof (leaving_row_is_first_minimum_ratio
                (n_matrix tieInitial) (n_headers tieInitial) 0
                (n_colCount tieInitial) (n_numRows tieInitial)
                0 tieState 1 He) as [H _].
  cbv zeta in H. rewrite Hl in H.
  destruct H as (_ & _ & _ & Hmin & Hfirst & H1 & H2 & H3 & _ & _ & _ & H4).
  split; [exact Hmin|]. split; [exact Hfirst|]. cbv zeta. auto.
Defined.

(** * Arrays and the row store *)

Lemma jsGet_jsSet_same (i : nat) (v : number) (l : list number) :
  jsGet (jsSet nan i v l) i = v.
Proof.
  unfold jsGet. revert l. induction i as [|i IH]; intros [|x l]; simpl; auto.
Qed.

Lemma jsGet_jsSet_other (i j : nat) (v : number) (l : list number) :
  i <> j -> jsGet (jsSet nan i v l) j = jsGet l j.
Proof.
  unfold jsGet. revert j l.
  induction i as [|i IH].
  - intros [|j] [|x l] Hne; simpl; try congruence. destruct j; reflexivity.
  - intros [|j] [|x l] Hne; simpl; try reflexivity.
    + rewrite IH by congruence. destruct j; reflexivity.
    + apply IH. congruence.
Qed.

Lemma length_jsSet {A : Type} (hole : A) (i : nat) (v : A) (l : list A) :
  List.length (jsSet hole i v l) = Nat.max (List.length l) (S i).
Proof.
  revert l. induction i as [|i IH]; intros [|x l]; simpl;
    try rewrite IH; simpl; lia.
Qed.

Lemma length_updRow (h : Heap) (a : nat) (f : Row -> Row) :
  List.length (updRow h a f) = List.length h.
Proof.
  revert a. induction h as [|row h IH]; intros [|a]; simpl; auto.
Qed.

Lemma rowAt_updRow_same (h : Heap) (a : nat) (f : Row -> Row) :
  a < List.length h -> rowAt (updRow h a f) a = f (rowAt h a).
Proof.
  unfold rowAt. revert a.
  induction h as [|row h IH]; intros [|a] Ha; simpl in *; try lia; auto.
  apply IH. lia.
Qed.

Lemma rowAt_updRow_other (h : Heap) (a b : nat) (f : Row -> Row) :
  a <> b -> rowAt (updRow h a f) b = rowAt h b.
Proof.
  unfold rowAt. revert a b.
  induction h as [|row h IH]; intros [|a] [|b] Hne; simpl; try congruence; auto.
Qed.

Lemma length_setCell h m r c v :
  List.length (setCell h m r c v) = List.length h.
Proof. apply length_updRow. Qed.

Lemma rowAt_setCell_other h m r c v a :
  a <> rowAddr m r -> rowAt (setCell h m r c v) a = rowAt h a.
Proof. intros Hne. apply rowAt_updRow_other. congruence. Qed.

Lemma cell_setCell_same h m r c v :
  rowAddr m r < List.length h -> cell (setCell h m r c v) m r c = v.
Proof.
  intros Ha. unfold cell, setCell.
  rewrite rowAt_updRow_same by assumption. apply jsGet_jsSet_same.
Qed.

Lemma cell_setCell_other_col h m r c v c' :
  c <> c' -> cell (setCell h m r c v) m r c' = cell h m r c'.
Proof.
  intros Hne. unfold cell, setCell.
  destruct (Nat.lt_ge_cases (rowAddr m r) (List.length h)) as [Ha|Ha].
  - rewrite rowAt_updRow_same by assumption. now apply jsGet_jsSet_other.
  - replace (updRow h (rowAddr m r) (jsSet nan c v)) with h; [reflexivity|].
    clear -Ha. revert Ha. generalize (rowAddr m r) as a.
    induction h as [|row h IH]; intros [|a] Ha; simpl in *; try lia; auto.
    f_equal. apply IH. lia.
Qed.

Lemma cell_other_row h h' m r c :
  rowAt h' (rowAddr m r) = rowAt h (rowAddr m r) -> cell h' m r c = cell h m r c.
Proof. unfold cell. now intros ->. Qed.

(** Distinct rows of a matrix without shared rows have distinct addresses. *)
Lemma rowAddr_distinct (m : Matrix) (r r' : nat) :
  NoDup m -> r < List.length m -> r' < List.length m -> r <> r' ->
  rowAddr m r <> rowAddr m r'.
Proof.
  intros Hnd Hr Hr' Hne Heq. apply Hne.
  unfold rowAddr in Heq. rewrite (NoDup_nth m 0) in Hnd. apply Hnd; assumption.
Qed.

(** A loop [for c in 0 .. n-1: matrix[r][c] = G(c, matrix)] whose right-hand
    side only depends on cells of row [r] not yet written and on other
    rows: every written cell holds the value computed from the store the
    loop started with. *)
Lemma colLoop_spec (m : Matrix) (r n : nat) (G : nat -> Heap -> number)
      (g : nat -> number) (h : Heap) :
  rowAddr m r < List.length h ->
  (forall c h', c < n ->
     (forall a, a <> rowAddr m r -> rowAt h' a = rowAt h a) ->
     (forall c', c <= c' -> cell h' m r c' = cell h m r c') ->
     G c h' = g c) ->
  let h' := forRange 0 n (fun c h => setCell h m r c (G c h)) h in
  List.length h' = List.length h
  /\ (forall a, a <> rowAddr m r -> rowAt h' a = rowAt h a)
  /\ (forall c, cell h' m r c = if c <? n then g c else cell h m r c).
Proof.
  intros Ha. induction n as [|n IH]; intros HG.
  - simpl. repeat split; auto.
  - cbv zeta. rewrite forRange_S. simpl Nat.add.
    destruct IH as (Hlen & Hother & Hcells).
    { intros c h' Hc. apply HG. lia. }
    set (hn := forRange 0 n (fun c h => setCell h m r c (G c h)) h) in *.
    assert (HGn : G n hn = g n).
    { apply HG; [lia | exact Hother |].
      intros c' Hc'. rewrite Hcells.
      destruct (Nat.ltb_spec c' n); [lia | reflexivity]. }
    repeat split.
    + rewrite length_setCell. exact Hlen.
    + intros a Hne. rewrite rowAt_setCell_other by assumption. now apply Hother.
    + intros c. destruct (Nat.eq_dec c n) as [->|Hne].
      * rewrite cell_setCell_same by (rewrite Hlen; exact Ha).
        destruct (Nat.ltb_spec n (S n)); [exact HGn | lia].
      * rewrite cell_setCell_other_col by congruence.
        rewrite Hcells.
        destruct (Nat.ltb_spec c n), (Nat.ltb_spec c (S n)); try lia; reflexivity.
Qed.

(** * The pivot as row operations *)

Section PivotFacts.

Variable matrix : Matrix.
Variable colCount : nat.

Hypothesis distinct_rows : NoDup matrix.

Lemma normalizeRow_spec (leavingRow : nat) (pivotValue : number) (h : Heap) :
  leavingRow < List.length matrix -> Allocated matrix h ->
  let h1 := normalizeRow matrix colCount leavingRow pivotValue h in
  List.length h1 = List.length h
  /\ (forall a, a <> rowAddr matrix leavingRow -> rowAt h1 a = rowAt h a)
  /\ (forall c, cell h1 matrix leavingRow c
                = if c <? colCount
                  then (cell h matrix leavingRow c / pivotValue)%float
                  else cell h matrix leavingRow c).
Proof.
  intros Hlr Halloc.
  apply (colLoop_spec matrix leavingRow colCount
           (fun c h => (cell h matrix leavingRow c / pivotValue)%float)
           (fun c => (cell h matrix leavingRow c / pivotValue)%float)).
  - now apply Halloc.
  - intros c h' _ _ Hsame. now rewrite Hsame.
Qed.

Lemma eliminateRow_spec (leavingRow : nat) (factor : number) (r : nat) (h : Heap) :
  leavingRow < List.length matrix -> r < List.length matrix -> r <> leavingRow ->
  Allocated matrix h ->
  let h1 := eliminateRow matrix colCount leavingRow factor r h in
  List.length h1 = List.length h
  /\ (forall a, a <> rowAddr matrix r -> rowAt h1 a = rowAt h a)
  /\ (forall c, cell h1 matrix r c
                = if c <? colCount
                  then (cell h matrix r c - factor * cell h matrix leavingRow c)%float
                  else cell h matrix r c).
Proof.
  intros Hlr Hr Hne Halloc.
  apply (colLoop_spec matrix r colCount
           (fun c h => (cell h matrix r c - factor * cell h matrix leavingRow c)%float)
           (fun c => (cell h matrix r c - factor * cell h matrix leavingRow c)%float)).
  - now apply Halloc.
  - intros c h' _ Hother Hsame. rewrite Hsame by lia.
    rewrite (cell_other_row h h' matrix leavingRow); [reflexivity|].
    apply Hother. apply not_eq_sym. now apply rowAddr_distinct.
Qed.

Lemma eliminate_rows (leavingRow enteringCol : nat) (h : Heap) (k : nat) :
  leavingRow < List.length matrix -> k <= List.length matrix -> Allocated matrix h ->
  let hk := forRange 0 k
              (fun r h =>
                 if r =? leavingRow then h
                 else
                   let factor := cell h matrix r enteringCol in
                   if gt (Math_abs factor) tol
                   then eliminateRow matrix colCount leavingRow factor r h
                   else h) h in
  List.length hk = List.length h
  /\ (forall r, r < List.length matrix -> k <= r \/ r = leavingRow ->
                rowAt hk (rowAddr matrix r) = rowAt h (rowAddr matrix r))
  /\ (forall r c, r < k -> r <> leavingRow ->
                  cell hk matrix r c = eliminated matrix colCount h leavingRow enteringCol r c).
Proof.
  intros Hlr Hk Halloc. induction k as [|k IH].
  - simpl. repeat split; auto. intros; lia.
  - cbv zeta. rewrite forRange_S. simpl Nat.add.
    destruct IH as (Hlen & Hkeep & Hdone); [lia|].
    match goal with
    | |- context [forRange 0 k ?body h] => set (hk := forRange 0 k body h) in *
    end.
    assert (Hallock : Allocated matrix hk).
    { intros r Hr. rewrite Hlen. now apply Halloc. }
    assert (Hrowk : forall c, cell hk matrix k c = cell h matrix k c).
    { intros c. apply cell_other_row. apply Hkeep; [lia | left; lia]. }
    assert (Hrowl : forall c, cell hk matrix leavingRow c = cell h matrix leavingRow c).
    { intros c. apply cell_other_row. apply Hkeep; [lia | now right]. }
    destruct (Nat.eqb_spec k leavingRow) as [->|Hne].
    + repeat split; try assumption.
      * intros r Hr Hcase. apply Hkeep; [assumption|]. destruct Hcase; [left; lia | now right].
      * intros r c Hr Hrl. apply Hdone; [lia | assumption].
    + rewrite Hrowk.
      destruct (gt (Math_abs (cell h matrix k enteringCol)) tol) eqn:Hgt.
      * destruct (eliminateRow_spec leavingRow (cell h matrix k enteringCol) k hk)
          as (Hlen' & Hother & Hcells); try assumption; try lia.
        repeat split.
        -- congruence.
        -- intros r Hr Hcase. rewrite Hother.
           ++ apply Hkeep; [assumption|]. destruct Hcase; [left; lia | now right].
           ++ apply rowAddr_distinct; try assumption; lia.
        -- intros r c Hr Hrl.
           destruct (Nat.eq_dec r k) as [->|Hrk].
           ++ rewrite Hcells, Hrowk, Hrowl. unfold eliminated. now rewrite Hgt.
           ++ rewrite (cell_other_row hk).
              ** apply Hdone; [lia | assumption].
              ** apply Hother. apply rowAddr_distinct; try assumption; lia.
      * repeat split; try assumption.
        -- intros r Hr Hcase. apply Hkeep; [assumption|].
           destruct Hcase; [left; lia | now right].
        -- intros r c Hr Hrl.
           destruct (Nat.eq_dec r k) as [->|Hrk].
           ++ rewrite Hrowk. unfold eliminated. now rewrite Hgt.
           ++ apply Hdone; [lia | assumption].
Qed.

(** The pivot on [(leavingRow, enteringCol)]: the pivot row is divided by
    the pivot value, and that multiple of the result is subtracted from
    every other row whose entering-column entry exceeds the tolerance in
    magnitude. *)
Lemma pivot_spec (leavingRow enteringCol : nat) (h : Heap) :
  leavingRow < List.length matrix -> Allocated matrix h ->
  let pivotValue := cell h matrix leavingRow enteringCol in
  let h' := pivot matrix colCount (List.length matrix) leavingRow enteringCol h in
  List.length h' = List.length h
  /\ (forall c, c < colCount ->
        cell h' matrix leavingRow c = (cell h matrix leavingRow c / pivotValue)%float)
  /\ (forall r c, r < List.length matrix -> r <> leavingRow -> c < colCount ->
        cell h' matrix r c
        = let factor := cell h matrix r enteringCol in
          if gt (Math_abs factor) tol
          then (cell h matrix r c
                - factor * (cell h matrix leavingRow c / pivotValue))%float
          else cell h matrix r c).
Proof.
  intros Hlr Halloc. cbv zeta. unfold pivot, eliminate.
  set (p := cell h matrix leavingRow enteringCol).
  destruct (normalizeRow_spec leavingRow p h Hlr Halloc) as (Hlen1 & Hother1 & Hcells1).
  set (h1 := normalizeRow matrix colCount leavingRow p h) in *.
  assert (Halloc1 : Allocated matrix h1).
  { intros r Hr. rewrite Hlen1. now apply Halloc. }
  destruct (eliminate_rows leavingRow enteringCol h1 (List.length matrix) Hlr
                           (Nat.le_refl _) Halloc1) as (Hlen2 & Hkeep & Hdone).
  match goal with
  | |- context [forRange 0 (List.length matrix) ?body h1] =>
      set (h2 := forRange 0 (List.length matrix) body h1) in *
  end.
  assert (Hrows : forall r c, r < List.length matrix -> r <> leavingRow ->
                              cell h1 matrix r c = cell h matrix r c).
  { intros r c Hr Hne. apply cell_other_row. apply Hother1.
    now apply rowAddr_distinct. }
  repeat split.
  - congruence.
  - intros c Hc. rewrite (cell_other_row h1) by (apply Hkeep; [assumption | now right]).
    rewrite Hcells1. destruct (Nat.ltb_spec c colCount); [reflexivity | lia].
  - intros r c Hr Hne Hc. rewrite Hdone by assumption.
    unfold eliminated. rewrite !Hrows by assumption.
    rewrite Hcells1.
    destruct (Nat.ltb_spec c colCount); [reflexivity | lia].
Qed.

End PivotFacts.

(** * The canonical form after a pivot *)

Lemma within_one_one : within 1%float 1%float = true.
Proof. reflexivity. Qed.

Lemma within_zero_zero : within 0%float 0%float = true.
Proof. reflexivity. Qed.

(** * The canonical form: where it is lost *)

(** C3, as stated, fails on [driftConstraints].  The first pivot brings
    [x1] into row 1 and skips row 2, whose entry [1e-9] in that column is
    not above the tolerance; the second pivot divides row 2 by [2e-9],
    which turns the residue into [0.5] in the basis column of row 1. *)
Lemma canonical_form_lost_after_second_pivot :
  let n := normalize false [2%float; 1%float] driftConstraints in
  let step := iteration (n_matrix n) (n_headers n) 0 (n_colCount n) (n_numRows n) in
  let st0 := {| st_heap := n_heap n; st_basis := n_basis n; st_steps := [] |} in
  let st1 := snd (step 0 st0) in
  let st2 := snd (step 1 st1) in
  canonicalForm (st_heap st0) (n_matrix n) (st_basis st0) = true
  /\ fst (step 0 st0) = Continue
  /\ canonicalForm (st_heap st1) (n_matrix n) (st_basis st1) = true
  /\ fst (step 1 st1) = Continue
  /\ st_basis st2 = [1; 2]
  /\ cell (st_heap st2) (n_matrix n) 2 1 = 0.5%float
  /\ within (cell (st_heap st2) (n_matrix n) 2 1) 0%float = false
  /\ canonicalForm (st_heap st2) (n_matrix n) (st_basis st2) = false
  /\ status (solveLinearProgram SIMPLEX MAX [2%float; 1%float] driftConstraints) = OPTIMAL
  /\ store (solveLinearProgram SIMPLEX MAX [2%float; 1%float] driftConstraints)
     = st_heap st2.
Proof. vm_compute. repeat split; reflexivity. Qed.

(** Without finite entries the entering column is not restored.  With
    [maximize x1] subject to [Infinity x1 <= 1] the pivot value is
    [Infinity], and dividing the pivot row by it leaves [NaN] where the 1
    should be; with [x1 <= 1] and [Infinity x1 <= Infinity] row 1 is the
    pivot row, and subtracting [Infinity] times it from row 2 leaves [NaN]
    where the 0 should be. *)
Lemma entering_column_lost_for_infinite_entry :
  (let n := normalize false [1%float] [mkConstraint [infinity] LE 1%float] in
   let result := iteration (n_matrix n) (n_headers n) 0 (n_colCount n) (n_numRows n) 0
                   {| st_heap := n_heap n; st_basis := n_basis n; st_steps := [] |} in
   canonicalForm (n_heap n) (n_matrix n) (n_basis n) = true
   /\ fst result = Continue
   /\ st_basis (snd result) = [1]
   /\ cell (st_heap (snd result)) (n_matrix n) 1 1 = nan
   /\ canonicalColumn (st_heap (snd result)) (n_matrix n) 1 1 = false)
  /\ (let n := normalize false [1%float]
                 [mkConstraint [1%float] LE 1%float;
                  mkConstraint [infinity] LE infinity] in
      let result := iteration (n_matrix n) (n_headers n) 0 (n_colCount n) (n_numRows n) 0
                      {| st_heap := n_heap n; st_basis := n_basis n; st_steps := [] |} in
      canonicalForm (n_heap n) (n_matrix n) (n_basis n) = true
      /\ fst result = Continue
      /\ st_basis (snd result) = [1; 3]
      /\ cell (st_heap (snd result)) (n_matrix n) 1 1 = 1%float
      /\ cell (st_heap (snd result)) (n_matrix n) 2 1 = nan
      /\ canonicalColumn (st_heap (snd result)) (n_matrix n) 1 1 = false).
Proof. vm_compute. repeat split; reflexivity. Qed.

(** * What a trace step shows *)

Lemma map_rowAddr_seq (m : Matrix) :
  map (rowAddr m) (seq 0 (List.length m)) = m.
Proof.
  unfold rowAddr. induction m as [|a m IH]; [reflexivity|].
  simpl. f_equal. rewrite <- seq_shift, map_map. exact IH.
Qed.

(** Every step the engine appends holds, for its coefficient rows, the
    references of the matrix rows themselves. *)
Lemma currentTableauRows_refs matrix hdrs phaseNo colCount h basis :
  map rowRef (currentTableauRows matrix hdrs phaseNo colCount (List.length matrix) h basis)
  = matrix.
Proof.
  unfold currentTableauRows. rewrite map_map. cbn [rowRef].
  apply map_rowAddr_seq.
Qed.

Lemma iteration_step_refs matrix hdrs phaseNo colCount iter st :
  exists t,
    st_steps (snd (iteration matrix hdrs phaseNo colCount (List.length matrix) iter st))
    = st_steps st ++ [t]
    /\ map rowRef (tableau t) = matrix.
Proof.
  destruct (iteration_cases matrix hdrs phaseNo colCount (List.length matrix) iter st)
    as [He | ec He Hl | ec lr He Hl];
    (eexists; split; [reflexivity | apply currentTableauRows_refs]).
Qed.

(** Whatever the store is when a step is read, the step shows the rows of
    the matrix as they are in that store: all the steps of a run show the
    same coefficients. *)
Lemma run_steps_show_live_rows matrix hdrs phaseNo colCount fuel :
  forall iter st,
  exists new,
    st_steps (snd (whileLoop matrix hdrs phaseNo colCount (List.length matrix) fuel iter st))
    = st_steps st ++ new
    /\ forall t h, In t new -> shownCoefficients h t = map (rowAt h) matrix.
Proof.
  induction fuel as [|fuel IH]; intros iter st.
  - exists []. simpl. rewrite app_nil_r. split; [reflexivity | intros t h []].
  - cbn [whileLoop].
    destruct (iteration_step_refs matrix hdrs phaseNo colCount iter st)
      as (t & Hsteps & Hrefs).
    assert (Hshow : forall h, shownCoefficients h t = map (rowAt h) matrix).
    { intros h. unfold shownCoefficients. rewrite <- Hrefs, map_map. reflexivity. }
    destruct (iteration matrix hdrs phaseNo colCount (List.length matrix) iter st)
      as [[s|] st1]; cbn [snd] in *.
    + exists [t]. split; [exact Hsteps|].
      intros t' h [<-|[]]. apply Hshow.
    + destruct (IH (S iter) st1) as (new & Hnew & Hall).
      exists (t :: new). split.
      * rewrite Hnew, Hsteps, <- app_assoc. reflexivity.
      * intros t' h [<-|Hin]; [apply Hshow | now apply Hall].
Qed.

(** C4: on the sample problem the first trace step is created while the
    objective row reads [1, -3, -5, 0, 0, 0, 0]; its copied right-hand sides
    still say so in the returned result, but its coefficient rows are the
    rows of the matrix, which the two later pivots rewrite in place: in the
    result the step shows the objective row of the final tableau. *)
Theorem trace_rows_alias_the_live_tableau :
  let result := solveLinearProgram SIMPLEX MAX [3%float; 5%float] sampleConstraints in
  let first := hd (optimalStep [] [] 0 0 0 sampleState) (steps result) in
  List.length (steps result) = 3
  /\ stepIndex first = 1
  /\ map rowRhs (tableau first) = [0%float; 4%float; 12%float; 18%float]
  /\ nth 0 (shownCoefficients (n_heap sampleInitial) first) []
     = [1%float; (-3)%float; (-5)%float; 0%float; 0%float; 0%float; 0%float]
  /\ nth 0 (shownCoefficients (store result) first) []
     = [1%float; 0%float; 0%float; 0%float; 1.5%float; 1%float; 36%float]
  /\ forall t, In t (steps result) ->
       shownCoefficients (store result) t
       = shownCoefficients (store result) first.
Proof.
  vm_compute. repeat split; try reflexivity.
  intros t [<-|[<-|[<-|[]]]]; reflexivity.
Qed.

(** * The basis during a run *)

Lemma Forall_jsSet {A : Type} (P : A -> Prop) (hole : A) (i : nat) (v : A) (l : list A) :
  i < List.length l -> P v -> Forall P l -> Forall P (jsSet hole i v l).
Proof.
  revert l. induction i as [|i IH]; intros [|x l] Hi Hv Hl; simpl in *; try lia.
  - inversion Hl; subst. now constructor.
  - inversion Hl; subst. constructor; [assumption|]. apply IH; [lia | assumption..].
Qed.

(** A pass through the loop keeps the length of the basis, and only stores
    column indices of [1 .. colCount - 2] in it. *)
Lemma iteration_basis matrix hdrs phaseNo colCount rowCount iter st (P : nat -> Prop) :
  rowCount <= List.length (st_basis st) + 1 ->
  (forall c, 1 <= c < colCount - 1 -> P c) ->
  Forall P (st_basis st) ->
  let st' := snd (iteration matrix hdrs phaseNo colCount rowCount iter st) in
  List.length (st_basis st') = List.length (st_basis st) /\ Forall P (st_basis st').
Proof.
  intros Hrows HP Hall. cbv zeta.
  destruct (iteration_cases matrix hdrs phaseNo colCount rowCount iter st)
    as [He | ec He Hl | ec lr He Hl]; cbn [snd st_basis]; auto.
  pose proof (findEntering_spec matrix colCount (st_heap st)) as Hes.
  rewrite He in Hes. destruct Hes as (Hec & _).
  pose proof (findLeaving_spec matrix colCount rowCount (st_heap st) ec) as Hls.
  rewrite Hl in Hls. destruct Hls as (Hlr & _).
  split.
  - rewrite length_jsSet. lia.
  - apply Forall_jsSet; [lia | now apply HP | assumption].
Qed.

Lemma whileLoop_basis matrix hdrs phaseNo colCount rowCount (P : nat -> Prop) fuel :
  forall iter st,
  rowCount <= List.length (st_basis st) + 1 ->
  (forall c, 1 <= c < colCount - 1 -> P c) ->
  Forall P (st_basis st) ->
  let st' := snd (whileLoop matrix hdrs phaseNo colCount rowCount fuel iter st) in
  List.length (st_basis st') = List.length (st_basis st) /\ Forall P (st_basis st').
Proof.
  induction fuel as [|fuel IH]; intros iter st Hrows HP Hall; cbv zeta.
  - simpl. auto.
  - cbn [whileLoop].
    destruct (iteration_basis matrix hdrs phaseNo colCount rowCount iter st P Hrows HP Hall)
      as [Hlen Hall'].
    destruct (iteration matrix hdrs phaseNo colCount rowCount iter st) as [[s|] st1];
      cbn [snd] in *; [auto|].
    destruct (IH (S iter) st1) as [Hlen2 Hall2]; try assumption; [lia|].
    split; [congruence | assumption].
Qed.

(** * How a run ends *)

Lemma finalStep_snoc (l : list TableauStep) (t : TableauStep) :
  finalStep (l ++ [t]) = Some t.
Proof.
  unfold finalStep. rewrite length_app. simpl.
  replace (List.length l + 1 - 1) with (List.length l + 0) by lia.
  rewrite nth_error_app2 by lia.
  replace (List.length l + 0 - List.length l) with 0 by lia. reflexivity.
Qed.

Lemma RunShape_end iter fuel s new :
  RunShape iter fuel s new -> 0 < fuel ->
  exists pre t, new = pre ++ [t] /\ RunEnd (iter + fuel) s t.
Proof.
  induction 1 as [iter fuel t Ht Hi | iter fuel t Ht Hi | iter
                 | iter fuel s t rest Hl Hi Ht Hrest IH]; intros Hfuel.
  - exists [], t. split; [reflexivity | left; auto].
  - exists [], t. split; [reflexivity | right; left; auto].
  - lia.
  - destruct fuel as [|fuel].
    + inversion Hrest; subst. exists [], t. split; [reflexivity|].
      right; right. replace (iter + 1) with (iter + 1) by lia. auto.
    + destruct IH as (pre & t' & -> & Hend); [lia|].
      exists (t :: pre), t'. split; [reflexivity|].
      replace (iter + S (S fuel)) with (S iter + S fuel) by lia. exact Hend.
Qed.

Lemma RunShape_status iter fuel s new :
  RunShape iter fuel s new -> s = OPTIMAL \/ s = UNBOUNDED.
Proof. induction 1; auto. Qed.

Lemma runSimplexIterations_facts matrix hdrs phaseNo st :
  matrix <> [] ->
  exists s st',
    runSimplexIterations matrix hdrs phaseNo st = Ok (s, st')
    /\ RunFacts matrix st s st'.
Proof.
  intros Hne. destruct matrix as [|a0 rest]; [congruence|].
  unfold runSimplexIterations.
  set (cc := List.length (rowAt (st_heap st) a0)).
  set (rc := List.length (a0 :: rest)).
  destruct (whileLoop_shape (a0 :: rest) hdrs phaseNo cc rc maxIter 0 st)
    as (new & Hsteps & Hshape).
  pose proof (fun P => whileLoop_basis (a0 :: rest) hdrs phaseNo cc rc P maxIter 0 st)
    as Hbasis.
  destruct (whileLoop (a0 :: rest) hdrs phaseNo cc rc maxIter 0 st) as [s st'].
  cbn [fst snd] in *.
  exists s, st'. split; [reflexivity|]. constructor.
  - apply (RunShape_status _ _ _ _ Hshape).
  - destruct (RunShape_end _ _ _ _ Hshape) as (pre & t & -> & Hend);
      [unfold maxIter; lia|].
    exists pre, t. split; [exact Hsteps | exact Hend].
  - intros Hrows. apply (Hbasis (fun _ => True)); auto.
    clear. induction (st_basis st); constructor; auto.
  - intros P Hrows HP Hall. now apply (Hbasis P).
Qed.

(** * The tableau the normalizer builds *)

Lemma fold_left_inv {A B : Type} (P : A -> Prop) (f : A -> B -> A) (l : list B) (s : A) :
  (forall acc x, In x l -> P acc -> P (f acc x)) -> P s -> P (fold_left f l s).
Proof.
  revert s. induction l as [|x l IH]; intros s Hstep Hs; simpl; [assumption|].
  apply IH.
  - intros acc y Hy. apply Hstep. now right.
  - apply Hstep; [now left | assumption].
Qed.

Lemma forRange_inv {S : Type} (P : S -> Prop) from count (body : nat -> S -> S) (s : S) :
  (forall i acc, from <= i < from + count -> P acc -> P (body i acc)) ->
  P s -> P (forRange from count body s).
Proof.
  intros Hstep Hs. unfold forRange. apply fold_left_inv; [|assumption].
  intros acc i Hi. apply Hstep. apply in_seq in Hi. lia.
Qed.

Lemma in_indexed {A : Type} (l : list A) (i : nat) (x : A) :
  In (i, x) (indexed l) -> i < List.length l.
Proof.
  unfold indexed. intros H. apply in_combine_l in H. apply in_seq in H. lia.
Qed.

Lemma jsSet_at_length {A : Type} (hole : A) (v : A) (l : list A) :
  jsSet hole (List.length l) v l = l ++ [v].
Proof. induction l as [|x l IH]; simpl; [reflexivity | now rewrite IH]. Qed.

Lemma rowLength_setCell h m r c v a :
  a <> rowAddr m r \/ c < rowLength h a ->
  rowLength (setCell h m r c v) a = rowLength h a.
Proof.
  unfold rowLength. intros Hcase.
  destruct (Nat.eq_dec a (rowAddr m r)) as [->|Hne].
  - destruct Hcase as [Hne|Hc]; [congruence|].
    unfold setCell.
    destruct (Nat.lt_ge_cases (rowAddr m r) (List.length h)) as [Ha|Ha].
    + rewrite rowAt_updRow_same by assumption. rewrite length_jsSet. lia.
    + unfold rowAt in Hc. rewrite nth_overflow in Hc by assumption. simpl in Hc. lia.
  - now rewrite rowAt_setCell_other.
Qed.

Lemma rowAddr_initMatrix (numRows r : nat) :
  r < numRows -> rowAddr (initMatrix numRows) r = r.
Proof. intros Hr. unfold rowAddr, initMatrix. now rewrite seq_nth. Qed.

Lemma length_flat_map_indexed (f : nat * Constraint -> list string)
      (count : list Constraint -> nat) :
  (forall i c t, List.length (f (i, c)) + count t = count (c :: t)) ->
  count [] = 0 ->
  forall l k, List.length (flat_map f (combine (seq k (List.length l)) l)) = count l.
Proof.
  intros Hstep Hnil. induction l as [|c t IH]; intros k; simpl.
  - now rewrite Hnil.
  - rewrite length_app, IH. apply Hstep.
Qed.

Lemma length_slackVars l : List.length (slackVars l) = countSlack l.
Proof.
  unfold slackVars, indexed. apply length_flat_map_indexed; [|reflexivity].
  intros i c t. simpl. destruct (relation c); reflexivity.
Qed.

Lemma length_surplusVars l : List.length (surplusVars l) = countSurplus l.
Proof.
  unfold surplusVars, indexed. apply length_flat_map_indexed; [|reflexivity].
  intros i c t. simpl. destruct (relation c); reflexivity.
Qed.

Lemma length_artificialVars l : List.length (artificialVars l) = countArtificial l.
Proof.
  unfold artificialVars, indexed. apply length_flat_map_indexed; [|reflexivity].
  intros i c t. simpl. destruct (relation c); reflexivity.
Qed.

Lemma length_buildHeaders n l :
  List.length (buildHeaders n l)
  = 1 + n + countSlack l + countSurplus l + countArtificial l + 1.
Proof.
  unfold buildHeaders, decisionHeaders.
  rewrite !length_app. simpl.
  rewrite length_map, length_seq.
  rewrite length_slackVars, length_surplusVars, length_artificialVars. lia.
Qed.

(** Filling the constraint rows appends one basis entry per constraint,
    each below the bound that the slack and artificial counters stay
    under. *)
Lemma fill_basis (matrix : Matrix) (RHS_COL bound : nat) :
  forall l k s,
  List.length (initialBasis s) = k ->
  Forall (fun b => b < bound) (initialBasis s) ->
  currentSlackIdx s + countSlack l <= bound ->
  currentArtificialIdx s + countArtificial l <= bound ->
  let s' := fold_left (fillConstraint matrix RHS_COL)
                      (combine (seq k (List.length l)) l) s in
  List.length (initialBasis s') = k + List.length l
  /\ Forall (fun b => b < bound) (initialBasis s').
Proof.
  induction l as [|c t IH]; intros k s Hlen Hall Hslack Hart; cbv zeta.
  - simpl. split; [lia | assumption].
  - simpl in Hslack, Hart. cbn [List.length seq combine fold_left].
    set (s1 := fillConstraint matrix RHS_COL s (k, c)).
    assert (H1 : List.length (initialBasis s1) = S k
                 /\ Forall (fun b => b < bound) (initialBasis s1)
                 /\ currentSlackIdx s1 + countSlack t <= bound
                 /\ currentArtificialIdx s1 + countArtificial t <= bound).
    { unfold s1, fillConstraint. cbn [fst snd].
      destruct (relation c); cbn [initialBasis currentSlackIdx currentArtificialIdx];
        rewrite <- Hlen, jsSet_at_length, length_app; simpl;
        (split; [lia|]); (split; [|lia]);
        (apply Forall_app; split; [assumption|]); constructor; try constructor; lia. }
    destruct H1 as (Hlen1 & Hall1 & Hslack1 & Hart1).
    destruct (IH (S k) s1 Hlen1 Hall1 Hslack1 Hart1) as [Hlen2 Hall2].
    split; [lia | assumption].
Qed.

(** Filling the constraint rows leaves the objective row alone. *)
Lemma fill_row0 (numRows RHS_COL : nat) :
  forall l k s,
  k + List.length l < numRows ->
  let s' := fold_left (fillConstraint (initMatrix numRows) RHS_COL)
                      (combine (seq k (List.length l)) l) s in
  rowAt (f_heap s') 0 = rowAt (f_heap s) 0.
Proof.
  induction l as [|c t IH]; intros k s Hk; cbv zeta; [reflexivity|].
  simpl in Hk. cbn [List.length seq combine fold_left].
  rewrite IH by lia.
  assert (Haddr : 0 <> rowAddr (initMatrix numRows) (k + 1)).
  { rewrite rowAddr_initMatrix by lia. lia. }
  assert (Hcoefs : forall l0 h,
             rowAt (fold_left (fun h jc => setCell h (initMatrix numRows) (k + 1)
                                             (fst jc + 1) (snd jc)) l0 h) 0
             = rowAt h 0).
  { induction l0 as [|x l0 IH0]; intros h; simpl; [reflexivity|].
    rewrite IH0. now apply rowAt_setCell_other. }
  unfold fillConstraint. cbn [fst snd].
  destruct (relation c); cbn [f_heap];
    rewrite ?rowAt_setCell_other by assumption; apply Hcoefs.
Qed.

Lemma rowAt_initHeap (numRows colCount a : nat) :
  a < numRows -> rowAt (initHeap numRows colCount) a = zeroRow colCount.
Proof.
  intros Ha. unfold rowAt, initHeap.
  rewrite nth_repeat_lt by assumption. reflexivity.
Qed.

Lemma fillObjective_row0 (numRows : nat) isMin objCoeffs h len :
  0 < numRows ->
  List.length objCoeffs + 1 < len ->
  rowLength h 0 = len ->
  rowLength (fillObjective (initMatrix numRows) isMin objCoeffs h) 0 = len.
Proof.
  intros Hrows Hlen Hrow. unfold fillObjective.
  apply fold_left_inv.
  - intros acc [j coef] Hin Hacc. apply in_indexed in Hin. cbn [fst snd].
    rewrite rowLength_setCell; [assumption | right; lia].
  - rewrite rowLength_setCell; [assumption | right; lia].
Qed.

Lemma normalize_facts isMin objCoeffs constraints :
  NormalizedFacts objCoeffs constraints (normalize isMin objCoeffs constraints).
Proof.
  pose proof (length_buildHeaders (List.length objCoeffs) constraints) as Hcols.
  constructor; try reflexivity; unfold normalize; cbn [n_colCount n_basis n_heap].
  - lia.
  - apply (fill_basis _ _ (List.length (buildHeaders (List.length objCoeffs) constraints) - 1)
                      constraints 0); cbn [initialBasis currentSlackIdx currentArtificialIdx].
    + reflexivity.
    + constructor.
    + lia.
    + rewrite length_slackVars, length_surplusVars. lia.
  - apply (fill_basis _ _ (List.length (buildHeaders (List.length objCoeffs) constraints) - 1)
                      constraints 0); cbn [initialBasis currentSlackIdx currentArtificialIdx].
    + reflexivity.
    + constructor.
    + lia.
    + rewrite length_slackVars, length_surplusVars. lia.
  - apply fillObjective_row0; [lia | lia |].
    unfold rowLength, indexed. rewrite fill_row0 by (simpl; lia).
    cbn [f_heap]. rewrite rowAt_initHeap by lia.
    unfold zeroRow. apply repeat_length.
Qed.

Lemma markArtificials_row0 (matrix : Matrix) hdrs v h :
  rowLength h (rowAddr matrix 0) = List.length hdrs ->
  rowLength (fst (markArtificials matrix hdrs v h)) (rowAddr matrix 0) = List.length hdrs.
Proof.
  intros Hrow. unfold markArtificials.
  apply (fold_left_inv
           (fun acc : Heap * list nat =>
              rowLength (fst acc) (rowAddr matrix 0) = List.length hdrs)).
  - intros acc [i hd] Hin Hacc. apply in_indexed in Hin. cbn [snd fst].
    destruct (startsWithA hd); [|assumption]. cbn [fst].
    rewrite rowLength_setCell; [assumption | right; lia].
  - assumption.
Qed.

Lemma bigMEliminate_row0 (matrix : Matrix) numRows colCount artIndices h :
  rowLength h (rowAddr matrix 0) = colCount ->
  rowLength (bigMEliminate matrix numRows colCount artIndices h) (rowAddr matrix 0)
  = colCount.
Proof.
  intros Hrow. unfold bigMEliminate.
  apply fold_left_inv; [|assumption].
  intros acc artCol _ Hacc.
  apply forRange_inv; [|assumption].
  intros r acc1 _ Hacc1.
  destruct (strictEq (cell acc1 matrix r artCol) 1%float); [|assumption].
  apply forRange_inv; [|assumption].
  intros c acc2 Hc Hacc2.
  rewrite rowLength_setCell; [assumption | right; lia].
Qed.

Lemma prepareBigM_row0 objCoeffs constraints n :
  NormalizedFacts objCoeffs constraints n ->
  rowLength (prepareBigM n) (rowAddr (n_matrix n) 0) = List.length (n_headers n).
Proof.
  intros F. unfold prepareBigM.
  assert (Hrow : rowLength (n_heap n) (rowAddr (n_matrix n) 0) = List.length (n_headers n)).
  { rewrite (nf_matrix _ _ _ F), rowAddr_initMatrix by lia.
    rewrite (nf_row0 _ _ _ F). apply (nf_colCount _ _ _ F). }
  pose proof (markArtificials_row0 (n_matrix n) (n_headers n) M_VAL (n_heap n) Hrow) as Hmark.
  destruct (markArtificials (n_matrix n) (n_headers n) M_VAL (n_heap n)) as [h1 arts].
  cbn [fst] in Hmark.
  rewrite <- (nf_colCount _ _ _ F) in *.
  now apply bigMEliminate_row0.
Qed.

(** * Reading the final tableau *)

Lemma rowRefOf_ok (matrix : Matrix) (r : nat) :
  r < List.length matrix -> rowRefOf matrix r = Ok (rowAddr matrix r).
Proof.
  intros Hr. unfold rowRefOf, rowAddr.
  rewrite (nth_error_nth' matrix 0 Hr). reflexivity.
Qed.

Lemma in_combine_seq {A : Type} (l : list A) :
  forall k i x,
  In (i, x) (combine (seq k (List.length l)) l)
  <-> k <= i /\ nth_error l (i - k) = Some x.
Proof.
  induction l as [|y l IH]; intros k i x; simpl.
  - split; [tauto|]. intros [_ H]. destruct (i - k); discriminate.
  - rewrite IH. split.
    + intros [Heq | [Hle Hnth]].
      * injection Heq as <- <-. split; [lia|]. now rewrite Nat.sub_diag.
      * split; [lia|]. replace (i - k) with (S (i - S k)) by lia. exact Hnth.
    + intros [Hle Hnth]. destruct (Nat.eq_dec i k) as [->|Hne].
      * rewrite Nat.sub_diag in Hnth. simpl in Hnth. injection Hnth as <-. now left.
      * right. split; [lia|].
        replace (i - k) with (S (i - S k)) in Hnth by lia. exact Hnth.
Qed.

Lemma in_indexed_iff {A : Type} (l : list A) (i : nat) (x : A) :
  In (i, x) (indexed l) <-> nth_error l i = Some x.
Proof.
  unfold indexed. rewrite in_combine_seq, Nat.sub_0_r. intuition lia.
Qed.

Lemma readBasis_ok hdrs (matrix : Matrix) h RHS_COL :
  forall ib fv,
  (forall i c, In (i, c) ib -> i + 1 < List.length matrix) ->
  exists fv', readBasis hdrs matrix h RHS_COL ib fv = Ok fv'.
Proof.
  induction ib as [|[i c] ib IH]; intros fv Hrows; simpl.
  - now exists fv.
  - rewrite rowRefOf_ok by (apply (Hrows i c); now left). cbn [bind].
    apply IH. intros i' c' Hin. apply (Hrows i' c'). now right.
Qed.

Lemma extractResults_inv isMin hdrs matrix RHS_COL st r :
  extractResults isMin hdrs matrix RHS_COL st = Ok r ->
  status r = OPTIMAL /\ steps r = st_steps st /\ store r = st_heap st.
Proof.
  unfold extractResults.
  destruct (readBasis hdrs matrix (st_heap st) RHS_COL (indexed (st_basis st)) _)
    as [fv|e]; cbn [bind]; [|discriminate].
  destruct (rowRefOf matrix 0) as [a0|e]; cbn [bind]; [|discriminate].
  intros H. injection H as <-. auto.
Qed.

Lemma extractResults_ok isMin hdrs (matrix : Matrix) RHS_COL st :
  List.length (st_basis st) + 1 <= List.length matrix ->
  exists r, extractResults isMin hdrs matrix RHS_COL st = Ok r.
Proof.
  intros Hrows. unfold extractResults.
  match goal with
  | |- context [readBasis hdrs matrix (st_heap st) RHS_COL ?ib ?fv0] =>
      destruct (readBasis_ok hdrs matrix (st_heap st) RHS_COL ib fv0) as [fv ->]
  end.
  - intros i c Hin. apply in_indexed in Hin. lia.
  - cbn [bind]. rewrite rowRefOf_ok by lia. cbn [bind]. eexists. reflexivity.
Qed.

Lemma artInBasis_list hdrs (matrix : Matrix) h RHS_COL :
  forall ib,
  (forall i c, In (i, c) ib -> i + 1 < List.length matrix /\ c < List.length hdrs) ->
  exists b,
    artInBasis hdrs matrix h RHS_COL ib = Ok b
    /\ (b = true <->
        exists i c, In (i, c) ib
                    /\ startsWithA (headerAt hdrs c) = true
                    /\ gt (cell h matrix (i + 1) RHS_COL) feasTol = true).
Proof.
  induction ib as [|[i c] ib IH]; intros Hok.
  - exists false. split; [reflexivity|]. split; [discriminate|].
    intros (i & c & [] & _).
  - destruct (Hok i c (or_introl eq_refl)) as [Hi Hc].
    destruct IH as (b & Hb & Hiff).
    { intros i' c' Hin. apply Hok. now right. }
    cbn [artInBasis]. rewrite rowRefOf_ok by assumption. cbn [bind].
    rewrite (nth_error_nth' hdrs "undefined" Hc).
    fold (headerAt hdrs c). fold (cell h matrix (i + 1) RHS_COL).
    destruct (startsWithA (headerAt hdrs c)
              && gt (cell h matrix (i + 1) RHS_COL) feasTol) eqn:Hhere.
    + exists true. split; [reflexivity|]. split; [|reflexivity].
      intros _. apply andb_true_iff in Hhere as [Ha Hv].
      exists i, c. repeat split; [now left | assumption..].
    + exists b. split; [exact Hb|]. rewrite Hiff. split.
      * intros (i' & c' & Hin & Ha & Hv). exists i', c'. repeat split; [now right | assumption..].
      * intros (i' & c' & [Heq|Hin] & Ha & Hv).
        -- injection Heq as <- <-. rewrite Ha, Hv in Hhere. discriminate.
        -- exists i', c'. auto.
Qed.

Lemma artInBasis_spec hdrs (matrix : Matrix) RHS_COL st :
  List.length (st_basis st) + 1 <= List.length matrix ->
  Forall (fun b => b < List.length hdrs) (st_basis st) ->
  exists b,
    artInBasis hdrs matrix (st_heap st) RHS_COL (indexed (st_basis st)) = Ok b
    /\ (b = true <-> artificialAtPositiveLevel hdrs matrix RHS_COL st).
Proof.
  intros Hrows Hall.
  destruct (artInBasis_list hdrs matrix (st_heap st) RHS_COL (indexed (st_basis st)))
    as (b & Hb & Hiff).
  - intros i c Hin. split.
    + apply in_indexed in Hin. lia.
    + apply in_indexed_iff in Hin. apply nth_error_In in Hin.
      rewrite Forall_forall in Hall. now apply Hall.
  - exists b. split; [exact Hb|]. rewrite Hiff. unfold artificialAtPositiveLevel.
    split; intros (i & c & Hin & Hrest); exists i, c; (split; [|exact Hrest]);
      now apply in_indexed_iff.
Qed.

(** * The orchestration *)

Lemma initMatrix_nonempty (k : nat) : initMatrix (k + 1) <> [].
Proof. unfold initMatrix. rewrite Nat.add_1_r. discriminate. Qed.

Lemma replaceRow0_nonempty (m : Matrix) (a : nat) : replaceRow0 m a <> [].
Proof. unfold replaceRow0. destruct m; discriminate. Qed.

Lemma length_replaceRow0 (m : Matrix) (a : nat) :
  m <> [] -> List.length (replaceRow0 m a) = List.length m.
Proof. unfold replaceRow0. destruct m; [congruence | reflexivity]. Qed.

Lemma p1_matrix_eq (n : Normalized) :
  p1_matrix (preparePhase1 n)
  = replaceRow0 (n_matrix n) (List.length (n_heap n ++ [rowAt (n_heap n) (rowAddr (n_matrix n) 0)])).
Proof.
  unfold preparePhase1, alloc.
  destruct (markArtificials _ _ _ _) as [h4 arts]. reflexivity.
Qed.

Lemma p1_originalObjRow_eq (n : Normalized) :
  p1_originalObjRow (preparePhase1 n) = List.length (n_heap n).
Proof.
  unfold preparePhase1, alloc.
  destruct (markArtificials _ _ _ _) as [h4 arts]. reflexivity.
Qed.

Lemma outcome_early (s s' : Status) (st0 st : EngineState) (matrix : Matrix) :
  RunFacts matrix st0 s st ->
  s' = s \/ (s = OPTIMAL /\ s' = INFEASIBLE) ->
  RunOutcome (earlyReturn s' st).
Proof.
  intros F Hs. destruct (run_steps _ _ _ _ F) as (pre & t & Hsteps & Hend).
  exists s, (st_steps st0), pre, t. repeat split; auto.
Qed.

Lemma outcome_extract isMin hdrs (matrix matrix' : Matrix) RHS_COL (st0 st : EngineState) :
  RunFacts matrix' st0 OPTIMAL st ->
  BodyOutcome (extractResults isMin hdrs matrix RHS_COL st).
Proof.
  intros F.
  destruct (extractResults isMin hdrs matrix RHS_COL st) as [r|e] eqn:E; [|exact I].
  destruct (run_steps _ _ _ _ F) as (pre & t & Hsteps & Hend).
  destruct (extractResults_inv _ _ _ _ _ _ E) as (Hstatus & Hst & _).
  exists OPTIMAL, (st_steps st0), pre, t. repeat split; auto; try congruence.
  unfold extractResults in E.
  destruct (readBasis _ _ _ _ _ _); cbn [bind] in E; [|discriminate].
  destruct (rowRefOf matrix 0); cbn [bind] in E; [|discriminate].
  injection E as <-. reflexivity.
Qed.

Lemma isOptimal_cases (s : Status) :
  s = OPTIMAL \/ s = UNBOUNDED ->
  (s = OPTIMAL /\ isOptimal s = true /\ isUnbounded s = false)
  \/ (s = UNBOUNDED /\ isOptimal s = false /\ isUnbounded s = true).
Proof. intros [->| ->]; [left | right]; auto. Qed.

Lemma solveStandard_outcome isMin (n : Normalized) :
  n_matrix n <> [] -> BodyOutcome (solveStandard isMin n).
Proof.
  intros Hne. unfold solveStandard.
  destruct (runSimplexIterations_facts (n_matrix n) (n_headers n) 0
              {| st_heap := n_heap n; st_basis := n_basis n; st_steps := [] |} Hne)
    as (s & st & -> & F).
  cbn [bind].
  destruct (isOptimal_cases s (run_status _ _ _ _ F)) as [(-> & -> & _) | (-> & -> & _)];
    cbn [negb].
  - now apply (outcome_extract _ _ _ _ _ _ _ F).
  - apply (outcome_early _ _ _ _ _ F). now left.
Qed.

Lemma solveBigM_outcome isMin (n : Normalized) :
  n_matrix n <> [] -> BodyOutcome (solveBigM isMin n).
Proof.
  intros Hne. unfold solveBigM.
  destruct (runSimplexIterations_facts (n_matrix n) (n_headers n) 0
              {| st_heap := prepareBigM n; st_basis := n_basis n; st_steps := [] |} Hne)
    as (s & st & -> & F).
  cbn [bind].
  destruct (isOptimal_cases s (run_status _ _ _ _ F)) as [(-> & -> & _) | (-> & -> & _)];
    cbn [negb].
  - destruct (artInBasis _ _ _ _ _) as [[|]|e]; cbn [bind].
    + apply (outcome_early _ _ _ _ _ F). now right.
    + now apply (outcome_extract _ _ _ _ _ _ _ F).
    + exact I.
  - apply (outcome_early _ _ _ _ _ F). now left.
Qed.

Lemma solveTwoPhase_outcome isMin (n : Normalized) :
  BodyOutcome (solveTwoPhase isMin n).
Proof.
  unfold solveTwoPhase.
  assert (Hne1 : p1_matrix (preparePhase1 n) <> []).
  { rewrite p1_matrix_eq. apply replaceRow0_nonempty. }
  destruct (runSimplexIterations_facts (p1_matrix (preparePhase1 n)) (n_headers n) 1
              {| st_heap := p1_heap (preparePhase1 n); st_basis := n_basis n;
                 st_steps := [] |} Hne1)
    as (s1 & st1 & -> & F1).
  cbn [bind].
  destruct (isOptimal_cases s1 (run_status _ _ _ _ F1)) as [(-> & _ & ->) | (-> & _ & ->)].
  - destruct (gt _ feasTol).
    + apply (outcome_early _ _ _ _ _ F1). now right.
    + unfold preparePhase2.
      match goal with
      | |- context [runSimplexIterations ?m2 ?hd 2 ?st1'] =>
          destruct (runSimplexIterations_facts m2 hd 2 st1'
                      (replaceRow0_nonempty _ _)) as (s2 & st2 & -> & F2)
      end.
      cbn [bind].
      destruct (isOptimal_cases s2 (run_status _ _ _ _ F2))
        as [(-> & -> & _) | (-> & -> & _)]; cbn [negb].
      * now apply (outcome_extract _ _ _ _ _ _ _ F2).
      * apply (outcome_early _ _ _ _ _ F2). now left.
  - apply (outcome_early _ _ _ _ _ F1). now left.
Qed.

Lemma body_outcome method type objCoeffs constraints :
  BodyOutcome (solveBody method type objCoeffs constraints).
Proof.
  unfold solveBody.
  set (isMin := match type with MIN => true | MAX => false end).
  set (n := normalize isMin objCoeffs constraints).
  assert (Hne : n_matrix n <> []) by apply initMatrix_nonempty.
  destruct (isTwoPhase method && (0 <? List.length (artificialVars constraints))).
  - apply solveTwoPhase_outcome.
  - destruct (isBigM method && (0 <? List.length (artificialVars constraints))).
    + now apply solveBigM_outcome.
    + now apply solveStandard_outcome.
Qed.

Lemma solve_outcome method type objCoeffs constraints :
  SolveOutcome (solveLinearProgram method type objCoeffs constraints).
Proof.
  unfold solveLinearProgram.
  pose proof (body_outcome method type objCoeffs constraints) as H.
  destruct (solveBody method type objCoeffs constraints) as [r|e]; cbn [tryCatch].
  - now apply outcome_run.
  - now apply outcome_error.
Qed.

Lemma hasArtificials_true (constraints : list Constraint) :
  artificialVars constraints <> [] ->
  (0 <? List.length (artificialVars constraints)) = true.
Proof.
  intros Hne. apply Nat.ltb_lt.
  destruct (artificialVars constraints); [congruence | simpl; lia].
Qed.

(** C8 (as amended): when the trace of a result is not empty, its final
    step is the optimal step (status OPTIMAL or INFEASIBLE), or the
    unbounded step (status UNBOUNDED), or, when the last run of the engine
    used up its 50 passes, the iteration step of the 50th pass, the status
    being UNBOUNDED. *)
Theorem final_step_is_terminal_or_capped
        (method : SolverMethod) (type : OptimizationType)
        (objCoeffs : list number) (constraints : list Constraint) (t : TableauStep) :
  let result := solveLinearProgram method type objCoeffs constraints in
  finalStep (steps result) = Some t ->
  (describesOptimal t = true
   /\ (status result = OPTIMAL \/ status result = INFEASIBLE))
  \/ (describesUnbounded t = true /\ status result = UNBOUNDED)
  \/ (status result = UNBOUNDED
      /\ isIterationStep t = true /\ isTerminalStep t = false
      /\ String.prefix (iterationLabel maxIter) (description t) = true).
Proof.
  cbv zeta. intros Hlast.
  destruct (solve_outcome method type objCoeffs constraints)
    as [Herr | (s & prior & pre & t' & Hsteps & Hend & Hstatus & _)].
  - rewrite Herr in Hlast. discriminate.
  - rewrite Hsteps, !app_assoc, finalStep_snoc in Hlast. injection Hlast as ->.
    destruct Hend as [[-> Ht] | [[-> Ht] | (-> & Hi & Hnt & Hlabel)]].
    + left. split; [assumption|]. destruct Hstatus as [Hs | [_ Hs]]; auto.
    + right; left. split; [assumption|].
      destruct Hstatus as [Hs | [Hs _]]; [assumption | discriminate].
    + right; right. repeat split; try assumption.
      destruct Hstatus as [Hs | [Hs _]]; [assumption | discriminate].
Qed.

(** C10: a result whose status is not OPTIMAL has an empty [finalValues]
    and [zValue] 0. *)
Theorem non_optimal_result_has_no_values
        (method : SolverMethod) (type : OptimizationType)
        (objCoeffs : list number) (constraints : list Constraint) :
  let result := solveLinearProgram method type objCoeffs constraints in
  status result <> OPTIMAL ->
  finalValues result = [] /\ zValue result = 0%float.
Proof.
  cbv zeta. intros Hne.
  destruct (solve_outcome method type objCoeffs constraints)
    as [-> | (s & prior & pre & t' & _ & _ & _ & Hvalues & _)].
  - split; reflexivity.
  - now apply Hvalues.
Qed.

(** * Sample runs *)

(** The trace of the sample problem ends with the optimal step. *)
Lemma final_step_sample :
  match finalStep (steps (solveLinearProgram SIMPLEX MAX [3%float; 5%float]
                                             sampleConstraints)) with
  | Some t =>
      describesOptimal t = true
      /\ status (solveLinearProgram SIMPLEX MAX [3%float; 5%float] sampleConstraints)
         = OPTIMAL
  | None => False
  end.
Proof.
  destruct (finalStep (steps (solveLinearProgram SIMPLEX MAX [3%float; 5%float]
                                                 sampleConstraints)))
    as [t|] eqn:E; [|vm_compute in E; discriminate].
  destruct (final_step_is_terminal_or_capped SIMPLEX MAX [3%float; 5%float]
                                             sampleConstraints t E)
    as [[Ht _] | [[_ Hs] | (Hs & _)]].
  - split; [exact Ht | vm_compute; reflexivity].
  - vm_compute in Hs. discriminate.
  - vm_compute in Hs. discriminate.
Defined.

(** A result that is INFEASIBLE carries no values. *)
Lemma non_optimal_result_sample :
  status (solveLinearProgram BIG_M MAX [1%float] infeasibleConstraints) <> OPTIMAL
  /\ finalValues (solveLinearProgram BIG_M MAX [1%float] infeasibleConstraints) = []
  /\ zValue (solveLinearProgram BIG_M MAX [1%float] infeasibleConstraints) = 0%float.
Proof.
  assert (Hne : status (solveLinearProgram BIG_M MAX [1%float] infeasibleConstraints)
                <> OPTIMAL) by (vm_compute; discriminate).
  split; [exact Hne|].
  apply (non_optimal_result_has_no_values BIG_M MAX [1%float] infeasibleConstraints Hne).
Defined.

(** C8, as stated, fails on [cyclingConstraints]: the run stops at the cap,
    the result is UNBOUNDED and the last of its 50 steps is the iteration
    step of the 50th pass. *)
Lemma capped_run_ends_with_iteration_step :
  let result := solveLinearProgram SIMPLEX MAX
                  [10%float; (-57)%float; (-9)%float; (-24)%float] cyclingConstraints in
  status result = UNBOUNDED
  /\ List.length (steps result) = 50
  /\ exists t,
       finalStep (steps result) = Some t
       /\ isTerminalStep t = false
       /\ isIterationStep t = true
       /\ description t = "Iteración 50: Entra x2, Sale s2. Pivote en fila 2, col 2.".
Proof.
  vm_compute. split; [reflexivity|]. split; [reflexivity|].
  eexists. split; [reflexivity|]. repeat split; reflexivity.
Qed.

(** * Rows a computation leaves alone *)

Lemma Keeps_refl a h : Keeps a h h.
Proof. split; reflexivity. Qed.

Lemma Keeps_trans a h1 h2 h3 : Keeps a h1 h2 -> Keeps a h2 h3 -> Keeps a h1 h3.
Proof. intros [L1 R1] [L2 R2]. split; congruence. Qed.

Lemma Keeps_setCell a h0 h m r c v :
  a <> rowAddr m r -> Keeps a h0 h -> Keeps a h0 (setCell h m r c v).
Proof.
  intros Hne [L R]. split.
  - now rewrite length_setCell.
  - now rewrite rowAt_setCell_other.
Qed.

Lemma rowAddr_in (m : Matrix) (r : nat) : r < List.length m -> In (rowAddr m r) m.
Proof. intros Hr. unfold rowAddr. now apply nth_In. Qed.

Lemma not_in_rowAddr (m : Matrix) (a r : nat) :
  ~ In a m -> r < List.length m -> a <> rowAddr m r.
Proof. intros Hnot Hr ->. apply Hnot. now apply rowAddr_in. Qed.

(** The pivot only writes to rows of the matrix. *)
Lemma pivot_keeps (matrix : Matrix) colCount leavingRow enteringCol a h :
  ~ In a matrix -> leavingRow < List.length matrix ->
  Keeps a h (pivot matrix colCount (List.length matrix) leavingRow enteringCol h).
Proof.
  intros Hnot Hlr. unfold pivot, eliminate, normalizeRow, eliminateRow.
  apply forRange_inv.
  - intros r acc Hr Hacc. destruct (r =? leavingRow); [assumption|].
    destruct (gt _ tol); [|assumption].
    apply forRange_inv; [|assumption].
    intros c acc' _ Hacc'. apply Keeps_setCell; [|assumption].
    apply not_in_rowAddr; [assumption | lia].
  - apply forRange_inv; [|apply Keeps_refl].
    intros c acc _ Hacc. apply Keeps_setCell; [|assumption].
    now apply not_in_rowAddr.
Qed.

Lemma whileLoop_keeps (matrix : Matrix) hdrs phaseNo colCount a fuel :
  ~ In a matrix ->
  forall iter st,
  Keeps a (st_heap st)
        (st_heap (snd (whileLoop matrix hdrs phaseNo colCount (List.length matrix)
                                 fuel iter st))).
Proof.
  intros Hnot. induction fuel as [|fuel IH]; intros iter st.
  - apply Keeps_refl.
  - cbn [whileLoop].
    destruct (iteration_cases matrix hdrs phaseNo colCount (List.length matrix) iter st)
      as [He | ec He Hl | ec lr He Hl]; cbn [snd st_heap]; try apply Keeps_refl.
    eapply Keeps_trans; [|apply IH]. cbn [st_heap].
    apply pivot_keeps; [assumption|].
    pose proof (findLeaving_spec matrix colCount (List.length matrix) (st_heap st) ec) as Hls.
    rewrite Hl in Hls. lia.
Qed.

Lemma Ok_inj {A : Type} (x y : A) : Ok x = Ok y -> x = y.
Proof. congruence. Qed.

Lemma runSimplexIterations_keeps (matrix : Matrix) hdrs phaseNo st s st' a :
  runSimplexIterations matrix hdrs phaseNo st = Ok (s, st') ->
  ~ In a matrix -> Keeps a (st_heap st) (st_heap st').
Proof.
  unfold runSimplexIterations. destruct matrix as [|a0 rest]; [discriminate|].
  intros Hrun Hnot. apply Ok_inj in Hrun.
  pose proof (whileLoop_keeps (a0 :: rest) hdrs phaseNo
                (List.length (rowAt (st_heap st) a0)) a maxIter Hnot 0 st) as Hk.
  rewrite Hrun in Hk. exact Hk.
Qed.

(** * The objective row of phase 2 *)

Lemma length_fill (matrix : Matrix) RHS_COL :
  forall l s,
  List.length (f_heap (fold_left (fillConstraint matrix RHS_COL) l s))
  = List.length (f_heap s).
Proof.
  induction l as [|[k c] l IH]; intros s; simpl; [reflexivity|].
  rewrite IH. unfold fillConstraint. cbn [fst snd].
  assert (Hcoefs : forall l0 h,
             List.length (fold_left (fun h jc => setCell h matrix (k + 1)
                                                   (fst jc + 1) (snd jc)) l0 h)
             = List.length h).
  { induction l0 as [|x l0 IH0]; intros h; simpl; [reflexivity|].
    rewrite IH0. apply length_setCell. }
  destruct (relation c); cbn [f_heap]; rewrite ?length_setCell; apply Hcoefs.
Qed.

Lemma length_n_heap isMin objCoeffs constraints :
  List.length (n_heap (normalize isMin objCoeffs constraints))
  = List.length constraints + 1.
Proof.
  unfold normalize. cbn [n_heap]. unfold fillObjective.
  apply (fold_left_inv (fun h => List.length h = List.length constraints + 1)).
  - intros acc x _ Hacc. now rewrite length_setCell.
  - rewrite length_setCell, length_fill. cbn [f_heap].
    unfold initHeap. apply repeat_length.
Qed.

Lemma rowAddr_replaceRow0_0 (m : Matrix) (a : nat) : rowAddr (replaceRow0 m a) 0 = a.
Proof. unfold replaceRow0, rowAddr. destruct m; reflexivity. Qed.

Lemma rowAddr_replaceRow0_S (m : Matrix) (a r : nat) :
  rowAddr (replaceRow0 m a) (S r) = rowAddr m (S r).
Proof. unfold replaceRow0, rowAddr. destruct m; [destruct r|]; reflexivity. Qed.

Lemma in_replaceRow0_initMatrix (k a b : nat) :
  In b (replaceRow0 (initMatrix (k + 1)) a) -> b = a \/ 1 <= b <= k.
Proof.
  unfold initMatrix. rewrite Nat.add_1_r. cbn [seq replaceRow0 jsSet].
  intros [<-|Hin]; [now left|]. apply in_seq in Hin. right. lia.
Qed.

(** Phase 1 is prepared in a new row; the copy of the true objective row is
    not written to. *)
Lemma preparePhase1_keeps (n : Normalized) :
  let p := preparePhase1 n in
  List.length (p1_heap p) = List.length (n_heap n) + 2
  /\ rowAt (p1_heap p) (p1_originalObjRow p) = rowAt (n_heap n) (rowAddr (n_matrix n) 0).
Proof.
  cbv zeta. unfold preparePhase1, alloc.
  set (h1 := n_heap n ++ [rowAt (n_heap n) (rowAddr (n_matrix n) 0)]).
  set (h2 := h1 ++ [zeroRow (n_colCount n)]).
  set (m1 := replaceRow0 (n_matrix n) (List.length h1)).
  assert (Haddr : List.length (n_heap n) <> rowAddr m1 0).
  { unfold m1. rewrite rowAddr_replaceRow0_0. unfold h1. rewrite length_app. simpl. lia. }
  assert (Hk3 : Keeps (List.length (n_heap n)) h2 (setCell h2 m1 0 0 1%float))
    by (apply Keeps_setCell; [assumption | apply Keeps_refl]).
  assert (Hk4 : Keeps (List.length (n_heap n)) h2
                      (fst (markArtificials m1 (n_headers n) 1%float
                                            (setCell h2 m1 0 0 1%float)))).
  { unfold markArtificials.
    apply (fold_left_inv (fun acc : Heap * list nat =>
                            Keeps (List.length (n_heap n)) h2 (fst acc))).
    - intros acc [i hd] _ Hacc. cbn [snd fst]. destruct (startsWithA hd); [|assumption].
      cbn [fst]. now apply Keeps_setCell.
    - exact Hk3. }
  destruct (markArtificials m1 (n_headers n) 1%float (setCell h2 m1 0 0 1%float))
    as [h4 arts]. cbn [fst] in Hk4. cbn [p1_heap p1_originalObjRow].
  assert (Hk5 : Keeps (List.length (n_heap n)) h2
                      (phase1Eliminate m1 (n_numRows n) (n_colCount n) arts h4)).
  { unfold phase1Eliminate. apply fold_left_inv; [|assumption].
    intros acc artCol _ Hacc. apply forRange_inv; [|assumption].
    intros r acc1 _ Hacc1. destruct (strictEq _ 1%float); [|assumption].
    apply forRange_inv; [|assumption].
    intros c acc2 _ Hacc2. now apply Keeps_setCell. }
  destruct Hk5 as [Hlen Hrow]. split.
  - rewrite Hlen. unfold h2, h1. rewrite !length_app. simpl. lia.
  - rewrite Hrow. unfold h2, h1, rowAt.
    rewrite app_nth1 by (rewrite length_app; simpl; lia).
    rewrite app_nth2 by lia. rewrite Nat.sub_diag. reflexivity.
Qed.

Lemma rezeroedRow_ext (f g : nat -> Row) :
  forall ib objRow,
  (forall k b, In (k, b) ib -> f (k + 1) = g (k + 1)) ->
  rezeroedRow objRow f ib = rezeroedRow objRow g ib.
Proof.
  induction ib as [|[k b] ib IH]; intros objRow Hfg; [reflexivity|].
  cbn [rezeroedRow]. rewrite (Hfg k b) by now left.
  apply IH. intros k' b' Hin. apply (Hfg k' b'). now right.
Qed.

Lemma nth_map_seq {A : Type} (f : nat -> A) (n c : nat) (d : A) :
  c < n -> nth c (map f (seq 0 n)) d = f c.
Proof.
  intros Hc. rewrite (nth_indep _ d (f 0)) by (rewrite length_map, length_seq; lia).
  rewrite map_nth, seq_nth by lia. reflexivity.
Qed.

Lemma row_ext (r1 r2 : Row) :
  List.length r1 = List.length r2 ->
  (forall c, c < List.length r1 -> jsGet r1 c = jsGet r2 c) ->
  r1 = r2.
Proof. intros Hlen Hget. apply (nth_ext r1 r2 nan nan); assumption. Qed.

(** The loop of the source computes the re-zeroed row in place. *)
Lemma rezeroObjective_row (matrix : Matrix) (colCount : nat) :
  forall ib h,
  rowAddr matrix 0 < List.length h ->
  rowLength h (rowAddr matrix 0) = colCount ->
  (forall k b, In (k, b) ib -> rowAddr matrix (k + 1) <> rowAddr matrix 0) ->
  let h' :=
    fold_left (fun h ib =>
                 let row := fst ib + 1 in
                 let basisCoeffInObj := cell h matrix 0 (snd ib) in
                 if gt (Math_abs basisCoeffInObj) tol
                 then forRange 0 colCount
                        (fun c h => setCell h matrix 0 c
                                      (cell h matrix 0 c
                                       - basisCoeffInObj * cell h matrix row c)%float) h
                 else h) ib h in
  rowAt h' (rowAddr matrix 0)
  = rezeroedRow (rowAt h (rowAddr matrix 0)) (fun r => rowAt h (rowAddr matrix r)) ib.
Proof.
  induction ib as [|[k b] ib IH]; intros h Ha Hlen Hrows; cbv zeta; [reflexivity|].
  cbn [fold_left rezeroedRow fst snd].
  fold (cell h matrix 0 b).
  assert (Hrest : forall k' b', In (k', b') ib ->
                                rowAddr matrix (k' + 1) <> rowAddr matrix 0).
  { intros k' b' Hin. apply (Hrows k' b'). now right. }
  destruct (gt (Math_abs (cell h matrix 0 b)) tol); [|now apply IH].
  set (coef := cell h matrix 0 b).
  destruct (colLoop_spec matrix 0 colCount
              (fun c h => (cell h matrix 0 c - coef * cell h matrix (k + 1) c)%float)
              (fun c => (cell h matrix 0 c - coef * cell h matrix (k + 1) c)%float)
              h Ha) as (Hlen1 & Hother & Hcells).
  { intros c h' _ Hoth Hsame. rewrite Hsame by lia.
    rewrite (cell_other_row h h' matrix (k + 1)); [reflexivity|].
    apply Hoth. apply (Hrows k b). now left. }
  match goal with
  | |- context [forRange 0 colCount ?body h] => set (h1 := forRange 0 colCount body h) in *
  end.
  assert (Hlen1' : rowLength h1 (rowAddr matrix 0) = colCount).
  { unfold h1. apply forRange_inv; [|assumption].
    intros c acc Hc Hacc. rewrite rowLength_setCell; [assumption | right; lia]. }
  assert (Hrow1 : rowAt h1 (rowAddr matrix 0)
                  = subtractMultiple coef (rowAt h (rowAddr matrix 0))
                                     (rowAt h (rowAddr matrix (k + 1)))).
  { apply row_ext.
    - unfold subtractMultiple. rewrite length_map, length_seq.
      unfold rowLength in *. congruence.
    - intros c Hc. unfold rowLength in Hlen1'. rewrite Hlen1' in Hc.
      fold (cell h1 matrix 0 c). rewrite Hcells.
      destruct (Nat.ltb_spec c colCount); [|lia].
      unfold subtractMultiple, jsGet at 1.
      unfold rowLength in Hlen. rewrite Hlen, nth_map_seq by assumption.
      reflexivity. }
  rewrite IH; try assumption; [|now rewrite Hlen1].
  rewrite Hrow1. apply rezeroedRow_ext.
  intros k' b' Hin. apply Hother. apply (Hrest k' b' Hin).
Qed.

(** C5: TWO_PHASE with an artificial variable.  Phase 1 runs on the
    auxiliary objective; UNBOUNDED there is returned; otherwise an objective
    value above [1e-5] in magnitude gives INFEASIBLE with the phase-1 trace;
    otherwise row 0 becomes the saved objective row, which still holds the
    true objective, re-zeroed against the basis phase 1 ended with; phase 2
    runs on that tableau with the trace so far, and a phase-2 result other
    than OPTIMAL is the status. *)
Theorem two_phase_flow (type : OptimizationType) (objCoeffs : list number)
        (constraints : list Constraint) :
  artificialVars constraints <> [] ->
  let n := normalize (isMinOf type) objCoeffs constraints in
  let p := preparePhase1 n in
  let trueObjRow := rowAt (n_heap n) (rowAddr (n_matrix n) 0) in
  let result := solveLinearProgram TWO_PHASE type objCoeffs constraints in
  exists phase1Result st1,
    runSimplexIterations (p1_matrix p) (n_headers n) 1
      {| st_heap := p1_heap p; st_basis := n_basis n; st_steps := [] |}
    = Ok (phase1Result, st1)
    /\ (phase1Result = UNBOUNDED ->
        status result = UNBOUNDED /\ steps result = st_steps st1)
    /\ (phase1Result <> UNBOUNDED ->
        gt (Math_abs (cell (st_heap st1) (p1_matrix p) 0 (n_colCount n - 1))) feasTol = true ->
        status result = INFEASIBLE /\ steps result = st_steps st1)
    /\ (phase1Result <> UNBOUNDED ->
        gt (Math_abs (cell (st_heap st1) (p1_matrix p) 0 (n_colCount n - 1))) feasTol = false ->
        let matrix2 := fst (preparePhase2 n p st1) in
        let st1' := snd (preparePhase2 n p st1) in
        exists phase2Result st2,
          runSimplexIterations matrix2 (n_headers n) 2 st1' = Ok (phase2Result, st2)
          /\ st_basis st1' = st_basis st1
          /\ st_steps st1' = st_steps st1
          /\ rowAt (st_heap st1) (rowAddr matrix2 0) = trueObjRow
          /\ rowAt (st_heap st1') (rowAddr matrix2 0)
             = rezeroedRow trueObjRow
                           (fun r => rowAt (st_heap st1) (rowAddr matrix2 r))
                           (indexed (st_basis st1))
          /\ (forall r, rowAddr matrix2 (S r) = rowAddr (p1_matrix p) (S r))
          /\ (phase2Result <> OPTIMAL ->
              status result = phase2Result /\ steps result = st_steps st2)).
Proof.
  intros Hart. cbv zeta.
  unfold solveLinearProgram, solveBody. fold (isMinOf type).
  rewrite (hasArtificials_true _ Hart). cbn [isTwoPhase andb].
  unfold solveTwoPhase.
  pose proof (normalize_facts (isMinOf type) objCoeffs constraints) as NF.
  pose proof (length_n_heap (isMinOf type) objCoeffs constraints) as HL.
  set (n := normalize (isMinOf type) objCoeffs constraints) in *.
  assert (Hne1 : p1_matrix (preparePhase1 n) <> []).
  { rewrite p1_matrix_eq. apply replaceRow0_nonempty. }
  destruct (runSimplexIterations_facts (p1_matrix (preparePhase1 n)) (n_headers n) 1
              {| st_heap := p1_heap (preparePhase1 n); st_basis := n_basis n;
                 st_steps := [] |} Hne1)
    as (s1 & st1 & Hrun1 & F1).
  rewrite Hrun1. exists s1, st1. split; [reflexivity|]. cbn [bind].
  destruct (isOptimal_cases s1 (run_status _ _ _ _ F1)) as [(-> & _ & ->) | (-> & _ & ->)].
  - split; [discriminate|]. split.
    + intros _ ->. split; reflexivity.
    + intros _ ->.
      destruct (runSimplexIterations_facts
                  (fst (preparePhase2 n (preparePhase1 n) st1)) (n_headers n) 2
                  (snd (preparePhase2 n (preparePhase1 n) st1))
                  (replaceRow0_nonempty _ _)) as (s2 & st2 & Hrun2 & F2).
      exists s2, st2. split; [exact Hrun2|].
      split; [reflexivity|]. split; [reflexivity|].
      (* the saved row was not written to since it was copied *)
      destruct (preparePhase1_keeps n) as [Hlen1 Hsaved].
      rewrite p1_originalObjRow_eq in Hsaved.
      assert (Hnot : ~ In (List.length (n_heap n)) (p1_matrix (preparePhase1 n))).
      { rewrite p1_matrix_eq, (nf_matrix _ _ _ NF). intros Hin.
        apply in_replaceRow0_initMatrix in Hin. rewrite length_app in Hin.
        cbn [List.length] in Hin. lia. }
      destruct (runSimplexIterations_keeps _ _ _ _ _ _ _ Hrun1 Hnot) as [Hlen2 Hkept].
      cbn [st_heap] in Hlen2, Hkept.
      assert (Haddr0 : rowAddr (fst (preparePhase2 n (preparePhase1 n) st1)) 0
                       = List.length (n_heap n)).
      { unfold preparePhase2. cbn [fst].
        rewrite rowAddr_replaceRow0_0. apply p1_originalObjRow_eq. }
      assert (HaddrS : forall r,
                 rowAddr (fst (preparePhase2 n (preparePhase1 n) st1)) (S r)
                 = rowAddr (p1_matrix (preparePhase1 n)) (S r)).
      { intros r. unfold preparePhase2. cbn [fst]. apply rowAddr_replaceRow0_S. }
      assert (Hrestored : rowAt (st_heap st1) (List.length (n_heap n))
                          = rowAt (n_heap n) (rowAddr (n_matrix n) 0))
        by congruence.
      split; [rewrite Haddr0; exact Hrestored|].
      split; [|split; [exact HaddrS|]].
      * rewrite <- Hrestored, <- Haddr0.
        unfold preparePhase2 at 1. cbn [snd st_heap]. unfold rezeroObjective.
        apply rezeroObjective_row.
        -- fold (fst (preparePhase2 n (preparePhase1 n) st1)).
           rewrite Haddr0, Hlen2, Hlen1. lia.
        -- fold (fst (preparePhase2 n (preparePhase1 n) st1)).
           rewrite Haddr0. unfold rowLength. rewrite Hrestored.
           rewrite (nf_matrix _ _ _ NF), rowAddr_initMatrix by lia.
           apply (nf_row0 _ _ _ NF).
        -- intros k b Hin.
           fold (fst (preparePhase2 n (preparePhase1 n) st1)).
           rewrite Haddr0, Nat.add_1_r, HaddrS, p1_matrix_eq, rowAddr_replaceRow0_S.
           apply in_indexed in Hin.
           rewrite (run_basis_length _ _ _ _ F1) in Hin.
           ++ cbn [st_basis] in Hin. rewrite (nf_basis_length _ _ _ NF) in Hin.
              rewrite (nf_matrix _ _ _ NF), rowAddr_initMatrix by lia. lia.
           ++ cbn [st_basis]. rewrite (nf_basis_length _ _ _ NF).
              rewrite p1_matrix_eq, length_replaceRow0.
              ** rewrite (nf_matrix _ _ _ NF). unfold initMatrix.
                 rewrite length_seq. lia.
              ** rewrite (nf_matrix _ _ _ NF). apply initMatrix_nonempty.
      * intros Hs2.
        destruct (preparePhase2 n (preparePhase1 n) st1) as [matrix2 st1'].
        cbn [fst snd] in Hrun2. rewrite Hrun2. cbn [bind].
        destruct (isOptimal_cases s2 (run_status _ _ _ _ F2))
          as [(-> & _) | (-> & -> & _)]; [congruence|].
        split; reflexivity.
  - split; [intros _; split; reflexivity|].
    split; intros Hs; congruence.
Qed.

(** Under TWO_PHASE the sample without a feasible point ends phase 1 with
    the auxiliary objective at [-3]: INFEASIBLE, with the two steps of
    phase 1 as the trace. *)
Lemma two_phase_flow_infeasible_sample :
  artificialVars infeasibleConstraints <> []
  /\ status (solveLinearProgram TWO_PHASE MAX [1%float] infeasibleConstraints) = INFEASIBLE
  /\ List.length (steps (solveLinearProgram TWO_PHASE MAX [1%float] infeasibleConstraints)) = 2.
Proof.
  assert (Hart : artificialVars infeasibleConstraints <> []) by (vm_compute; discriminate).
  split; [exact Hart|].
  destruct (two_phase_flow MAX [1%float] infeasibleConstraints Hart)
    as (s1 & st1 & Hrun & _ & Hinf & _).
  vm_compute in Hrun. injection Hrun as <- <-.
  destruct Hinf as [Hstatus Hsteps]; [discriminate | vm_compute; reflexivity |].
  split; [exact Hstatus|]. rewrite Hsteps. reflexivity.
Defined.

(** * Which headers start with ['a'] *)

Lemma headerAt_app_l (l1 l2 : list string) (i : nat) :
  i < List.length l1 -> headerAt (l1 ++ l2) i = headerAt l1 i.
Proof. intros Hi. unfold headerAt. now apply app_nth1. Qed.

Lemma headerAt_app_r (l1 l2 : list string) (i : nat) :
  List.length l1 <= i -> headerAt (l1 ++ l2) i = headerAt l2 (i - List.length l1).
Proof. intros Hi. unfold headerAt. now apply app_nth2. Qed.

Lemma headerAt_Forall (P : string -> Prop) (l : list string) (i : nat) :
  Forall P l -> i < List.length l -> P (headerAt l i).
Proof.
  intros Hall Hi. rewrite Forall_forall in Hall. apply Hall.
  unfold headerAt. now apply nth_In.
Qed.

Lemma decisionHeaders_not_a n :
  Forall (fun h => startsWithA h = false) ("Z" :: decisionHeaders n).
Proof.
  constructor; [reflexivity|]. unfold decisionHeaders.
  apply Forall_forall. intros h Hin. apply in_map_iff in Hin as (i & <- & _).
  reflexivity.
Qed.

Lemma slackVars_not_a l : Forall (fun h => startsWithA h = false) (slackVars l).
Proof.
  unfold slackVars. apply Forall_flat_map. apply Forall_forall. intros [i c] _.
  cbn [fst snd]. destruct (relation c); repeat constructor.
Qed.

Lemma surplusVars_not_a l : Forall (fun h => startsWithA h = false) (surplusVars l).
Proof.
  unfold surplusVars. apply Forall_flat_map. apply Forall_forall. intros [i c] _.
  cbn [fst snd]. destruct (relation c); repeat constructor.
Qed.

Lemma artificialVars_a l : Forall (fun h => startsWithA h = true) (artificialVars l).
Proof.
  unfold artificialVars. apply Forall_flat_map. apply Forall_forall. intros [i c] _.
  cbn [fst snd].
  destruct (relation c); repeat constructor; apply (prefix_append "a").
Qed.

(** The header of a column starts with ['a'] exactly when the column is an
    artificial one. *)
Lemma artificial_header_iff (n : nat) (constraints : list Constraint) (i : nat) :
  i < List.length (buildHeaders n constraints) ->
  startsWithA (headerAt (buildHeaders n constraints) i) = true
  <-> artificialColumn n constraints i.
Proof.
  intros Hi. rewrite length_buildHeaders in Hi.
  unfold artificialColumn, buildHeaders.
  pose proof (decisionHeaders_not_a n) as H0.
  pose proof (slackVars_not_a constraints) as H1.
  pose proof (surplusVars_not_a constraints) as H2.
  pose proof (artificialVars_a constraints) as H3.
  assert (L0 : List.length ("Z" :: decisionHeaders n) = 1 + n).
  { simpl. unfold decisionHeaders. now rewrite length_map, length_seq. }
  pose proof (length_slackVars constraints) as L1.
  pose proof (length_surplusVars constraints) as L2.
  pose proof (length_artificialVars constraints) as L3.
  destruct (Nat.lt_ge_cases i (1 + n)) as [C0|C0].
  { rewrite headerAt_app_l by lia.
    rewrite (headerAt_Forall _ _ i H0) by lia. split; [discriminate | lia]. }
  rewrite headerAt_app_r by lia. rewrite L0.
  destruct (Nat.lt_ge_cases (i - (1 + n)) (countSlack constraints)) as [C1|C1].
  { rewrite headerAt_app_l by lia.
    rewrite (headerAt_Forall _ _ _ H1) by lia. split; [discriminate | lia]. }
  rewrite headerAt_app_r by lia. rewrite L1.
  destruct (Nat.lt_ge_cases (i - (1 + n) - countSlack constraints)
                            (countSurplus constraints)) as [C2|C2].
  { rewrite headerAt_app_l by lia.
    rewrite (headerAt_Forall _ _ _ H2) by lia. split; [discriminate | lia]. }
  rewrite headerAt_app_r by lia. rewrite L2.
  destruct (Nat.lt_ge_cases (i - (1 + n) - countSlack constraints - countSurplus constraints)
                            (countArtificial constraints)) as [C3|C3].
  { rewrite headerAt_app_l by lia.
    rewrite (headerAt_Forall _ _ _ H3) by lia. split; [lia | reflexivity]. }
  rewrite headerAt_app_r by lia. rewrite L3.
  replace (i - (1 + n) - countSlack constraints - countSurplus constraints
           - countArtificial constraints) with 0 by lia.
  split; [discriminate | lia].
Qed.

(** * The body of the [try] block on well-typed input *)

Lemma length_n_matrix objCoeffs constraints n :
  NormalizedFacts objCoeffs constraints n ->
  List.length (n_matrix n) = List.length constraints + 1.
Proof.
  intros NF. rewrite (nf_matrix _ _ _ NF). unfold initMatrix. apply length_seq.
Qed.

Lemma tryResult_cases (s : Status) (st : EngineState) (x : Result SolveResult) :
  (exists r, x = Ok r) ->
  exists r, (if negb (isOptimal s) then Ok (earlyReturn s st) else x) = Ok r.
Proof. intros [r ->]. destruct (negb (isOptimal s)); eexists; reflexivity. Qed.

(** No operation of the body raises: every row that is indexed exists and
    every basis entry has a header. *)
Lemma solveBody_returns method type objCoeffs constraints :
  exists r, solveBody method type objCoeffs constraints = Ok r.
Proof.
  unfold solveBody. fold (isMinOf type).
  pose proof (normalize_facts (isMinOf type) objCoeffs constraints) as NF.
  pose proof (length_n_matrix _ _ _ NF) as Hrows.
  set (n := normalize (isMinOf type) objCoeffs constraints) in *.
  assert (Hne : n_matrix n <> []).
  { rewrite (nf_matrix _ _ _ NF). apply initMatrix_nonempty. }
  destruct (isTwoPhase method && (0 <? List.length (artificialVars constraints))).
  - unfold solveTwoPhase.
    assert (Hne1 : p1_matrix (preparePhase1 n) <> []).
    { rewrite p1_matrix_eq. apply replaceRow0_nonempty. }
    assert (Hrows1 : List.length (p1_matrix (preparePhase1 n))
                     = List.length constraints + 1).
    { rewrite p1_matrix_eq, length_replaceRow0; assumption. }
    destruct (runSimplexIterations_facts (p1_matrix (preparePhase1 n)) (n_headers n) 1
                {| st_heap := p1_heap (preparePhase1 n); st_basis := n_basis n;
                   st_steps := [] |} Hne1)
      as (s1 & st1 & -> & F1).
    cbn [bind].
    assert (Hlen1 : List.length (st_basis st1) = List.length constraints).
    { rewrite (run_basis_length _ _ _ _ F1); cbn [st_basis];
        rewrite (nf_basis_length _ _ _ NF); [reflexivity | lia]. }
    destruct (isUnbounded s1); [eexists; reflexivity|].
    destruct (gt _ feasTol); [eexists; reflexivity|].
    unfold preparePhase2.
    match goal with
    | |- context [runSimplexIterations ?m2 ?hd 2 ?st1'] =>
        destruct (runSimplexIterations_facts m2 hd 2 st1' (replaceRow0_nonempty _ _))
          as (s2 & st2 & -> & F2)
    end.
    cbn [bind]. apply tryResult_cases. apply extractResults_ok.
    rewrite (run_basis_length _ _ _ _ F2); cbn [st_basis];
      rewrite length_replaceRow0 by assumption; lia.
  - destruct (isBigM method && (0 <? List.length (artificialVars constraints))).
    + unfold solveBigM.
      destruct (runSimplexIterations_facts (n_matrix n) (n_headers n) 0
                  {| st_heap := prepareBigM n; st_basis := n_basis n; st_steps := [] |} Hne)
        as (s & st & -> & F).
      cbn [bind].
      assert (Hlen : List.length (st_basis st) = List.length constraints).
      { rewrite (run_basis_length _ _ _ _ F); cbn [st_basis];
          rewrite (nf_basis_length _ _ _ NF); [reflexivity | lia]. }
      assert (Hentries : Forall (fun b => b < List.length (n_headers n)) (st_basis st)).
      { apply (run_basis_entries _ _ _ _ F).
        - cbn [st_basis]. rewrite (nf_basis_length _ _ _ NF). lia.
        - cbn [st_heap]. intros c Hc.
          pose proof (prepareBigM_row0 _ _ _ NF) as Hrow0. unfold rowLength in Hrow0.
          rewrite Hrow0 in Hc. lia.
        - cbn [st_basis]. eapply Forall_impl; [|apply (nf_basis_entries _ _ _ NF)].
          intros b Hb. cbv beta in Hb. rewrite (nf_colCount _ _ _ NF) in Hb. lia. }
      apply tryResult_cases.
      destruct (artInBasis_spec (n_headers n) (n_matrix n) (n_colCount n - 1) st)
        as (b & -> & _); [lia | assumption |].
      cbn [bind]. destruct b; [eexists; reflexivity|].
      apply extractResults_ok. lia.
    + unfold solveStandard.
      destruct (runSimplexIterations_facts (n_matrix n) (n_headers n) 0
                  {| st_heap := n_heap n; st_basis := n_basis n; st_steps := [] |} Hne)
        as (s & st & -> & F).
      cbn [bind]. apply tryResult_cases. apply extractResults_ok.
      rewrite (run_basis_length _ _ _ _ F); cbn [st_basis];
        rewrite (nf_basis_length _ _ _ NF); lia.
Qed.

(** So the handler is never reached from well-typed input. *)
Lemma solve_status_not_error method type objCoeffs constraints :
  status (solveLinearProgram method type objCoeffs constraints) <> ERROR.
Proof.
  destruct (solveBody_returns method type objCoeffs constraints) as [r Hr].
  pose proof (body_outcome method type objCoeffs constraints) as H.
  unfold solveLinearProgram. rewrite Hr in *. cbn [tryCatch BodyOutcome] in *.
  destruct H as (s & prior & pre & t & _ & Hend & Hstatus & _).
  destruct Hend as [[-> _] | [[-> _] | (-> & _)]];
    destruct Hstatus as [Hs | [Hs' Hs]]; congruence.
Qed.

(** C9: [solveLinearProgram] never raises to its caller.  On arguments of
    the declared types nothing is raised at all: the [try] block returns,
    and the result is OPTIMAL, INFEASIBLE or UNBOUNDED without an error
    message.  When an argument is [undefined], or a constraint is, the [try]
    block raises a TypeError; the handler turns it into the result with
    status ERROR, the generic message, no values and no steps. *)
Theorem solve_never_raises
        (method : SolverMethod) (type : OptimizationType)
        (objCoeffs : option (list number))
        (constraints : option (list (option Constraint))) :
  let result := solveLinearProgramJs method type objCoeffs constraints in
  match typedArguments objCoeffs constraints with
  | Some (oc, cs) =>
      solveBodyJs method type objCoeffs constraints = Ok result
      /\ result = solveLinearProgram method type oc cs
      /\ (status result = OPTIMAL \/ status result = INFEASIBLE
          \/ status result = UNBOUNDED)
      /\ errorMessage result = None
  | None =>
      solveBodyJs method type objCoeffs constraints = Throw TypeError
      /\ status result = ERROR
      /\ steps result = []
      /\ finalValues result = []
      /\ zValue result = 0%float
      /\ errorMessage result = Some "Error interno de cálculo"
  end.
Proof.
  cbv zeta. unfold solveLinearProgramJs, solveBodyJs, typedArguments.
  destruct objCoeffs as [oc|]; [|repeat split; reflexivity].
  destruct constraints as [cs|]; [|repeat split; reflexivity].
  destruct (allDefined cs) as [l|]; [|repeat split; reflexivity].
  destruct (solveBody_returns method type oc l) as [r Hr].
  pose proof (body_outcome method type oc l) as Hout.
  unfold solveLinearProgram. rewrite Hr in *. cbn [tryCatch BodyOutcome] in *.
  destruct Hout as (s & prior & pre & t & _ & Hend & Hstatus & _ & Hmsg).
  repeat split; try assumption.
  destruct Hend as [[-> _] | [[-> _] | (-> & _)]];
    destruct Hstatus as [Hs | [Hs' Hs]]; try congruence; auto.
Qed.

(** A call with one constraint and an [undefined] one. *)
Lemma solve_never_raises_sample :
  let result := solveLinearProgramJs SIMPLEX MAX (Some [1%float])
                  (Some [Some (mkConstraint [1%float] LE 4%float); None]) in
  solveBodyJs SIMPLEX MAX (Some [1%float])
              (Some [Some (mkConstraint [1%float] LE 4%float); None]) = Throw TypeError
  /\ status result = ERROR
  /\ steps result = []
  /\ finalValues result = []
  /\ zValue result = 0%float
  /\ errorMessage result = Some "Error interno de cálculo".
Proof.
  exact (solve_never_raises SIMPLEX MAX (Some [1%float])
           (Some [Some (mkConstraint [1%float] LE 4%float); None])).
Defined.

(** The status BIG_M returns, from the result of its run of the engine. *)
Lemma solveBigM_status (type : OptimizationType) (objCoeffs : list number)
      (constraints : list Constraint) :
  artificialVars constraints <> [] ->
  let n := normalize (isMinOf type) objCoeffs constraints in
  let result := solveLinearProgram BIG_M type objCoeffs constraints in
  exists res st,
    runSimplexIterations (n_matrix n) (n_headers n) 0
      {| st_heap := prepareBigM n; st_basis := n_basis n; st_steps := [] |}
    = Ok (res, st)
    /\ (res <> OPTIMAL -> status result = res)
    /\ (res = OPTIMAL ->
        artificialAtPositiveLevel (n_headers n) (n_matrix n) (n_colCount n - 1) st ->
        status result = INFEASIBLE)
    /\ (res = OPTIMAL ->
        ~ artificialAtPositiveLevel (n_headers n) (n_matrix n) (n_colCount n - 1) st ->
        status result = OPTIMAL).
Proof.
  intros Hart. cbv zeta.
  unfold solveLinearProgram, solveBody. fold (isMinOf type).
  rewrite (hasArtificials_true _ Hart). cbn [isTwoPhase isBigM andb].
  unfold solveBigM.
  pose proof (normalize_facts (isMinOf type) objCoeffs constraints) as NF.
  set (n := normalize (isMinOf type) objCoeffs constraints) in *.
  assert (Hne : n_matrix n <> []).
  { rewrite (nf_matrix _ _ _ NF). apply initMatrix_nonempty. }
  assert (Hrows : List.length (n_matrix n) = List.length (n_basis n) + 1).
  { rewrite (nf_matrix _ _ _ NF), (nf_basis_length _ _ _ NF).
    unfold initMatrix. apply length_seq. }
  destruct (runSimplexIterations_facts (n_matrix n) (n_headers n) 0
              {| st_heap := prepareBigM n; st_basis := n_basis n; st_steps := [] |} Hne)
    as (s & st & -> & F).
  exists s, st. split; [reflexivity|]. cbn [bind].
  assert (Hlen : List.length (st_basis st) = List.length (n_basis n)).
  { apply (run_basis_length _ _ _ _ F). cbn [st_basis]. lia. }
  assert (Hentries : Forall (fun b => b < List.length (n_headers n)) (st_basis st)).
  { apply (run_basis_entries _ _ _ _ F).
    - cbn [st_basis]. lia.
    - cbn [st_heap]. intros c Hc.
      pose proof (prepareBigM_row0 _ _ _ NF) as Hrow0. unfold rowLength in Hrow0.
      rewrite Hrow0 in Hc. lia.
    - cbn [st_basis]. eapply Forall_impl; [|apply (nf_basis_entries _ _ _ NF)].
      intros b Hb. cbv beta in Hb. rewrite (nf_colCount _ _ _ NF) in Hb. lia. }
  destruct (isOptimal_cases s (run_status _ _ _ _ F)) as [(-> & -> & _) | (-> & -> & _)];
    cbn [negb].
  - split; [congruence|].
    destruct (artInBasis_spec (n_headers n) (n_matrix n) (n_colCount n - 1) st)
      as (b & -> & Hiff); [lia | assumption |].
    cbn [bind].
    destruct (extractResults_ok (isMinOf type) (n_headers n) (n_matrix n)
                                (n_colCount n - 1) st) as (r & Hr); [lia|].
    destruct b.
    + split; [reflexivity|]. intros _ Hno. exfalso. apply Hno. now apply Hiff.
    + split.
      * intros _ Hyes. apply Hiff in Hyes. discriminate.
      * intros _ _. rewrite Hr. cbn [tryCatch].
        apply (extractResults_inv _ _ _ _ _ _ Hr).
  - split; [reflexivity|]. split; intros; congruence.
Qed.

(** C6: BIG_M with an artificial variable.  A result of the engine other
    than OPTIMAL is returned; on OPTIMAL the status is INFEASIBLE when some
    basis entry names an artificial column whose row has a right-hand side
    above [1e-5], and stays OPTIMAL otherwise.  The program recognises an
    artificial variable by the first letter of its header; the last part
    states that, among the columns of the tableau, this singles out exactly
    the artificial columns. *)
Theorem bigM_feasibility_check (type : OptimizationType) (objCoeffs : list number)
        (constraints : list Constraint) :
  artificialVars constraints <> [] ->
  let n := normalize (isMinOf type) objCoeffs constraints in
  let result := solveLinearProgram BIG_M type objCoeffs constraints in
  exists res st,
    runSimplexIterations (n_matrix n) (n_headers n) 0
      {| st_heap := prepareBigM n; st_basis := n_basis n; st_steps := [] |}
    = Ok (res, st)
    /\ (res <> OPTIMAL -> status result = res)
    /\ (res = OPTIMAL ->
        artificialAtPositiveLevel (n_headers n) (n_matrix n) (n_colCount n - 1) st ->
        status result = INFEASIBLE)
    /\ (res = OPTIMAL ->
        ~ artificialAtPositiveLevel (n_headers n) (n_matrix n) (n_colCount n - 1) st ->
        status result = OPTIMAL)
    /\ (forall colIdx, colIdx < n_colCount n ->
        startsWithA (headerAt (n_headers n) colIdx) = true
        <-> artificialColumn (List.length objCoeffs) constraints colIdx).
Proof.
  intros Hart n result.
  destruct (solveBigM_status type objCoeffs constraints Hart)
    as (res & st & Hrun & Hother & Hinfeasible & Hoptimal).
  exists res, st.
  split; [exact Hrun|]. split; [exact Hother|].
  split; [exact Hinfeasible|]. split; [exact Hoptimal|].
  intros colIdx Hcol.
  pose proof (normalize_facts (isMinOf type) objCoeffs constraints) as NF.
  fold n in NF. rewrite (nf_colCount _ _ _ NF) in Hcol.
  rewrite (nf_headers _ _ _ NF) in *. now apply artificial_header_iff.
Qed.

(** Under BIG_M the same sample ends with [a1] basic at level 3. *)
Lemma bigM_feasibility_check_infeasible_sample :
  artificialVars infeasibleConstraints <> []
  /\ status (solveLinearProgram BIG_M MAX [1%float] infeasibleConstraints) = INFEASIBLE.
Proof.
  assert (Hart : artificialVars infeasibleConstraints <> []) by (vm_compute; discriminate).
  split; [exact Hart|].
  destruct (bigM_feasibility_check MAX [1%float] infeasibleConstraints Hart)
    as (res & st & Hrun & _ & Hinf & _).
  vm_compute in Hrun. injection Hrun as <- <-.
  apply Hinf; [reflexivity|].
  exists 0, 4. vm_compute. repeat split; reflexivity.
Defined.

(** * The canonical form along a run *)

(** * Exact zeros and ones *)

Lemma strictEq_zero_cases x :
  strictEq x 0%float = true -> exists s, Prim2SF x = S754_zero s.
Proof.
  unfold strictEq. rewrite eqb_spec. change (Prim2SF 0) with (S754_zero false).
  destruct (Prim2SF x) as [s|s| |s m e]; simpl; try discriminate; eauto;
    destruct s; discriminate.
Qed.

Lemma zero_strictEq x s : Prim2SF x = S754_zero s -> strictEq x 0%float = true.
Proof.
  intros E. unfold strictEq. rewrite eqb_spec, E. reflexivity.
Qed.

Lemma strictEq_one x : strictEq x 1%float = true -> x = 1%float.
Proof.
  unfold strictEq. rewrite eqb_spec. change (Prim2SF 1) with SFoneV.
  intros H. apply Prim2SF_inj. change (Prim2SF 1) with SFoneV.
  destruct (Prim2SF x) as [s|s| |s m e]; simpl in H; try discriminate;
    try (destruct s; discriminate).
  unfold SFoneV in *. apply FloatFacts.SFeqb_finite in H.
  destruct H as (-> & -> & ->). reflexivity.
Qed.

Lemma gt_tol_cases p :
  gt p tol = true ->
  Prim2SF p = S754_infinity false \/ exists m e, Prim2SF p = S754_finite false m e.
Proof.
  unfold gt. rewrite ltb_spec.
  assert (Ht : exists m e, Prim2SF tol = S754_finite false m e)
    by (vm_compute; eauto).
  destruct Ht as (m0 & e0 & ->).
  destruct (Prim2SF p) as [s|s| |s m e]; simpl; try discriminate.
  - destruct s; [discriminate | auto].
  - destruct s; [|eauto]. intros H. apply FloatFacts.SFltb_finite in H. contradiction.
Qed.

Lemma zero_div x p :
  strictEq x 0%float = true -> gt p tol = true -> strictEq (x / p)%float 0%float = true.
Proof.
  intros Hx Hp. destruct (strictEq_zero_cases x Hx) as [s Ex].
  destruct (gt_tol_cases p Hp) as [Ep | (m & e & Ep)].
  - apply (zero_strictEq _ (xorb s false)). rewrite div_spec, Ex, Ep. reflexivity.
  - apply (zero_strictEq _ (xorb s false)). rewrite div_spec, Ex, Ep. reflexivity.
Qed.

Lemma mul_zero f z :
  is_finite f = true -> strictEq z 0%float = true -> strictEq (f * z)%float 0%float = true.
Proof.
  intros Hf Hz. destruct (strictEq_zero_cases z Hz) as [s Ez].
  destruct (FloatFacts.is_finite_cases f Hf) as [[s' Ef] | (s' & m & e & Ef)].
  - apply (zero_strictEq _ (xorb s' s)). rewrite mul_spec, Ef, Ez. reflexivity.
  - apply (zero_strictEq _ (xorb s' s)). rewrite mul_spec, Ef, Ez. reflexivity.
Qed.

Lemma sub_zero_keeps x y (t : bool) :
  strictEq x (if t then 1%float else 0%float) = true ->
  strictEq y 0%float = true ->
  strictEq (x - y)%float (if t then 1%float else 0%float) = true.
Proof.
  intros Hx Hy. destruct (strictEq_zero_cases y Hy) as [s Ey].
  destruct t.
  - apply strictEq_one in Hx. subst x.
    unfold strictEq. rewrite eqb_spec, sub_spec, Ey.
    change (Prim2SF 1) with SFoneV. destruct s; reflexivity.
  - destruct (strictEq_zero_cases x Hx) as [s' Ex].
    unfold strictEq. rewrite eqb_spec, sub_spec, Ex, Ey.
    destruct s, s'; reflexivity.
Qed.

Lemma exact_within x (t : bool) :
  strictEq x (if t then 1%float else 0%float) = true ->
  within x (if t then 1%float else 0%float) = true.
Proof.
  intros Hx. destruct t.
  - apply strictEq_one in Hx. subst x. reflexivity.
  - destruct (strictEq_zero_cases x Hx) as [s Ex].
    unfold within, Math_abs. rewrite leb_spec, abs_spec, sub_spec, Ex.
    destruct s; vm_compute; reflexivity.
Qed.

(** * Writes to a cell and the other cells *)

Lemma updRow_beyond (h : Heap) (a : nat) (f : Row -> Row) :
  List.length h <= a -> updRow h a f = h.
Proof.
  revert a. induction h as [|row h IH]; intros [|a] Ha; simpl in *; try lia; auto.
  f_equal. apply IH. lia.
Qed.

(** Writing column [c] of a row changes no other column of any row. *)
Lemma cell_setCell_other_column h m r c v r' c' :
  c <> c' -> cell (setCell h m r c v) m r' c' = cell h m r' c'.
Proof.
  intros Hne. unfold cell, setCell.
  destruct (Nat.lt_ge_cases (rowAddr m r) (List.length h)) as [Ha|Ha].
  - destruct (Nat.eq_dec (rowAddr m r') (rowAddr m r)) as [->|Hr].
    + rewrite rowAt_updRow_same by assumption. now apply jsGet_jsSet_other.
    + rewrite rowAt_updRow_other by congruence. reflexivity.
  - now rewrite updRow_beyond.
Qed.

(** The pivot writes to the first [colCount] cells of a row only. *)
Lemma pivot_beyond matrix colCount rowCount leavingRow enteringCol h r c :
  colCount <= c ->
  cell (pivot matrix colCount rowCount leavingRow enteringCol h) matrix r c
  = cell h matrix r c.
Proof.
  intros Hc. unfold pivot, eliminate, normalizeRow, eliminateRow.
  apply (forRange_inv (fun h' => cell h' matrix r c = cell h matrix r c)).
  - intros r0 acc _ Hacc. destruct (r0 =? leavingRow); [assumption|].
    destruct (gt _ tol); [|assumption].
    apply (forRange_inv (fun h' => cell h' matrix r c = cell h matrix r c)); [|assumption].
    intros c0 acc' Hc0 Hacc'. rewrite cell_setCell_other_column by lia. exact Hacc'.
  - apply (forRange_inv (fun h' => cell h' matrix r c = cell h matrix r c)); [|reflexivity].
    intros c0 acc Hc0 Hacc. rewrite cell_setCell_other_column by lia. exact Hacc.
Qed.

Lemma exactColumn_cells h m r b :
  exactColumn h m r b = true <->
  forall r', r' < List.length m ->
             strictEq (cell h m r' b) (if r' =? r then 1%float else 0%float) = true.
Proof.
  unfold exactColumn. rewrite forallb_forall. split.
  - intros H r' Hr'. apply H. apply in_seq. lia.
  - intros H r' Hr'. apply in_seq in Hr'. apply H. lia.
Qed.

Lemma exactColumn_canonical h m r b :
  exactColumn h m r b = true -> canonicalColumn h m r b = true.
Proof.
  unfold exactColumn, canonicalColumn. rewrite !forallb_forall.
  intros H r' Hr'. specialize (H r' Hr').
  destruct (r' =? r).
  - now apply (exact_within _ true).
  - now apply (exact_within _ false).
Qed.

Lemma exactForm_canonical h m basis :
  exactForm h m basis = true -> canonicalForm h m basis = true.
Proof.
  unfold exactForm, canonicalForm. rewrite !forallb_forall.
  intros H kb Hkb. apply exactColumn_canonical. now apply H.
Qed.

Section CanonicalForm.

Variable matrix : Matrix.
Variable hdrs : list string.
Variable phaseNo colCount : nat.

Hypothesis distinct_rows : NoDup matrix.

(** An exact unit column of a row other than the pivot row survives the
    pivot. *)
Lemma pivot_keeps_exact_column (h : Heap) (leavingRow enteringCol r b : nat) :
  Allocated matrix h -> leavingRow < List.length matrix ->
  positivePivot matrix h enteringCol leavingRow = true ->
  (forall r', r' < List.length matrix -> is_finite (cell h matrix r' enteringCol) = true) ->
  r <> leavingRow ->
  exactColumn h matrix r b = true ->
  exactColumn (pivot matrix colCount (List.length matrix) leavingRow enteringCol h)
              matrix r b = true.
Proof.
  intros Halloc Hlr Hpos Hfin Hr Hex.
  rewrite exactColumn_cells in Hex |- *. intros r' Hr'.
  destruct (Nat.lt_ge_cases b colCount) as [Hb|Hb]; [|rewrite pivot_beyond; auto].
  destruct (pivot_spec matrix colCount distinct_rows leavingRow enteringCol h Hlr Halloc)
    as (_ & Hrow & Hrest).
  assert (Hz : strictEq (cell h matrix leavingRow b
                         / cell h matrix leavingRow enteringCol)%float 0%float = true).
  { apply zero_div; [|exact Hpos].
    specialize (Hex leavingRow Hlr).
    destruct (Nat.eqb_spec leavingRow r); [congruence | exact Hex]. }
  destruct (Nat.eq_dec r' leavingRow) as [->|Hne].
  - rewrite Hrow by assumption.
    destruct (Nat.eqb_spec leavingRow r); [congruence | exact Hz].
  - rewrite Hrest by assumption. cbv zeta.
    destruct (gt (Math_abs (cell h matrix r' enteringCol)) tol); [|now apply Hex].
    specialize (Hex r' Hr').
    destruct (r' =? r).
    + apply (sub_zero_keeps _ _ true); [exact Hex|].
      apply mul_zero; [now apply Hfin | exact Hz].
    + apply (sub_zero_keeps _ _ false); [exact Hex|].
      apply mul_zero; [now apply Hfin | exact Hz].
Qed.

(** A clean pivot leaves the entering column as the exact unit column of
    the pivot row. *)
Lemma clean_pivot_exact_column (h : Heap) (leavingRow enteringCol : nat) :
  Allocated matrix h -> leavingRow < List.length matrix -> enteringCol < colCount ->
  positivePivot matrix h enteringCol leavingRow = true ->
  cleanPivot h matrix leavingRow enteringCol = true ->
  exactColumn (pivot matrix colCount (List.length matrix) leavingRow enteringCol h)
              matrix leavingRow enteringCol = true.
Proof.
  intros Halloc Hlr Hec Hpos Hclean.
  unfold cleanPivot in Hclean. rewrite forallb_forall in Hclean.
  assert (Hc : forall r, r < List.length matrix ->
                 is_finite (cell h matrix r enteringCol) = true
                 /\ (r <> leavingRow ->
                     gt (Math_abs (cell h matrix r enteringCol)) tol = false ->
                     strictEq (cell h matrix r enteringCol) 0%float = true)).
  { intros r Hr. specialize (Hclean r ltac:(apply in_seq; lia)).
    apply andb_true_iff in Hclean. destruct Hclean as [Hf Hcase].
    split; [exact Hf|]. intros Hne Hgt. rewrite Hgt, orb_false_r in Hcase.
    destruct (Nat.eqb_spec r leavingRow); [congruence | exact Hcase]. }
  destruct (pivot_spec matrix colCount distinct_rows leavingRow enteringCol h Hlr Halloc)
    as (_ & Hrow & Hrest).
  assert (Hone : (cell h matrix leavingRow enteringCol
                  / cell h matrix leavingRow enteringCol)%float = 1%float).
  { apply FloatFacts.div_self; [apply Hc; lia | exact Hpos]. }
  apply exactColumn_cells. intros r Hr.
  destruct (Nat.eqb_spec r leavingRow) as [->|Hne].
  - rewrite Hrow, Hone by assumption. reflexivity.
  - rewrite Hrest by assumption. cbv zeta. rewrite Hone.
    destruct (gt (Math_abs (cell h matrix r enteringCol)) tol) eqn:Hgt.
    + rewrite FloatFacts.mul_one, FloatFacts.sub_self by (apply Hc; lia). reflexivity.
    + now apply Hc.
Qed.

Lemma cleanPivot_finite (h : Heap) (leavingRow enteringCol : nat) :
  cleanPivot h matrix leavingRow enteringCol = true ->
  forall r, r < List.length matrix -> is_finite (cell h matrix r enteringCol) = true.
Proof.
  unfold cleanPivot. rewrite forallb_forall. intros H r Hr.
  specialize (H r ltac:(apply in_seq; lia)).
  apply andb_true_iff in H. tauto.
Qed.

(** The exact canonical form is kept along a run of clean pivots. *)
Lemma cleanRun_keeps_exact_form (fuel : nat) : forall iter st,
  Allocated matrix (st_heap st) ->
  List.length (st_basis st) + 1 = List.length matrix ->
  exactForm (st_heap st) matrix (st_basis st) = true ->
  cleanRun matrix hdrs phaseNo colCount fuel iter st = true ->
  exactForm (st_heap (snd (whileLoop matrix hdrs phaseNo colCount (List.length matrix)
                                     fuel iter st)))
            matrix
            (st_basis (snd (whileLoop matrix hdrs phaseNo colCount (List.length matrix)
                                      fuel iter st))) = true.
Proof.
  induction fuel as [|fuel IH]; intros iter st Halloc Hlen Hex Hclean; [exact Hex|].
  cbn [whileLoop cleanRun] in *.
  pose proof (findEntering_spec matrix colCount (st_heap st)) as Hes.
  destruct (iteration_cases matrix hdrs phaseNo colCount (List.length matrix) iter st)
    as [He | ec He Hl | ec lr He Hl]; cbn [snd st_heap st_basis]; try exact Hex.
  rewrite He in Hes, Hclean. rewrite Hl in Hclean.
  destruct Hes as (Hec & _).
  pose proof (findLeaving_spec matrix colCount (List.length matrix) (st_heap st) ec) as Hls.
  rewrite Hl in Hls. destruct Hls as (Hlr & Hpos & _).
  apply andb_true_iff in Hclean. destruct Hclean as [Hpivot Hrest].
  cbn [snd] in Hrest.
  apply IH; cbn [st_heap st_basis]; try assumption.
  - intros r Hr.
    destruct (pivot_spec matrix colCount distinct_rows lr ec (st_heap st)) as (-> & _);
      [lia | assumption |]. now apply Halloc.
  - rewrite length_jsSet. lia.
  - unfold exactForm. apply forallb_forall. intros [k b] Hkb.
    apply in_indexed_iff in Hkb. cbn [fst snd].
    destruct (Nat.eq_dec k (lr - 1)) as [->|Hk].
    + rewrite nth_error_jsSet_same in Hkb. injection Hkb as <-.
      replace (lr - 1 + 1) with lr by lia.
      apply clean_pivot_exact_column; try assumption; lia.
    + assert (Hkl : k < List.length (st_basis st)).
      { assert (Hs : k < List.length (jsSet 0 (lr - 1) ec (st_basis st)))
          by (apply nth_error_Some; congruence).
        rewrite length_jsSet in Hs. lia. }
      rewrite nth_error_jsSet_other in Hkb by (auto; lia).
      apply pivot_keeps_exact_column; try assumption; try lia.
      * now apply cleanPivot_finite with (leavingRow := lr).
      * unfold exactForm in Hex. rewrite forallb_forall in Hex.
        apply (Hex (k, b)). now apply in_indexed_iff.
Qed.

End CanonicalForm.

(** C3 (as amended).  On a tableau whose rows are distinct objects: a
    pivot that finds finite entries in its entering column leaves that
    column as the unit column of the pivot row within the tolerance [1e-9]
    (1 at the pivot row, 0 at every other row, the objective row included),
    and every column that was exactly the unit column of another row (exactly
    1 and exactly 0) is still exactly so; hence, along a run that starts from
    an exactly canonical tableau and in which every pivot finds finite
    entries in its entering column and skips only entries that are exactly
    0, the tableau is in canonical form for the basis after every pivot. *)
Theorem canonical_form_after_pivots
        (matrix : Matrix) (hdrs : list string) (phaseNo colCount : nat) :
  NoDup matrix ->
  (forall (iter : nat) (st : EngineState) (enteringCol leavingRow : nat),
      Allocated matrix (st_heap st) ->
      fst (findEntering matrix colCount (st_heap st)) = Some enteringCol ->
      fst (findLeaving matrix colCount (List.length matrix) (st_heap st) enteringCol)
      = Some leavingRow ->
      (forall r, r < List.length matrix ->
                 is_finite (cell (st_heap st) matrix r enteringCol) = true) ->
      let result := iteration matrix hdrs phaseNo colCount (List.length matrix) iter st in
      fst result = Continue
      /\ nth_error (st_basis (snd result)) (leavingRow - 1) = Some enteringCol
      /\ canonicalColumn (st_heap (snd result)) matrix leavingRow enteringCol = true
      /\ (forall r b, r <> leavingRow ->
                      exactColumn (st_heap st) matrix r b = true ->
                      exactColumn (st_heap (snd result)) matrix r b = true))
  /\ (forall (fuel iter : nat) (st : EngineState),
        Allocated matrix (st_heap st) ->
        List.length (st_basis st) + 1 = List.length matrix ->
        exactForm (st_heap st) matrix (st_basis st) = true ->
        cleanRun matrix hdrs phaseNo colCount fuel iter st = true ->
        let st' := snd (whileLoop matrix hdrs phaseNo colCount (List.length matrix)
                                  fuel iter st) in
        exactForm (st_heap st') matrix (st_basis st') = true
        /\ canonicalForm (st_heap st') matrix (st_basis st') = true).
Proof.
  intros Hnd. split.
  - intros iter st enteringCol leavingRow Halloc He Hl Hfin. cbv zeta.
    unfold iteration. rewrite He, Hl. cbn [fst snd st_heap st_basis].
    split; [reflexivity|].
    split; [apply nth_error_jsSet_same|].
    pose proof (findEntering_spec matrix colCount (st_heap st)) as Hes.
    rewrite He in Hes. destruct Hes as (Hec & _).
    pose proof (findLeaving_spec matrix colCount (List.length matrix) (st_heap st)
                                 enteringCol) as Hls.
    rewrite Hl in Hls. destruct Hls as (Hlr & Hpos & _).
    split.
    + destruct (pivot_spec matrix colCount Hnd leavingRow enteringCol (st_heap st))
        as (_ & Hrow & Hrest); [lia | assumption |].
      assert (Hone : cell (pivot matrix colCount (List.length matrix) leavingRow
                                 enteringCol (st_heap st)) matrix leavingRow enteringCol
                     = 1%float).
      { rewrite Hrow by lia. apply FloatFacts.div_self; [apply Hfin; lia | exact Hpos]. }
      unfold canonicalColumn. apply forallb_forall. intros r Hr.
      apply in_seq in Hr. simpl in Hr.
      destruct (Nat.eqb_spec r leavingRow) as [->|Hne].
      * rewrite Hone. exact within_one_one.
      * rewrite Hrest by lia. cbv zeta.
        rewrite Hrow in Hone by lia. rewrite Hone.
        destruct (gt (Math_abs (cell (st_heap st) matrix r enteringCol)) tol) eqn:Hgt.
        -- rewrite FloatFacts.mul_one, FloatFacts.sub_self by (apply Hfin; lia).
           exact within_zero_zero.
        -- apply FloatFacts.small_within_zero; [apply Hfin; lia | exact Hgt].
    + intros r b Hr Hex.
      apply (pivot_keeps_exact_column matrix colCount Hnd); try assumption; lia.
  - intros fuel iter st Halloc Hlen Hex Hclean. cbv zeta.
    pose proof (cleanRun_keeps_exact_form matrix hdrs phaseNo colCount Hnd fuel iter st
                  Halloc Hlen Hex Hclean) as H.
    split; [exact H | now apply exactForm_canonical].
Qed.

(** The sample run: the first pivot ([x2] enters in row 2) keeps the slack
    columns of rows 1 and 3, and the whole run, two clean pivots, ends in
    canonical form. *)
Lemma canonical_form_after_pivots_sample :
  NoDup (n_matrix sampleInitial)
  /\ (let result := iteration (n_matrix sampleInitial) (n_headers sampleInitial) 0
                              (n_colCount sampleInitial)
                              (List.length (n_matrix sampleInitial)) 0 sampleState in
      fst result = Continue
      /\ nth_error (st_basis (snd result)) (2 - 1) = Some 2
      /\ canonicalColumn (st_heap (snd result)) (n_matrix sampleInitial) 2 2 = true
      /\ exactColumn (st_heap (snd result)) (n_matrix sampleInitial) 1 3 = true
      /\ exactColumn (st_heap (snd result)) (n_matrix sampleInitial) 3 5 = true)
  /\ (let st' := snd (whileLoop (n_matrix sampleInitial) (n_headers sampleInitial) 0
                                (n_colCount sampleInitial)
                                (List.length (n_matrix sampleInitial))
                                maxIter 0 sampleState) in
      st_basis st' = [3; 2; 1]
      /\ exactForm (st_heap st') (n_matrix sampleInitial) (st_basis st') = true
      /\ canonicalForm (st_heap st') (n_matrix sampleInitial) (st_basis st') = true).
Proof.
  assert (Hnd : NoDup (n_matrix sampleInitial)).
  { vm_compute. repeat constructor; simpl; intuition lia. }
  assert (Halloc : Allocated (n_matrix sampleInitial) (st_heap sampleState)).
  { intros r Hr. vm_compute in Hr.
    do 4 (destruct r as [|r]; [vm_compute; lia|]). lia. }
  destruct (canonical_form_after_pivots
              (n_matrix sampleInitial) (n_headers sampleInitial) 0
              (n_colCount sampleInitial) Hnd) as [Hpivot Hrun].
  split; [exact Hnd|]. split.
  - destruct (Hpivot 0 sampleState 2 2 Halloc) as (H1 & H2 & H3 & H4).
    + vm_compute. reflexivity.
    + vm_compute. reflexivity.
    + intros r Hr. vm_compute in Hr.
      do 4 (destruct r as [|r]; [vm_compute; reflexivity|]). lia.
    + cbv zeta. split; [exact H1|]. split; [exact H2|]. split; [exact H3|].
      split; apply H4; try lia; vm_compute; reflexivity.
  - destruct (Hrun maxIter 0 sampleState Halloc) as [H1 H2].
    + vm_compute. reflexivity.
    + vm_compute. reflexivity.
    + vm_compute. reflexivity.
    + cbv zeta. split; [vm_compute; reflexivity|]. split; [exact H1 | exact H2].
Defined.

Lemma fill_initialBasis (matrix : Matrix) (RHS_COL : nat) :
  forall l k s,
  List.length (initialBasis s) = k ->
  initialBasis (fold_left (fillConstraint matrix RHS_COL)
                          (combine (seq k (List.length l)) l) s)
  = initialBasis s ++ basisColumns (currentSlackIdx s) (currentArtificialIdx s) l.
Proof.
  induction l as [|c t IH]; intros k s Hlen.
  - simpl. now rewrite app_nil_r.
  - cbn [List.length seq combine fold_left basisColumns].
    rewrite (IH (S k)).
    + unfold fillConstraint. cbn [fst snd].
      destruct (relation c);
        cbn [initialBasis currentSlackIdx currentArtificialIdx];
        rewrite <- Hlen, jsSet_at_length, <- app_assoc; reflexivity.
    + unfold fillConstraint. cbn [fst snd].
      destruct (relation c); cbn [initialBasis];
        rewrite <- Hlen, jsSet_at_length, length_app; simpl; lia.
Qed.

Lemma n_basis_eq isMin objCoeffs constraints :
  n_basis (normalize isMin objCoeffs constraints)
  = basisColumns (1 + List.length objCoeffs)
                 (1 + List.length objCoeffs + countSlack constraints
                  + countSurplus constraints) constraints.
Proof.
  unfold normalize. cbn [n_basis]. unfold indexed.
  rewrite (fill_initialBasis _ _ constraints 0) by reflexivity.
  cbn [initialBasis currentSlackIdx currentArtificialIdx app].
  now rewrite length_slackVars, length_surplusVars.
Qed.

Lemma length_basisColumns l : forall s a, List.length (basisColumns s a l) = List.length l.
Proof.
  induction l as [|c t IH]; intros s a; [reflexivity|].
  cbn [basisColumns]. destruct (relation c); simpl; now rewrite IH.
Qed.

Lemma basisColumns_bounds l : forall s a,
  Forall (fun b => s <= b < s + countSlack l \/ a <= b < a + countArtificial l)
         (basisColumns s a l).
Proof.
  induction l as [|c t IH]; intros s a; [constructor|].
  cbn [basisColumns countSlack countArtificial].
  destruct (relation c); (constructor; [lia|]).
  - eapply Forall_impl; [|apply (IH (s + 1) a)]. cbv beta. intros b Hb. lia.
  - eapply Forall_impl; [|apply (IH s (a + 1))]. cbv beta. intros b Hb. lia.
  - eapply Forall_impl; [|apply (IH s (a + 1))]. cbv beta. intros b Hb. lia.
Qed.

Lemma normalize_basis_ok isMin objCoeffs constraints :
  let n := normalize isMin objCoeffs constraints in
  BasisOk (n_colCount n) (List.length constraints + 1) (n_basis n).
Proof.
  cbv zeta. rewrite n_basis_eq. split.
  - now rewrite length_basisColumns.
  - unfold normalize. cbn [n_colCount]. rewrite length_buildHeaders.
    eapply Forall_impl; [|apply basisColumns_bounds]. cbv beta. intros b Hb. lia.
Qed.

Lemma iteration_basis_ok matrix hdrs phaseNo colCount rowCount iter st :
  BasisOk colCount rowCount (st_basis st) ->
  BasisOk colCount rowCount
          (st_basis (snd (iteration matrix hdrs phaseNo colCount rowCount iter st))).
Proof.
  intros [Hlen Hall].
  destruct (iteration_basis matrix hdrs phaseNo colCount rowCount iter st
              (fun b => 1 <= b < colCount - 1)) as [Hlen' Hall'];
    [lia | auto | assumption |].
  split; [lia | assumption].
Qed.

Lemma runSimplexIterations_inv matrix hdrs phaseNo st s st' :
  runSimplexIterations matrix hdrs phaseNo st = Ok (s, st') ->
  whileLoop matrix hdrs phaseNo (rowLength (st_heap st) (rowAddr matrix 0))
            (List.length matrix) maxIter 0 st = (s, st').
Proof.
  unfold runSimplexIterations. destruct matrix as [|a0 rest]; [discriminate|].
  intros Hrun. apply Ok_inj in Hrun. exact Hrun.
Qed.

Section RunInvariant.

Variable matrix : Matrix.

Variable hdrs : list string.

Variable phaseNo : nat.

Variable colCount : nat.

Variable P : list nat -> list TableauStep -> Prop.

Hypothesis P_iteration :
  forall iter st,
    BasisOk colCount (List.length matrix) (st_basis st) ->
    P (st_basis st) (st_steps st) ->
    let st' := snd (iteration matrix hdrs phaseNo colCount (List.length matrix) iter st) in
    P (st_basis st') (st_steps st').

Lemma whileLoop_invariant fuel : forall iter st,
  BasisOk colCount (List.length matrix) (st_basis st) ->
  P (st_basis st) (st_steps st) ->
  let st' := snd (whileLoop matrix hdrs phaseNo colCount (List.length matrix) fuel iter st) in
  BasisOk colCount (List.length matrix) (st_basis st') /\ P (st_basis st') (st_steps st').
Proof.
  induction fuel as [|fuel IH]; intros iter st Hb Hp; cbv zeta.
  - simpl. auto.
  - cbn [whileLoop].
    pose proof (iteration_basis_ok matrix hdrs phaseNo colCount (List.length matrix)
                                   iter st Hb) as Hb1.
    pose proof (P_iteration iter st Hb Hp) as Hp1. cbv zeta in Hp1.
    destruct (iteration matrix hdrs phaseNo colCount (List.length matrix) iter st)
      as [[s|] st1]; cbn [snd] in *; [auto|].
    now apply IH.
Qed.

Lemma run_invariant st s st' :
  runSimplexIterations matrix hdrs phaseNo st = Ok (s, st') ->
  rowLength (st_heap st) (rowAddr matrix 0) = colCount ->
  BasisOk colCount (List.length matrix) (st_basis st) ->
  P (st_basis st) (st_steps st) ->
  BasisOk colCount (List.length matrix) (st_basis st') /\ P (st_basis st') (st_steps st').
Proof.
  intros Hrun Hrow Hb Hp. apply runSimplexIterations_inv in Hrun.
  rewrite Hrow in Hrun.
  pose proof (whileLoop_invariant maxIter 0 st Hb Hp) as H. cbv zeta in H.
  rewrite Hrun in H. exact H.
Qed.

End RunInvariant.

Lemma Final_steps isMin hdrs colCount matrix s st result :
  Final isMin hdrs colCount matrix s st result ->
  steps result = st_steps st /\ store result = st_heap st.
Proof.
  intros [[_ H] | (s' & -> & _)].
  - apply extractResults_inv in H. tauto.
  - split; reflexivity.
Qed.

Lemma Final_optimal isMin hdrs colCount matrix s st result :
  Final isMin hdrs colCount matrix s st result ->
  status result = OPTIMAL ->
  s = OPTIMAL /\ extractResults isMin hdrs matrix (colCount - 1) st = Ok result.
Proof.
  intros [H | (s' & -> & Hne & _)] Hs; [exact H|].
  cbn [status earlyReturn] in Hs. congruence.
Qed.

Lemma Final_extract isMin hdrs colCount (matrix : Matrix) st :
  List.length (st_basis st) + 1 <= List.length matrix ->
  exists r, extractResults isMin hdrs matrix (colCount - 1) st = Ok r
            /\ Final isMin hdrs colCount matrix OPTIMAL st r.
Proof.
  intros Hrows.
  destruct (extractResults_ok isMin hdrs matrix (colCount - 1) st Hrows) as [r Hr].
  exists r. split; [exact Hr|]. left. auto.
Qed.

Lemma Final_early isMin hdrs colCount matrix s s' st :
  s' <> OPTIMAL -> s' = s \/ (s = OPTIMAL /\ s' = INFEASIBLE) ->
  Final isMin hdrs colCount matrix s st (earlyReturn s' st).
Proof. intros Hne Hs. right. exists s'. auto. Qed.

Lemma hasArtificials_false (constraints : list Constraint) :
  artificialVars constraints = [] ->
  (0 <? List.length (artificialVars constraints)) = false.
Proof. intros ->. reflexivity. Qed.

(** SIMPLEX, and the other two methods when no artificial variable is
    needed, and BIG_M: one run of the engine on the normalized matrix. *)
Lemma solve_one_run method type objCoeffs constraints :
  isTwoPhase method && (0 <? List.length (artificialVars constraints)) = false ->
  let n := normalize (isMinOf type) objCoeffs constraints in
  exists h0 s st,
    runSimplexIterations (n_matrix n) (n_headers n) 0
      {| st_heap := h0; st_basis := n_basis n; st_steps := [] |} = Ok (s, st)
    /\ rowLength h0 (rowAddr (n_matrix n) 0) = n_colCount n
    /\ Final (isMinOf type) (n_headers n) (n_colCount n) (n_matrix n) s st
             (solveLinearProgram method type objCoeffs constraints).
Proof.
  intros Htwo. cbv zeta.
  unfold solveLinearProgram, solveBody. fold (isMinOf type). rewrite Htwo.
  pose proof (normalize_facts (isMinOf type) objCoeffs constraints) as NF.
  pose proof (length_n_matrix _ _ _ NF) as Hrows.
  set (n := normalize (isMinOf type) objCoeffs constraints) in *.
  assert (Hne : n_matrix n <> []).
  { rewrite (nf_matrix _ _ _ NF). apply initMatrix_nonempty. }
  assert (Hrow0 : rowLength (n_heap n) (rowAddr (n_matrix n) 0) = n_colCount n).
  { rewrite (nf_matrix _ _ _ NF), rowAddr_initMatrix by lia. apply (nf_row0 _ _ _ NF). }
  destruct (isBigM method && (0 <? List.length (artificialVars constraints))).
  - unfold solveBigM.
    destruct (runSimplexIterations_facts (n_matrix n) (n_headers n) 0
                {| st_heap := prepareBigM n; st_basis := n_basis n; st_steps := [] |} Hne)
      as (s & st & Hrun & F).
    exists (prepareBigM n), s, st. split; [exact Hrun|]. rewrite Hrun. cbn [bind].
    split.
    { rewrite (prepareBigM_row0 _ _ _ NF). symmetry. apply (nf_colCount _ _ _ NF). }
    assert (Hlen : List.length (st_basis st) = List.length constraints).
    { rewrite (run_basis_length _ _ _ _ F); cbn [st_basis];
        rewrite (nf_basis_length _ _ _ NF); [reflexivity | lia]. }
    assert (Hentries : Forall (fun b => b < List.length (n_headers n)) (st_basis st)).
    { apply (run_basis_entries _ _ _ _ F).
      - cbn [st_basis]. rewrite (nf_basis_length _ _ _ NF). lia.
      - cbn [st_heap]. intros c Hc.
        pose proof (prepareBigM_row0 _ _ _ NF) as Hrow. unfold rowLength in Hrow.
        rewrite Hrow in Hc. lia.
      - cbn [st_basis]. eapply Forall_impl; [|apply (nf_basis_entries _ _ _ NF)].
        intros b Hb. cbv beta in Hb. rewrite (nf_colCount _ _ _ NF) in Hb. lia. }
    destruct (isOptimal_cases s (run_status _ _ _ _ F)) as [(-> & -> & _) | (-> & -> & _)];
      cbn [negb tryCatch].
    + destruct (artInBasis_spec (n_headers n) (n_matrix n) (n_colCount n - 1) st)
        as (b & -> & _); [lia | assumption |].
      cbn [bind]. destruct b; cbn [tryCatch].
      * apply Final_early; [discriminate | now right].
      * destruct (Final_extract (isMinOf type) (n_headers n) (n_colCount n) (n_matrix n) st)
          as (r & -> & Hfinal); [lia|]. exact Hfinal.
    + apply Final_early; [discriminate | now left].
  - unfold solveStandard.
    destruct (runSimplexIterations_facts (n_matrix n) (n_headers n) 0
                {| st_heap := n_heap n; st_basis := n_basis n; st_steps := [] |} Hne)
      as (s & st & Hrun & F).
    exists (n_heap n), s, st. split; [exact Hrun|]. rewrite Hrun. cbn [bind].
    split; [exact Hrow0|].
    assert (Hlen : List.length (st_basis st) = List.length constraints).
    { rewrite (run_basis_length _ _ _ _ F); cbn [st_basis];
        rewrite (nf_basis_length _ _ _ NF); [reflexivity | lia]. }
    destruct (isOptimal_cases s (run_status _ _ _ _ F)) as [(-> & -> & _) | (-> & -> & _)];
      cbn [negb tryCatch].
    + destruct (Final_extract (isMinOf type) (n_headers n) (n_colCount n) (n_matrix n) st)
        as (r & -> & Hfinal); [lia|]. exact Hfinal.
    + apply Final_early; [discriminate | now left].
Qed.

Lemma rowLength_alloc_old (h : Heap) (row : Row) (a : nat) :
  a < List.length h -> rowLength (h ++ [row]) a = rowLength h a.
Proof. intros Ha. unfold rowLength, rowAt. now rewrite app_nth1. Qed.

Lemma rowLength_alloc_new (h : Heap) (row : Row) :
  rowLength (h ++ [row]) (List.length h) = List.length row.
Proof.
  unfold rowLength, rowAt. rewrite app_nth2 by lia. now rewrite Nat.sub_diag.
Qed.

Lemma phase1Eliminate_row0 (matrix : Matrix) numRows colCount artIndices h :
  rowLength h (rowAddr matrix 0) = colCount ->
  rowLength (phase1Eliminate matrix numRows colCount artIndices h) (rowAddr matrix 0)
  = colCount.
Proof.
  intros Hrow. unfold phase1Eliminate.
  apply fold_left_inv; [|assumption].
  intros acc artCol _ Hacc.
  apply forRange_inv; [|assumption].
  intros r acc1 _ Hacc1.
  destruct (strictEq (cell acc1 matrix r artCol) 1%float); [|assumption].
  apply forRange_inv; [|assumption].
  intros c acc2 Hc Hacc2.
  rewrite rowLength_setCell; [assumption | right; lia].
Qed.

Lemma preparePhase1_row0 objCoeffs constraints n :
  NormalizedFacts objCoeffs constraints n ->
  let p := preparePhase1 n in
  rowLength (p1_heap p) (rowAddr (p1_matrix p) 0) = n_colCount n.
Proof.
  intros NF. cbv zeta. unfold preparePhase1, alloc.
  set (h1 := n_heap n ++ [rowAt (n_heap n) (rowAddr (n_matrix n) 0)]).
  set (h2 := h1 ++ [zeroRow (n_colCount n)]).
  set (m1 := replaceRow0 (n_matrix n) (List.length h1)).
  assert (Haddr : rowAddr m1 0 = List.length h1) by apply rowAddr_replaceRow0_0.
  assert (H2 : rowLength h2 (rowAddr m1 0) = n_colCount n).
  { rewrite Haddr. unfold h2. rewrite rowLength_alloc_new. apply repeat_length. }
  assert (H3 : rowLength (setCell h2 m1 0 0 1%float) (rowAddr m1 0) = n_colCount n).
  { rewrite rowLength_setCell; [assumption | right].
    rewrite H2. pose proof (nf_columns _ _ _ NF). lia. }
  pose proof (markArtificials_row0 m1 (n_headers n) 1%float (setCell h2 m1 0 0 1%float)) as H4.
  rewrite <- (nf_colCount _ _ _ NF) in H4. specialize (H4 H3).
  destruct (markArtificials m1 (n_headers n) 1%float (setCell h2 m1 0 0 1%float))
    as [h4 arts]. cbn [fst] in H4. cbn [p1_heap p1_matrix].
  now apply phase1Eliminate_row0.
Qed.

Lemma rezeroObjective_row0 (matrix : Matrix) colCount basis h :
  rowLength h (rowAddr matrix 0) = colCount ->
  rowLength (rezeroObjective matrix colCount basis h) (rowAddr matrix 0) = colCount.
Proof.
  intros Hrow. unfold rezeroObjective.
  apply fold_left_inv; [|assumption].
  intros acc ib _ Hacc. cbv zeta.
  destruct (gt _ tol); [|assumption].
  apply forRange_inv; [|assumption].
  intros c acc2 Hc Hacc2.
  rewrite rowLength_setCell; [assumption | right; lia].
Qed.

Lemma p1_matrix_length objCoeffs constraints n :
  NormalizedFacts objCoeffs constraints n ->
  List.length (p1_matrix (preparePhase1 n)) = List.length constraints + 1.
Proof.
  intros NF. rewrite p1_matrix_eq, length_replaceRow0.
  - apply (length_n_matrix _ _ _ NF).
  - rewrite (nf_matrix _ _ _ NF). apply initMatrix_nonempty.
Qed.

(** The copy of the true objective row is not among the rows of the
    phase-1 matrix. *)
Lemma saved_row_not_in_p1_matrix objCoeffs constraints n :
  NormalizedFacts objCoeffs constraints n ->
  List.length (n_heap n) = List.length constraints + 1 ->
  ~ In (p1_originalObjRow (preparePhase1 n)) (p1_matrix (preparePhase1 n)).
Proof.
  intros NF HL. rewrite p1_originalObjRow_eq, p1_matrix_eq, (nf_matrix _ _ _ NF).
  intros Hin. apply in_replaceRow0_initMatrix in Hin. rewrite length_app in Hin.
  cbn [List.length] in Hin. lia.
Qed.

(** TWO_PHASE with an artificial variable: the run of phase 1, and, unless
    it ends the computation, the run of phase 2 from the basis and the
    trace phase 1 ended with. *)
Lemma solve_two_runs type objCoeffs constraints method :
  isTwoPhase method && (0 <? List.length (artificialVars constraints)) = true ->
  let n := normalize (isMinOf type) objCoeffs constraints in
  let result := solveLinearProgram method type objCoeffs constraints in
  exists matrix1 h1 s1 st1,
    List.length matrix1 = List.length constraints + 1
    /\ runSimplexIterations matrix1 (n_headers n) 1
         {| st_heap := h1; st_basis := n_basis n; st_steps := [] |} = Ok (s1, st1)
    /\ rowLength h1 (rowAddr matrix1 0) = n_colCount n
    /\ ((exists s', result = earlyReturn s' st1 /\ s' <> OPTIMAL
                    /\ (s' = s1 \/ (s1 = OPTIMAL /\ s' = INFEASIBLE)))
        \/ exists matrix2 h2 s2 st2,
             List.length matrix2 = List.length constraints + 1
             /\ runSimplexIterations matrix2 (n_headers n) 2
                  {| st_heap := h2; st_basis := st_basis st1; st_steps := st_steps st1 |}
                = Ok (s2, st2)
             /\ rowLength h2 (rowAddr matrix2 0) = n_colCount n
             /\ Final (isMinOf type) (n_headers n) (n_colCount n) matrix2 s2 st2 result
             /\ s1 = OPTIMAL
             /\ status result = s2).
Proof.
  intros Htwo. cbv zeta.
  unfold solveLinearProgram, solveBody. fold (isMinOf type). rewrite Htwo.
  pose proof (normalize_facts (isMinOf type) objCoeffs constraints) as NF.
  pose proof (length_n_heap (isMinOf type) objCoeffs constraints) as HL.
  pose proof (length_n_matrix _ _ _ NF) as Hrows.
  set (n := normalize (isMinOf type) objCoeffs constraints) in *.
  pose proof (p1_matrix_length _ _ _ NF) as Hrows1.
  unfold solveTwoPhase.
  assert (Hne1 : p1_matrix (preparePhase1 n) <> []).
  { rewrite p1_matrix_eq. apply replaceRow0_nonempty. }
  destruct (runSimplexIterations_facts (p1_matrix (preparePhase1 n)) (n_headers n) 1
              {| st_heap := p1_heap (preparePhase1 n); st_basis := n_basis n;
                 st_steps := [] |} Hne1)
    as (s1 & st1 & Hrun1 & F1).
  exists (p1_matrix (preparePhase1 n)), (p1_heap (preparePhase1 n)), s1, st1.
  split; [exact Hrows1|]. split; [exact Hrun1|].
  split; [apply (preparePhase1_row0 _ _ _ NF)|].
  rewrite Hrun1. cbn [bind].
  assert (Hlen1 : List.length (st_basis st1) = List.length constraints).
  { rewrite (run_basis_length _ _ _ _ F1); cbn [st_basis];
      rewrite (nf_basis_length _ _ _ NF); [reflexivity | lia]. }
  destruct (isOptimal_cases s1 (run_status _ _ _ _ F1)) as [(-> & _ & ->) | (-> & _ & ->)];
    cbn [tryCatch].
  - destruct (gt _ feasTol); cbn [tryCatch].
    + left. exists INFEASIBLE. split; [reflexivity|]. split; [discriminate | now right].
    + right.
      destruct (runSimplexIterations_facts
                  (fst (preparePhase2 n (preparePhase1 n) st1)) (n_headers n) 2
                  (snd (preparePhase2 n (preparePhase1 n) st1))
                  (replaceRow0_nonempty _ _)) as (s2 & st2 & Hrun2 & F2).
      assert (Hrows2 : List.length (fst (preparePhase2 n (preparePhase1 n) st1))
                       = List.length constraints + 1).
      { unfold preparePhase2. cbn [fst]. rewrite length_replaceRow0; assumption. }
      exists (fst (preparePhase2 n (preparePhase1 n) st1)),
             (st_heap (snd (preparePhase2 n (preparePhase1 n) st1))), s2, st2.
      split; [exact Hrows2|]. split; [exact Hrun2|]. split.
      * unfold preparePhase2. cbn [fst snd st_heap].
        apply rezeroObjective_row0.
        rewrite rowAddr_replaceRow0_0.
        destruct (preparePhase1_keeps n) as [_ Hsaved].
        pose proof (saved_row_not_in_p1_matrix _ _ _ NF HL) as Hnot.
        destruct (runSimplexIterations_keeps _ _ _ _ _ _ _ Hrun1 Hnot) as [_ Hkept].
        cbn [st_heap] in Hkept. unfold rowLength. rewrite Hkept, Hsaved.
        rewrite (nf_matrix _ _ _ NF), rowAddr_initMatrix by lia.
        apply (nf_row0 _ _ _ NF).
      * destruct (preparePhase2 n (preparePhase1 n) st1) as [matrix2 st1'] eqn:E2.
        cbn [fst snd] in *. rewrite Hrun2. cbn [bind].
        assert (Hlen2 : List.length (st_basis st2) = List.length constraints).
        { rewrite (run_basis_length _ _ _ _ F2).
          - unfold preparePhase2 in E2. injection E2 as _ <-. exact Hlen1.
          - unfold preparePhase2 in E2. injection E2 as _ <-. cbn [st_basis]. lia. }
        destruct (isOptimal_cases s2 (run_status _ _ _ _ F2))
          as [(-> & -> & _) | (-> & -> & _)]; cbn [negb tryCatch].
        -- destruct (Final_extract (isMinOf type) (n_headers n) (n_colCount n) matrix2 st2)
             as (r & Hr & Hfinal); [lia|].
           rewrite Hr. cbn [tryCatch]. split; [exact Hfinal|]. split; [reflexivity|].
           now apply extractResults_inv in Hr.
        -- split; [|split; reflexivity]. apply Final_early; [discriminate | now left].
  - left. exists UNBOUNDED. split; [reflexivity|]. split; [discriminate | now left].
Qed.

(** An invariant of the basis and the trace that every pass through the
    loop keeps, in every phase the method goes through, holds of the trace
    of the result. *)
Lemma solve_steps_invariant method type objCoeffs constraints
      (P : nat -> list nat -> list TableauStep -> Prop) :
  let n := normalize (isMinOf type) objCoeffs constraints in
  let twoPhase := isTwoPhase method && (0 <? List.length (artificialVars constraints)) in
  (forall (matrix : Matrix) phaseNo iter st,
      List.length matrix = List.length constraints + 1 ->
      (if twoPhase then phaseNo = 1 \/ phaseNo = 2 else phaseNo = 0) ->
      BasisOk (n_colCount n) (List.length matrix) (st_basis st) ->
      P phaseNo (st_basis st) (st_steps st) ->
      let st' := snd (iteration matrix (n_headers n) phaseNo (n_colCount n)
                                (List.length matrix) iter st) in
      P phaseNo (st_basis st') (st_steps st')) ->
  (forall basis l, P 1 basis l -> P 2 basis l) ->
  (forall phaseNo, P phaseNo (n_basis n) []) ->
  exists phaseNo basis,
    P phaseNo basis (steps (solveLinearProgram method type objCoeffs constraints))
    /\ (if twoPhase then phaseNo = 1 \/ phaseNo = 2 else phaseNo = 0)
    /\ BasisOk (n_colCount n) (List.length constraints + 1) basis.
Proof.
  cbv zeta. intros Hiter Hnext Hinit.
  pose proof (normalize_basis_ok (isMinOf type) objCoeffs constraints) as Hb0.
  cbv zeta in Hb0.
  destruct (isTwoPhase method && (0 <? List.length (artificialVars constraints))) eqn:Htwo.
  - destruct (solve_two_runs type objCoeffs constraints method Htwo)
      as (m1 & h1 & s1 & st1 & Hrows1 & Hrun1 & Hrow1 & Hrest).
    destruct (run_invariant m1 _ 1 _ (P 1)
                (fun iter st => Hiter m1 1 iter st Hrows1 (or_introl eq_refl))
                _ _ _ Hrun1 Hrow1) as [Hb1 Hp1];
      [cbn [st_basis]; now rewrite Hrows1 | apply Hinit |].
    destruct Hrest as [(s' & -> & _) | (m2 & h2 & s2 & st2 & Hrows2 & Hrun2 & Hrow2 & Hfin & _)].
    + exists 1, (st_basis st1). cbn [steps earlyReturn].
      rewrite Hrows1 in Hb1. auto.
    + destruct (run_invariant m2 _ 2 _ (P 2)
                  (fun iter st => Hiter m2 2 iter st Hrows2 (or_intror eq_refl))
                  _ _ _ Hrun2 Hrow2) as [Hb2 Hp2].
      * cbn [st_basis]. now rewrite Hrows2, <- Hrows1.
      * cbn [st_basis st_steps]. now apply Hnext.
      * exists 2, (st_basis st2). destruct (Final_steps _ _ _ _ _ _ _ Hfin) as [-> _].
        rewrite Hrows2 in Hb2. auto.
  - destruct (solve_one_run method type objCoeffs constraints Htwo)
      as (h0 & s & st & Hrun & Hrow & Hfin).
    pose proof (length_n_matrix _ _ _ (normalize_facts (isMinOf type) objCoeffs constraints))
      as Hrows.
    destruct (run_invariant _ _ 0 _ (P 0)
                (fun iter st => Hiter _ 0 iter st Hrows eq_refl)
                _ _ _ Hrun Hrow) as [Hb Hp];
      [cbn [st_basis]; now rewrite Hrows | apply Hinit |].
    exists 0, (st_basis st). destruct (Final_steps _ _ _ _ _ _ _ Hfin) as [-> _].
    rewrite Hrows in Hb. auto.
Qed.

(** * The trace of a result *)

Lemma iteration_appends matrix hdrs phaseNo colCount rowCount iter st :
  exists t,
    st_steps (snd (iteration matrix hdrs phaseNo colCount rowCount iter st))
    = st_steps st ++ [t]
    /\ stepIndex t = List.length (st_steps st) + 1
    /\ phase t = phaseNo
    /\ isPhase1 t = (phaseNo =? 1).
Proof.
  destruct (iteration_cases matrix hdrs phaseNo colCount rowCount iter st)
    as [He | ec He Hl | ec lr He Hl]; eexists; (split; [reflexivity|]); auto.
Qed.

Lemma whileLoop_appends matrix hdrs phaseNo colCount rowCount fuel :
  forall iter st,
  exists new,
    st_steps (snd (whileLoop matrix hdrs phaseNo colCount rowCount fuel iter st))
    = st_steps st ++ new
    /\ List.length new <= fuel
    /\ (0 < fuel -> 1 <= List.length new)
    /\ Forall (fun t => phase t = phaseNo /\ isPhase1 t = (phaseNo =? 1)) new.
Proof.
  induction fuel as [|fuel IH]; intros iter st.
  - exists []. simpl. rewrite List.app_nil_r. repeat split; auto; lia.
  - cbn [whileLoop].
    destruct (iteration_appends matrix hdrs phaseNo colCount rowCount iter st)
      as (t & Hsteps & _ & Hphase).
    destruct (iteration matrix hdrs phaseNo colCount rowCount iter st) as [[s|] st1];
      cbn [snd] in *.
    + exists [t]. repeat split; simpl; auto; lia.
    + destruct (IH (S iter) st1) as (new & Hnew & Hlen & _ & Hall).
      exists (t :: new). repeat split; simpl; try lia.
      * rewrite Hnew, Hsteps, <- app_assoc. reflexivity.
      * constructor; assumption.
Qed.

Lemma run_appends matrix hdrs phaseNo st s st' :
  runSimplexIterations matrix hdrs phaseNo st = Ok (s, st') ->
  exists new,
    st_steps st' = st_steps st ++ new
    /\ 1 <= List.length new <= maxIter
    /\ Forall (fun t => phase t = phaseNo /\ isPhase1 t = (phaseNo =? 1)) new.
Proof.
  intros Hrun. apply runSimplexIterations_inv in Hrun.
  destruct (whileLoop_appends matrix hdrs phaseNo
              (rowLength (st_heap st) (rowAddr matrix 0)) (List.length matrix)
              maxIter 0 st) as (new & Hnew & Hlen & Hpos & Hall).
  rewrite Hrun in Hnew. cbn [snd] in Hnew.
  exists new. repeat split; try assumption. apply Hpos. unfold maxIter. lia.
Qed.

(** X6: the steps of a result are numbered 1, 2, 3, ... in the order they
    were taken, across the phases. *)
Theorem steps_are_numbered_from_one
        (method : SolverMethod) (type : OptimizationType)
        (objCoeffs : list number) (constraints : list Constraint) :
  let result := solveLinearProgram method type objCoeffs constraints in
  map stepIndex (steps result) = seq 1 (List.length (steps result)).
Proof.
  cbv zeta.
  destruct (solve_steps_invariant method type objCoeffs constraints
              (fun _ _ l => map stepIndex l = seq 1 (List.length l)))
    as (p & basis & H & _); [| auto | reflexivity | exact H].
  intros matrix phaseNo iter st _ _ _ Hnum. cbv zeta.
  destruct (iteration_appends matrix
              (n_headers (normalize (isMinOf type) objCoeffs constraints)) phaseNo
              (n_colCount (normalize (isMinOf type) objCoeffs constraints))
              (List.length matrix) iter st) as (t & -> & Hidx & _).
  rewrite map_app, length_app, Hnum. cbn [map List.length].
  rewrite Nat.add_1_r, seq_S, Hidx. simpl. f_equal. f_equal. lia.
Qed.

(** X7: SIMPLEX and BIG_M label every step with phase 0; TWO_PHASE with an
    artificial variable yields the steps of phase 1, flagged [isPhase1],
    followed by those of phase 2.  A run appends between 1 and 50 steps, so
    a trace is never empty and never longer than 50 steps, or 100 with two
    phases. *)
Theorem trace_is_split_by_phase
        (method : SolverMethod) (type : OptimizationType)
        (objCoeffs : list number) (constraints : list Constraint) :
  let result := solveLinearProgram method type objCoeffs constraints in
  if isTwoPhase method && (0 <? List.length (artificialVars constraints))
  then exists first second,
         steps result = first ++ second
         /\ Forall (fun t => phase t = 1 /\ isPhase1 t = true) first
         /\ Forall (fun t => phase t = 2 /\ isPhase1 t = false) second
         /\ 1 <= List.length first <= maxIter
         /\ List.length second <= maxIter
  else Forall (fun t => phase t = 0 /\ isPhase1 t = false) (steps result)
       /\ 1 <= List.length (steps result) <= maxIter.
Proof.
  cbv zeta.
  destruct (isTwoPhase method && (0 <? List.length (artificialVars constraints))) eqn:Htwo.
  - destruct (solve_two_runs type objCoeffs constraints method Htwo)
      as (m1 & h1 & s1 & st1 & _ & Hrun1 & _ & Hrest).
    destruct (run_appends _ _ _ _ _ _ Hrun1) as (new1 & Hnew1 & Hlen1 & Hall1).
    cbn [st_steps app] in Hnew1.
    destruct Hrest as [(s' & -> & _) | (m2 & h2 & s2 & st2 & _ & Hrun2 & _ & Hfin & _)].
    + exists new1, []. cbn [steps earlyReturn]. rewrite List.app_nil_r.
      repeat split; auto; try lia. simpl. lia.
    + destruct (run_appends _ _ _ _ _ _ Hrun2) as (new2 & Hnew2 & Hlen2 & Hall2).
      cbn [st_steps] in Hnew2.
      destruct (Final_steps _ _ _ _ _ _ _ Hfin) as [-> _].
      exists new1, new2. rewrite Hnew2, Hnew1. repeat split; auto; lia.
  - destruct (solve_one_run method type objCoeffs constraints Htwo)
      as (h0 & s & st & Hrun & _ & Hfin).
    destruct (run_appends _ _ _ _ _ _ Hrun) as (new & Hnew & Hlen & Hall).
    cbn [st_steps app] in Hnew.
    destruct (Final_steps _ _ _ _ _ _ _ Hfin) as [-> _]. rewrite Hnew.
    repeat split; auto; lia.
Qed.

Lemma in_slice1m1 {A : Type} (l : list A) (i : nat) (d : A) :
  1 <= i < List.length l - 1 -> In (nth i l d) (slice1m1 l).
Proof.
  intros Hi. unfold slice1m1.
  destruct l as [|x t]; [simpl in Hi; lia|]. cbn [tl List.length] in *.
  destruct i as [|i]; [lia|]. cbn [nth].
  assert (Hi' : i < List.length t - 1) by lia. clear Hi.
  revert i Hi'. induction t as [|y t IH]; intros i Hi; [simpl in Hi; lia|].
  destruct t as [|z t]; [simpl in Hi; lia|].
  destruct i as [|i]; [now left|].
  right. apply IH. simpl in *. lia.
Qed.

Lemma map_basisHeader hdrs (basis : list nat) :
  map (fun r => basisHeader hdrs basis (r - 1)) (seq 1 (List.length basis))
  = map (headerAt hdrs) basis.
Proof.
  apply (nth_ext _ _ "" "").
  - now rewrite !length_map, length_seq.
  - intros i Hi. rewrite length_map, length_seq in Hi.
    rewrite (nth_indep _ "" (basisHeader hdrs basis (0 - 1)))
      by (rewrite length_map, length_seq; lia).
    rewrite (map_nth (fun r => basisHeader hdrs basis (r - 1))), seq_nth by lia.
    rewrite (nth_indep _ "" (headerAt hdrs 0)) by (rewrite length_map; lia).
    rewrite (map_nth (headerAt hdrs)). unfold basisHeader.
    replace (1 + i - 1) with i by lia.
    now rewrite (nth_error_nth' basis 0 Hi).
Qed.

Lemma currentTableauRows_labels matrix hdrs phaseNo colCount h (basis : list nat) :
  map basicVar (currentTableauRows matrix hdrs phaseNo colCount
                                   (List.length basis + 1) h basis)
  = (if phaseNo =? 1 then "W" else "Z") :: map (headerAt hdrs) basis.
Proof.
  unfold currentTableauRows. rewrite map_map. cbn [basicVar].
  rewrite Nat.add_1_r. cbn [seq map Nat.eqb]. f_equal.
  rewrite <- map_basisHeader. apply map_ext_in.
  intros r Hr. apply in_seq in Hr.
  destruct (Nat.eqb_spec r 0); [lia | reflexivity].
Qed.

Lemma basis_names_in_headers hdrs colCount (basis : list nat) :
  colCount = List.length hdrs ->
  Forall (fun b => 1 <= b < colCount - 1) basis ->
  Forall (fun v => In v (slice1m1 hdrs)) (map (headerAt hdrs) basis).
Proof.
  intros -> Hall. apply Forall_map.
  eapply Forall_impl; [|exact Hall]. cbv beta. intros b Hb.
  unfold headerAt. now apply in_slice1m1.
Qed.

Lemma iteration_step_well_formed matrix hdrs phaseNo colCount iter st :
  colCount = List.length hdrs ->
  BasisOk colCount (List.length matrix) (st_basis st) ->
  exists t,
    st_steps (snd (iteration matrix hdrs phaseNo colCount (List.length matrix) iter st))
    = st_steps st ++ [t]
    /\ StepWellFormed hdrs (List.length matrix - 1) t
    /\ PivotRecorded (List.length matrix - 1) colCount t
    /\ basicVars t = map (headerAt hdrs) (st_basis st)
    /\ basicVarsAfter t
       = map (headerAt hdrs)
             (st_basis (snd (iteration matrix hdrs phaseNo colCount
                                       (List.length matrix) iter st))).
Proof.
  intros Hcols [Hlen Hall].
  pose proof (currentTableauRows_labels matrix hdrs phaseNo colCount (st_heap st)
                                        (st_basis st)) as Hlabels.
  rewrite Hlen in Hlabels.
  pose proof (basis_names_in_headers hdrs colCount (st_basis st) Hcols Hall) as Hnames.
  assert (Hwf : forall t,
             headers t = hdrs ->
             tableau t = currentTableauRows matrix hdrs phaseNo colCount
                                            (List.length matrix) (st_heap st) (st_basis st) ->
             basicVars t = map (headerAt hdrs) (st_basis st) ->
             isPhase1 t = (phaseNo =? 1) ->
             StepWellFormed hdrs (List.length matrix - 1) t).
  { intros t Hh Ht Hb Hp. unfold StepWellFormed. rewrite Hh, Ht, Hb, Hp.
    repeat split; try assumption. rewrite length_map. lia. }
  destruct (iteration_cases matrix hdrs phaseNo colCount (List.length matrix) iter st)
    as [He | ec He Hl | ec lr He Hl]; cbn [snd st_steps st_basis].
  - eexists. split; [reflexivity|]. split; [now apply Hwf|].
    repeat split.
  - eexists. split; [reflexivity|]. split; [now apply Hwf|].
    repeat split.
  - pose proof (findEntering_spec matrix colCount (st_heap st)) as Hes.
    rewrite He in Hes. destruct Hes as (Hec & _).
    pose proof (findLeaving_spec matrix colCount (List.length matrix) (st_heap st) ec) as Hls.
    rewrite Hl in Hls. destruct Hls as (Hlr & _).
    eexists. split; [reflexivity|]. split; [now apply Hwf|].
    split; [|split; [reflexivity|]].
    + unfold PivotRecorded. cbn [pivotRow pivotCol enteringVar leavingVar headers basicVars
                                 iterationStep].
      repeat split; try lia.
      unfold basisHeader.
      destruct (nth_error (st_basis st) (lr - 1)) as [b|] eqn:Eb.
      * now rewrite (map_nth_error _ _ _ Eb).
      * apply nth_error_None in Eb. lia.
    + unfold basicVarsAfter. cbn [pivotRow enteringVar basicVars iterationStep].
      assert (Hin : lr - 1 < List.length (st_basis st)) by lia.
      revert Hin. generalize (lr - 1) as k. generalize (st_basis st) as l.
      induction l as [|x l IH]; intros [|k] Hk; simpl in *; try lia; try reflexivity.
      f_equal. apply IH. lia.
Qed.

(** * The columns of the tableau and the initial basis *)

Lemma showNat_inj (a b : nat) : showNat a = showNat b -> a = b.
Proof.
  unfold showNat. intros H.
  assert (Hnn : forall n, Nat.to_uint n <> Decimal.Nil).
  { intros n. rewrite <- (DecimalNat.Unsigned.of_to n) at 1.
    rewrite DecimalNat.Unsigned.to_of. apply DecimalFacts.unorm_nonnil. }
  apply DecimalNat.Unsigned.to_uint_inj.
  pose proof (NilZero.usu _ (Hnn a)) as Ha.
  pose proof (NilZero.usu _ (Hnn b)) as Hb.
  rewrite H in Ha. congruence.
Qed.

Lemma combine_seq_app {A : Type} (l1 l2 : list A) : forall k,
  combine (seq k (List.length (l1 ++ l2))) (l1 ++ l2)
  = combine (seq k (List.length l1)) l1
    ++ combine (seq (k + List.length l1) (List.length l2)) l2.
Proof.
  induction l1 as [|x l1 IH]; intros k; simpl.
  - now rewrite Nat.add_0_r.
  - f_equal. rewrite IH. now rewrite Nat.add_succ_r.
Qed.

Lemma indexed_app {A : Type} (l1 l2 : list A) :
  indexed (l1 ++ l2) = indexed l1 ++ combine (seq (List.length l1) (List.length l2)) l2.
Proof. unfold indexed. apply (combine_seq_app l1 l2 0). Qed.

Section Columns.

Variable numDecisionVars : nat.

Variable constraints : list Constraint.

Local Abbreviation hdrs := (buildHeaders numDecisionVars constraints).

Lemma header_of_slack (pre : list Constraint) (c : Constraint) (post : list Constraint) :
  constraints = pre ++ c :: post -> relation c = LE ->
  headerAt hdrs (1 + numDecisionVars + countSlack pre)
  = "s" +++ showNat (List.length pre + 1).
Proof.
  intros -> Hrel. unfold buildHeaders.
  assert (L0 : List.length ("Z" :: decisionHeaders numDecisionVars) = 1 + numDecisionVars).
  { simpl. unfold decisionHeaders. now rewrite length_map, length_seq. }
  rewrite headerAt_app_r by lia. rewrite L0.
  replace (1 + numDecisionVars + countSlack pre - (1 + numDecisionVars))
    with (countSlack pre) by lia.
  unfold slackVars at 1. rewrite indexed_app, flat_map_app.
  fold (slackVars pre). rewrite <- app_assoc.
  rewrite headerAt_app_r by (rewrite length_slackVars; lia).
  rewrite length_slackVars, Nat.sub_diag.
  cbn [List.length seq combine flat_map fst snd]. rewrite Hrel. reflexivity.
Qed.

Lemma header_of_artificial (pre : list Constraint) (c : Constraint) (post : list Constraint) :
  constraints = pre ++ c :: post -> relation c <> LE ->
  headerAt hdrs (1 + numDecisionVars + countSlack constraints + countSurplus constraints
                 + countArtificial pre)
  = "a" +++ showNat (List.length pre + 1).
Proof.
  intros Hcs Hrel. unfold buildHeaders.
  assert (L0 : List.length ("Z" :: decisionHeaders numDecisionVars) = 1 + numDecisionVars).
  { simpl. unfold decisionHeaders. now rewrite length_map, length_seq. }
  rewrite headerAt_app_r by lia. rewrite L0.
  rewrite headerAt_app_r by (rewrite length_slackVars; lia). rewrite length_slackVars.
  rewrite headerAt_app_r by (rewrite length_surplusVars; lia). rewrite length_surplusVars.
  replace (1 + numDecisionVars + countSlack constraints + countSurplus constraints
           + countArtificial pre - (1 + numDecisionVars) - countSlack constraints
           - countSurplus constraints) with (countArtificial pre) by lia.
  rewrite Hcs. unfold artificialVars at 1. rewrite indexed_app, flat_map_app.
  fold (artificialVars pre). rewrite <- app_assoc.
  rewrite headerAt_app_r by (rewrite length_artificialVars; lia).
  rewrite length_artificialVars, Nat.sub_diag.
  cbn [List.length seq combine flat_map fst snd].
  destruct (relation c); [congruence | reflexivity | reflexivity].
Qed.

Lemma countSlack_app l1 l2 : countSlack (l1 ++ l2) = countSlack l1 + countSlack l2.
Proof. induction l1 as [|c l1 IH]; simpl; [reflexivity | rewrite IH; lia]. Qed.

Lemma countArtificial_app l1 l2 :
  countArtificial (l1 ++ l2) = countArtificial l1 + countArtificial l2.
Proof. induction l1 as [|c l1 IH]; simpl; [reflexivity | rewrite IH; lia]. Qed.

Lemma basisColumns_names (l : list Constraint) : forall pre,
  constraints = pre ++ l ->
  map (headerAt hdrs)
      (basisColumns (1 + numDecisionVars + countSlack pre)
                    (1 + numDecisionVars + countSlack constraints
                     + countSurplus constraints + countArtificial pre) l)
  = map (fun ic => match relation (snd ic) with
                   | LE => "s" +++ showNat (fst ic + 1)
                   | _ => "a" +++ showNat (fst ic + 1)
                   end) (combine (seq (List.length pre) (List.length l)) l).
Proof.
  induction l as [|c t IH]; intros pre Hcs; [reflexivity|].
  cbn [basisColumns List.length seq combine map fst snd].
  assert (Hcs' : constraints = (pre ++ [c]) ++ t) by (rewrite <- app_assoc; exact Hcs).
  specialize (IH (pre ++ [c]) Hcs').
  rewrite length_app, countSlack_app, countArtificial_app in IH.
  cbn [List.length countSlack countArtificial] in IH.
  rewrite Nat.add_1_r in IH.
  destruct (relation c) eqn:Hrel; cbn [map]; f_equal.
  - now apply (header_of_slack pre c t).
  - rewrite <- IH. f_equal. f_equal; lia.
  - apply (header_of_artificial pre c t); [assumption | congruence].
  - rewrite <- IH. f_equal. f_equal; lia.
  - apply (header_of_artificial pre c t); [assumption | congruence].
  - rewrite <- IH. f_equal. f_equal; lia.
Qed.

End Columns.

Lemma initial_basis_names isMin objCoeffs constraints :
  let n := normalize isMin objCoeffs constraints in
  map (headerAt (n_headers n)) (n_basis n) = initialBasicVars constraints.
Proof.
  cbv zeta. rewrite n_basis_eq.
  pose proof (basisColumns_names (List.length objCoeffs) constraints constraints []
                                 eq_refl) as H.
  cbn [countSlack countArtificial List.length] in H.
  rewrite !Nat.add_0_r in H. exact H.
Qed.

Lemma basisColumns_NoDup l : forall s a,
  s + countSlack l <= a -> NoDup (basisColumns s a l).
Proof.
  induction l as [|c t IH]; intros s a Hsa; [constructor|].
  cbn [basisColumns]. cbn [countSlack] in Hsa.
  destruct (relation c); constructor.
  - intros Hin. pose proof (basisColumns_bounds t (s + 1) a) as Hb.
    rewrite Forall_forall in Hb. specialize (Hb _ Hin). cbv beta in Hb. lia.
  - apply IH. lia.
  - intros Hin. pose proof (basisColumns_bounds t s (a + 1)) as Hb.
    rewrite Forall_forall in Hb. specialize (Hb _ Hin). cbv beta in Hb. lia.
  - apply IH. lia.
  - intros Hin. pose proof (basisColumns_bounds t s (a + 1)) as Hb.
    rewrite Forall_forall in Hb. specialize (Hb _ Hin). cbv beta in Hb. lia.
  - apply IH. lia.
Qed.

(** X2: the initial basis.  Constraint [i] starts with its own slack
    variable [s_i] when it is a [<=] constraint and with its own artificial
    variable [a_i] otherwise; the basis holds one column per constraint, no
    column twice, and never the column of a decision variable, of [Z] or of
    the right-hand side. *)
Theorem initial_basis_is_slack_or_artificial
        (isMin : bool) (objCoeffs : list number) (constraints : list Constraint) :
  let n := normalize isMin objCoeffs constraints in
  map (headerAt (n_headers n)) (n_basis n) = initialBasicVars constraints
  /\ List.length (n_basis n) = List.length constraints
  /\ NoDup (n_basis n)
  /\ Forall (fun b => List.length objCoeffs < b < n_colCount n - 1) (n_basis n).
Proof.
  cbv zeta. split; [apply initial_basis_names|].
  rewrite n_basis_eq. split; [apply length_basisColumns|]. split.
  - apply basisColumns_NoDup. lia.
  - unfold normalize. cbn [n_colCount]. rewrite length_buildHeaders.
    eapply Forall_impl; [|apply basisColumns_bounds]. cbv beta. intros b Hb. lia.
Qed.

Lemma basisAfter_snoc current l t : basisAfter current (l ++ [t]) = basicVarsAfter t.
Proof. unfold basisAfter. now rewrite fold_left_app. Qed.

Lemma basisChain_snoc l t : forall current,
  basisChain current l -> basicVars t = basisAfter current l ->
  basisChain current (l ++ [t]).
Proof.
  induction l as [|x l IH]; intros current Hchain Ht.
  - simpl. auto.
  - destruct Hchain as [Hx Hrest]. split; [exact Hx|].
    apply IH; [exact Hrest|]. exact Ht.
Qed.

(** X10: how the basis evolves along the trace.  The first step shows the
    initial basis, and every later step shows the basis of the step before
    with its entering variable in the place of its leaving variable; a
    terminal step leaves the basis as it is, also from phase 1 to phase 2. *)
Theorem each_step_continues_the_basis
        (method : SolverMethod) (type : OptimizationType)
        (objCoeffs : list number) (constraints : list Constraint) :
  let result := solveLinearProgram method type objCoeffs constraints in
  basisChain (initialBasicVars constraints) (steps result).
Proof.
  cbv zeta.
  set (n := normalize (isMinOf type) objCoeffs constraints).
  destruct (solve_steps_invariant method type objCoeffs constraints
              (fun _ basis l =>
                 basisChain (initialBasicVars constraints) l
                 /\ basisAfter (initialBasicVars constraints) l
                    = map (headerAt (n_headers n)) basis))
    as (p & basis & [H _] & _); [| auto | | exact H].
  - intros matrix phaseNo iter st Hrows _ Hb [Hchain Hafter]. cbv zeta. fold n.
    destruct (iteration_step_well_formed matrix (n_headers n) phaseNo (n_colCount n)
                                         iter st eq_refl Hb)
      as (t & Hsteps & _ & _ & Hvars & Hnext).
    rewrite Hsteps, basisAfter_snoc. split; [|exact Hnext].
    apply basisChain_snoc; [exact Hchain | congruence].
  - intros _. split; [exact I|]. symmetry. apply initial_basis_names.
Qed.

(** X8: what every step shows.  Its headers are the columns of the tableau;
    the row labels are [W] in phase 1 and [Z] otherwise for the objective
    row, followed by the basic variables, of which there is one per
    constraint, each the name of a variable column. *)
Theorem every_step_shows_a_basis_of_variables
        (method : SolverMethod) (type : OptimizationType)
        (objCoeffs : list number) (constraints : list Constraint) :
  let result := solveLinearProgram method type objCoeffs constraints in
  Forall (StepWellFormed (buildHeaders (List.length objCoeffs) constraints)
                         (List.length constraints))
         (steps result).
Proof.
  cbv zeta.
  set (n := normalize (isMinOf type) objCoeffs constraints).
  destruct (solve_steps_invariant method type objCoeffs constraints
              (fun _ _ l => Forall (StepWellFormed (n_headers n) (List.length constraints)) l))
    as (p & basis & H & _); [| auto | constructor | exact H].
  intros matrix phaseNo iter st Hrows _ Hb Hall. cbv zeta. fold n.
  destruct (iteration_step_well_formed matrix (n_headers n) phaseNo (n_colCount n)
                                       iter st eq_refl Hb)
    as (t & -> & Hwf & _).
  apply Forall_app. split; [exact Hall|]. constructor; [|constructor].
  rewrite Hrows, Nat.add_sub in Hwf. exact Hwf.
Qed.

(** X9: what a step records of its pivot.  An iteration step records a
    pivot row among the constraint rows and a pivot column among the
    variable columns, with the header of that column as the entering
    variable and the basic variable of that row as the leaving one; a
    terminal step records none of the four. *)
Theorem every_step_records_its_pivot
        (method : SolverMethod) (type : OptimizationType)
        (objCoeffs : list number) (constraints : list Constraint) :
  let result := solveLinearProgram method type objCoeffs constraints in
  Forall (PivotRecorded (List.length constraints)
                        (List.length (buildHeaders (List.length objCoeffs) constraints)))
         (steps result).
Proof.
  cbv zeta.
  set (n := normalize (isMinOf type) objCoeffs constraints).
  destruct (solve_steps_invariant method type objCoeffs constraints
              (fun _ _ l => Forall (PivotRecorded (List.length constraints) (n_colCount n)) l))
    as (p & basis & H & _); [| auto | constructor | exact H].
  intros matrix phaseNo iter st Hrows _ Hb Hall. cbv zeta. fold n.
  destruct (iteration_step_well_formed matrix (n_headers n) phaseNo (n_colCount n)
                                       iter st eq_refl Hb)
    as (t & -> & _ & Hpivot & _).
  apply Forall_app. split; [exact Hall|]. constructor; [|constructor].
  rewrite Hrows, Nat.add_sub in Hpivot. exact Hpivot.
Qed.

(** * The column names are distinct *)

Lemma append_inj_r (tag a b : string) : tag +++ a = tag +++ b -> a = b.
Proof.
  induction tag as [|c tag IH]; simpl; [auto|].
  intros H. injection H as H. auto.
Qed.

(** The names one kind of constraint contributes: at most one per
    constraint, made of the tag and the number of the constraint. *)
Lemma tagged_names (tag : string) (f : nat * Constraint -> list string) :
  (forall ic, f ic = [] \/ f ic = [tag +++ showNat (fst ic + 1)]) ->
  forall l k,
    NoDup (flat_map f (combine (seq k (List.length l)) l))
    /\ Forall (fun h => exists i, k <= i /\ h = tag +++ showNat (i + 1))
              (flat_map f (combine (seq k (List.length l)) l)).
Proof.
  intros Hf. induction l as [|c t IH]; intros k.
  - simpl. split; constructor.
  - cbn [List.length seq combine flat_map].
    destruct (IH (S k)) as [Hnd Hall].
    assert (Hall' : Forall (fun h => exists i, k <= i /\ h = tag +++ showNat (i + 1))
                           (flat_map f (combine (seq (S k) (List.length t)) t))).
    { eapply Forall_impl; [|exact Hall]. cbv beta. intros h (i & Hi & ->).
      exists i. split; [lia | reflexivity]. }
    destruct (Hf (k, c)) as [-> | ->]; cbn [app fst]; [auto|].
    split.
    + constructor; [|exact Hnd].
      intros Hin. rewrite Forall_forall in Hall.
      destruct (Hall _ Hin) as (i & Hi & Heq).
      apply append_inj_r, showNat_inj in Heq. lia.
    + constructor; [|exact Hall']. exists k. auto.
Qed.

Lemma tagged_first (tag : string) (c : ascii) (l : list string) :
  String.get 0 tag = Some c ->
  Forall (fun h => exists i : nat, 0 <= i /\ h = tag +++ showNat (i + 1)) l ->
  Forall (fun h => String.get 0 h = Some c) l.
Proof.
  intros Htag Hall. eapply Forall_impl; [|exact Hall]. cbv beta.
  intros h (i & _ & ->). destruct tag; [discriminate | exact Htag].
Qed.

Lemma NoDup_app_first (c : ascii) (l1 l2 : list string) :
  NoDup l1 -> NoDup l2 ->
  Forall (fun h => String.get 0 h = Some c) l1 ->
  Forall (fun h => String.get 0 h <> Some c) l2 ->
  NoDup (l1 ++ l2).
Proof.
  intros H1 H2 F1 F2. apply NoDup_app; try assumption.
  intros a Ha1 Ha2. rewrite Forall_forall in F1, F2.
  apply (F2 a Ha2). now apply F1.
Qed.

Lemma Forall_first_other (c c' : ascii) (l : list string) :
  c <> c' ->
  Forall (fun h => String.get 0 h = Some c') l ->
  Forall (fun h => String.get 0 h <> Some c) l.
Proof.
  intros Hne Hall. eapply Forall_impl; [|exact Hall]. cbv beta.
  intros h Hh. rewrite Hh. congruence.
Qed.

Lemma slackVars_names l :
  NoDup (slackVars l) /\ Forall (fun h => String.get 0 h = Some "s"%char) (slackVars l).
Proof.
  destruct (tagged_names "s" (fun ic => match relation (snd ic) with
                                        | LE => ["s" +++ showNat (fst ic + 1)]
                                        | _ => []
                                        end)) with (l := l) (k := 0) as [Hnd Hall].
  { intros [i c]. cbn [fst snd]. destruct (relation c); auto. }
  split; [exact Hnd|]. now apply (tagged_first "s").
Qed.

Lemma surplusVars_names l :
  NoDup (surplusVars l) /\ Forall (fun h => String.get 0 h = Some "e"%char) (surplusVars l).
Proof.
  destruct (tagged_names "e" (fun ic => match relation (snd ic) with
                                        | GE => ["e" +++ showNat (fst ic + 1)]
                                        | _ => []
                                        end)) with (l := l) (k := 0) as [Hnd Hall].
  { intros [i c]. cbn [fst snd]. destruct (relation c); auto. }
  split; [exact Hnd|]. now apply (tagged_first "e").
Qed.

Lemma artificialVars_names l :
  NoDup (artificialVars l)
  /\ Forall (fun h => String.get 0 h = Some "a"%char) (artificialVars l).
Proof.
  destruct (tagged_names "a" (fun ic => match relation (snd ic) with
                                        | GE | EQ => ["a" +++ showNat (fst ic + 1)]
                                        | LE => []
                                        end)) with (l := l) (k := 0) as [Hnd Hall].
  { intros [i c]. cbn [fst snd]. destruct (relation c); auto. }
  split; [exact Hnd|]. now apply (tagged_first "a").
Qed.

Lemma decisionHeaders_names n :
  NoDup (decisionHeaders n)
  /\ Forall (fun h => String.get 0 h = Some "x"%char) (decisionHeaders n).
Proof.
  unfold decisionHeaders. split.
  - apply NoDup_map_NoDup_ForallPairs; [|apply seq_NoDup].
    intros i j _ _ H. now apply (append_inj_r "x"), showNat_inj in H.
  - apply Forall_map. apply Forall_forall. reflexivity.
Qed.

Lemma buildHeaders_NoDup n l : NoDup (buildHeaders n l).
Proof.
  unfold buildHeaders.
  destruct (decisionHeaders_names n) as [Nx Fx].
  destruct (slackVars_names l) as [Ns Fs].
  destruct (surplusVars_names l) as [Ne Fe].
  destruct (artificialVars_names l) as [Na Fa].
  assert (FL : Forall (fun h => String.get 0 h = Some "L"%char) ["LD"])
    by (repeat constructor).
  change (("Z" :: decisionHeaders n) ++ slackVars l ++ surplusVars l
          ++ artificialVars l ++ ["LD"])
    with (["Z"] ++ decisionHeaders n ++ slackVars l ++ surplusVars l
          ++ artificialVars l ++ ["LD"]).
  apply (NoDup_app_first "Z"); [repeat constructor; intros [] | | repeat constructor |].
  - apply (NoDup_app_first "x"); [assumption | | assumption |].
    + apply (NoDup_app_first "s"); [assumption | | assumption |].
      * apply (NoDup_app_first "e"); [assumption | | assumption |].
        -- apply (NoDup_app_first "a"); [assumption | repeat constructor; intros [] | assumption |].
           now apply (Forall_first_other _ "L").
        -- apply Forall_app. split;
             [now apply (Forall_first_other _ "a") | now apply (Forall_first_other _ "L")].
      * repeat (apply Forall_app; split);
          [now apply (Forall_first_other _ "e") | now apply (Forall_first_other _ "a")
           | now apply (Forall_first_other _ "L")].
    + repeat (apply Forall_app; split);
        [now apply (Forall_first_other _ "s") | now apply (Forall_first_other _ "e")
         | now apply (Forall_first_other _ "a") | now apply (Forall_first_other _ "L")].
  - repeat (apply Forall_app; split);
      [now apply (Forall_first_other _ "x") | now apply (Forall_first_other _ "s")
       | now apply (Forall_first_other _ "e") | now apply (Forall_first_other _ "a")
       | now apply (Forall_first_other _ "L")].
Qed.

Lemma countSlack_countArtificial l : countSlack l + countArtificial l = List.length l.
Proof.
  induction l as [|c t IH]; [reflexivity|]. simpl. destruct (relation c); lia.
Qed.

Lemma slice1m1_buildHeaders n l :
  slice1m1 (buildHeaders n l)
  = decisionHeaders n ++ slackVars l ++ surplusVars l ++ artificialVars l.
Proof.
  unfold slice1m1, buildHeaders. cbn [app tl].
  rewrite !app_assoc. apply removelast_last.
Qed.

(** X1: the columns of the tableau.  [Z] comes first and the right-hand side
    [LD] last; between them stand the decision variables, then one slack per
    [<=] constraint, one surplus per [>=] constraint and one artificial per
    [>=] or [=] constraint: one column per constraint and one more per [>=]
    constraint.  No two columns have the same name. *)
Theorem tableau_columns_are_distinct
        (numDecisionVars : nat) (constraints : list Constraint) :
  let hdrs := buildHeaders numDecisionVars constraints in
  NoDup hdrs
  /\ List.length hdrs
     = numDecisionVars + List.length constraints + countSurplus constraints + 2
  /\ nth_error hdrs 0 = Some "Z"
  /\ nth_error hdrs (List.length hdrs - 1) = Some "LD"
  /\ slice1m1 hdrs
     = decisionHeaders numDecisionVars ++ slackVars constraints
       ++ surplusVars constraints ++ artificialVars constraints.
Proof.
  cbv zeta. split; [apply buildHeaders_NoDup|]. split; [|split; [reflexivity|split]].
  - rewrite length_buildHeaders.
    pose proof (countSlack_countArtificial constraints). lia.
  - unfold buildHeaders. rewrite !app_assoc.
    rewrite length_app. cbn [List.length]. rewrite Nat.add_sub.
    rewrite nth_error_app2 by lia. now rewrite Nat.sub_diag.
  - apply slice1m1_buildHeaders.
Qed.

(** * The values of an optimal result *)

Lemma objGet_objSet_same k v o : objGet k (objSet k v o) = Some v.
Proof.
  induction o as [|[k' v'] o IH]; simpl.
  - now rewrite String.eqb_refl.
  - destruct (String.eqb k k') eqn:E; simpl; rewrite ?String.eqb_refl, ?E; auto.
Qed.

Lemma objGet_objSet_other k k' v o :
  k <> k' -> objGet k' (objSet k v o) = objGet k' o.
Proof.
  intros Hne. induction o as [|[k0 v0] o IH]; simpl.
  - destruct (String.eqb_spec k' k); [congruence | reflexivity].
  - destruct (String.eqb_spec k k0) as [->|Hk]; simpl.
    + destruct (String.eqb_spec k' k0); [congruence | reflexivity].
    + destruct (String.eqb_spec k' k0); [reflexivity | exact IH].
Qed.

(** Assigning to a property that exists keeps the order of the keys. *)
Lemma keys_objSet_old k v o :
  In k (map fst o) -> map fst (objSet k v o) = map fst o.
Proof.
  induction o as [|[k0 v0] o IH]; simpl; [tauto|].
  intros Hin. destruct (String.eqb_spec k k0) as [->|Hk]; simpl; [reflexivity|].
  f_equal. apply IH. destruct Hin; [congruence | assumption].
Qed.

Lemma keys_objSet_new k v o :
  ~ In k (map fst o) -> map fst (objSet k v o) = map fst o ++ [k].
Proof.
  induction o as [|[k0 v0] o IH]; simpl; [reflexivity|].
  intros Hin. destruct (String.eqb_spec k k0) as [->|Hk]; simpl; [tauto|].
  f_equal. apply IH. tauto.
Qed.

(** [headers.slice(1, -1).forEach(h => finalValues[h] = 0)]. *)
Lemma zeroed_values (names : list string) :
  NoDup names ->
  let fv0 := fold_left (fun fv h => objSet h 0%float fv) names [] in
  map fst fv0 = names
  /\ forall v, In v names -> objGet v fv0 = Some 0%float.
Proof.
  intros Hnd. cbv zeta.
  assert (H : forall acc,
             NoDup (map fst acc ++ names) ->
             (forall v, In v (map fst acc) -> objGet v acc = Some 0%float) ->
             let fv := fold_left (fun fv h => objSet h 0%float fv) names acc in
             map fst fv = map fst acc ++ names
             /\ forall v, In v (map fst acc ++ names) -> objGet v fv = Some 0%float).
  { clear Hnd. induction names as [|x names IH]; intros acc Hnd Hacc; cbv zeta.
    - simpl. rewrite List.app_nil_r. split; [reflexivity|].
      intros v Hv. now apply Hacc.
    - cbn [fold_left].
      assert (Hx : ~ In x (map fst acc)).
      { intros Hin. apply NoDup_remove_2 in Hnd. apply Hnd. apply in_or_app. now left. }
      destruct (IH (objSet x 0%float acc)) as [Hkeys Hvals].
      + rewrite keys_objSet_new by assumption. rewrite <- app_assoc. exact Hnd.
      + intros v Hv. rewrite keys_objSet_new in Hv by assumption.
        apply in_app_or in Hv as [Hv | [<- | []]].
        * destruct (String.eqb_spec x v) as [->|Hne]; [tauto|].
          rewrite objGet_objSet_other by assumption. now apply Hacc.
        * apply objGet_objSet_same.
      + rewrite keys_objSet_new in Hkeys, Hvals by assumption.
        rewrite <- app_assoc in Hkeys, Hvals. auto. }
  destruct (H []) as [Hkeys Hvals]; [exact Hnd | intros v [] |].
  split; [exact Hkeys | exact Hvals].
Qed.

(** Read basis: the keys stay as they are, a name the basis does not hold
    keeps its value, and a name of the basis gets the right-hand side of
    the last row it labels. *)
Lemma readBasis_spec hdrs (matrix : Matrix) h RHS_COL :
  forall ib fv fv',
  readBasis hdrs matrix h RHS_COL ib fv = Ok fv' ->
  (forall i c, In (i, c) ib -> In (headerAt hdrs c) (map fst fv)) ->
  map fst fv' = map fst fv
  /\ (forall v, (forall i c, In (i, c) ib -> headerAt hdrs c <> v) ->
                objGet v fv' = objGet v fv)
  /\ (forall pre i c post,
        ib = pre ++ (i, c) :: post ->
        (forall i' c', In (i', c') post -> headerAt hdrs c' <> headerAt hdrs c) ->
        objGet (headerAt hdrs c) fv' = Some (cell h matrix (i + 1) RHS_COL)).
Proof.
  induction ib as [|[i c] ib IH]; intros fv fv' Hread Hkeys.
  - simpl in Hread. injection Hread as <-. repeat split; auto.
    intros [|x pre] i c post H; discriminate.
  - cbn [readBasis] in Hread.
    destruct (rowRefOf matrix (i + 1)) as [a|e] eqn:Ea; cbn [bind] in Hread; [|discriminate].
    assert (Ha : a = rowAddr matrix (i + 1)).
    { unfold rowRefOf in Ea. unfold rowAddr.
      destruct (nth_error matrix (i + 1)) as [a'|] eqn:En; [|discriminate].
      injection Ea as <-. symmetry. now apply nth_error_nth. }
    subst a. fold (cell h matrix (i + 1) RHS_COL) in Hread.
    assert (Hin : In (headerAt hdrs c) (map fst fv)) by (apply (Hkeys i c); now left).
    destruct (IH _ _ Hread) as (Hk & Hother & Hlast).
    { intros i' c' Hin'. rewrite keys_objSet_old by assumption.
      apply (Hkeys i' c'). now right. }
    rewrite keys_objSet_old in Hk by assumption.
    split; [exact Hk|]. split.
    + intros v Hv. rewrite Hother.
      * apply objGet_objSet_other. apply (Hv i c). now left.
      * intros i' c' Hin'. apply (Hv i' c'). now right.
    + intros pre i0 c0 post Heq Hpost.
      destruct pre as [|x pre]; cbn [app] in Heq.
      * injection Heq as <- <- <-.
        rewrite Hother by exact Hpost. apply objGet_objSet_same.
      * injection Heq as _ ->. now apply (Hlast pre i0 c0 post).
Qed.

Lemma whileLoop_optimal_end matrix hdrs phaseNo colCount rowCount fuel :
  forall iter st,
  BasisOk colCount rowCount (st_basis st) ->
  fst (whileLoop matrix hdrs phaseNo colCount rowCount fuel iter st) = OPTIMAL ->
  exists st0,
    BasisOk colCount rowCount (st_basis st0)
    /\ snd (whileLoop matrix hdrs phaseNo colCount rowCount fuel iter st)
       = {| st_heap := st_heap st0; st_basis := st_basis st0;
            st_steps := st_steps st0
                        ++ [optimalStep matrix hdrs phaseNo colCount rowCount st0] |}
    /\ fst (findEntering matrix colCount (st_heap st0)) = None.
Proof.
  induction fuel as [|fuel IH]; intros iter st Hb Hs.
  - simpl in Hs. discriminate.
  - cbn [whileLoop] in *.
    pose proof (iteration_basis_ok matrix hdrs phaseNo colCount rowCount iter st Hb) as Hb1.
    destruct (iteration_cases matrix hdrs phaseNo colCount rowCount iter st)
      as [He | ec He Hl | ec lr He Hl]; cbn [fst snd] in *.
    + exists st. auto.
    + discriminate.
    + now apply IH.
Qed.

(** An OPTIMAL result is extracted from the state the last run of the
    engine ended in, right after its optimal step. *)
Lemma solve_optimal_inv method type objCoeffs constraints :
  let n := normalize (isMinOf type) objCoeffs constraints in
  let result := solveLinearProgram method type objCoeffs constraints in
  status result = OPTIMAL ->
  exists (matrix : Matrix) phaseNo st0,
    List.length matrix = List.length constraints + 1
    /\ BasisOk (n_colCount n) (List.length matrix) (st_basis st0)
    /\ extractResults (isMinOf type) (n_headers n) matrix (n_colCount n - 1)
         {| st_heap := st_heap st0; st_basis := st_basis st0;
            st_steps := st_steps st0
                        ++ [optimalStep matrix (n_headers n) phaseNo (n_colCount n)
                                        (List.length matrix) st0] |}
       = Ok result
    /\ fst (findEntering matrix (n_colCount n) (st_heap st0)) = None.
Proof.
  intros n result Hopt.
  pose proof (normalize_basis_ok (isMinOf type) objCoeffs constraints) as Hb0.
  cbv zeta in Hb0. fold n in Hb0.
  (* the last run ended with OPTIMAL, right after its optimal step *)
  assert (Hend : forall (matrix : Matrix) phaseNo st s st',
             List.length matrix = List.length constraints + 1 ->
             runSimplexIterations matrix (n_headers n) phaseNo st = Ok (s, st') ->
             rowLength (st_heap st) (rowAddr matrix 0) = n_colCount n ->
             BasisOk (n_colCount n) (List.length matrix) (st_basis st) ->
             Final (isMinOf type) (n_headers n) (n_colCount n) matrix s st' result ->
             exists st0,
               BasisOk (n_colCount n) (List.length matrix) (st_basis st0)
               /\ extractResults (isMinOf type) (n_headers n) matrix (n_colCount n - 1)
                    {| st_heap := st_heap st0; st_basis := st_basis st0;
                       st_steps := st_steps st0
                         ++ [optimalStep matrix (n_headers n) phaseNo (n_colCount n)
                                         (List.length matrix) st0] |}
                  = Ok result
               /\ fst (findEntering matrix (n_colCount n) (st_heap st0)) = None).
  { intros matrix phaseNo st s st' Hrows Hrun Hrow Hb Hfin.
    destruct (Final_optimal _ _ _ _ _ _ _ Hfin Hopt) as [-> Hextract].
    apply runSimplexIterations_inv in Hrun. rewrite Hrow in Hrun.
    destruct (whileLoop_optimal_end matrix (n_headers n) phaseNo (n_colCount n)
                (List.length matrix) maxIter 0 st Hb) as (st0 & Hb' & Hst0 & Hnone).
    { now rewrite Hrun. }
    rewrite Hrun in Hst0. cbn [snd] in Hst0. subst st'.
    exists st0. auto. }
  destruct (isTwoPhase method && (0 <? List.length (artificialVars constraints))) eqn:Htwo.
  - destruct (solve_two_runs type objCoeffs constraints method Htwo)
      as (m1 & h1 & s1 & st1 & Hrows1 & Hrun1 & Hrow1 & Hrest).
    fold n result in Hrun1, Hrow1, Hrest.
    destruct Hrest as [(s' & Hres & Hne & _) | (m2 & h2 & s2 & st2 & Hrows2 & Hrun2 & Hrow2 & Hfin & _)].
    + rewrite Hres in Hopt. cbn [status earlyReturn] in Hopt. congruence.
    + destruct (run_invariant m1 _ 1 _ (fun _ _ => True) (fun _ _ _ _ => I)
                  _ _ _ Hrun1 Hrow1) as [Hb1 _];
        [cbn [st_basis]; now rewrite Hrows1 | exact I |].
      destruct (Hend m2 2 _ s2 st2 Hrows2 Hrun2 Hrow2) as (st0 & H0); [|exact Hfin|].
      * cbn [st_basis]. now rewrite Hrows2, <- Hrows1.
      * exists m2, 2, st0. auto.
  - destruct (solve_one_run method type objCoeffs constraints Htwo)
      as (h0 & s & st & Hrun & Hrow & Hfin).
    fold n result in Hrun, Hrow, Hfin.
    pose proof (length_n_matrix _ _ _ (normalize_facts (isMinOf type) objCoeffs constraints))
      as Hrows.
    fold n in Hrows.
    destruct (Hend _ 0 _ s st Hrows Hrun Hrow) as (st0 & H0); [|exact Hfin|].
    + cbn [st_basis]. now rewrite Hrows.
    + exists (n_matrix n), 0, st0. auto.
Qed.

Lemma extractResults_values isMin hdrs matrix RHS_COL st r :
  extractResults isMin hdrs matrix RHS_COL st = Ok r ->
  readBasis hdrs matrix (st_heap st) RHS_COL (indexed (st_basis st))
            (fold_left (fun fv h => objSet h 0%float fv) (slice1m1 hdrs) [])
  = Ok (finalValues r)
  /\ zValue r = (if isMin then (- cell (st_heap st) matrix 0 RHS_COL)%float
                 else cell (st_heap st) matrix 0 RHS_COL)
  /\ steps r = st_steps st.
Proof.
  unfold extractResults.
  destruct (readBasis hdrs matrix (st_heap st) RHS_COL (indexed (st_basis st)) _)
    as [fv|e]; cbn [bind]; [|discriminate].
  destruct (rowRefOf matrix 0) as [a0|e] eqn:Ea; cbn [bind]; [|discriminate].
  intros H. injection H as <-. cbn [finalValues zValue steps].
  assert (Ha : a0 = rowAddr matrix 0).
  { unfold rowRefOf in Ea. unfold rowAddr.
    destruct (nth_error matrix 0) as [a'|] eqn:En; [|discriminate].
    injection Ea as <-. symmetry. now apply nth_error_nth. }
  subst a0. auto.
Qed.

Lemma shownRhs_optimalStep matrix hdrs phaseNo colCount rowCount st r :
  r < rowCount -> 1 <= colCount ->
  shownRhs (optimalStep matrix hdrs phaseNo colCount rowCount st) r
  = Some (cell (st_heap st) matrix r (colCount - 1)).
Proof.
  intros Hr Hc. unfold shownRhs, optimalStep, currentTableauRows. cbn [tableau].
  rewrite nth_error_map, nth_error_seq.
  destruct (Nat.ltb_spec r rowCount); [|lia]. cbn [option_map rowRhs Nat.add].
  unfold rhsCell. destruct colCount as [|k]; [lia|].
  now rewrite Nat.sub_succ, Nat.sub_0_r.
Qed.

Lemma indexed_split {A : Type} (l : list A) (i : nat) (x : A) :
  nth_error l i = Some x ->
  exists pre post,
    indexed l = pre ++ (i, x) :: post
    /\ forall j y, In (j, y) post -> i < j /\ nth_error l j = Some y.
Proof.
  intros Hnth.
  destruct (nth_error_split l i Hnth) as (l1 & l2 & -> & Hlen).
  exists (indexed l1), (combine (seq (S i) (List.length l2)) l2). split.
  - rewrite indexed_app. cbn [List.length seq combine]. now rewrite Hlen.
  - intros j y Hin. apply in_combine_seq in Hin as [Hle Hy]. split; [lia|].
    rewrite nth_error_app2 by lia. rewrite Hlen.
    replace (j - i) with (S (j - S i)) by lia. exact Hy.
Qed.

(** What the theorems about an optimal result share: the final step is the
    optimal step of the last run, and the values are read off the tableau
    that step shows. *)
Lemma optimal_result_values method type objCoeffs constraints :
  let hdrs := buildHeaders (List.length objCoeffs) constraints in
  let result := solveLinearProgram method type objCoeffs constraints in
  status result = OPTIMAL ->
  exists t z,
    finalStep (steps result) = Some t
    /\ describesOptimal t = true
    /\ shownRhs t 0 = Some z
    /\ zValue result = (if isMinOf type then (- z)%float else z)
    /\ map fst (finalValues result) = slice1m1 hdrs
    /\ (forall v, In v (slice1m1 hdrs) -> ~ In v (basicVars t) ->
                  objGet v (finalValues result) = Some 0%float)
    /\ (forall i v, nth_error (basicVars t) i = Some v ->
                    (forall j, i < j -> nth_error (basicVars t) j <> Some v) ->
                    objGet v (finalValues result) = shownRhs t (i + 1)).
Proof.
  cbv zeta. intros Hopt.
  destruct (solve_optimal_inv method type objCoeffs constraints Hopt)
    as (matrix & phaseNo & st0 & Hrows & [Hblen Hball] & Hextract & _).
  pose proof (normalize_facts (isMinOf type) objCoeffs constraints) as NF.
  set (n := normalize (isMinOf type) objCoeffs constraints) in *.
  assert (Hhdrs : n_headers n = buildHeaders (List.length objCoeffs) constraints)
    by reflexivity.
  rewrite <- Hhdrs.
  pose proof (nf_columns _ _ _ NF) as Hcols.
  set (t := optimalStep matrix (n_headers n) phaseNo (n_colCount n) (List.length matrix) st0)
    in *.
  destruct (extractResults_values _ _ _ _ _ _ Hextract) as (Hread & Hz & Hsteps).
  cbn [st_heap st_basis st_steps] in Hread, Hz, Hsteps.
  destruct (zeroed_values (slice1m1 (n_headers n))) as [Hkeys0 Hvals0].
  { rewrite Hhdrs, slice1m1_buildHeaders.
    pose proof (buildHeaders_NoDup (List.length objCoeffs) constraints) as Hnd.
    unfold buildHeaders in Hnd. cbn [app] in Hnd.
    apply NoDup_cons_iff in Hnd as [_ Hnd].
    rewrite !app_assoc in Hnd. apply NoDup_app_remove_r in Hnd.
    now rewrite <- !app_assoc in Hnd. }
  pose proof (basis_names_in_headers (n_headers n) (n_colCount n) (st_basis st0)
                                     eq_refl Hball) as Hnames.
  destruct (readBasis_spec _ _ _ _ _ _ _ Hread) as (Hkeys & Hother & Hlast).
  { intros i c Hin. rewrite Hkeys0. apply in_indexed_iff in Hin.
    rewrite Forall_forall in Hnames. apply Hnames.
    apply in_map. now apply nth_error_In in Hin. }
  exists t, (cell (st_heap st0) matrix 0 (n_colCount n - 1)).
  split; [rewrite Hsteps; apply finalStep_snoc|].
  split; [reflexivity|].
  split; [apply shownRhs_optimalStep; lia|].
  split; [exact Hz|].
  split; [now rewrite Hkeys, Hkeys0|].
  split.
  - intros v Hv Hnot. rewrite Hother; [now apply Hvals0|].
    intros i c Hin <-. apply Hnot. apply in_indexed_iff in Hin.
    cbn [t basicVars optimalStep]. apply in_map. now apply nth_error_In in Hin.
  - intros i v Hi Hlater. cbn [t basicVars optimalStep] in Hi, Hlater.
    rewrite nth_error_map in Hi.
    destruct (nth_error (st_basis st0) i) as [c|] eqn:Ec; [|discriminate].
    injection Hi as <-.
    destruct (indexed_split _ _ _ Ec) as (pre & post & Hsplit & Hpost).
    change (buildHeaders (List.length objCoeffs) constraints) with (n_headers n)
      in Hlater |- *.
    rewrite (Hlast pre i c post Hsplit).
    + symmetry. apply shownRhs_optimalStep; [|lia].
      assert (i < List.length (st_basis st0)) by (apply nth_error_Some; congruence). lia.
    + intros j c' Hin Heq. destruct (Hpost _ _ Hin) as [Hj Hc'].
      apply (Hlater j Hj). rewrite nth_error_map, Hc'. cbn [option_map]. now rewrite Heq.
Qed.

(** X13: the values of an OPTIMAL result cover every variable.  The keys
    of [finalValues] are the variable columns of the tableau in their order:
    the decision variables, then the slack, the surplus and the artificial
    variables, each exactly once. *)
Theorem optimal_values_name_every_variable
        (method : SolverMethod) (type : OptimizationType)
        (objCoeffs : list number) (constraints : list Constraint) :
  let result := solveLinearProgram method type objCoeffs constraints in
  status result = OPTIMAL ->
  map fst (finalValues result)
  = decisionHeaders (List.length objCoeffs) ++ slackVars constraints
    ++ surplusVars constraints ++ artificialVars constraints.
Proof.
  cbv zeta. intros Hopt.
  destruct (optimal_result_values method type objCoeffs constraints Hopt)
    as (t & z & _ & _ & _ & _ & Hkeys & _).
  rewrite Hkeys. apply slice1m1_buildHeaders.
Qed.

(** The sample problem has two decision variables and three slacks. *)
Lemma optimal_values_name_every_variable_sample :
  status (solveLinearProgram SIMPLEX MAX [3%float; 5%float] sampleConstraints) = OPTIMAL
  /\ map fst (finalValues (solveLinearProgram SIMPLEX MAX [3%float; 5%float]
                                              sampleConstraints))
     = ["x1"; "x2"; "s1"; "s2"; "s3"].
Proof.
  assert (Hopt : status (solveLinearProgram SIMPLEX MAX [3%float; 5%float]
                                            sampleConstraints) = OPTIMAL)
    by (vm_compute; reflexivity).
  split; [exact Hopt|].
  exact (optimal_values_name_every_variable SIMPLEX MAX [3%float; 5%float]
                                            sampleConstraints Hopt).
Defined.

(** X14: the values of an OPTIMAL result are those of the final step, which
    is the optimal step of the last run.  A variable that is not basic there
    has the value 0; a basic variable has the right-hand side shown in the
    row it labels (the last such row, should it label several). *)
Theorem optimal_values_are_those_of_the_final_step
        (method : SolverMethod) (type : OptimizationType)
        (objCoeffs : list number) (constraints : list Constraint) :
  let result := solveLinearProgram method type objCoeffs constraints in
  status result = OPTIMAL ->
  exists t,
    finalStep (steps result) = Some t
    /\ describesOptimal t = true
    /\ (forall v, In v (map fst (finalValues result)) -> ~ In v (basicVars t) ->
                  objGet v (finalValues result) = Some 0%float)
    /\ (forall i v, nth_error (basicVars t) i = Some v ->
                    (forall j, i < j -> nth_error (basicVars t) j <> Some v) ->
                    objGet v (finalValues result) = shownRhs t (i + 1)).
Proof.
  cbv zeta. intros Hopt.
  destruct (optimal_result_values method type objCoeffs constraints Hopt)
    as (t & z & Hlast & Hdesc & _ & _ & Hkeys & Hzero & Hbasic).
  exists t. repeat split; try assumption.
  intros v Hv. apply Hzero. now rewrite <- Hkeys.
Qed.

(** On the sample problem [x2] is basic in row 2 of the final step, whose
    right-hand side is 6. *)
Lemma optimal_values_are_those_of_the_final_step_sample :
  status (solveLinearProgram SIMPLEX MAX [3%float; 5%float] sampleConstraints) = OPTIMAL
  /\ objGet "x2" (finalValues (solveLinearProgram SIMPLEX MAX [3%float; 5%float]
                                                  sampleConstraints))
     = Some 6%float.
Proof.
  assert (Hopt : status (solveLinearProgram SIMPLEX MAX [3%float; 5%float]
                                            sampleConstraints) = OPTIMAL)
    by (vm_compute; reflexivity).
  split; [exact Hopt|].
  destruct (optimal_values_are_those_of_the_final_step
              SIMPLEX MAX [3%float; 5%float] sampleConstraints Hopt)
    as (t & Hlast & _ & _ & Hbasic).
  vm_compute in Hlast. injection Hlast as <-.
  rewrite (Hbasic 1 "x2").
  - vm_compute. reflexivity.
  - reflexivity.
  - intros [|[|[|j]]] Hj H; try lia; cbn in H; [discriminate|].
    destruct j; discriminate.
Defined.

(** X15: the objective value of an OPTIMAL result is the right-hand side the
    final step shows in the objective row, with the sign changed when the
    problem is a minimization. *)
Theorem optimal_z_is_the_objective_rhs
        (method : SolverMethod) (type : OptimizationType)
        (objCoeffs : list number) (constraints : list Constraint) :
  let result := solveLinearProgram method type objCoeffs constraints in
  status result = OPTIMAL ->
  exists t z,
    finalStep (steps result) = Some t
    /\ shownRhs t 0 = Some z
    /\ zValue result = match type with MIN => (- z)%float | MAX => z end.
Proof.
  cbv zeta. intros Hopt.
  destruct (optimal_result_values method type objCoeffs constraints Hopt)
    as (t & z & Hlast & _ & Hrhs & Hz & _).
  exists t, z. repeat split; try assumption.
  rewrite Hz. destruct type; reflexivity.
Qed.

(** Minimizing [x1] subject to [x1 >= 5] with BIG_M: the final tableau holds
    [-5] in the objective row, and the result is 5. *)
Lemma optimal_z_is_the_objective_rhs_sample :
  status (solveLinearProgram BIG_M MIN [1%float] [mkConstraint [1%float] GE 5%float])
  = OPTIMAL
  /\ zValue (solveLinearProgram BIG_M MIN [1%float] [mkConstraint [1%float] GE 5%float])
     = 5%float.
Proof.
  assert (Hopt : status (solveLinearProgram BIG_M MIN [1%float]
                                            [mkConstraint [1%float] GE 5%float]) = OPTIMAL)
    by (vm_compute; reflexivity).
  split; [exact Hopt|].
  destruct (optimal_z_is_the_objective_rhs
              BIG_M MIN [1%float] [mkConstraint [1%float] GE 5%float] Hopt)
    as (t & z & Hlast & Hrhs & ->).
  vm_compute in Hlast. injection Hlast as <-.
  vm_compute in Hrhs. injection Hrhs as <-. reflexivity.
Defined.

(** * SolutionView: the summary of an optimal result *)

Lemma summaryCards_split (shown hidden : list string) :
  Forall (fun k => startsWithX k = true) shown ->
  Forall (fun k => startsWithX k = false) hidden ->
  forall fv,
  map fst fv = shown ++ hidden ->
  summaryCards fv
  = map Some (firstn (List.length shown) fv) ++ repeat None (List.length hidden)
    /\ map fst (firstn (List.length shown) fv) = shown.
Proof.
  intros Hshown. induction Hshown as [|k shown Hk Hshown IH]; intros Hhidden fv Hkeys.
  - cbn [app List.length firstn map]. split; [|reflexivity].
    revert fv Hkeys. induction Hhidden as [|k hidden Hk Hhidden IH]; intros fv Hkeys.
    + destruct fv; [reflexivity | discriminate].
    + destruct fv as [|[k' v] fv]; [discriminate|]. cbn [map fst] in Hkeys.
      injection Hkeys as -> Hkeys. cbn [summaryCards map fst List.length repeat].
      rewrite Hk. cbn [negb]. f_equal. now apply IH.
  - destruct fv as [|[k' v] fv]; [discriminate|]. cbn [map fst app] in Hkeys.
    injection Hkeys as -> Hkeys.
    destruct (IH Hhidden fv Hkeys) as [Hcards Hfirst].
    cbn [summaryCards map fst List.length firstn app]. rewrite Hk. cbn [negb].
    split; [f_equal; exact Hcards | f_equal; exact Hfirst].
Qed.

Lemma startsWithX_not (c : ascii) (l : list string) :
  c <> "x"%char ->
  Forall (fun h => String.get 0 h = Some c) l ->
  Forall (fun k => startsWithX k = false) l.
Proof.
  intros Hne Hall. eapply Forall_impl; [|exact Hall]. cbv beta.
  intros [|a s] Hget; [reflexivity|]. cbn [String.get] in Hget. injection Hget as ->.
  unfold startsWithX. cbn [String.prefix].
  destruct (Ascii.ascii_dec "x" c); [congruence | reflexivity].
Qed.

(** X16: the summary of an OPTIMAL result shows one card per decision
    variable, in the order [x1], [x2], ..., and none for the slack, surplus
    and artificial variables. *)
Theorem summary_shows_the_decision_variables
        (method : SolverMethod) (type : OptimizationType)
        (objCoeffs : list number) (constraints : list Constraint) :
  let result := solveLinearProgram method type objCoeffs constraints in
  status result = OPTIMAL ->
  exists shown,
    summaryCards (finalValues result)
    = map Some shown
      ++ repeat None (List.length constraints + countSurplus constraints)
    /\ map fst shown = decisionHeaders (List.length objCoeffs).
Proof.
  cbv zeta. intros Hopt.
  destruct (optimal_result_values method type objCoeffs constraints Hopt)
    as (t & z & _ & _ & _ & _ & Hkeys & _).
  rewrite slice1m1_buildHeaders in Hkeys.
  destruct (summaryCards_split (decisionHeaders (List.length objCoeffs))
              (slackVars constraints ++ surplusVars constraints
               ++ artificialVars constraints)) with (fv := finalValues
              (solveLinearProgram method type objCoeffs constraints))
    as [Hcards Hshown].
  - unfold decisionHeaders. apply Forall_map. apply Forall_forall.
    intros i _. apply (prefix_append "x").
  - repeat (apply Forall_app; split).
    + apply (startsWithX_not "s"); [discriminate | apply slackVars_names].
    + apply (startsWithX_not "e"); [discriminate | apply surplusVars_names].
    + apply (startsWithX_not "a"); [discriminate | apply artificialVars_names].
  - exact Hkeys.
  - eexists. split; [|exact Hshown]. rewrite Hcards. f_equal. f_equal.
    rewrite !length_app, length_slackVars, length_surplusVars, length_artificialVars.
    pose proof (countSlack_countArtificial constraints). lia.
Qed.

(** The summary of the sample problem: cards for [x1] and [x2], and
    nothing for the three slacks. *)
Lemma summary_shows_the_decision_variables_sample :
  status (solveLinearProgram SIMPLEX MAX [3%float; 5%float] sampleConstraints) = OPTIMAL
  /\ exists shown,
       summaryCards (finalValues (solveLinearProgram SIMPLEX MAX [3%float; 5%float]
                                                     sampleConstraints))
       = map Some shown ++ [None; None; None]
       /\ map fst shown = ["x1"; "x2"].
Proof.
  assert (Hopt : status (solveLinearProgram SIMPLEX MAX [3%float; 5%float]
                                            sampleConstraints) = OPTIMAL)
    by (vm_compute; reflexivity).
  split; [exact Hopt|].
  exact (summary_shows_the_decision_variables
           SIMPLEX MAX [3%float; 5%float] sampleConstraints Hopt).
Defined.

(** * The handler is out of reach *)

(** X11: on well-typed input nothing raises inside the [try] block: the
    status is never ERROR and no error message is set. *)
Theorem solve_never_reports_an_error
        (method : SolverMethod) (type : OptimizationType)
        (objCoeffs : list number) (constraints : list Constraint) :
  let result := solveLinearProgram method type objCoeffs constraints in
  solveBody method type objCoeffs constraints = Ok result
  /\ status result <> ERROR
  /\ errorMessage result = None.
Proof.
  cbv zeta.
  destruct (solveBody_returns method type objCoeffs constraints) as [r Hr].
  pose proof (body_outcome method type objCoeffs constraints) as H.
  unfold solveLinearProgram. rewrite Hr in *. cbn [tryCatch BodyOutcome] in *.
  destruct H as (s & prior & pre & t & _ & Hend & Hstatus & _ & Hmsg).
  split; [reflexivity|]. split; [|exact Hmsg].
  destruct Hend as [[-> _] | [[-> _] | (-> & _)]];
    destruct Hstatus as [Hs | [Hs' Hs]]; congruence.
Qed.

(** * The method and the artificial variables *)

Lemma artificialVars_nil (constraints : list Constraint) :
  Forall (fun c => relation c = LE) constraints -> artificialVars constraints = [].
Proof.
  intros Hall. unfold artificialVars, indexed.
  assert (H : forall k,
             flat_map (fun ic => match relation (snd ic) with
                                 | GE | EQ => ["a" +++ showNat (fst ic + 1)]
                                 | LE => []
                                 end) (combine (seq k (List.length constraints)) constraints)
             = []).
  { induction Hall as [|c l Hc Hall IH]; intros k; [reflexivity|].
    cbn [List.length seq combine flat_map snd]. rewrite Hc. apply IH. }
  apply H.
Qed.

(** X12: when every constraint is a [<=] constraint no artificial variable
    is needed, and BIG_M and TWO_PHASE do exactly what SIMPLEX does: the
    result is the same, trace included. *)
Theorem method_is_irrelevant_without_artificials
        (method : SolverMethod) (type : OptimizationType)
        (objCoeffs : list number) (constraints : list Constraint) :
  Forall (fun c => relation c = LE) constraints ->
  solveLinearProgram method type objCoeffs constraints
  = solveLinearProgram SIMPLEX type objCoeffs constraints.
Proof.
  intros Hall. unfold solveLinearProgram, solveBody.
  rewrite (artificialVars_nil _ Hall). cbn [List.length Nat.ltb Nat.leb].
  rewrite !andb_false_r. reflexivity.
Qed.

(** The sample problem only has [<=] constraints. *)
Lemma method_is_irrelevant_without_artificials_sample :
  Forall (fun c => relation c = LE) sampleConstraints
  /\ solveLinearProgram TWO_PHASE MAX [3%float; 5%float] sampleConstraints
     = solveLinearProgram SIMPLEX MAX [3%float; 5%float] sampleConstraints.
Proof.
  assert (Hall : Forall (fun c => relation c = LE) sampleConstraints)
    by (repeat constructor).
  split; [exact Hall|].
  apply (method_is_irrelevant_without_artificials TWO_PHASE MAX _ _ Hall).
Defined.

(** * The rows the normalizer fills *)

(** [values.forEach((x, j) => { matrix[r][j + off] = val(x) })]: the cells
    [off .. off + values.length - 1] of row [r] get the values, and nothing
    else changes. *)
Lemma fill_cells (m : Matrix) (r off : nat) (val : number -> number) (l : list number) :
  forall k h,
  rowAddr m r < List.length h ->
  let h' := fold_left (fun h jc => setCell h m r (fst jc + off) (val (snd jc)))
                      (combine (seq k (List.length l)) l) h in
  List.length h' = List.length h
  /\ (forall a, a <> rowAddr m r -> rowAt h' a = rowAt h a)
  /\ (forall c, cell h' m r c
                = if (k + off <=? c) && (c <? k + off + List.length l)
                  then val (nth (c - off - k) l nan)
                  else cell h m r c).
Proof.
  induction l as [|x l IH]; intros k h Ha; cbv zeta.
  - simpl. repeat split; auto. intros c.
    destruct (k + off <=? c) eqn:E1; [|reflexivity].
    destruct (Nat.ltb_spec c (k + off + 0)); [|reflexivity].
    apply Nat.leb_le in E1. lia.
  - cbn [List.length seq combine fold_left fst snd].
    destruct (IH (S k) (setCell h m r (k + off) (val x))) as (Hlen & Hother & Hcells).
    { now rewrite length_setCell. }
    repeat split.
    + now rewrite Hlen, length_setCell.
    + intros a Hne. rewrite Hother by assumption. now apply rowAt_setCell_other.
    + intros c. rewrite Hcells.
      destruct (Nat.leb_spec (S k + off) c), (Nat.ltb_spec c (S k + off + List.length l)),
               (Nat.leb_spec (k + off) c), (Nat.ltb_spec c (k + off + S (List.length l)));
        cbn [andb]; try lia;
        try (apply cell_setCell_other_col; lia).
      * replace (c - off - k) with (S (c - off - S k)) by lia. reflexivity.
      * replace c with (k + off) by lia.
        rewrite cell_setCell_same by assumption.
        replace (k + off - off - k) with 0 by lia. reflexivity.
Qed.

Lemma cell_zero (numRows colCount r c : nat) :
  r < numRows ->
  cell (initHeap numRows colCount) (initMatrix numRows) r c
  = if c <? colCount then 0%float else nan.
Proof.
  intros Hr. unfold cell. rewrite rowAddr_initMatrix, rowAt_initHeap by assumption.
  unfold jsGet, zeroRow.
  destruct (Nat.ltb_spec c colCount).
  - now rewrite nth_repeat_lt.
  - rewrite nth_overflow; [reflexivity | rewrite repeat_length; lia].
Qed.

Lemma objective_cells isMin objCoeffs constraints (c : nat) :
  let n := normalize isMin objCoeffs constraints in
  cell (n_heap n) (n_matrix n) 0 c
  = if (1 <=? c) && (c <? 1 + List.length objCoeffs)
    then objectiveEntry isMin (nth (c - 1) objCoeffs nan)
    else if c =? 0 then 1%float
    else if c <? n_colCount n then 0%float else nan.
Proof.
  cbv zeta. unfold normalize. cbn [n_heap n_matrix n_colCount].
  set (colCount := List.length (buildHeaders (List.length objCoeffs) constraints)).
  set (numRows := List.length constraints + 1).
  set (filled := fold_left (fillConstraint (initMatrix numRows) (colCount - 1))
                           (indexed constraints) _).
  assert (Hrow0 : rowAt (f_heap filled) 0 = zeroRow colCount).
  { unfold filled, indexed. rewrite fill_row0 by (unfold numRows; simpl; lia).
    cbn [f_heap]. apply rowAt_initHeap. unfold numRows. lia. }
  assert (Hlen : List.length (f_heap filled) = numRows).
  { unfold filled. rewrite length_fill. cbn [f_heap]. unfold initHeap. apply repeat_length. }
  assert (Haddr : rowAddr (initMatrix numRows) 0 = 0)
    by (apply rowAddr_initMatrix; unfold numRows; lia).
  unfold fillObjective, indexed.
  destruct (fill_cells (initMatrix numRows) 0 1 (objectiveEntry isMin) objCoeffs 0
                       (setCell (f_heap filled) (initMatrix numRows) 0 0 1%float))
    as (_ & _ & Hcells).
  { rewrite length_setCell, Haddr, Hlen. unfold numRows. lia. }
  unfold objectiveEntry in Hcells at 1. rewrite Hcells. clear Hcells.
  cbn [Nat.add]. rewrite Nat.sub_0_r.
  destruct ((1 <=? c) && (c <? S (List.length objCoeffs))); [reflexivity|].
  destruct (Nat.eqb_spec c 0) as [->|Hc].
  - apply cell_setCell_same. rewrite Haddr, Hlen. unfold numRows. lia.
  - rewrite cell_setCell_other_col by lia.
    unfold cell. rewrite Haddr, Hrow0. unfold jsGet, zeroRow.
    destruct (Nat.ltb_spec c colCount).
    + now rewrite nth_repeat_lt.
    + rewrite nth_overflow; [reflexivity | rewrite repeat_length; lia].
Qed.

(** X3: the objective row of the normalized tableau.  It holds 1 in the
    [Z] column, then the objective coefficients, negated when maximizing and
    as they are when minimizing, and 0 in every other column, the
    right-hand side included. *)
Theorem normalized_objective_row
        (isMin : bool) (objCoeffs : list number) (constraints : list Constraint) :
  let n := normalize isMin objCoeffs constraints in
  rowAt (n_heap n) (rowAddr (n_matrix n) 0)
  = 1%float :: map (objectiveEntry isMin) objCoeffs
    ++ repeat 0%float (List.length constraints + countSurplus constraints + 1).
Proof.
  cbv zeta.
  pose proof (normalize_facts isMin objCoeffs constraints) as NF.
  pose proof (objective_cells isMin objCoeffs constraints) as Hcells. cbv zeta in Hcells.
  set (n := normalize isMin objCoeffs constraints) in *.
  assert (Hcols : n_colCount n
                  = List.length objCoeffs + List.length constraints
                    + countSurplus constraints + 2).
  { rewrite (nf_colCount _ _ _ NF), (nf_headers _ _ _ NF), length_buildHeaders.
    pose proof (countSlack_countArtificial constraints). lia. }
  assert (Haddr : rowAddr (n_matrix n) 0 = 0).
  { rewrite (nf_matrix _ _ _ NF). apply rowAddr_initMatrix. lia. }
  apply row_ext.
  - rewrite Haddr. pose proof (nf_row0 _ _ _ NF) as H0. unfold rowLength in H0.
    rewrite H0, Hcols.
    change (List.length (1%float :: ?l)) with (S (List.length l)).
    rewrite length_app, length_map, repeat_length. lia.
  - intros c Hc. fold (cell (n_heap n) (n_matrix n) 0 c). rewrite Hcells.
    rewrite Haddr in Hc. pose proof (nf_row0 _ _ _ NF) as H0. unfold rowLength in H0.
    rewrite H0 in Hc. unfold jsGet.
    destruct c as [|c]; [reflexivity|]. cbn [nth Nat.leb Nat.eqb andb].
    rewrite Nat.sub_succ, Nat.sub_0_r.
    destruct (Nat.ltb_spec (S c) (1 + List.length objCoeffs)).
    + rewrite app_nth1 by (rewrite length_map; lia).
      rewrite (nth_indep (map (objectiveEntry isMin) objCoeffs) nan
                         (objectiveEntry isMin nan)) by (rewrite length_map; lia).
      now rewrite map_nth.
    + rewrite app_nth2 by (rewrite length_map; lia).
      destruct (Nat.ltb_spec (S c) (n_colCount n)); [|lia].
      rewrite nth_repeat_lt; [reflexivity|]. rewrite length_map. lia.
Qed.

Lemma fillConstraint_row (numRows colCount k : nat) (c : Constraint) (s : FillState) :
  k + 1 < numRows -> List.length (f_heap s) = numRows ->
  let matrix := initMatrix numRows in
  let s' := fillConstraint matrix (colCount - 1) s (k, c) in
  List.length (f_heap s') = numRows
  /\ (forall a, a <> k + 1 -> rowAt (f_heap s') a = rowAt (f_heap s) a)
  /\ (forall col,
        (forall col', cell (f_heap s) matrix (k + 1) col'
                      = if col' <? colCount then 0%float else nan) ->
        cell (f_heap s') matrix (k + 1) col
        = constraintCell colCount (currentSlackIdx s) (currentSurplusIdx s)
                         (currentArtificialIdx s) c col).
Proof.
  intros Hk Hlen. cbv zeta.
  assert (Haddr : rowAddr (initMatrix numRows) (k + 1) = k + 1)
    by (apply rowAddr_initMatrix; lia).
  unfold fillConstraint. cbn [fst snd].
  destruct (fill_cells (initMatrix numRows) (k + 1) 1 (fun x => x) (coefficients c) 0
                       (f_heap s)) as (Hlen1 & Hother1 & Hcells1).
  { rewrite Haddr. lia. }
  fold (indexed (coefficients c)) in Hlen1, Hother1, Hcells1.
  set (h1 := fold_left (fun h jc => setCell h (initMatrix numRows) (k + 1) (fst jc + 1) (snd jc))
                       (indexed (coefficients c)) (f_heap s)) in *.
  set (h2 := setCell h1 (initMatrix numRows) (k + 1) (colCount - 1) (rhs c)).
  assert (Hlen2 : List.length h2 = numRows).
  { unfold h2. rewrite length_setCell. congruence. }
  assert (Hother2 : forall a, a <> k + 1 -> rowAt h2 a = rowAt (f_heap s) a).
  { intros a Ha. unfold h2. rewrite rowAt_setCell_other by congruence. apply Hother1.
    congruence. }
  assert (Hcells2 : forall col,
             (forall col', cell (f_heap s) (initMatrix numRows) (k + 1) col'
                           = if col' <? colCount then 0%float else nan) ->
             cell h2 (initMatrix numRows) (k + 1) col
             = if col =? colCount - 1 then rhs c
               else if (1 <=? col) && (col <? 1 + List.length (coefficients c))
                    then nth (col - 1) (coefficients c) nan
                    else if col <? colCount then 0%float else nan).
  { intros col Hzero. unfold h2.
    destruct (Nat.eqb_spec col (colCount - 1)) as [->|Hne].
    - apply cell_setCell_same. rewrite Haddr. lia.
    - rewrite cell_setCell_other_col by congruence. rewrite Hcells1.
      cbn [Nat.add]. rewrite Nat.sub_0_r.
      destruct ((1 <=? col) && (col <? S (List.length (coefficients c))));
        [reflexivity | apply Hzero]. }
  assert (Hset : forall h col0 v,
             List.length h = numRows ->
             List.length (setCell h (initMatrix numRows) (k + 1) col0 v) = numRows
             /\ (forall a, a <> k + 1 ->
                   rowAt (setCell h (initMatrix numRows) (k + 1) col0 v) a = rowAt h a)
             /\ (forall col,
                   cell (setCell h (initMatrix numRows) (k + 1) col0 v)
                        (initMatrix numRows) (k + 1) col
                   = if col =? col0 then v else cell h (initMatrix numRows) (k + 1) col)).
  { intros h col0 v Hh. split; [now rewrite length_setCell|]. split.
    - intros a Ha. apply rowAt_setCell_other. congruence.
    - intros col. destruct (Nat.eqb_spec col col0) as [->|Hne].
      + apply cell_setCell_same. rewrite Haddr. lia.
      + apply cell_setCell_other_col. congruence. }
  unfold constraintCell.
  destruct (relation c); cbn [f_heap].
  - destruct (Hset h2 (currentSlackIdx s) 1%float Hlen2) as (L & O & C).
    split; [exact L|]. split.
    + intros a Ha. rewrite O by assumption. now apply Hother2.
    + intros col Hzero. rewrite C. destruct (col =? currentSlackIdx s); [reflexivity|].
      now apply Hcells2.
  - destruct (Hset h2 (currentSurplusIdx s) (-1)%float Hlen2) as (L1 & O1 & C1).
    destruct (Hset _ (currentArtificialIdx s) 1%float L1) as (L & O & C).
    split; [exact L|]. split.
    + intros a Ha. rewrite O, O1 by assumption. now apply Hother2.
    + intros col Hzero. rewrite C. destruct (col =? currentArtificialIdx s); [reflexivity|].
      rewrite C1. destruct (col =? currentSurplusIdx s); [reflexivity|].
      now apply Hcells2.
  - destruct (Hset h2 (currentArtificialIdx s) 1%float Hlen2) as (L & O & C).
    split; [exact L|]. split.
    + intros a Ha. rewrite O by assumption. now apply Hother2.
    + intros col Hzero. rewrite C. destruct (col =? currentArtificialIdx s); [reflexivity|].
      now apply Hcells2.
Qed.

Lemma countSurplus_app l1 l2 : countSurplus (l1 ++ l2) = countSurplus l1 + countSurplus l2.
Proof. induction l1 as [|c l1 IH]; simpl; [reflexivity | rewrite IH; lia]. Qed.

Lemma fillConstraint_counters matrix RHS_COL s k c :
  let s' := fillConstraint matrix RHS_COL s (k, c) in
  currentSlackIdx s' = currentSlackIdx s + countSlack [c]
  /\ currentSurplusIdx s' = currentSurplusIdx s + countSurplus [c]
  /\ currentArtificialIdx s' = currentArtificialIdx s + countArtificial [c].
Proof.
  cbv zeta. unfold fillConstraint. cbn [fst snd countSlack countSurplus countArtificial].
  destruct (relation c); cbn [currentSlackIdx currentSurplusIdx currentArtificialIdx];
    repeat split; lia.
Qed.

(** Filling the constraint rows: the row of each constraint holds its
    cells, with the columns the counters stood at when its turn came. *)
Lemma fill_rows (numRows colCount : nat) :
  forall l k s,
  k + List.length l < numRows -> List.length (f_heap s) = numRows ->
  let matrix := initMatrix numRows in
  let s' := fold_left (fillConstraint matrix (colCount - 1))
                      (combine (seq k (List.length l)) l) s in
  List.length (f_heap s') = numRows
  /\ (forall a, a <= k -> rowAt (f_heap s') a = rowAt (f_heap s) a)
  /\ (forall pre c post col,
        l = pre ++ c :: post ->
        (forall col', cell (f_heap s) matrix (k + List.length pre + 1) col'
                      = if col' <? colCount then 0%float else nan) ->
        cell (f_heap s') matrix (k + List.length pre + 1) col
        = constraintCell colCount (currentSlackIdx s + countSlack pre)
                         (currentSurplusIdx s + countSurplus pre)
                         (currentArtificialIdx s + countArtificial pre) c col).
Proof.
  induction l as [|c t IH]; intros k s Hk Hlen; cbv zeta.
  - simpl. repeat split; auto. intros [|x pre] c post col H; discriminate.
  - cbn [List.length seq combine fold_left]. cbn [List.length] in Hk.
    destruct (fillConstraint_row numRows colCount k c s) as (Hlen1 & Hother1 & Hcells1);
      [lia | assumption |].
    destruct (fillConstraint_counters (initMatrix numRows) (colCount - 1) s k c)
      as (Hs1 & He1 & Ha1).
    set (s1 := fillConstraint (initMatrix numRows) (colCount - 1) s (k, c)) in *.
    destruct (IH (S k) s1) as (Hlen2 & Hother2 & Hcells2); [lia | assumption |].
    split; [exact Hlen2|]. split.
    + intros a Ha. rewrite Hother2 by lia. apply Hother1. lia.
    + intros pre c0 post col Heq Hzero.
      destruct pre as [|x pre]; cbn [app] in Heq; injection Heq as <- ->.
      * cbn [List.length countSlack countSurplus countArtificial].
        rewrite !Nat.add_0_r in *.
        unfold cell. rewrite Hother2 by (rewrite rowAddr_initMatrix; lia).
        apply Hcells1. exact Hzero.
      * cbn [List.length]. replace (k + S (List.length pre) + 1)
          with (S k + List.length pre + 1) by lia.
        rewrite (Hcells2 pre c0 post col eq_refl).
        -- rewrite Hs1, He1, Ha1.
           cbn [countSlack countSurplus countArtificial].
           destruct (relation c); f_equal; lia.
        -- intros col'. cbn [List.length] in Hzero.
           rewrite length_app in Hk. cbn [List.length] in Hk.
           replace (S k + List.length pre + 1) with (k + S (List.length pre) + 1) by lia.
           unfold cell. rewrite Hother1 by (rewrite rowAddr_initMatrix; lia).
           apply Hzero.
Qed.

(** The cells of the row of a constraint. *)
Lemma constraint_cells
        (isMin : bool) (objCoeffs : list number)
        (pre : list Constraint) (c : Constraint) (post : list Constraint) (col : nat) :
  let constraints := pre ++ c :: post in
  let n := normalize isMin objCoeffs constraints in
  let slack0 := 1 + List.length objCoeffs in
  let surplus0 := slack0 + countSlack constraints in
  let artificial0 := surplus0 + countSurplus constraints in
  cell (n_heap n) (n_matrix n) (List.length pre + 1) col
  = constraintCell (n_colCount n) (slack0 + countSlack pre) (surplus0 + countSurplus pre)
                   (artificial0 + countArtificial pre) c col.
Proof.
  cbv zeta. unfold normalize. cbn [n_heap n_matrix n_colCount].
  set (constraints := pre ++ c :: post).
  set (colCount := List.length (buildHeaders (List.length objCoeffs) constraints)).
  set (numRows := List.length constraints + 1).
  assert (Hpre : List.length pre + 1 < numRows).
  { unfold numRows, constraints. rewrite length_app. simpl. lia. }
  destruct (fill_rows numRows colCount constraints 0
              {| f_heap := initHeap numRows colCount; initialBasis := [];
                 currentSlackIdx := 1 + List.length objCoeffs;
                 currentSurplusIdx := 1 + List.length objCoeffs
                                      + List.length (slackVars constraints);
                 currentArtificialIdx := 1 + List.length objCoeffs
                                         + List.length (slackVars constraints)
                                         + List.length (surplusVars constraints) |})
    as (Hlen & _ & Hcells).
  { unfold numRows. lia. }
  { cbn [f_heap]. unfold initHeap. apply repeat_length. }
  fold (indexed constraints) in Hlen, Hcells.
  set (filled := fold_left (fillConstraint (initMatrix numRows) (colCount - 1))
                           (indexed constraints) _) in *.
  specialize (Hcells pre c post col eq_refl).
  cbn [f_heap currentSlackIdx currentSurplusIdx currentArtificialIdx] in Hcells.
  rewrite length_slackVars, length_surplusVars in Hcells.
  etransitivity; [|apply Hcells].
  - (* the objective row is filled afterwards, in row 0 *)
    unfold cell. f_equal. unfold fillObjective.
    assert (Hne : rowAddr (initMatrix numRows) (List.length pre + 1)
                  <> rowAddr (initMatrix numRows) 0).
    { rewrite !rowAddr_initMatrix by lia. lia. }
    apply (fold_left_inv
             (fun h => rowAt h (rowAddr (initMatrix numRows) (List.length pre + 1))
                       = rowAt (f_heap filled)
                               (rowAddr (initMatrix numRows) (List.length pre + 1)))).
    + intros acc x _ Hacc. now rewrite rowAt_setCell_other.
    + now rewrite rowAt_setCell_other.
  - intros col'. apply cell_zero. exact Hpre.
Qed.

(** X4: the constraint rows of the normalized tableau.  The row of a
    constraint holds its coefficients in the columns of the decision
    variables, its right-hand side in the last column, 1 in the column of
    its slack or artificial variable, -1 in the column of its surplus
    variable when it is a [>=] constraint, and 0 elsewhere; its slack,
    surplus and artificial columns are the next free ones after those of
    the constraints before it. *)
Theorem normalized_constraint_row
        (isMin : bool) (objCoeffs : list number)
        (pre : list Constraint) (c : Constraint) (post : list Constraint) (col : nat) :
  let constraints := pre ++ c :: post in
  let n := normalize isMin objCoeffs constraints in
  let slack0 := 1 + List.length objCoeffs in
  let surplus0 := slack0 + countSlack constraints in
  let artificial0 := surplus0 + countSurplus constraints in
  cell (n_heap n) (n_matrix n) (List.length pre + 1) col
  = constraintCell (n_colCount n) (slack0 + countSlack pre) (surplus0 + countSurplus pre)
                   (artificial0 + countArtificial pre) c col.
Proof. apply constraint_cells. Qed.

(** * The normalized tableau is in canonical form *)

Lemma basisColumns_app l1 l2 : forall s a,
  basisColumns s a (l1 ++ l2)
  = basisColumns s a l1
    ++ basisColumns (s + countSlack l1) (a + countArtificial l1) l2.
Proof.
  induction l1 as [|c l1 IH]; intros s a.
  - cbn [app basisColumns countSlack countArtificial]. now rewrite !Nat.add_0_r.
  - cbn [app basisColumns countSlack countArtificial].
    destruct (relation c); cbn [app]; f_equal; rewrite IH; f_equal; f_equal; lia.
Qed.

Lemma basisColumns_nth (pre : list Constraint) (c : Constraint) (post : list Constraint)
      (s a : nat) :
  nth_error (basisColumns s a (pre ++ c :: post)) (List.length pre)
  = Some (match relation c with
          | LE => s + countSlack pre
          | _ => a + countArtificial pre
          end).
Proof.
  rewrite basisColumns_app, nth_error_app2 by (rewrite length_basisColumns; lia).
  rewrite length_basisColumns, Nat.sub_diag. cbn [basisColumns].
  destruct (relation c); reflexivity.
Qed.

(** The columns a constraint owns lie in the ranges of their kind. *)
Lemma owned_columns (pre : list Constraint) (c : Constraint) (post : list Constraint) :
  let constraints := pre ++ c :: post in
  (relation c = LE -> countSlack pre < countSlack constraints)
  /\ (relation c = GE -> countSurplus pre < countSurplus constraints)
  /\ (relation c <> LE -> countArtificial pre < countArtificial constraints)
  /\ countSlack pre <= countSlack constraints
  /\ countSurplus pre <= countSurplus constraints
  /\ countArtificial pre <= countArtificial constraints.
Proof.
  cbv zeta. rewrite countSlack_app, countSurplus_app, countArtificial_app.
  cbn [countSlack countSurplus countArtificial].
  destruct (relation c); repeat split; intros; try congruence; lia.
Qed.

(** The column of an initial basic variable: 1 in the row of its
    constraint and 0 in every other row, when no constraint has more
    coefficients than there are decision variables. *)
Lemma basis_column_cells
      (isMin : bool) (objCoeffs : list number) (constraints : list Constraint)
      (k b r' : nat) :
  Forall (fun c => List.length (coefficients c) <= List.length objCoeffs) constraints ->
  let n := normalize isMin objCoeffs constraints in
  nth_error (n_basis n) k = Some b ->
  r' <= List.length constraints ->
  cell (n_heap n) (n_matrix n) r' b = if r' =? k + 1 then 1%float else 0%float.
Proof.
  intros Hcoefs. cbv zeta. intros Hkb Hr'.
  pose proof (normalize_facts isMin objCoeffs constraints) as NF.
  pose proof (objective_cells isMin objCoeffs constraints) as Hrow0. cbv zeta in Hrow0.
  pose proof (n_basis_eq isMin objCoeffs constraints) as Hbasis.
  pose proof (length_n_matrix _ _ _ NF) as Hrows.
  assert (Hcols : n_colCount (normalize isMin objCoeffs constraints)
                  = 1 + List.length objCoeffs + countSlack constraints
                    + countSurplus constraints + countArtificial constraints + 1).
  { rewrite (nf_colCount _ _ _ NF), (nf_headers _ _ _ NF). apply length_buildHeaders. }
  pose proof (basisColumns_NoDup constraints (1 + List.length objCoeffs)
                (1 + List.length objCoeffs + countSlack constraints
                 + countSurplus constraints) ltac:(lia)) as Hnd.
  rewrite NoDup_nth_error in Hnd. rewrite length_basisColumns in Hnd.
  (* the basis column of the constraint at a position *)
  assert (Hown : forall i ck,
             nth_error constraints i = Some ck ->
             exists prek postk bk,
               constraints = prek ++ ck :: postk /\ List.length prek = i
               /\ bk = match relation ck with
                       | LE => 1 + List.length objCoeffs + countSlack prek
                       | _ => 1 + List.length objCoeffs + countSlack constraints
                              + countSurplus constraints + countArtificial prek
                       end
               /\ nth_error (n_basis (normalize isMin objCoeffs constraints)) i = Some bk
               /\ List.length objCoeffs < bk
                  < n_colCount (normalize isMin objCoeffs constraints) - 1
               /\ (relation ck = GE ->
                   bk <> 1 + List.length objCoeffs + countSlack constraints
                         + countSurplus prek)
               /\ (bk < 1 + List.length objCoeffs + countSlack constraints
                   \/ 1 + List.length objCoeffs + countSlack constraints
                      + countSurplus constraints <= bk)).
  { intros i ck Eck.
    destruct (nth_error_split _ _ Eck) as (prek & postk & Hsplit & Hlen).
    exists prek, postk. eexists. split; [exact Hsplit|]. split; [exact Hlen|].
    split; [reflexivity|].
    pose proof (owned_columns prek ck postk) as Hownk. cbv zeta in Hownk.
    rewrite <- Hsplit in Hownk. destruct Hownk as (Osk & Oek & Oak & Lsk & Lek & Lak).
    split.
    - rewrite Hbasis. rewrite Hsplit at 3. rewrite <- Hlen. apply basisColumns_nth.
    - rewrite Hcols. destruct (relation ck).
      + specialize (Osk eq_refl). repeat split; try lia; discriminate.
      + specialize (Oak ltac:(discriminate)). specialize (Oek eq_refl).
        repeat split; try lia; try discriminate.
      + specialize (Oak ltac:(discriminate)). repeat split; try lia; discriminate. }
  assert (Hk : k < List.length constraints).
  { rewrite <- (nf_basis_length _ _ _ NF). apply nth_error_Some. congruence. }
  destruct (nth_error constraints k) as [ck|] eqn:Eck;
    [|apply nth_error_None in Eck; lia].
  destruct (Hown k ck Eck) as (prek & postk & bk & Hsplitk & Hlenk & Hbk & Hnthk & Hrangek & _).
  assert (Hb : b = bk) by congruence. rewrite Hb in *. clear Hb Hkb b.
  rename bk into b.
  destruct r' as [|j].
  - (* the objective row *)
    rewrite Hrow0.
    destruct (Nat.leb_spec 1 b), (Nat.ltb_spec b (1 + List.length objCoeffs)),
             (Nat.eqb_spec b 0),
             (Nat.ltb_spec b (n_colCount (normalize isMin objCoeffs constraints)));
      cbn [andb]; try lia.
    replace (0 =? k + 1) with false by (symmetry; apply Nat.eqb_neq; lia).
    reflexivity.
  - (* the row of constraint j *)
    assert (Hj : j < List.length constraints) by lia.
    destruct (nth_error constraints j) as [cj|] eqn:Ecj;
      [|apply nth_error_None in Ecj; lia].
    destruct (Hown j cj Ecj)
      as (prej & postj & bj & Hsplitj & Hlenj & Hbj & Hnthj & Hrangej & Hsurplusj & _).
    pose proof (constraint_cells isMin objCoeffs prej cj postj b) as Hcell.
    cbv zeta in Hcell. rewrite <- Hsplitj, Hlenj, Nat.add_1_r in Hcell.
    rewrite Hcell. clear Hcell.
    assert (Hcj : List.length (coefficients cj) <= List.length objCoeffs).
    { rewrite Forall_forall in Hcoefs. apply Hcoefs. now apply nth_error_In in Ecj. }
    unfold constraintCell. rewrite <- Hbj.
    destruct (Nat.eq_dec j k) as [->|Hjk].
    + (* its own row *)
      assert (Hsame : bj = b) by congruence. rewrite Hsame.
      rewrite Nat.eqb_refl.
      replace (S k =? k + 1) with true by (symmetry; apply Nat.eqb_eq; lia).
      reflexivity.
    + (* the row of another constraint *)
      assert (Hne : b <> bj).
      { intros ->. apply Hjk. apply Hnd; [lia|]. rewrite <- Hbasis. congruence. }
      replace (b =? bj) with false by (symmetry; now apply Nat.eqb_neq).
      replace (match relation cj with
               | GE => b =? 1 + List.length objCoeffs + countSlack constraints
                            + countSurplus prej
               | _ => false
               end) with false.
      2:{ destruct (relation cj) eqn:Ej; try reflexivity.
          symmetry. apply Nat.eqb_neq.
          destruct (Hown k ck Eck) as (pk & qk & bk & _ & _ & _ & Hn & _ & _ & Hside).
          assert (Hsame : bk = b) by congruence. rewrite Hsame in Hside.
          pose proof (owned_columns prej cj postj) as Hownj. cbv zeta in Hownj.
          rewrite <- Hsplitj in Hownj. destruct Hownj as (_ & Oej & _).
          specialize (Oej Ej). lia. }
      destruct (Nat.eqb_spec b (n_colCount (normalize isMin objCoeffs constraints) - 1));
        [lia|].
      destruct (Nat.leb_spec 1 b), (Nat.ltb_spec b (1 + List.length (coefficients cj))),
               (Nat.ltb_spec b (n_colCount (normalize isMin objCoeffs constraints)));
        cbn [andb]; try lia.
      replace (S j =? k + 1) with false by (symmetry; apply Nat.eqb_neq; lia).
      reflexivity.
Qed.

(** X5: the normalized tableau is in canonical form for the initial
    basis, provided no constraint has more coefficients than there are
    decision variables: the column of every initial basic variable holds 1
    in its own row and 0 in every other row, the objective row included. *)
Theorem normalized_tableau_is_canonical
        (isMin : bool) (objCoeffs : list number) (constraints : list Constraint) :
  Forall (fun c => List.length (coefficients c) <= List.length objCoeffs) constraints ->
  let n := normalize isMin objCoeffs constraints in
  canonicalForm (n_heap n) (n_matrix n) (n_basis n) = true.
Proof.
  intros Hcoefs. cbv zeta.
  pose proof (length_n_matrix _ _ _ (normalize_facts isMin objCoeffs constraints)) as Hrows.
  unfold canonicalForm. apply forallb_forall. intros [k b] Hkb.
  apply in_indexed_iff in Hkb. cbn [fst snd].
  unfold canonicalColumn. apply forallb_forall. intros r' Hr'.
  apply in_seq in Hr'. rewrite Hrows in Hr'.
  rewrite (basis_column_cells isMin objCoeffs constraints k b r' Hcoefs Hkb) by lia.
  destruct (r' =? k + 1); [exact within_one_one | exact within_zero_zero].
Qed.

(** The sample problem has two decision variables and two coefficients in
    every constraint. *)
Lemma normalized_tableau_is_canonical_sample :
  Forall (fun c => List.length (coefficients c) <= 2) sampleConstraints
  /\ canonicalForm (n_heap sampleInitial) (n_matrix sampleInitial) (n_basis sampleInitial)
     = true.
Proof.
  assert (H : Forall (fun c => List.length (coefficients c) <= 2) sampleConstraints)
    by (repeat constructor).
  split; [exact H|].
  apply (normalized_tableau_is_canonical false [3%float; 5%float] sampleConstraints H).
Defined.

(** * The pivot, as a whole *)

(** X17: the pivot as row operations.  On a matrix of distinct rows, the
    pivot row ends up divided by the pivot value; every other row whose
    entry in the entering column exceeds [1e-9] in magnitude ends up with
    that entry times the divided pivot row subtracted, and the rows at or
    below the tolerance are left bit for bit as they were.  Nothing is
    written beyond the first [colCount] cells of a row, nor to a row that
    is not in the matrix. *)
Theorem pivot_is_a_sequence_of_row_operations
        (matrix : Matrix) (colCount leavingRow enteringCol : nat) (h : Heap) :
  NoDup matrix -> Allocated matrix h -> leavingRow < List.length matrix ->
  let pivotValue := cell h matrix leavingRow enteringCol in
  let h' := pivot matrix colCount (List.length matrix) leavingRow enteringCol h in
  List.length h' = List.length h
  /\ (forall c, c < colCount ->
        cell h' matrix leavingRow c = (cell h matrix leavingRow c / pivotValue)%float)
  /\ (forall r c, r < List.length matrix -> r <> leavingRow -> c < colCount ->
        cell h' matrix r c
        = let factor := cell h matrix r enteringCol in
          if gt (Math_abs factor) tol
          then (cell h matrix r c
                - factor * (cell h matrix leavingRow c / pivotValue))%float
          else cell h matrix r c)
  /\ (forall r c, r < List.length matrix -> colCount <= c ->
        cell h' matrix r c = cell h matrix r c)
  /\ (forall a, ~ In a matrix -> rowAt h' a = rowAt h a).
Proof.
  intros Hnd Halloc Hlr. cbv zeta.
  destruct (pivot_spec matrix colCount Hnd leavingRow enteringCol h Hlr Halloc)
    as (Hlen & Hrow & Hrest).
  split; [exact Hlen|]. split; [exact Hrow|]. split; [exact Hrest|]. split.
  - intros r c Hr Hc. unfold pivot, eliminate.
    set (p := cell h matrix leavingRow enteringCol).
    destruct (normalizeRow_spec matrix colCount leavingRow p h Hlr Halloc)
      as (Hlen1 & Hother1 & Hcells1).
    set (h1 := normalizeRow matrix colCount leavingRow p h) in *.
    assert (Halloc1 : Allocated matrix h1).
    { intros r0 Hr0. rewrite Hlen1. now apply Halloc. }
    destruct (eliminate_rows matrix colCount Hnd leavingRow enteringCol h1
                             (List.length matrix) Hlr (Nat.le_refl _) Halloc1)
      as (_ & Hkeep & Hdone).
    assert (H1 : cell h1 matrix r c = cell h matrix r c).
    { destruct (Nat.eq_dec r leavingRow) as [->|Hne].
      - rewrite Hcells1. destruct (Nat.ltb_spec c colCount); [lia | reflexivity].
      - apply cell_other_row. apply Hother1. now apply rowAddr_distinct. }
    rewrite <- H1.
    destruct (Nat.eq_dec r leavingRow) as [->|Hne].
    + apply cell_other_row. apply Hkeep; [assumption | now right].
    + rewrite Hdone by assumption. unfold eliminated.
      destruct (gt _ tol); [|reflexivity].
      destruct (Nat.ltb_spec c colCount); [lia | reflexivity].
  - intros a Hnot. now apply pivot_keeps.
Qed.

(** The first pivot of the sample problem, on row 2 and column 2: the
    pivot row [0, 2, 0, 1, 0 | 12] is halved. *)
Lemma pivot_is_a_sequence_of_row_operations_sample :
  NoDup (n_matrix sampleInitial)
  /\ Allocated (n_matrix sampleInitial) (st_heap sampleState)
  /\ cell (pivot (n_matrix sampleInitial) (n_colCount sampleInitial)
                 (List.length (n_matrix sampleInitial)) 2 2 (st_heap sampleState))
          (n_matrix sampleInitial) 2 6
     = (cell (st_heap sampleState) (n_matrix sampleInitial) 2 6
        / cell (st_heap sampleState) (n_matrix sampleInitial) 2 2)%float.
Proof.
  assert (Hnd : NoDup (n_matrix sampleInitial)).
  { vm_compute. repeat constructor; simpl; intuition lia. }
  assert (Halloc : Allocated (n_matrix sampleInitial) (st_heap sampleState)).
  { intros r Hr. vm_compute in Hr. vm_compute.
    do 4 (destruct r as [|r]; [lia|]). lia. }
  split; [exact Hnd|]. split; [exact Halloc|].
  destruct (pivot_is_a_sequence_of_row_operations
              (n_matrix sampleInitial) (n_colCount sampleInitial) 2 2
              (st_heap sampleState) Hnd Halloc) as (_ & Hrow & _).
  - vm_compute. lia.
  - apply Hrow. vm_compute. lia.
Defined.

(** * The copy of a matrix *)

Lemma cloneMatrix_fold (h0 : Heap) (matrix : Matrix) :
  forall h done,
  (forall a, In a matrix -> a < List.length h0) ->
  List.length h0 <= List.length h ->
  (forall a, a < List.length h0 -> rowAt h a = rowAt h0 a) ->
  let result := fold_left (fun acc a =>
                             let '(h1, copy) := alloc (fst acc) (rowAt (fst acc) a) in
                             (h1, snd acc ++ [copy]))
                          matrix (h, done) in
  fst result = h ++ map (rowAt h0) matrix
  /\ snd result = done ++ seq (List.length h) (List.length matrix).
Proof.
  induction matrix as [|a matrix IH]; intros h done Hin Hle Hold; cbv zeta.
  - simpl. now rewrite !List.app_nil_r.
  - match goal with
    | |- context [fold_left ?F (a :: matrix) (h, done)] =>
        change (fold_left F (a :: matrix) (h, done))
          with (fold_left F matrix (h ++ [rowAt h a], done ++ [List.length h]))
    end.
    destruct (IH (h ++ [rowAt h a]) (done ++ [List.length h])) as [Hh Hm].
    + intros a' Ha'. apply Hin. now right.
    + rewrite length_app. simpl. lia.
    + intros a' Ha'. unfold rowAt at 1. rewrite app_nth1 by lia. now apply Hold.
    + rewrite Hh, Hm. rewrite Hold by (apply Hin; now left).
      rewrite <- !app_assoc, length_app. cbn [List.length map seq app].
      rewrite Nat.add_1_r. auto.
Qed.

(** X21: [cloneMatrix] makes a deep copy.  The copy has as many rows as
    the matrix, each a new row object holding what the original row holds;
    the existing rows are not touched, and a later write to a row of the
    original leaves the copy as it is. *)
Theorem cloneMatrix_is_a_deep_copy (h : Heap) (matrix : Matrix) :
  Allocated matrix h ->
  let h' := fst (cloneMatrix h matrix) in
  let copy := snd (cloneMatrix h matrix) in
  List.length copy = List.length matrix
  /\ NoDup copy
  /\ (forall a, In a copy -> List.length h <= a < List.length h')
  /\ (forall a, a < List.length h -> rowAt h' a = rowAt h a)
  /\ (forall r, r < List.length matrix ->
                rowAt h' (rowAddr copy r) = rowAt h (rowAddr matrix r))
  /\ (forall r c v r0, r < List.length matrix -> r0 < List.length matrix ->
                       rowAt (setCell h' matrix r c v) (rowAddr copy r0)
                       = rowAt h (rowAddr matrix r0)).
Proof.
  intros Halloc. cbv zeta.
  assert (Hin : forall a, In a matrix -> a < List.length h).
  { intros a Ha. apply (In_nth _ _ 0) in Ha as (r & Hr & <-). now apply Halloc. }
  destruct (cloneMatrix_fold h matrix h [] Hin (Nat.le_refl _) (fun _ _ => eq_refl))
    as [Hh Hm].
  assert (Hh' : fst (cloneMatrix h matrix) = h ++ map (rowAt h) matrix) by exact Hh.
  assert (Hm' : snd (cloneMatrix h matrix) = seq (List.length h) (List.length matrix))
    by exact Hm.
  rewrite Hh', Hm'. clear Hh Hm Hh' Hm'.
  assert (Hcopy : forall r, r < List.length matrix ->
                            rowAddr (seq (List.length h) (List.length matrix)) r
                            = List.length h + r).
  { intros r Hr. unfold rowAddr. now rewrite seq_nth. }
  assert (Hrow : forall r, r < List.length matrix ->
                           rowAt (h ++ map (rowAt h) matrix) (List.length h + r)
                           = rowAt h (rowAddr matrix r)).
  { intros r Hr. unfold rowAt at 1. rewrite app_nth2 by lia.
    replace (List.length h + r - List.length h) with r by lia.
    rewrite (nth_indep _ [] (rowAt h 0)) by (rewrite length_map; lia).
    rewrite map_nth. reflexivity. }
  split; [apply length_seq|]. split; [apply seq_NoDup|]. split.
  { intros a Ha. apply in_seq in Ha. rewrite length_app, length_map. lia. }
  split.
  { intros a Ha. unfold rowAt. now rewrite app_nth1. }
  split.
  { intros r Hr. rewrite Hcopy by assumption. now apply Hrow. }
  intros r c v r0 Hr Hr0. rewrite Hcopy by assumption.
  rewrite rowAt_setCell_other; [now apply Hrow|].
  specialize (Halloc r Hr). lia.
Qed.

(** Copying the sample tableau and then setting a cell of the original. *)
Lemma cloneMatrix_is_a_deep_copy_sample :
  Allocated (n_matrix sampleInitial) (st_heap sampleState)
  /\ rowAt (setCell (fst (cloneMatrix (st_heap sampleState) (n_matrix sampleInitial)))
                    (n_matrix sampleInitial) 0 1 7%float)
           (rowAddr (snd (cloneMatrix (st_heap sampleState) (n_matrix sampleInitial))) 0)
     = rowAt (st_heap sampleState) (rowAddr (n_matrix sampleInitial) 0).
Proof.
  assert (Halloc : Allocated (n_matrix sampleInitial) (st_heap sampleState)).
  { intros r Hr. vm_compute in Hr. vm_compute.
    do 4 (destruct r as [|r]; [lia|]). lia. }
  split; [exact Halloc|].
  destruct (cloneMatrix_is_a_deep_copy (st_heap sampleState) (n_matrix sampleInitial)
                                       Halloc) as (_ & _ & _ & _ & _ & Hindep).
  apply Hindep; vm_compute; lia.
Defined.

(** * The shape of the whole trace *)

Lemma run_shape matrix hdrs phaseNo st s st' :
  runSimplexIterations matrix hdrs phaseNo st = Ok (s, st') ->
  exists new, st_steps st' = st_steps st ++ new /\ RunShape 0 maxIter s new.
Proof.
  intros Hrun. apply runSimplexIterations_inv in Hrun.
  destruct (whileLoop_shape matrix hdrs phaseNo
              (rowLength (st_heap st) (rowAddr matrix 0)) (List.length matrix)
              maxIter 0 st) as (new & Hnew & Hshape).
  rewrite Hrun in Hnew, Hshape. exists new. auto.
Qed.

Lemma Final_status isMin hdrs colCount matrix s st result :
  Final isMin hdrs colCount matrix s st result ->
  status result = s \/ (s = OPTIMAL /\ status result = INFEASIBLE).
Proof.
  intros [[-> H] | (s' & -> & _ & [-> | [-> ->]])].
  - apply extractResults_inv in H. left. tauto.
  - now left.
  - right. auto.
Qed.

(** X18: the whole trace.  What a run of the engine appends is a sequence of
    iteration steps labelled [Iteración 1:], [Iteración 2:], ... in order,
    closed by the one terminal step that matches the status of the run,
    unless the 50 passes were used up.  The trace of a result is one such
    run, or two with TWO_PHASE and an artificial variable: phase 2 only
    runs after phase 1 ended OPTIMAL, and then decides the status. *)
Theorem trace_is_made_of_engine_runs
        (method : SolverMethod) (type : OptimizationType)
        (objCoeffs : list number) (constraints : list Constraint) :
  let result := solveLinearProgram method type objCoeffs constraints in
  if isTwoPhase method && (0 <? List.length (artificialVars constraints))
  then exists s1 first second,
         steps result = first ++ second
         /\ RunShape 0 maxIter s1 first
         /\ ((second = []
              /\ (status result = s1 \/ (s1 = OPTIMAL /\ status result = INFEASIBLE))
              /\ status result <> OPTIMAL)
             \/ (s1 = OPTIMAL
                 /\ exists s2, RunShape 0 maxIter s2 second /\ status result = s2))
  else exists s,
         RunShape 0 maxIter s (steps result)
         /\ (status result = s \/ (s = OPTIMAL /\ status result = INFEASIBLE)).
Proof.
  cbv zeta.
  destruct (isTwoPhase method && (0 <? List.length (artificialVars constraints))) eqn:Htwo.
  - destruct (solve_two_runs type objCoeffs constraints method Htwo)
      as (m1 & h1 & s1 & st1 & _ & Hrun1 & _ & Hrest).
    destruct (run_shape _ _ _ _ _ _ Hrun1) as (new1 & Hnew1 & Hshape1).
    cbn [st_steps app] in Hnew1.
    exists s1, new1.
    destruct Hrest
      as [(s' & -> & Hne & Hs') | (m2 & h2 & s2 & st2 & _ & Hrun2 & _ & Hfin & -> & Hs2)].
    + exists []. cbn [steps status earlyReturn]. rewrite List.app_nil_r.
      split; [exact Hnew1|]. split; [exact Hshape1|]. left.
      split; [reflexivity|]. split; [|exact Hne].
      destruct Hs' as [-> | [-> ->]]; auto.
    + destruct (run_shape _ _ _ _ _ _ Hrun2) as (new2 & Hnew2 & Hshape2).
      cbn [st_steps] in Hnew2.
      destruct (Final_steps _ _ _ _ _ _ _ Hfin) as [Hsteps _].
      exists new2. split; [now rewrite Hsteps, Hnew2, Hnew1|].
      split; [exact Hshape1|]. right. split; [reflexivity|].
      exists s2. split; [exact Hshape2 | exact Hs2].
  - destruct (solve_one_run method type objCoeffs constraints Htwo)
      as (h0 & s & st & Hrun & _ & Hfin).
    destruct (run_shape _ _ _ _ _ _ Hrun) as (new & Hnew & Hshape).
    cbn [st_steps app] in Hnew.
    destruct (Final_steps _ _ _ _ _ _ _ Hfin) as [Hsteps _].
    exists s. rewrite Hsteps, Hnew. split; [exact Hshape|].
    apply (Final_status _ _ _ _ _ _ _ Hfin).
Qed.

(** * The tableau of an optimal result *)

(** X19: the certificate of optimality.  In the tableau that the final step
    of an OPTIMAL result shows, no variable column of the objective row
    holds a value below [-1e-9]. *)
Theorem optimal_tableau_has_no_negative_cost
        (method : SolverMethod) (type : OptimizationType)
        (objCoeffs : list number) (constraints : list Constraint) :
  let result := solveLinearProgram method type objCoeffs constraints in
  let colCount := List.length (buildHeaders (List.length objCoeffs) constraints) in
  status result = OPTIMAL ->
  exists t,
    finalStep (steps result) = Some t
    /\ forall c, 1 <= c < colCount - 1 ->
         lt (jsGet (nth 0 (shownCoefficients (store result) t) []) c) negTol = false.
Proof.
  cbv zeta. intros Hopt.
  destruct (solve_optimal_inv method type objCoeffs constraints Hopt)
    as (matrix & phaseNo & st0 & Hrows & _ & Hextract & Hnone).
  set (n := normalize (isMinOf type) objCoeffs constraints) in *.
  destruct (extractResults_inv _ _ _ _ _ _ Hextract) as (_ & Hsteps & Hstore).
  cbn [st_steps st_heap] in Hsteps, Hstore.
  eexists. split; [rewrite Hsteps; apply finalStep_snoc|].
  intros c Hc. rewrite Hstore.
  unfold shownCoefficients. cbn [tableau optimalStep].
  rewrite <- (map_map rowRef (rowAt (st_heap st0))), currentTableauRows_refs.
  destruct matrix as [|a0 rest] eqn:Em; [simpl in Hrows; lia|].
  cbn [map nth]. rewrite <- Em in *.
  pose proof (findEntering_spec matrix (n_colCount n) (st_heap st0)) as Hspec.
  rewrite Hnone in Hspec.
  replace (rowAt (st_heap st0) a0) with (rowAt (st_heap st0) (rowAddr matrix 0))
    by (rewrite Em; reflexivity).
  apply Hspec. exact Hc.
Qed.

(** The final tableau of the sample problem has the objective row
    [1, 0, 0, 0, 1.5, 1 | 36]. *)
Lemma optimal_tableau_has_no_negative_cost_sample :
  status (solveLinearProgram SIMPLEX MAX [3%float; 5%float] sampleConstraints) = OPTIMAL
  /\ exists t,
       finalStep (steps (solveLinearProgram SIMPLEX MAX [3%float; 5%float]
                                            sampleConstraints)) = Some t
       /\ forall c, 1 <= c < 6 ->
            lt (jsGet (nth 0 (shownCoefficients
                                (store (solveLinearProgram SIMPLEX MAX [3%float; 5%float]
                                                           sampleConstraints)) t) []) c)
               negTol = false.
Proof.
  assert (Hopt : status (solveLinearProgram SIMPLEX MAX [3%float; 5%float]
                                            sampleConstraints) = OPTIMAL)
    by (vm_compute; reflexivity).
  split; [exact Hopt|].
  exact (optimal_tableau_has_no_negative_cost
           SIMPLEX MAX [3%float; 5%float] sampleConstraints Hopt).
Defined.

(** * The tableau of an unbounded result *)

Lemma whileLoop_unbounded_end matrix hdrs phaseNo colCount rowCount fuel :
  forall iter st,
  fst (whileLoop matrix hdrs phaseNo colCount rowCount fuel iter st) = UNBOUNDED ->
  let st' := snd (whileLoop matrix hdrs phaseNo colCount rowCount fuel iter st) in
  (exists pre t, st_steps st' = pre ++ [t] /\ isIterationStep t = true)
  \/ st_steps st' = st_steps st
  \/ exists st0 enteringCol,
       st' = {| st_heap := st_heap st0; st_basis := st_basis st0;
                st_steps := st_steps st0
                            ++ [unboundedStep matrix hdrs phaseNo colCount rowCount
                                              st0 enteringCol] |}
       /\ fst (findEntering matrix colCount (st_heap st0)) = Some enteringCol
       /\ fst (findLeaving matrix colCount rowCount (st_heap st0) enteringCol) = None.
Proof.
  induction fuel as [|fuel IH]; intros iter st Hs; cbv zeta.
  - right. left. reflexivity.
  - cbn [whileLoop] in *.
    destruct (iteration_cases matrix hdrs phaseNo colCount rowCount iter st)
      as [He | ec He Hl | ec lr He Hl]; cbn [fst snd] in *.
    + discriminate.
    + right. right. exists st, ec. auto.
    + destruct (IH _ _ Hs) as [H | [H | H]].
      * left. exact H.
      * left. cbv zeta in H. rewrite H. cbn [st_steps]. eexists _, _.
        split; [reflexivity | reflexivity].
      * right. right. exact H.
Qed.

(** X20: why a result is UNBOUNDED.  When the final step of an UNBOUNDED
    result is the unbounded step, it names an entering column whose entry
    in the objective row of the final tableau is below [-1e-9], and no
    constraint row has an entry above [1e-9] in that column with a ratio
    below [+Infinity].  Otherwise the final step is the iteration step of a
    run that used up its passes. *)
Theorem unbounded_result_names_its_column
        (method : SolverMethod) (type : OptimizationType)
        (objCoeffs : list number) (constraints : list Constraint) :
  let result := solveLinearProgram method type objCoeffs constraints in
  let hdrs := buildHeaders (List.length objCoeffs) constraints in
  status result = UNBOUNDED ->
  exists t,
    finalStep (steps result) = Some t
    /\ (isIterationStep t = true
        \/ exists enteringCol,
             1 <= enteringCol < List.length hdrs - 1
             /\ description t
                = "Solución no acotada detectada. Variable entrante "
                    +++ headerAt hdrs enteringCol +++ " no tiene pivote positivo."
             /\ lt (jsGet (nth 0 (shownCoefficients (store result) t) []) enteringCol)
                   negTol = true
             /\ forall r, 1 <= r <= List.length constraints ->
                  let row := nth r (shownCoefficients (store result) t) [] in
                  gt (jsGet row enteringCol) tol = true ->
                  lt (jsGet row (List.length hdrs - 1) / jsGet row enteringCol)%float
                     infinity = false).
Proof.
  cbv zeta. intros Hunb.
  set (n := normalize (isMinOf type) objCoeffs constraints).
  set (result := solveLinearProgram method type objCoeffs constraints) in *.
  (* the run that decided the status *)
  assert (Hlast : exists (matrix : Matrix) phaseNo st st',
             List.length matrix = List.length constraints + 1
             /\ runSimplexIterations matrix (n_headers n) phaseNo st = Ok (UNBOUNDED, st')
             /\ rowLength (st_heap st) (rowAddr matrix 0) = n_colCount n
             /\ 1 <= List.length (st_steps st') - List.length (st_steps st)
             /\ steps result = st_steps st' /\ store result = st_heap st').
  { assert (Hearly : forall s st, result = earlyReturn s st ->
                                  s = UNBOUNDED /\ steps result = st_steps st
                                  /\ store result = st_heap st).
    { intros s st Hres. rewrite Hres in *. cbn [status earlyReturn] in Hunb. auto. }
    assert (Hgrow : forall matrix phaseNo st s st',
               runSimplexIterations matrix (n_headers n) phaseNo st = Ok (s, st') ->
               1 <= List.length (st_steps st') - List.length (st_steps st)).
    { intros matrix phaseNo st s st' Hrun.
      destruct (run_appends _ _ _ _ _ _ Hrun) as (new & -> & Hlen & _).
      rewrite length_app. lia. }
    destruct (isTwoPhase method && (0 <? List.length (artificialVars constraints))) eqn:Htwo.
    - destruct (solve_two_runs type objCoeffs constraints method Htwo)
        as (m1 & h1 & s1 & st1 & Hrows1 & Hrun1 & Hrow1 & Hrest).
      fold n result in Hrun1, Hrow1, Hrest.
      destruct Hrest
        as [(s' & Hres & _ & Hs') | (m2 & h2 & s2 & st2 & Hrows2 & Hrun2 & Hrow2 & Hfin & _ & Hs2)].
      + destruct (Hearly _ _ Hres) as (-> & Hsteps & Hstore).
        destruct Hs' as [<- | [_ Hs']]; [|discriminate].
        exists m1, 1, {| st_heap := h1; st_basis := n_basis n; st_steps := [] |}, st1.
        repeat split; try eassumption. now apply (Hgrow _ _ _ _ _ Hrun1).
      + rewrite Hunb in Hs2. subst s2.
        destruct (Final_steps _ _ _ _ _ _ _ Hfin) as [Hsteps Hstore].
        exists m2, 2, {| st_heap := h2; st_basis := st_basis st1; st_steps := st_steps st1 |},
               st2.
        repeat split; try eassumption. now apply (Hgrow _ _ _ _ _ Hrun2).
    - destruct (solve_one_run method type objCoeffs constraints Htwo)
        as (h0 & s & st & Hrun & Hrow & Hfin).
      fold n result in Hrun, Hrow, Hfin.
      destruct (Final_steps _ _ _ _ _ _ _ Hfin) as [Hsteps Hstore].
      destruct (Final_status _ _ _ _ _ _ _ Hfin) as [Hs | [_ Hs]]; [|congruence].
      rewrite Hunb in Hs. subst s.
      exists (n_matrix n), 0, {| st_heap := h0; st_basis := n_basis n; st_steps := [] |}, st.
      repeat split; try eassumption.
      + apply (length_n_matrix _ _ _ (normalize_facts (isMinOf type) objCoeffs constraints)).
      + now apply (Hgrow _ _ _ _ _ Hrun). }
  destruct Hlast as (matrix & phaseNo & st & st' & Hrows & Hrun & Hrow & Hgrow & Hsteps & Hstore).
  apply runSimplexIterations_inv in Hrun. rewrite Hrow in Hrun.
  pose proof (whileLoop_unbounded_end matrix (n_headers n) phaseNo (n_colCount n)
                (List.length matrix) maxIter 0 st) as Hend.
  rewrite Hrun in Hend. cbn [fst snd] in Hend. specialize (Hend eq_refl).
  destruct Hend as [(pre & t & Hpre & Hit) | [Hsame | (st0 & ec & Hst' & He & Hl)]].
  - exists t. rewrite Hsteps, Hpre. split; [apply finalStep_snoc | now left].
  - rewrite Hsame in Hgrow. lia.
  - eexists. rewrite Hsteps, Hstore, Hst'. cbn [st_steps st_heap].
    split; [apply finalStep_snoc|]. right. exists ec.
    pose proof (findEntering_spec matrix (n_colCount n) (st_heap st0)) as Hes.
    rewrite He in Hes. destruct Hes as (Hec & Hneg & _).
    pose proof (findLeaving_spec matrix (n_colCount n) (List.length matrix)
                                 (st_heap st0) ec) as Hls.
    rewrite Hl in Hls.
    assert (Hshown : forall r, r < List.length matrix ->
               nth r (shownCoefficients (st_heap st0)
                        (unboundedStep matrix (n_headers n) phaseNo (n_colCount n)
                                       (List.length matrix) st0 ec)) []
               = rowAt (st_heap st0) (rowAddr matrix r)).
    { intros r Hr. unfold shownCoefficients. cbn [tableau unboundedStep].
      rewrite <- (map_map rowRef (rowAt (st_heap st0))), currentTableauRows_refs.
      rewrite (nth_indep _ [] (rowAt (st_heap st0) 0)) by (rewrite length_map; lia).
      now rewrite map_nth. }
    split; [exact Hec|]. split; [reflexivity|]. split.
    + rewrite Hshown by lia. exact Hneg.
    + intros r Hr. cbv zeta. rewrite Hshown by lia. intros Hpos.
      specialize (Hls r ltac:(lia) Hpos).
      unfold ratio, rhsCell in Hls.
      change (List.length (buildHeaders (List.length objCoeffs) constraints))
        with (n_colCount n).
      destruct (n_colCount n) as [|k] eqn:Ek; [lia|].
      rewrite Nat.sub_succ, Nat.sub_0_r. exact Hls.
Qed.

(** Maximizing [x1] subject to [x1 >= 1] with BIG_M: after [x1] has entered
    the basis, the surplus variable [e1] can grow without bound. *)
Lemma unbounded_result_names_its_column_sample :
  status (solveLinearProgram BIG_M MAX [1%float] [mkConstraint [1%float] GE 1%float])
  = UNBOUNDED
  /\ exists t,
       finalStep (steps (solveLinearProgram BIG_M MAX [1%float]
                           [mkConstraint [1%float] GE 1%float])) = Some t
       /\ description t
          = "Solución no acotada detectada. Variable entrante e1 no tiene pivote positivo.".
Proof.
  assert (Hunb : status (solveLinearProgram BIG_M MAX [1%float]
                           [mkConstraint [1%float] GE 1%float]) = UNBOUNDED)
    by (vm_compute; reflexivity).
  split; [exact Hunb|].
  destruct (unbounded_result_names_its_column
              BIG_M MAX [1%float] [mkConstraint [1%float] GE 1%float] Hunb)
    as (t & Hlast & _).
  exists t. split; [exact Hlast|].
  vm_compute in Hlast. injection Hlast as <-. reflexivity.
Defined.

(** * The starting tableau of the Big-M and of the two-phase method *)

(** ** Marking the artificial columns *)

Lemma markArtificials_snoc (m : Matrix) (v : number) (h : Heap) (hdrs : list string)
      (x : string) :
  markArtificials m (hdrs ++ [x]) v h
  = if startsWithA x
    then (setCell (fst (markArtificials m hdrs v h)) m 0 (List.length hdrs) v,
          snd (markArtificials m hdrs v h) ++ [List.length hdrs])
    else markArtificials m hdrs v h.
Proof.
  unfold markArtificials. rewrite indexed_app, fold_left_app.
  cbn [List.length seq combine fold_left fst snd]. reflexivity.
Qed.

Lemma NoDup_snoc {A : Type} (l : list A) (x : A) :
  NoDup l -> ~ In x l -> NoDup (l ++ [x]).
Proof.
  induction l as [|y l IH]; intros Hnd Hx; simpl.
  - constructor; [intros [] | constructor].
  - inversion Hnd as [|? ? Hy Hl]; subst. constructor.
    + rewrite in_app_iff. intros [Hin|[->|[]]]; [now apply Hy | apply Hx; now left].
    + apply IH; [assumption|]. intros Hin. apply Hx. now right.
Qed.

(** [markArtificials] writes [v] into row 0 at the columns whose header
    starts with [a], touches nothing else, and returns these columns. *)
Lemma markArtificials_spec (m : Matrix) (v : number) (h : Heap) (hdrs : list string) :
  rowAddr m 0 < List.length h ->
  List.length (fst (markArtificials m hdrs v h)) = List.length h
  /\ (forall a, a <> rowAddr m 0 -> rowAt (fst (markArtificials m hdrs v h)) a = rowAt h a)
  /\ NoDup (snd (markArtificials m hdrs v h))
  /\ (forall i, In i (snd (markArtificials m hdrs v h))
                <-> i < List.length hdrs /\ startsWithA (headerAt hdrs i) = true)
  /\ (forall c, In c (snd (markArtificials m hdrs v h)) ->
                cell (fst (markArtificials m hdrs v h)) m 0 c = v)
  /\ (forall c, ~ In c (snd (markArtificials m hdrs v h)) ->
                cell (fst (markArtificials m hdrs v h)) m 0 c = cell h m 0 c).
Proof.
  intros Ha. induction hdrs as [|x hdrs IH] using rev_ind.
  - cbn. repeat split; auto; try constructor; try (intros []); try lia.
  - destruct IH as (Hlen & Hother & Hnd & Hin & Hset & Hkeep).
    rewrite markArtificials_snoc.
    destruct (markArtificials m hdrs v h) as [h1 arts]. cbn [fst snd] in *.
    assert (Hfresh : ~ In (List.length hdrs) arts).
    { intros Hl. apply Hin in Hl. lia. }
    assert (Hlast : headerAt (hdrs ++ [x]) (List.length hdrs) = x).
    { rewrite headerAt_app_r by lia. now rewrite Nat.sub_diag. }
    destruct (startsWithA x) eqn:Ex; cbn [fst snd].
    + split; [now rewrite length_setCell|].
      split; [intros a Hne; rewrite rowAt_setCell_other by assumption; now apply Hother|].
      split; [now apply NoDup_snoc|].
      split; [|split].
      * intros i. rewrite in_app_iff, length_app. cbn [List.length In]. split.
        -- intros [Hi|[<-|[]]].
           ++ apply Hin in Hi. destruct Hi as [Hi Hs]. split; [lia|].
              now rewrite headerAt_app_l.
           ++ split; [lia|]. now rewrite Hlast.
        -- intros [Hi Hs]. destruct (Nat.eq_dec i (List.length hdrs)) as [->|Hne].
           ++ right. now left.
           ++ left. apply Hin. split; [lia|]. rewrite headerAt_app_l in Hs by lia.
              exact Hs.
      * intros c Hc. rewrite in_app_iff in Hc. cbn [In] in Hc.
        destruct (Nat.eq_dec c (List.length hdrs)) as [->|Hne].
        -- apply cell_setCell_same. now rewrite Hlen.
        -- rewrite cell_setCell_other_col by congruence. apply Hset.
           destruct Hc as [Hc|[Hc|[]]]; [assumption | congruence].
      * intros c Hc. rewrite in_app_iff in Hc. cbn [In] in Hc.
        rewrite cell_setCell_other_col by (intros Heq; apply Hc; right; left; exact Heq).
        apply Hkeep. intros Hc'. apply Hc. now left.
    + split; [assumption|]. split; [assumption|]. split; [assumption|].
      split; [|split; assumption].
      intros i. rewrite length_app. cbn [List.length]. split.
      * intros Hi. apply Hin in Hi. destruct Hi as [Hi Hs]. split; [lia|].
        now rewrite headerAt_app_l.
      * intros [Hi Hs]. apply Hin.
        destruct (Nat.eq_dec i (List.length hdrs)) as [->|Hne].
        -- rewrite Hlast in Hs. congruence.
        -- split; [lia|]. rewrite headerAt_app_l in Hs by lia. exact Hs.
Qed.

(** Every artificial column is the basis column of some constraint. *)
Lemma artificial_in_basis (l : list Constraint) : forall s a i,
  a <= i < a + countArtificial l -> In i (basisColumns s a l).
Proof.
  induction l as [|c t IH]; intros s a i Hi; cbn [countArtificial] in Hi.
  - lia.
  - cbn [basisColumns]. destruct (relation c).
    + right. apply IH. lia.
    + destruct (Nat.eq_dec i a) as [->|Hne]; [now left|]. right. apply IH. lia.
    + destruct (Nat.eq_dec i a) as [->|Hne]; [now left|]. right. apply IH. lia.
Qed.

(** ** Eliminating the artificial columns from the objective row *)

Section ArtificialElimination.

Variable m : Matrix.

Variable numRows colCount : nat.

Variable F : number -> number.

Variable v : number.

Variable basis : list nat.

Hypothesis distinct_rows : NoDup m.

Hypothesis rows_of_matrix : List.length m = numRows.

Hypothesis rows_of_basis : numRows = List.length basis + 1.

Hypothesis distinct_basis : NoDup basis.

Hypothesis basis_columns : Forall (fun b => b < colCount) basis.

Hypothesis F_zero : (0 - F 0)%float = 0%float.

Hypothesis F_keep : (v - F 0)%float = v.

Hypothesis F_one : (v - F 1)%float = 0%float.

(** [matrix[0][c] -= F(matrix[r][c])] for every column. *)
Local Abbreviation subtractRow r :=
  (forRange 0 colCount
            (fun c h => setCell h m 0 c (cell h m 0 c - F (cell h m r c))%float)).

(** The loop over the rows for one artificial column. *)
Local Abbreviation eliminateColumn artCol :=
  (forRange 1 (numRows - 1)
            (fun r h => if strictEq (cell h m r artCol) 1%float
                        then subtractRow r h else h)).

(** Below the objective row, the basis columns are unit columns. *)
Local Abbreviation UnitRows h :=
  (forall k b r, nth_error basis k = Some b -> 1 <= r < numRows ->
                 cell h m r b = if r =? k + 1 then 1%float else 0%float).

Lemma subtractRow_spec (r : nat) (h : Heap) :
  1 <= r < numRows -> Allocated m h ->
  List.length (subtractRow r h) = List.length h
  /\ (forall a, a <> rowAddr m 0 -> rowAt (subtractRow r h) a = rowAt h a)
  /\ (forall c, cell (subtractRow r h) m 0 c
                = if c <? colCount
                  then (cell h m 0 c - F (cell h m r c))%float
                  else cell h m 0 c).
Proof.
  intros Hr Hall.
  apply (colLoop_spec m 0 colCount
           (fun c h => (cell h m 0 c - F (cell h m r c))%float)
           (fun c => (cell h m 0 c - F (cell h m r c))%float) h).
  - apply Hall. lia.
  - intros c h' Hc Hother Hcells.
    rewrite Hcells by lia. f_equal. f_equal.
    apply cell_other_row. apply Hother.
    apply rowAddr_distinct; try assumption; lia.
Qed.

Lemma eliminateColumn_rows (ka artCol : nat) (h : Heap) :
  nth_error basis ka = Some artCol -> Allocated m h -> UnitRows h ->
  forall j, j <= numRows - 1 ->
    let h' := forRange 1 j
                (fun r h => if strictEq (cell h m r artCol) 1%float
                            then subtractRow r h else h) h in
    List.length h' = List.length h
    /\ (forall a, a <> rowAddr m 0 -> rowAt h' a = rowAt h a)
    /\ (forall c, cell h' m 0 c
                  = if (ka <? j) && (c <? colCount)
                    then (cell h m 0 c - F (cell h m (ka + 1) c))%float
                    else cell h m 0 c).
Proof.
  intros Hka Hall Hunit. induction j as [|j IH]; intros Hj.
  - cbn. repeat split; auto.
  - cbv zeta. rewrite forRange_S.
    destruct IH as (Hlen & Hother & Hcells); [lia|].
    set (hj := forRange 1 j _ h) in *.
    assert (Hcond : cell hj m (1 + j) artCol
                    = if 1 + j =? ka + 1 then 1%float else 0%float).
    { rewrite <- (Hunit ka artCol (1 + j) Hka) by lia.
      apply cell_other_row. apply Hother.
      apply rowAddr_distinct; try assumption; lia. }
    rewrite Hcond. destruct (Nat.eqb_spec (1 + j) (ka + 1)) as [Heq|Hne].
    + replace (strictEq 1%float 1%float) with true by (vm_compute; reflexivity).
      assert (Hallj : Allocated m hj).
      { intros r Hr. rewrite Hlen. now apply Hall. }
      destruct (subtractRow_spec (1 + j) hj ltac:(lia) Hallj) as (Hlen' & Hother' & Hcells').
      split; [congruence|]. split.
      * intros a Hne. rewrite Hother' by assumption. now apply Hother.
      * intros c. rewrite Hcells', Hcells.
        replace (ka <? j) with false by (symmetry; apply Nat.ltb_ge; lia).
        replace (ka <? S j) with true by (symmetry; apply Nat.ltb_lt; lia).
        cbn [andb]. destruct (c <? colCount); [|reflexivity].
        f_equal. f_equal. replace (1 + j) with (ka + 1) by lia.
        apply cell_other_row. apply Hother.
        apply rowAddr_distinct; try assumption; lia.
    + replace (strictEq 0%float 1%float) with false by (vm_compute; reflexivity).
      split; [assumption|]. split; [assumption|].
      intros c. rewrite Hcells.
      replace (ka <? S j) with (ka <? j); [reflexivity|].
      destruct (Nat.ltb_spec ka j), (Nat.ltb_spec ka (S j)); try lia; reflexivity.
Qed.

Lemma eliminateColumn_spec (ka artCol : nat) (h : Heap) :
  nth_error basis ka = Some artCol -> Allocated m h -> UnitRows h ->
  List.length (eliminateColumn artCol h) = List.length h
  /\ (forall a, a <> rowAddr m 0 -> rowAt (eliminateColumn artCol h) a = rowAt h a)
  /\ (forall c, c < colCount ->
                cell (eliminateColumn artCol h) m 0 c
                = (cell h m 0 c - F (cell h m (ka + 1) c))%float).
Proof.
  intros Hka Hall Hunit.
  destruct (eliminateColumn_rows ka artCol h Hka Hall Hunit (numRows - 1) (le_n _))
    as (Hlen & Hother & Hcells).
  split; [assumption|]. split; [assumption|].
  intros c Hc. rewrite Hcells.
  assert (Hk : ka < List.length basis) by (apply nth_error_Some; congruence).
  replace (ka <? numRows - 1) with true by (symmetry; apply Nat.ltb_lt; lia).
  replace (c <? colCount) with true by (symmetry; now apply Nat.ltb_lt).
  reflexivity.
Qed.

Lemma eliminateArtificials_spec (arts : list nat) : forall h,
  NoDup arts -> incl arts basis -> Allocated m h -> UnitRows h ->
  (forall b, In b basis ->
             (In b arts -> cell h m 0 b = v) /\ (~ In b arts -> cell h m 0 b = 0%float)) ->
  let h' := fold_left (fun h artCol => eliminateColumn artCol h) arts h in
  List.length h' = List.length h
  /\ (forall a, a <> rowAddr m 0 -> rowAt h' a = rowAt h a)
  /\ (forall b, In b basis -> cell h' m 0 b = 0%float).
Proof.
  induction arts as [|artCol arts IH]; intros h Hnd Hincl Hall Hunit Hrow0.
  - cbn. repeat split; auto. intros b Hb. now apply Hrow0.
  - cbv zeta. cbn [fold_left].
    assert (Hart : In artCol basis) by (apply Hincl; now left).
    destruct (In_nth_error _ _ Hart) as [ka Hka].
    destruct (eliminateColumn_spec ka artCol h Hka Hall Hunit) as (Hlen & Hother & Hcells).
    set (h1 := eliminateColumn artCol h) in *.
    inversion Hnd as [|? ? Hfresh Hnd']; subst.
    assert (Hsame : forall r c, 1 <= r < List.length m -> cell h1 m r c = cell h m r c).
    { intros r c Hr. apply cell_other_row. apply Hother.
      apply rowAddr_distinct; try assumption; lia. }
    destruct (IH h1) as (Hlen2 & Hother2 & Hzero).
    + assumption.
    + intros x Hx. apply Hincl. now right.
    + intros r Hr. rewrite Hlen. now apply Hall.
    + intros k b r Hk Hr. rewrite Hsame by lia. now apply Hunit.
    + intros b Hb. destruct (In_nth_error _ _ Hb) as [k Hk].
      assert (Hbc : b < colCount).
      { rewrite Forall_forall in basis_columns. now apply basis_columns. }
      assert (Hkl : k < List.length basis) by (apply nth_error_Some; congruence).
      assert (Hkal : ka < List.length basis) by (apply nth_error_Some; congruence).
      rewrite (Hcells b Hbc), (Hunit k b (ka + 1) Hk) by lia.
      destruct (Nat.eqb_spec (ka + 1) (k + 1)) as [Heq|Hne].
      * assert (k = ka) by lia. subst k.
        assert (b = artCol) by congruence. subst b.
        split; [intros Hin; contradiction|]. intros _.
        destruct (Hrow0 artCol Hart) as [Hv _].
        rewrite Hv by now left. exact F_one.
      * assert (Hba : b <> artCol).
        { intros ->. apply Hne. f_equal.
          rewrite NoDup_nth_error in distinct_basis.
          apply distinct_basis; [assumption | congruence]. }
        destruct (Hrow0 b Hb) as [Hv Hz]. split.
        -- intros Hin. rewrite Hv by now right. exact F_keep.
        -- intros Hnin. rewrite Hz; [exact F_zero|].
           intros [Heq|Hin]; [congruence | contradiction].
    + split; [congruence|]. split; [|assumption].
      intros a Hne. rewrite Hother2 by assumption. now apply Hother.
Qed.

(** The tableau the elimination ends with is in canonical form. *)
Lemma eliminated_start_is_canonical (arts : list nat) (h : Heap) :
  NoDup arts -> incl arts basis -> Allocated m h -> UnitRows h ->
  (forall b, In b basis ->
             (In b arts -> cell h m 0 b = v) /\ (~ In b arts -> cell h m 0 b = 0%float)) ->
  canonicalForm (fold_left (fun h artCol => eliminateColumn artCol h) arts h) m basis
  = true.
Proof.
  intros Hnd Hincl Hall Hunit Hrow0.
  destruct (eliminateArtificials_spec arts h Hnd Hincl Hall Hunit Hrow0)
    as (Hlen & Hother & Hzero).
  unfold canonicalForm. apply forallb_forall. intros [k b] Hkb.
  apply in_indexed_iff in Hkb. cbn [fst snd].
  unfold canonicalColumn. apply forallb_forall. intros r Hr.
  apply in_seq in Hr. destruct r as [|r].
  - rewrite Hzero by (eapply nth_error_In; eassumption).
    replace (0 =? k + 1) with false by (symmetry; apply Nat.eqb_neq; lia).
    exact within_zero_zero.
  - replace (cell _ m (S r) b) with (cell h m (S r) b).
    + rewrite (Hunit k b (S r) Hkb) by lia.
      destruct (S r =? k + 1); [exact within_one_one | exact within_zero_zero].
    + symmetry. apply cell_other_row. apply Hother.
      apply rowAddr_distinct; try assumption; lia.
Qed.

End ArtificialElimination.

(** ** The two starting tableaux *)

(** The columns [markArtificials] returns on the headers of the tableau
    are basis columns. *)
Lemma marked_columns_in_basis isMin objCoeffs constraints (m : Matrix) v h :
  let n := normalize isMin objCoeffs constraints in
  rowAddr m 0 < List.length h ->
  incl (snd (markArtificials m (n_headers n) v h)) (n_basis n).
Proof.
  cbv zeta. intros Ha i Hi.
  destruct (markArtificials_spec m v h
              (n_headers (normalize isMin objCoeffs constraints)) Ha)
    as (_ & _ & _ & Hin & _).
  apply Hin in Hi. destruct Hi as [Hlt Hs].
  pose proof (normalize_facts isMin objCoeffs constraints) as NF.
  rewrite (nf_headers _ _ _ NF) in Hlt, Hs.
  apply artificial_header_iff in Hs; [|assumption].
  rewrite n_basis_eq. apply artificial_in_basis. destruct Hs. lia.
Qed.

Lemma normalize_basis_NoDup isMin objCoeffs constraints :
  NoDup (n_basis (normalize isMin objCoeffs constraints)).
Proof. rewrite n_basis_eq. apply basisColumns_NoDup. lia. Qed.

Lemma normalize_basis_columns isMin objCoeffs constraints :
  let n := normalize isMin objCoeffs constraints in
  Forall (fun b => 1 <= b < n_colCount n) (n_basis n).
Proof.
  cbv zeta. destruct (normalize_basis_ok isMin objCoeffs constraints) as [_ Hb].
  eapply Forall_impl; [|exact Hb]. cbv beta. intros b Hlt. lia.
Qed.

(** X22: the tableau the Big-M method starts from is in canonical form for
    the initial basis, provided no constraint has more coefficients than
    there are decision variables: once the penalty [M] has been written
    into the artificial columns of the objective row and the artificial
    rows have been subtracted [M] times, every initial basic column holds 1
    in its own row and 0 elsewhere, the objective row included. *)
Theorem bigM_start_is_canonical
        (isMin : bool) (objCoeffs : list number) (constraints : list Constraint) :
  Forall (fun c => List.length (coefficients c) <= List.length objCoeffs) constraints ->
  let n := normalize isMin objCoeffs constraints in
  canonicalForm (prepareBigM n) (n_matrix n) (n_basis n) = true.
Proof.
  intros Hcoefs. cbv zeta.
  set (n := normalize isMin objCoeffs constraints).
  pose proof (normalize_facts isMin objCoeffs constraints) as NF. fold n in NF.
  pose proof (length_n_heap isMin objCoeffs constraints) as HL. fold n in HL.
  pose proof (length_n_matrix _ _ _ NF) as Hrows.
  assert (Haddr : forall r, r < List.length constraints + 1 -> rowAddr (n_matrix n) r = r).
  { intros r Hr. rewrite (nf_matrix _ _ _ NF). now apply rowAddr_initMatrix. }
  assert (Hunit0 : forall k b r,
             nth_error (n_basis n) k = Some b -> r <= List.length constraints ->
             cell (n_heap n) (n_matrix n) r b = if r =? k + 1 then 1%float else 0%float).
  { intros k b r Hk Hr.
    now apply (basis_column_cells isMin objCoeffs constraints k b r Hcoefs). }
  assert (Ha0 : rowAddr (n_matrix n) 0 < List.length (n_heap n)).
  { rewrite Haddr by lia. lia. }
  unfold prepareBigM.
  destruct (markArtificials_spec (n_matrix n) M_VAL (n_heap n) (n_headers n) Ha0)
    as (Hlen & Hother & Hnd & _ & Hset & Hkeep).
  pose proof (marked_columns_in_basis isMin objCoeffs constraints
                (n_matrix n) M_VAL (n_heap n) Ha0) as Hincl.
  cbv zeta in Hincl. fold n in Hincl.
  destruct (markArtificials (n_matrix n) (n_headers n) M_VAL (n_heap n)) as [h1 arts].
  cbn [fst snd] in *.
  apply (eliminated_start_is_canonical (n_matrix n) (n_numRows n) (n_colCount n)
           (fun x => (M_VAL * x)%float) M_VAL (n_basis n)).
  - rewrite (nf_matrix _ _ _ NF). apply seq_NoDup.
  - rewrite (nf_numRows _ _ _ NF). exact Hrows.
  - rewrite (nf_numRows _ _ _ NF), (nf_basis_length _ _ _ NF). reflexivity.
  - apply normalize_basis_NoDup.
  - eapply Forall_impl; [|apply normalize_basis_columns]. cbv beta. intros b Hb.
    fold n in Hb. lia.
  - vm_compute. reflexivity.
  - vm_compute. reflexivity.
  - vm_compute. reflexivity.
  - assumption.
  - assumption.
  - intros r Hr. rewrite Hlen, Haddr by lia. lia.
  - intros k b r Hk Hr. rewrite (nf_numRows _ _ _ NF) in Hr.
    rewrite <- (Hunit0 k b r Hk) by lia.
    apply cell_other_row. apply Hother. rewrite !Haddr by lia. lia.
  - intros b Hb. split; [now apply Hset|].
    intros Hnin. rewrite Hkeep by assumption.
    destruct (In_nth_error _ _ Hb) as [k Hk].
    rewrite (Hunit0 k b 0 Hk) by lia.
    replace (0 =? k + 1) with false by (symmetry; apply Nat.eqb_neq; lia).
    reflexivity.
Qed.

(** A problem with a [>=] constraint, hence with an artificial column. *)
Lemma bigM_start_is_canonical_sample :
  Forall (fun c => List.length (coefficients c) <= 1) infeasibleConstraints
  /\ canonicalForm (prepareBigM (normalize false [1%float] infeasibleConstraints))
                   (n_matrix (normalize false [1%float] infeasibleConstraints))
                   (n_basis (normalize false [1%float] infeasibleConstraints))
     = true.
Proof.
  assert (H : Forall (fun c => List.length (coefficients c) <= 1) infeasibleConstraints)
    by (repeat constructor).
  split; [exact H|].
  apply (bigM_start_is_canonical false [1%float] infeasibleConstraints H).
Defined.

(** X23: the tableau phase 1 of the two-phase method starts from is in
    canonical form for the initial basis, provided no constraint has more
    coefficients than there are decision variables: the auxiliary objective
    row, built in a fresh row with 1 in the artificial columns and reduced
    by the artificial rows, holds 0 in every initial basic column, and the
    constraint rows are those of the normalized tableau. *)
Theorem phase1_start_is_canonical
        (isMin : bool) (objCoeffs : list number) (constraints : list Constraint) :
  Forall (fun c => List.length (coefficients c) <= List.length objCoeffs) constraints ->
  let n := normalize isMin objCoeffs constraints in
  canonicalForm (p1_heap (preparePhase1 n)) (p1_matrix (preparePhase1 n)) (n_basis n)
  = true.
Proof.
  intros Hcoefs. cbv zeta.
  set (n := normalize isMin objCoeffs constraints).
  pose proof (normalize_facts isMin objCoeffs constraints) as NF. fold n in NF.
  pose proof (length_n_heap isMin objCoeffs constraints) as HL. fold n in HL.
  pose proof (length_n_matrix _ _ _ NF) as Hrows.
  assert (Haddr : forall r, r < List.length constraints + 1 -> rowAddr (n_matrix n) r = r).
  { intros r Hr. rewrite (nf_matrix _ _ _ NF). now apply rowAddr_initMatrix. }
  assert (Hunit0 : forall k b r,
             nth_error (n_basis n) k = Some b -> r <= List.length constraints ->
             cell (n_heap n) (n_matrix n) r b = if r =? k + 1 then 1%float else 0%float).
  { intros k b r Hk Hr.
    now apply (basis_column_cells isMin objCoeffs constraints k b r Hcoefs). }
  unfold preparePhase1, alloc.
  set (h1 := n_heap n ++ [rowAt (n_heap n) (rowAddr (n_matrix n) 0)]).
  set (h2 := h1 ++ [zeroRow (n_colCount n)]).
  set (m1 := replaceRow0 (n_matrix n) (List.length h1)).
  assert (Hh1 : List.length h1 = List.length constraints + 2).
  { unfold h1. rewrite length_app. cbn [List.length]. lia. }
  assert (Hh2 : List.length h2 = List.length constraints + 3).
  { unfold h2. rewrite length_app. cbn [List.length]. lia. }
  assert (Hm1 : m1 = (List.length constraints + 2) :: seq 1 (List.length constraints)).
  { unfold m1. rewrite (nf_matrix _ _ _ NF), Hh1. unfold initMatrix.
    rewrite Nat.add_1_r. reflexivity. }
  assert (Haddr0 : rowAddr m1 0 = List.length constraints + 2).
  { unfold m1. now rewrite rowAddr_replaceRow0_0. }
  assert (HaddrS : forall r, 1 <= r < List.length constraints + 1 -> rowAddr m1 r = r).
  { intros [|r] Hr; [lia|]. unfold m1. rewrite rowAddr_replaceRow0_S. now apply Haddr. }
  set (h3 := setCell h2 m1 0 0 1%float).
  assert (Ha0 : rowAddr m1 0 < List.length h3).
  { unfold h3. rewrite length_setCell. lia. }
  destruct (markArtificials_spec m1 1%float h3 (n_headers n) Ha0)
    as (Hlen & Hother & Hnd & _ & Hset & Hkeep).
  pose proof (marked_columns_in_basis isMin objCoeffs constraints m1 1%float h3 Ha0)
    as Hincl.
  cbv zeta in Hincl. fold n in Hincl.
  destruct (markArtificials m1 (n_headers n) 1%float h3) as [h4 arts].
  cbn [fst snd p1_heap p1_matrix] in *.
  assert (Hold : forall r c, 1 <= r < List.length constraints + 1 ->
                             cell h4 m1 r c = cell (n_heap n) (n_matrix n) r c).
  { intros r c Hr. unfold cell. rewrite HaddrS, Haddr by lia.
    rewrite Hother by lia. unfold h3. rewrite rowAt_setCell_other by lia.
    unfold h2, h1, rowAt. rewrite !app_nth1; [reflexivity | lia |].
    rewrite length_app. cbn [List.length]. lia. }
  apply (eliminated_start_is_canonical m1 (n_numRows n) (n_colCount n)
           (fun x => x) 1%float (n_basis n)).
  - rewrite Hm1. constructor; [|apply seq_NoDup].
    intros Hin. apply in_seq in Hin. lia.
  - rewrite (nf_numRows _ _ _ NF), Hm1. cbn [List.length]. rewrite length_seq. lia.
  - rewrite (nf_numRows _ _ _ NF), (nf_basis_length _ _ _ NF). reflexivity.
  - apply normalize_basis_NoDup.
  - eapply Forall_impl; [|apply normalize_basis_columns]. cbv beta. intros b Hb.
    fold n in Hb. lia.
  - vm_compute. reflexivity.
  - vm_compute. reflexivity.
  - vm_compute. reflexivity.
  - assumption.
  - assumption.
  - intros r Hr. rewrite Hm1 in Hr. cbn [List.length] in Hr. rewrite length_seq in Hr.
    rewrite Hlen. unfold h3. rewrite length_setCell, Hh2.
    destruct r as [|r]; [lia|]. rewrite HaddrS by lia. lia.
  - intros k b r Hk Hr. rewrite (nf_numRows _ _ _ NF) in Hr.
    rewrite Hold by lia.
    apply (Hunit0 k b r Hk). lia.
  - intros b Hb. split; [now apply Hset|].
    intros Hnin. rewrite Hkeep by assumption.
    pose proof (normalize_basis_columns isMin objCoeffs constraints) as Hcols.
    cbv zeta in Hcols. fold n in Hcols. rewrite Forall_forall in Hcols.
    specialize (Hcols b Hb).
    unfold h3. rewrite cell_setCell_other_col by lia.
    unfold cell. rewrite Haddr0. unfold h2, rowAt.
    rewrite app_nth2 by lia. rewrite Hh1, Nat.sub_diag. cbn [nth].
    unfold jsGet, zeroRow. apply nth_repeat_lt. lia.
Qed.

Lemma phase1_start_is_canonical_sample :
  Forall (fun c => List.length (coefficients c) <= 1) infeasibleConstraints
  /\ canonicalForm
       (p1_heap (preparePhase1 (normalize false [1%float] infeasibleConstraints)))
       (p1_matrix (preparePhase1 (normalize false [1%float] infeasibleConstraints)))
       (n_basis (normalize false [1%float] infeasibleConstraints))
     = true.
Proof.
  assert (H : Forall (fun c => List.length (coefficients c) <= 1) infeasibleConstraints)
    by (repeat constructor).
  split; [exact H|].
  apply (phase1_start_is_canonical false [1%float] infeasibleConstraints H).
Defined.

(** * The length of the trace *)

Lemma RunShape_length iter fuel s new :
  RunShape iter fuel s new -> List.length new <= fuel.
Proof.
  induction 1 as [iter fuel t Ht Hi | iter fuel t Ht Hi | iter
                 | iter fuel s t rest Hl Hi Ht Hrest IH]; simpl; lia.
Qed.

(** X24: a result never holds more than 50 steps, or 100 with TWO_PHASE and
    an artificial variable: a run of the engine appends one step per pass,
    the terminal step taking the place of a pass. *)
Theorem trace_length_is_bounded
        (method : SolverMethod) (type : OptimizationType)
        (objCoeffs : list number) (constraints : list Constraint) :
  let result := solveLinearProgram method type objCoeffs constraints in
  List.length (steps result)
  <= if isTwoPhase method && (0 <? List.length (artificialVars constraints))
     then 2 * maxIter else maxIter.
Proof.
  cbv zeta.
  destruct (isTwoPhase method && (0 <? List.length (artificialVars constraints))) eqn:Htwo.
  - destruct (solve_two_runs type objCoeffs constraints method Htwo)
      as (m1 & h1 & s1 & st1 & _ & Hrun1 & _ & Hrest).
    destruct (run_shape _ _ _ _ _ _ Hrun1) as (new1 & Hnew1 & Hshape1).
    cbn [st_steps app] in Hnew1. apply RunShape_length in Hshape1.
    destruct Hrest
      as [(s' & -> & _) | (m2 & h2 & s2 & st2 & _ & Hrun2 & _ & Hfin & _)].
    + cbn [steps earlyReturn]. rewrite Hnew1. lia.
    + destruct (run_shape _ _ _ _ _ _ Hrun2) as (new2 & Hnew2 & Hshape2).
      cbn [st_steps] in Hnew2. apply RunShape_length in Hshape2.
      destruct (Final_steps _ _ _ _ _ _ _ Hfin) as [-> _].
      rewrite Hnew2, Hnew1, length_app. lia.
  - destruct (solve_one_run method type objCoeffs constraints Htwo)
      as (h0 & s & st & Hrun & _ & Hfin).
    destruct (run_shape _ _ _ _ _ _ Hrun) as (new & Hnew & Hshape).
    cbn [st_steps app] in Hnew. apply RunShape_length in Hshape.
    destruct (Final_steps _ _ _ _ _ _ _ Hfin) as [-> _].
    rewrite Hnew. exact Hshape.
Qed.

(** * Minimizing and maximizing *)

Lemma SFopp_involutive (x : spec_float) : SFopp (SFopp x) = x.
Proof. destruct x as [s|s| |s m e]; cbn; try rewrite negb_involutive; reflexivity. Qed.

Lemma opp_involutive (x : number) : (- - x)%float = x.
Proof. apply Prim2SF_inj. rewrite !opp_spec. apply SFopp_involutive. Qed.

Lemma fold_indexed_map {S A B : Type} (f : A -> B) (g : S -> nat * B -> S)
      (g' : S -> nat * A -> S) (l : list A) :
  (forall s i a, g s (i, f a) = g' s (i, a)) ->
  forall k s,
    fold_left g (combine (seq k (List.length (map f l))) (map f l)) s
    = fold_left g' (combine (seq k (List.length l)) l) s.
Proof.
  intros Hg. induction l as [|x l IH]; intros k s; [reflexivity|].
  cbn [map List.length seq combine fold_left]. rewrite Hg. apply IH.
Qed.

(** Minimizing [c] and maximizing [-c] start from the same tableau. *)
Lemma normalize_min_max (objCoeffs : list number) (constraints : list Constraint) :
  normalize true objCoeffs constraints
  = normalize false (map PrimFloat.opp objCoeffs) constraints.
Proof.
  unfold normalize. rewrite length_map. f_equal.
  unfold fillObjective, indexed. symmetry. apply fold_indexed_map.
  intros h i a. cbn [fst snd]. now rewrite opp_involutive.
Qed.

(** Two computations that end alike, but for the sign of the objective
    value of an OPTIMAL result. *)
Local Abbreviation SameButZ x y :=
  (match x, y with
   | Ok a, Ok b =>
       steps a = steps b /\ finalValues a = finalValues b /\ status a = status b
       /\ errorMessage a = errorMessage b /\ store a = store b
       /\ zValue a = (if isOptimal (status b) then (- zValue b)%float else zValue b)
   | Throw _, Throw _ => True
   | _, _ => False
   end).

Lemma extractResults_min_max hdrs (matrix : Matrix) RHS_COL st :
  SameButZ (extractResults true hdrs matrix RHS_COL st)
           (extractResults false hdrs matrix RHS_COL st).
Proof.
  unfold extractResults.
  destruct (readBasis hdrs matrix (st_heap st) RHS_COL (indexed (st_basis st)) _)
    as [fv|e]; cbn [bind]; [|exact I].
  destruct (rowRefOf matrix 0) as [a0|e]; cbn [bind]; [|exact I].
  cbn [steps finalValues status errorMessage store zValue isOptimal]. repeat split.
Qed.

Lemma earlyReturn_min_max (s : Status) (st : EngineState) :
  s <> OPTIMAL -> SameButZ (Ok (earlyReturn s st)) (Ok (earlyReturn s st)).
Proof.
  intros Hs. cbn [steps finalValues status errorMessage store zValue earlyReturn].
  repeat split. destruct s; try reflexivity. congruence.
Qed.

Lemma negb_isOptimal (s : Status) : negb (isOptimal s) = true -> s <> OPTIMAL.
Proof. destruct s; simpl; congruence. Qed.

Lemma solveStandard_min_max (n : Normalized) :
  SameButZ (solveStandard true n) (solveStandard false n).
Proof.
  unfold solveStandard.
  destruct (runSimplexIterations _ _ _ _) as [[res st]|e]; cbn [bind]; [|exact I].
  destruct (negb (isOptimal res)) eqn:Hres.
  - apply earlyReturn_min_max. now apply negb_isOptimal.
  - apply extractResults_min_max.
Qed.

Lemma solveBigM_min_max (n : Normalized) :
  SameButZ (solveBigM true n) (solveBigM false n).
Proof.
  unfold solveBigM.
  destruct (runSimplexIterations _ _ _ _) as [[res st]|e]; cbn [bind]; [|exact I].
  destruct (negb (isOptimal res)) eqn:Hres.
  - apply earlyReturn_min_max. now apply negb_isOptimal.
  - destruct (artInBasis _ _ _ _ _) as [[|]|e]; cbn [bind]; [| |exact I].
    + apply earlyReturn_min_max. discriminate.
    + apply extractResults_min_max.
Qed.

Lemma solveTwoPhase_min_max (n : Normalized) :
  SameButZ (solveTwoPhase true n) (solveTwoPhase false n).
Proof.
  unfold solveTwoPhase.
  destruct (runSimplexIterations (p1_matrix (preparePhase1 n)) _ _ _)
    as [[res1 st1]|e]; cbn [bind]; [|exact I].
  destruct (isUnbounded res1); [apply earlyReturn_min_max; discriminate|].
  destruct (gt _ feasTol); [apply earlyReturn_min_max; discriminate|].
  destruct (preparePhase2 n (preparePhase1 n) st1) as [matrix2 st1'].
  destruct (runSimplexIterations matrix2 _ _ _) as [[res2 st2]|e]; cbn [bind]; [|exact I].
  destruct (negb (isOptimal res2)) eqn:Hres.
  - apply earlyReturn_min_max. now apply negb_isOptimal.
  - apply extractResults_min_max.
Qed.

(** X25: minimizing an objective is maximizing its negation.  The two calls
    build the same tableau and return the same steps, status, values and
    store; only the objective value of an OPTIMAL result changes sign. *)
Theorem minimizing_is_maximizing_the_negation
        (method : SolverMethod) (objCoeffs : list number) (constraints : list Constraint) :
  let rmin := solveLinearProgram method MIN objCoeffs constraints in
  let rmax := solveLinearProgram method MAX (map PrimFloat.opp objCoeffs) constraints in
  steps rmin = steps rmax
  /\ finalValues rmin = finalValues rmax
  /\ status rmin = status rmax
  /\ errorMessage rmin = errorMessage rmax
  /\ store rmin = store rmax
  /\ zValue rmin = (if isOptimal (status rmax) then (- zValue rmax)%float else zValue rmax).
Proof.
  cbv zeta. unfold solveLinearProgram, solveBody.
  rewrite normalize_min_max.
  set (n := normalize false (map PrimFloat.opp objCoeffs) constraints).
  assert (H : SameButZ
                (if isTwoPhase method && (0 <? List.length (artificialVars constraints))
                 then solveTwoPhase true n
                 else if isBigM method && (0 <? List.length (artificialVars constraints))
                      then solveBigM true n else solveStandard true n)
                (if isTwoPhase method && (0 <? List.length (artificialVars constraints))
                 then solveTwoPhase false n
                 else if isBigM method && (0 <? List.length (artificialVars constraints))
                      then solveBigM false n else solveStandard false n)).
  { destruct (isTwoPhase method && _); [apply solveTwoPhase_min_max|].
    destruct (isBigM method && _); [apply solveBigM_min_max | apply solveStandard_min_max]. }
  destruct (if isTwoPhase method && (0 <? List.length (artificialVars constraints))
            then solveTwoPhase true n
            else if isBigM method && (0 <? List.length (artificialVars constraints))
                 then solveBigM true n else solveStandard true n) as [a|ea];
    destruct (if isTwoPhase method && (0 <? List.length (artificialVars constraints))
              then solveTwoPhase false n
              else if isBigM method && (0 <? List.length (artificialVars constraints))
                   then solveBigM false n else solveStandard false n) as [b|eb];
    cbn [tryCatch]; try contradiction.
  - exact H.
  - cbn. repeat split.
Qed.

(** * A problem without constraints *)

Lemma whileLoop_S matrix hdrs phaseNo colCount rowCount fuel iter st :
  whileLoop matrix hdrs phaseNo colCount rowCount (S fuel) iter st
  = match iteration matrix hdrs phaseNo colCount rowCount iter st with
    | (Return s, st') => (s, st')
    | (Continue, st') => whileLoop matrix hdrs phaseNo colCount rowCount fuel (S iter) st'
    end.
Proof. reflexivity. Qed.

Lemma objSet_new k v o : ~ In k (map fst o) -> objSet k v o = o ++ [(k, v)].
Proof.
  induction o as [|[k0 v0] o IH]; intros Hk; [reflexivity|].
  cbn [objSet]. cbn [map fst In] in Hk.
  destruct (String.eqb_spec k k0) as [->|Hne]; [tauto|].
  cbn [app]. f_equal. apply IH. tauto.
Qed.

Lemma zeroed_values_list (names : list string) : forall acc,
  NoDup (map fst acc ++ names) ->
  fold_left (fun fv h => objSet h 0%float fv) names acc
  = acc ++ map (fun v => (v, 0%float)) names.
Proof.
  induction names as [|x names IH]; intros acc Hnd.
  - cbn. now rewrite List.app_nil_r.
  - cbn [fold_left map].
    assert (Hx : ~ In x (map fst acc)).
    { intros Hin. apply NoDup_remove_2 in Hnd. apply Hnd. apply in_or_app. now left. }
    rewrite objSet_new by assumption. rewrite IH.
    + now rewrite <- app_assoc.
    + rewrite map_app. cbn [map fst]. now rewrite <- app_assoc.
Qed.

(** X26: a problem without constraints.  The tableau is the objective row
    alone and the engine stops in its first pass with one step: the result
    is UNBOUNDED, without values, when some objective coefficient enters the
    row below [-1e-9] (a coefficient above [1e-9] when maximizing, below
    [-1e-9] when minimizing), and otherwise OPTIMAL with every decision
    variable at 0 and an objective value of 0 ([-0] when minimizing). *)
Theorem unconstrained_problem_is_decided_at_once
        (method : SolverMethod) (type : OptimizationType) (objCoeffs : list number) :
  let result := solveLinearProgram method type objCoeffs [] in
  List.length (steps result) = 1
  /\ if existsb (fun c => lt (objectiveEntry (isMinOf type) c) negTol) objCoeffs
     then status result = UNBOUNDED /\ finalValues result = []
     else status result = OPTIMAL
          /\ finalValues result
             = map (fun v => (v, 0%float)) (decisionHeaders (List.length objCoeffs))
          /\ zValue result = (if isMinOf type then (-0)%float else 0%float).
Proof.
  cbv zeta. unfold solveLinearProgram, solveBody. fold (isMinOf type).
  change (0 <? List.length (artificialVars [])) with false.
  rewrite !andb_false_r.
  pose proof (normalize_facts (isMinOf type) objCoeffs []) as NF.
  pose proof (objective_cells (isMinOf type) objCoeffs []) as Hcells. cbv zeta in Hcells.
  set (n := normalize (isMinOf type) objCoeffs []) in *.
  assert (Hm : n_matrix n = [0]) by (rewrite (nf_matrix _ _ _ NF); reflexivity).
  assert (Hcols : n_colCount n = List.length objCoeffs + 2).
  { rewrite (nf_colCount _ _ _ NF), (nf_headers _ _ _ NF), length_buildHeaders.
    cbn [countSlack countSurplus countArtificial]. lia. }
  assert (Hbasis : n_basis n = []).
  { pose proof (nf_basis_length _ _ _ NF) as Hl. cbn [List.length] in Hl.
    destruct (n_basis n); [reflexivity | discriminate]. }
  assert (Hhdrs : slice1m1 (n_headers n) = decisionHeaders (List.length objCoeffs)).
  { rewrite (nf_headers _ _ _ NF), slice1m1_buildHeaders.
    cbn [slackVars surplusVars artificialVars indexed List.length seq combine flat_map].
    now rewrite !List.app_nil_r. }
  (* the scan of the objective row *)
  assert (Hscan : forall c, 1 <= c < n_colCount n - 1 ->
                    cell (n_heap n) (n_matrix n) 0 c
                    = objectiveEntry (isMinOf type) (nth (c - 1) objCoeffs nan)).
  { intros c Hc. rewrite Hcells.
    destruct (Nat.leb_spec 1 c), (Nat.ltb_spec c (1 + List.length objCoeffs));
      cbn [andb]; try lia. reflexivity. }
  unfold solveStandard, runSimplexIterations. rewrite Hm. cbn [bind].
  fold (rowLength (n_heap n) 0). cbn [st_heap].
  change (List.length (rowAt (n_heap n) 0)) with (rowLength (n_heap n) 0).
  rewrite (nf_row0 _ _ _ NF). cbn [List.length].
  unfold maxIter. rewrite whileLoop_S.
  pose proof (findEntering_spec [0] (n_colCount n) (n_heap n)) as Hent.
  rewrite <- Hm in Hent.
  destruct (iteration_cases [0] (n_headers n) 0 (n_colCount n) 1 0
              {| st_heap := n_heap n; st_basis := n_basis n; st_steps := [] |})
    as [He | ec He Hl | ec lr He Hl]; cbn [st_heap st_basis st_steps app] in *.
  - (* no column qualifies *)
    rewrite <- Hm in He. rewrite He in Hent.
    replace (existsb _ objCoeffs) with false.
    2:{ symmetry. apply not_true_is_false. intros Hex.
        apply existsb_exists in Hex. destruct Hex as (x & Hin & Hx).
        destruct (@In_nth number objCoeffs x nan Hin) as (i & Hi & Hnth).
        assert (Hrange : 1 <= i + 1 < n_colCount n - 1) by (rewrite Hcols; lia).
        specialize (Hent (i + 1) Hrange).
        rewrite Hscan in Hent by lia.
        replace (i + 1 - 1) with i in Hent by lia. rewrite Hnth in Hent. congruence. }
    cbn [negb isOptimal]. unfold extractResults.
    cbn [st_basis st_heap st_steps]. rewrite Hbasis.
    cbn [indexed List.length seq combine readBasis bind rowRefOf nth_error
         tryCatch steps finalValues zValue status List.length app].
    split; [reflexivity|]. split; [reflexivity|].
    split.
    + rewrite Hhdrs. rewrite zeroed_values_list; [reflexivity|].
      cbn [map app]. rewrite <- Hhdrs, (nf_headers _ _ _ NF), slice1m1_buildHeaders.
      pose proof (buildHeaders_NoDup (List.length objCoeffs) []) as Hnd.
      unfold buildHeaders in Hnd. cbn [app] in Hnd.
      apply NoDup_cons_iff in Hnd. destruct Hnd as [_ Hnd].
      rewrite !app_assoc in Hnd. apply NoDup_remove_1 in Hnd.
      rewrite List.app_nil_r in Hnd. rewrite !app_assoc. exact Hnd.
    + change (jsGet (rowAt (n_heap n) 0) (n_colCount n - 1))
        with (cell (n_heap n) [0] 0 (n_colCount n - 1)).
      rewrite <- Hm, Hcells.
      destruct (Nat.leb_spec 1 (n_colCount n - 1)),
               (Nat.ltb_spec (n_colCount n - 1) (1 + List.length objCoeffs)),
               (Nat.eqb_spec (n_colCount n - 1) 0),
               (Nat.ltb_spec (n_colCount n - 1) (n_colCount n));
        cbn [andb]; try lia. reflexivity.
  - (* a column qualifies; no row to leave *)
    rewrite <- Hm in He. rewrite He in Hent.
    destruct Hent as (Hec & Hlt & _).
    replace (existsb _ objCoeffs) with true.
    2:{ symmetry. apply existsb_exists.
        exists (nth (ec - 1) objCoeffs nan). split.
        - apply nth_In. lia.
        - rewrite <- Hscan by lia. exact Hlt. }
    cbn [negb isOptimal tryCatch steps finalValues status earlyReturn st_steps
         List.length]. auto.
  - (* there is no row to pivot on *)
    pose proof (findLeaving_spec [0] (n_colCount n) 1 (n_heap n) ec) as Hlv.
    rewrite Hl in Hlv. lia.
Qed.

(** * The statuses of a result *)

Lemma solveStandard_status isMin (n : Normalized) (r : SolveResult) :
  n_matrix n <> [] -> solveStandard isMin n = Ok r ->
  status r = OPTIMAL \/ status r = UNBOUNDED.
Proof.
  intros Hne. unfold solveStandard.
  destruct (runSimplexIterations_facts (n_matrix n) (n_headers n) 0
              {| st_heap := n_heap n; st_basis := n_basis n; st_steps := [] |} Hne)
    as (s & st & -> & F).
  cbn [bind].
  destruct (isOptimal_cases s (run_status _ _ _ _ F)) as [(-> & -> & _) | (-> & -> & _)];
    cbn [negb]; intros H.
  - apply extractResults_inv in H. left. tauto.
  - apply Ok_inj in H. subst r. now right.
Qed.

(** X27: the statuses a result can have.  A result is OPTIMAL, UNBOUNDED or
    INFEASIBLE, and INFEASIBLE only comes from BIG_M or TWO_PHASE on a
    problem with an artificial variable: SIMPLEX never reports a problem as
    infeasible, whatever its constraints. *)
Theorem infeasible_only_with_artificial_methods
        (method : SolverMethod) (type : OptimizationType)
        (objCoeffs : list number) (constraints : list Constraint) :
  let result := solveLinearProgram method type objCoeffs constraints in
  status result = OPTIMAL \/ status result = UNBOUNDED
  \/ (status result = INFEASIBLE /\ method <> SIMPLEX /\ artificialVars constraints <> []).
Proof.
  cbv zeta.
  destruct (solveBody_returns method type objCoeffs constraints) as [r Hr].
  pose proof (body_outcome method type objCoeffs constraints) as Hout.
  unfold solveLinearProgram. rewrite Hr in *. cbn [tryCatch BodyOutcome] in Hout |- *.
  assert (Hthree : status r = OPTIMAL \/ status r = UNBOUNDED \/ status r = INFEASIBLE).
  { destruct Hout as (s & prior & pre & t & _ & Hend & Hstatus & _).
    destruct Hend as [[-> _] | [[-> _] | (-> & _)]];
      destruct Hstatus as [Hs | [Hs' Hs]]; try congruence; auto. }
  unfold solveBody in Hr.
  destruct (0 <? List.length (artificialVars constraints)) eqn:Hart.
  - assert (Hne : artificialVars constraints <> []).
    { intros E. rewrite E in Hart. discriminate. }
    destruct method; cbn [isTwoPhase isBigM andb] in Hr.
    + apply solveStandard_status in Hr; [tauto | apply initMatrix_nonempty].
    + destruct Hthree as [H | [H | H]]; auto.
      right. right. repeat split; [assumption | discriminate | assumption].
    + destruct Hthree as [H | [H | H]]; auto.
      right. right. repeat split; [assumption | discriminate | assumption].
  - rewrite !andb_false_r in Hr.
    apply solveStandard_status in Hr; [tauto | apply initMatrix_nonempty].
Qed.

(** * The identifiers of the constraints *)

(** The constraint without its identifier. *)
Local Abbreviation anonymous c :=
  {| id := ""; coefficients := coefficients c; relation := relation c; rhs := rhs c |}.

Lemma sameData_anonymous (l l' : list Constraint) :
  Forall2 sameData l l' ->
  map (fun c => anonymous c) l = map (fun c => anonymous c) l'.
Proof.
  induction 1 as [|c c' l l' (Hc & Hr & Hb) _ IH]; [reflexivity|].
  cbn [map]. rewrite Hc, Hr, Hb, IH. reflexivity.
Qed.

Lemma flat_map_indexed_map {A B C : Type} (f : A -> B) (g : nat * B -> list C)
      (g' : nat * A -> list C) (l : list A) :
  (forall i a, g (i, f a) = g' (i, a)) ->
  forall k,
    flat_map g (combine (seq k (List.length (map f l))) (map f l))
    = flat_map g' (combine (seq k (List.length l)) l).
Proof.
  intros Hg. induction l as [|x l IH]; intros k; [reflexivity|].
  cbn [map List.length seq combine flat_map]. now rewrite Hg, IH.
Qed.

Lemma slackVars_anonymous l : slackVars (map (fun c => anonymous c) l) = slackVars l.
Proof. unfold slackVars, indexed. now apply flat_map_indexed_map. Qed.

Lemma surplusVars_anonymous l : surplusVars (map (fun c => anonymous c) l) = surplusVars l.
Proof. unfold surplusVars, indexed. now apply flat_map_indexed_map. Qed.

Lemma artificialVars_anonymous l :
  artificialVars (map (fun c => anonymous c) l) = artificialVars l.
Proof. unfold artificialVars, indexed. now apply flat_map_indexed_map. Qed.

Lemma normalize_anonymous isMin objCoeffs l :
  normalize isMin objCoeffs (map (fun c => anonymous c) l) = normalize isMin objCoeffs l.
Proof.
  unfold normalize, buildHeaders.
  rewrite slackVars_anonymous, surplusVars_anonymous, artificialVars_anonymous, length_map.
  unfold indexed.
  rewrite (fold_indexed_map (fun c => anonymous c) _
             (fillConstraint (initMatrix (List.length l + 1))
                (List.length
                   (("Z" :: decisionHeaders (List.length objCoeffs))
                      ++ slackVars l ++ surplusVars l ++ artificialVars l ++ ["LD"]) - 1)));
    [reflexivity|].
  intros s i a. reflexivity.
Qed.

Lemma solveBody_anonymous method type objCoeffs l :
  solveBody method type objCoeffs (map (fun c => anonymous c) l)
  = solveBody method type objCoeffs l.
Proof.
  unfold solveBody. now rewrite normalize_anonymous, artificialVars_anonymous.
Qed.

(** X28: the solver does not look at the identifiers of the constraints.  Two
    lists of constraints that agree, position by position, on the
    coefficients, the relation and the right-hand side give the same result,
    trace included. *)
Theorem constraint_ids_are_ignored
        (method : SolverMethod) (type : OptimizationType) (objCoeffs : list number)
        (constraints constraints' : list Constraint) :
  Forall2 sameData constraints constraints' ->
  solveLinearProgram method type objCoeffs constraints
  = solveLinearProgram method type objCoeffs constraints'.
Proof.
  intros Hsame. unfold solveLinearProgram.
  rewrite <- (solveBody_anonymous method type objCoeffs constraints).
  rewrite <- (solveBody_anonymous method type objCoeffs constraints').
  now rewrite (sameData_anonymous _ _ Hsame).
Qed.

(** The sample problem with its constraints named as the form names them. *)
Lemma constraint_ids_are_ignored_sample :
  Forall2 sameData sampleConstraints
          (map (fun ic => {| id := "c-" +++ showNat (fst ic);
                             coefficients := coefficients (snd ic);
                             relation := relation (snd ic);
                             rhs := rhs (snd ic) |}) (indexed sampleConstraints))
  /\ solveLinearProgram SIMPLEX MAX [3%float; 5%float] sampleConstraints
     = solveLinearProgram SIMPLEX MAX [3%float; 5%float]
         (map (fun ic => {| id := "c-" +++ showNat (fst ic);
                            coefficients := coefficients (snd ic);
                            relation := relation (snd ic);
                            rhs := rhs (snd ic) |}) (indexed sampleConstraints)).
Proof.
  assert (H : Forall2 sameData sampleConstraints
                (map (fun ic => {| id := "c-" +++ showNat (fst ic);
                                   coefficients := coefficients (snd ic);
                                   relation := relation (snd ic);
                                   rhs := rhs (snd ic) |}) (indexed sampleConstraints)))
    by (repeat constructor).
  split; [exact H|].
  apply (constraint_ids_are_ignored SIMPLEX MAX [3%float; 5%float] _ _ H).
Defined.

(** * The rows of the store *)

Lemma Forall_updRow (P : Row -> Prop) (f : Row -> Row) : forall h a,
  (forall row, P row -> P (f row)) -> Forall P h -> Forall P (updRow h a f).
Proof.
  induction h as [|row h IH]; intros [|a] Hf Hall; simpl; try constructor;
    inversion Hall; subst; auto.
Qed.

(** A write below [colCount] keeps the rows as long as they are. *)
Lemma Rectangular_setCell cc h m r c v :
  c < cc -> Rectangular cc h -> Rectangular cc (setCell h m r c v).
Proof.
  intros Hc. apply Forall_updRow. intros row Hrow. rewrite length_jsSet. lia.
Qed.

Lemma Rectangular_rowLength cc h a :
  Rectangular cc h -> a < List.length h -> rowLength h a = cc.
Proof.
  intros Hrect Ha. unfold Rectangular in Hrect. rewrite Forall_forall in Hrect.
  apply Hrect. unfold rowAt. now apply nth_In.
Qed.

Lemma Rectangular_alloc cc h row :
  Rectangular cc h -> List.length row = cc -> Rectangular cc (h ++ [row]).
Proof. intros Hrect Hrow. apply Forall_app. split; [assumption | now constructor]. Qed.

(** ** The engine *)

Lemma Rectangular_pivot matrix cc rowCount lr ec h :
  Rectangular cc h -> Rectangular cc (pivot matrix cc rowCount lr ec h).
Proof.
  intros Hrect. unfold pivot, eliminate, normalizeRow, eliminateRow.
  apply forRange_inv.
  - intros r acc Hr Hacc. destruct (r =? lr); [assumption|].
    destruct (gt _ tol); [|assumption].
    apply forRange_inv; [|assumption].
    intros c acc' Hc Hacc'. apply Rectangular_setCell; [lia | assumption].
  - apply forRange_inv; [|assumption].
    intros c acc Hc Hacc. apply Rectangular_setCell; [lia | assumption].
Qed.

Lemma length_pivot matrix cc rowCount lr ec h :
  List.length (pivot matrix cc rowCount lr ec h) = List.length h.
Proof.
  unfold pivot, eliminate, normalizeRow, eliminateRow.
  apply (forRange_inv (fun h' => List.length h' = List.length h)).
  - intros r acc Hr Hacc. destruct (r =? lr); [assumption|].
    destruct (gt _ tol); [|assumption].
    apply (forRange_inv (fun h' => List.length h' = List.length h)); [|assumption].
    intros c acc' Hc Hacc'. now rewrite length_setCell.
  - apply (forRange_inv (fun h' => List.length h' = List.length h)); [|reflexivity].
    intros c acc Hc Hacc. now rewrite length_setCell.
Qed.

(** What a step refers to: the headers, and rows of the store below [L]. *)
Local Abbreviation Shown L hdrs :=
  (Forall (fun t => headers t = hdrs
                    /\ Forall (fun row => rowRef row < L) (tableau t))).

Lemma currentTableauRows_below matrix hdrs phaseNo colCount h basis L :
  Forall (fun a => a < L) matrix ->
  Forall (fun row => rowRef row < L)
         (currentTableauRows matrix hdrs phaseNo colCount (List.length matrix) h basis).
Proof.
  intros Hm.
  pose proof (currentTableauRows_refs matrix hdrs phaseNo colCount h basis) as Hrefs.
  rewrite <- Hrefs in Hm. now apply Forall_map in Hm.
Qed.

Lemma whileLoop_rect matrix hdrs phaseNo cc rowCount fuel :
  forall iter st,
    let st' := snd (whileLoop matrix hdrs phaseNo cc rowCount fuel iter st) in
    List.length (st_heap st') = List.length (st_heap st)
    /\ (Rectangular cc (st_heap st) -> Rectangular cc (st_heap st')).
Proof.
  induction fuel as [|fuel IH]; intros iter st; cbv zeta.
  - simpl. auto.
  - cbn [whileLoop].
    destruct (iteration_cases matrix hdrs phaseNo cc rowCount iter st)
      as [He | ec He Hl | ec lr He Hl]; cbn [snd st_heap]; auto.
    match goal with
    | |- context [whileLoop _ _ _ _ _ fuel (S iter) ?st1] =>
        destruct (IH (S iter) st1) as (Hlen & Hrect')
    end.
    cbn [st_heap] in Hlen, Hrect'. rewrite length_pivot in Hlen.
    split; [exact Hlen|]. intros Hrect. apply Hrect'. now apply Rectangular_pivot.
Qed.

Lemma whileLoop_shown matrix hdrs phaseNo cc L fuel :
  Forall (fun a => a < L) matrix ->
  forall iter st,
    Shown L hdrs (st_steps st) ->
    Shown L hdrs
          (st_steps (snd (whileLoop matrix hdrs phaseNo cc (List.length matrix)
                                    fuel iter st))).
Proof.
  intros Hm. induction fuel as [|fuel IH]; intros iter st Hshown.
  - exact Hshown.
  - cbn [whileLoop].
    pose proof (currentTableauRows_below matrix hdrs phaseNo cc (st_heap st) (st_basis st)
                  L Hm) as Hrows.
    destruct (iteration_cases matrix hdrs phaseNo cc (List.length matrix) iter st)
      as [He | ec He Hl | ec lr He Hl]; cbn [snd st_steps].
    + apply Forall_app. split; [assumption|]. constructor; [|constructor].
      split; [reflexivity | exact Hrows].
    + apply Forall_app. split; [assumption|]. constructor; [|constructor].
      split; [reflexivity | exact Hrows].
    + apply IH. cbn [st_steps]. apply Forall_app. split; [assumption|].
      constructor; [|constructor]. split; [reflexivity | exact Hrows].
Qed.

Lemma run_store matrix hdrs phaseNo L st s st' :
  runSimplexIterations matrix hdrs phaseNo st = Ok (s, st') ->
  Forall (fun a => a < L) matrix ->
  Rectangular (rowLength (st_heap st) (rowAddr matrix 0)) (st_heap st) ->
  Shown L hdrs (st_steps st) ->
  List.length (st_heap st') = List.length (st_heap st)
  /\ Rectangular (rowLength (st_heap st) (rowAddr matrix 0)) (st_heap st')
  /\ Shown L hdrs (st_steps st').
Proof.
  intros Hrun Hm Hrect Hshown. apply runSimplexIterations_inv in Hrun.
  pose proof (whileLoop_rect matrix hdrs phaseNo
                (rowLength (st_heap st) (rowAddr matrix 0)) (List.length matrix)
                maxIter 0 st) as [Hlen Hrect'].
  pose proof (whileLoop_shown matrix hdrs phaseNo
                (rowLength (st_heap st) (rowAddr matrix 0)) L maxIter Hm 0 st Hshown) as H.
  rewrite Hrun in Hlen, Hrect', H. cbn [snd] in *. auto.
Qed.

(** X29: what a run of the engine leaves alone.  On a matrix without rows
    the engine raises.  On any other matrix it returns, the store keeps its
    rows, and only rows of the matrix are written to, so a row set aside
    (the true objective row during phase 1) survives the run; and when
    every row of the store is as long as the objective row, this is still
    so after the run. *)
Theorem engine_writes_stay_inside_the_matrix
        (matrix : Matrix) (hdrs : list string) (phaseNo : nat) (st : EngineState) :
  match matrix with
  | [] => runSimplexIterations matrix hdrs phaseNo st = Throw TypeError
  | _ :: _ =>
      exists s st',
        runSimplexIterations matrix hdrs phaseNo st = Ok (s, st')
        /\ List.length (st_heap st') = List.length (st_heap st)
        /\ (forall a, ~ In a matrix -> rowAt (st_heap st') a = rowAt (st_heap st) a)
        /\ (Rectangular (rowLength (st_heap st) (rowAddr matrix 0)) (st_heap st) ->
            Rectangular (rowLength (st_heap st) (rowAddr matrix 0)) (st_heap st'))
  end.
Proof.
  destruct matrix as [|a0 rest] eqn:Em; [reflexivity|]. rewrite <- Em.
  assert (Hne : matrix <> []) by (rewrite Em; discriminate).
  destruct (runSimplexIterations_facts matrix hdrs phaseNo st Hne) as (s & st' & Hrun & _).
  exists s, st'. split; [exact Hrun|].
  pose proof (runSimplexIterations_inv _ _ _ _ _ _ Hrun) as Hloop.
  pose proof (whileLoop_rect matrix hdrs phaseNo
                (rowLength (st_heap st) (rowAddr matrix 0)) (List.length matrix)
                maxIter 0 st) as [Hlen Hrect].
  rewrite Hloop in Hlen, Hrect. cbn [snd] in *.
  split; [exact Hlen|]. split; [|exact Hrect].
  intros a Ha. apply (runSimplexIterations_keeps _ _ _ _ _ _ a Hrun Ha).
Qed.

(** ** The tableaux the engine is started on *)

Lemma Rectangular_initHeap numRows cc : Rectangular cc (initHeap numRows cc).
Proof.
  unfold Rectangular, initHeap. apply Forall_forall. intros row Hin.
  apply repeat_spec in Hin. subst row. apply repeat_length.
Qed.

Lemma fill_rect (matrix : Matrix) (cc RHS_COL : nat) :
  RHS_COL < cc ->
  forall l k s,
  Rectangular cc (f_heap s) ->
  Forall (fun c => List.length (coefficients c) < cc) l ->
  currentSlackIdx s + countSlack l <= cc ->
  currentSurplusIdx s + countSurplus l <= cc ->
  currentArtificialIdx s + countArtificial l <= cc ->
  Rectangular cc (f_heap (fold_left (fillConstraint matrix RHS_COL)
                                    (combine (seq k (List.length l)) l) s)).
Proof.
  intros HR. induction l as [|c t IH]; intros k s Hrect Hcoefs Hs He Ha; [exact Hrect|].
  cbn [List.length seq combine fold_left].
  inversion Hcoefs as [|? ? Hc Ht]; subst.
  destruct (fillConstraint_counters matrix RHS_COL s k c) as (Hs1 & He1 & Ha1).
  cbn [countSlack countSurplus countArtificial] in Hs, He, Ha, Hs1, He1, Ha1.
  assert (H1 : Rectangular cc
                 (fold_left (fun h jc => setCell h matrix (k + 1) (fst jc + 1) (snd jc))
                            (indexed (coefficients c)) (f_heap s))).
  { apply fold_left_inv; [|assumption]. intros acc [j x] Hin Hacc.
    apply in_indexed in Hin. cbn [fst snd].
    apply Rectangular_setCell; [lia | assumption]. }
  apply IH; try assumption.
  - unfold fillConstraint. cbn [fst snd].
    destruct (relation c); cbn [f_heap];
      repeat (apply Rectangular_setCell; [lia|]); exact H1.
  - rewrite Hs1. destruct (relation c); lia.
  - rewrite He1. destruct (relation c); lia.
  - rewrite Ha1. destruct (relation c); lia.
Qed.

Lemma Rectangular_normalize isMin objCoeffs constraints :
  Forall (fun c => List.length (coefficients c) <= List.length objCoeffs) constraints ->
  let n := normalize isMin objCoeffs constraints in
  Rectangular (n_colCount n) (n_heap n).
Proof.
  intros Hcoefs. cbv zeta.
  pose proof (length_buildHeaders (List.length objCoeffs) constraints) as Hcols.
  unfold normalize. cbn [n_heap n_colCount].
  set (cc := List.length (buildHeaders (List.length objCoeffs) constraints)) in *.
  unfold fillObjective. apply fold_left_inv.
  - intros acc [j x] Hin Hacc. apply in_indexed in Hin. cbn [fst snd].
    apply Rectangular_setCell; [lia | assumption].
  - apply Rectangular_setCell; [lia|].
    unfold indexed. apply fill_rect; cbn [f_heap currentSlackIdx currentSurplusIdx
                                           currentArtificialIdx].
    + lia.
    + apply Rectangular_initHeap.
    + eapply Forall_impl; [|exact Hcoefs]. cbv beta. intros c Hc. lia.
    + lia.
    + rewrite length_slackVars. lia.
    + rewrite length_slackVars, length_surplusVars. lia.
Qed.

Lemma markArtificials_rect cc (m : Matrix) hdrs v h :
  List.length hdrs <= cc -> Rectangular cc h ->
  Rectangular cc (fst (markArtificials m hdrs v h))
  /\ List.length (fst (markArtificials m hdrs v h)) = List.length h.
Proof.
  intros Hh Hrect. unfold markArtificials.
  apply (fold_left_inv (fun acc : Heap * list nat =>
                          Rectangular cc (fst acc)
                          /\ List.length (fst acc) = List.length h)).
  - intros acc [i hd] Hin [Hacc Hlen]. apply in_indexed in Hin. cbn [fst snd].
    destruct (startsWithA hd); [|auto]. cbn [fst]. split.
    + apply Rectangular_setCell; [lia | assumption].
    + now rewrite length_setCell.
  - auto.
Qed.

(** The three loops that rewrite the objective row, cell by cell. *)
Lemma rowLoop_rect cc (m : Matrix) colCount (G : nat -> Heap -> number) h :
  colCount <= cc -> Rectangular cc h ->
  Rectangular cc (forRange 0 colCount (fun c h => setCell h m 0 c (G c h)) h)
  /\ List.length (forRange 0 colCount (fun c h => setCell h m 0 c (G c h)) h)
     = List.length h.
Proof.
  intros Hc Hrect.
  apply (forRange_inv (fun h' => Rectangular cc h' /\ List.length h' = List.length h));
    [|auto].
  intros c acc Hrange [Hacc Hlen]. split.
  - apply Rectangular_setCell; [lia | assumption].
  - now rewrite length_setCell.
Qed.

Lemma bigMEliminate_rect cc (m : Matrix) numRows colCount arts h :
  colCount <= cc -> Rectangular cc h ->
  Rectangular cc (bigMEliminate m numRows colCount arts h)
  /\ List.length (bigMEliminate m numRows colCount arts h) = List.length h.
Proof.
  intros Hc Hrect. unfold bigMEliminate.
  apply (fold_left_inv (fun h' => Rectangular cc h' /\ List.length h' = List.length h));
    [|auto].
  intros acc artCol _ Hacc.
  apply (forRange_inv (fun h' => Rectangular cc h' /\ List.length h' = List.length h));
    [|assumption].
  intros r acc1 _ [Hacc1 Hlen1].
  destruct (strictEq _ 1%float); [|auto].
  destruct (rowLoop_rect cc m colCount
              (fun c h => (cell h m 0 c - M_VAL * cell h m r c)%float) acc1 Hc Hacc1)
    as [H1 H2].
  split; [exact H1 | congruence].
Qed.

Lemma phase1Eliminate_rect cc (m : Matrix) numRows colCount arts h :
  colCount <= cc -> Rectangular cc h ->
  Rectangular cc (phase1Eliminate m numRows colCount arts h)
  /\ List.length (phase1Eliminate m numRows colCount arts h) = List.length h.
Proof.
  intros Hc Hrect. unfold phase1Eliminate.
  apply (fold_left_inv (fun h' => Rectangular cc h' /\ List.length h' = List.length h));
    [|auto].
  intros acc artCol _ Hacc.
  apply (forRange_inv (fun h' => Rectangular cc h' /\ List.length h' = List.length h));
    [|assumption].
  intros r acc1 _ [Hacc1 Hlen1].
  destruct (strictEq _ 1%float); [|auto].
  destruct (rowLoop_rect cc m colCount
              (fun c h => (cell h m 0 c - cell h m r c)%float) acc1 Hc Hacc1)
    as [H1 H2].
  split; [exact H1 | congruence].
Qed.

Lemma rezeroObjective_rect cc (m : Matrix) colCount basis h :
  colCount <= cc -> Rectangular cc h ->
  Rectangular cc (rezeroObjective m colCount basis h)
  /\ List.length (rezeroObjective m colCount basis h) = List.length h.
Proof.
  intros Hc Hrect. unfold rezeroObjective.
  apply (fold_left_inv (fun h' => Rectangular cc h' /\ List.length h' = List.length h));
    [|auto].
  intros acc ib _ [Hacc Hlen]. cbv zeta.
  destruct (gt _ tol); [|auto].
  destruct (rowLoop_rect cc m colCount
              (fun c h => (cell h m 0 c
                           - cell acc m 0 (snd ib) * cell h m (fst ib + 1) c)%float)
              acc Hc Hacc) as [H1 H2].
  split; [exact H1 | congruence].
Qed.

Lemma prepareBigM_rect isMin objCoeffs constraints :
  Forall (fun c => List.length (coefficients c) <= List.length objCoeffs) constraints ->
  let n := normalize isMin objCoeffs constraints in
  Rectangular (n_colCount n) (prepareBigM n)
  /\ List.length (prepareBigM n) = List.length constraints + 1.
Proof.
  intros Hcoefs. cbv zeta.
  pose proof (Rectangular_normalize isMin objCoeffs constraints Hcoefs) as Hrect.
  pose proof (length_n_heap isMin objCoeffs constraints) as HL.
  pose proof (normalize_facts isMin objCoeffs constraints) as NF.
  cbv zeta in Hrect. set (n := normalize isMin objCoeffs constraints) in *.
  unfold prepareBigM.
  destruct (markArtificials_rect (n_colCount n) (n_matrix n) (n_headers n) M_VAL (n_heap n))
    as [H1 L1]; [rewrite (nf_colCount _ _ _ NF); lia | assumption |].
  destruct (markArtificials (n_matrix n) (n_headers n) M_VAL (n_heap n)) as [h1 arts].
  cbn [fst] in *.
  destruct (bigMEliminate_rect (n_colCount n) (n_matrix n) (n_numRows n) (n_colCount n)
              arts h1 (le_n _) H1) as [H2 L2].
  split; [exact H2 | congruence].
Qed.

Lemma preparePhase1_rect isMin objCoeffs constraints :
  Forall (fun c => List.length (coefficients c) <= List.length objCoeffs) constraints ->
  let n := normalize isMin objCoeffs constraints in
  Rectangular (n_colCount n) (p1_heap (preparePhase1 n))
  /\ List.length (p1_heap (preparePhase1 n)) = List.length constraints + 3.
Proof.
  intros Hcoefs. cbv zeta.
  pose proof (Rectangular_normalize isMin objCoeffs constraints Hcoefs) as Hrect.
  pose proof (length_n_heap isMin objCoeffs constraints) as HL.
  pose proof (normalize_facts isMin objCoeffs constraints) as NF.
  cbv zeta in Hrect. set (n := normalize isMin objCoeffs constraints) in *.
  unfold preparePhase1, alloc.
  set (h1 := n_heap n ++ [rowAt (n_heap n) (rowAddr (n_matrix n) 0)]).
  set (h2 := h1 ++ [zeroRow (n_colCount n)]).
  set (m1 := replaceRow0 (n_matrix n) (List.length h1)).
  assert (Hh2 : Rectangular (n_colCount n) h2 /\ List.length h2 = List.length constraints + 3).
  { split.
    - unfold h2, h1. apply Rectangular_alloc; [apply Rectangular_alloc; [assumption|]|].
      + apply (Rectangular_rowLength _ _ _ Hrect).
        rewrite (nf_matrix _ _ _ NF), rowAddr_initMatrix by lia. lia.
      + apply repeat_length.
    - unfold h2, h1. rewrite !length_app. cbn [List.length]. lia. }
  destruct Hh2 as [R2 L2].
  destruct (markArtificials_rect (n_colCount n) m1 (n_headers n) 1%float
              (setCell h2 m1 0 0 1%float)) as [R4 L4].
  { rewrite (nf_colCount _ _ _ NF). lia. }
  { apply Rectangular_setCell; [|assumption].
    pose proof (nf_columns _ _ _ NF). lia. }
  rewrite length_setCell in L4.
  destruct (markArtificials m1 (n_headers n) 1%float (setCell h2 m1 0 0 1%float))
    as [h4 arts]. cbn [fst p1_heap] in *.
  destruct (phase1Eliminate_rect (n_colCount n) m1 (n_numRows n) (n_colCount n)
              arts h4 (le_n _) R4) as [R5 L5].
  split; [exact R5 | congruence].
Qed.

(** ** The runs behind a result *)

Lemma tail_inv (s : Status) (st : EngineState) (x : Result SolveResult) (r : SolveResult)
      isMin hdrs matrix RHS_COL :
  x = extractResults isMin hdrs matrix RHS_COL st ->
  (if negb (isOptimal s) then Ok (earlyReturn s st) else x) = Ok r ->
  steps r = st_steps st /\ store r = st_heap st.
Proof.
  intros -> H. destruct (negb (isOptimal s)).
  - apply Ok_inj in H. subst r. split; reflexivity.
  - apply extractResults_inv in H. tauto.
Qed.

Lemma solveStandard_run isMin (n : Normalized) (r : SolveResult) :
  solveStandard isMin n = Ok r ->
  exists s st,
    runSimplexIterations (n_matrix n) (n_headers n) 0
      {| st_heap := n_heap n; st_basis := n_basis n; st_steps := [] |} = Ok (s, st)
    /\ steps r = st_steps st /\ store r = st_heap st.
Proof.
  unfold solveStandard.
  destruct (runSimplexIterations _ _ _ _) as [[s st]|e]; cbn [bind]; [|discriminate].
  intros H. exists s, st. split; [reflexivity|].
  now apply (tail_inv _ _ _ _ _ _ _ _ eq_refl H).
Qed.

Lemma solveBigM_run isMin (n : Normalized) (r : SolveResult) :
  solveBigM isMin n = Ok r ->
  exists s st,
    runSimplexIterations (n_matrix n) (n_headers n) 0
      {| st_heap := prepareBigM n; st_basis := n_basis n; st_steps := [] |} = Ok (s, st)
    /\ steps r = st_steps st /\ store r = st_heap st.
Proof.
  unfold solveBigM.
  destruct (runSimplexIterations _ _ _ _) as [[s st]|e]; cbn [bind]; [|discriminate].
  intros H. exists s, st. split; [reflexivity|].
  destruct (negb (isOptimal s)).
  - apply Ok_inj in H. subst r. split; reflexivity.
  - destruct (artInBasis _ _ _ _ _) as [[|]|e]; cbn [bind] in H; [| |discriminate].
    + apply Ok_inj in H. subst r. split; reflexivity.
    + apply extractResults_inv in H. tauto.
Qed.

Lemma solveTwoPhase_run isMin (n : Normalized) (r : SolveResult) :
  solveTwoPhase isMin n = Ok r ->
  exists s1 st1,
    runSimplexIterations (p1_matrix (preparePhase1 n)) (n_headers n) 1
      {| st_heap := p1_heap (preparePhase1 n); st_basis := n_basis n; st_steps := [] |}
    = Ok (s1, st1)
    /\ ((steps r = st_steps st1 /\ store r = st_heap st1)
        \/ exists s2 st2,
             runSimplexIterations (fst (preparePhase2 n (preparePhase1 n) st1))
               (n_headers n) 2 (snd (preparePhase2 n (preparePhase1 n) st1))
             = Ok (s2, st2)
             /\ steps r = st_steps st2 /\ store r = st_heap st2).
Proof.
  unfold solveTwoPhase.
  destruct (runSimplexIterations (p1_matrix (preparePhase1 n)) _ _ _)
    as [[s1 st1]|e]; cbn [bind]; [|discriminate].
  intros H. exists s1, st1. split; [reflexivity|].
  destruct (isUnbounded s1).
  { apply Ok_inj in H. subst r. left. split; reflexivity. }
  destruct (gt _ feasTol).
  { apply Ok_inj in H. subst r. left. split; reflexivity. }
  right.
  destruct (preparePhase2 n (preparePhase1 n) st1) as [matrix2 st1']. cbn [fst snd].
  destruct (runSimplexIterations matrix2 _ _ _) as [[s2 st2]|e]; cbn [bind] in H |- *;
    [|discriminate].
  exists s2, st2. split; [reflexivity|].
  now apply (tail_inv _ _ _ _ _ _ _ _ eq_refl H).
Qed.

(** X30: the rows a trace shows.  When no constraint has more coefficients
    than there are decision variables, every row of every tableau that the
    steps of a result show, read in the store the result comes with, has
    exactly one cell per header of the step. *)
Theorem shown_rows_have_one_cell_per_header
        (method : SolverMethod) (type : OptimizationType)
        (objCoeffs : list number) (constraints : list Constraint) :
  Forall (fun c => List.length (coefficients c) <= List.length objCoeffs) constraints ->
  let result := solveLinearProgram method type objCoeffs constraints in
  Forall (fun t =>
            Forall (fun row => List.length row = List.length (headers t))
                   (shownCoefficients (store result) t))
         (steps result).
Proof.
  intros Hcoefs. cbv zeta.
  destruct (solveBody_returns method type objCoeffs constraints) as [r Hr].
  unfold solveLinearProgram. rewrite Hr. cbn [tryCatch].
  unfold solveBody in Hr. fold (isMinOf type) in Hr.
  pose proof (normalize_facts (isMinOf type) objCoeffs constraints) as NF.
  pose proof (length_n_heap (isMinOf type) objCoeffs constraints) as HL.
  pose proof (Rectangular_normalize (isMinOf type) objCoeffs constraints Hcoefs) as R0.
  pose proof (prepareBigM_rect (isMinOf type) objCoeffs constraints Hcoefs) as RM.
  pose proof (preparePhase1_rect (isMinOf type) objCoeffs constraints Hcoefs) as R1.
  cbv zeta in R0, RM, R1.
  set (n := normalize (isMinOf type) objCoeffs constraints) in *.
  assert (Hm : n_matrix n = seq 0 (List.length constraints + 1))
    by apply (nf_matrix _ _ _ NF).
  assert (Haddr0 : rowAddr (n_matrix n) 0 = 0).
  { rewrite Hm. apply rowAddr_initMatrix. lia. }
  (* what is to be shown of the final state *)
  assert (Hkey : Rectangular (n_colCount n) (store r)
                 /\ Shown (List.length (store r)) (n_headers n) (steps r)).
  { destruct (isTwoPhase method && (0 <? List.length (artificialVars constraints))).
    - destruct R1 as [R1 L1].
      destruct (solveTwoPhase_run _ _ _ Hr) as (s1 & st1 & Hrun1 & Hrest).
      assert (Hm1 : p1_matrix (preparePhase1 n)
                    = (List.length constraints + 2) :: seq 1 (List.length constraints)).
      { rewrite p1_matrix_eq, Hm, length_app, HL. cbn [List.length].
        rewrite Nat.add_1_r. cbn [seq replaceRow0 jsSet]. f_equal. lia. }
      assert (Hbelow1 : Forall (fun a => a < List.length constraints + 3)
                               (p1_matrix (preparePhase1 n))).
      { rewrite Hm1. constructor; [lia|]. apply Forall_forall. intros a Ha.
        apply in_seq in Ha. lia. }
      assert (Hrow1 : rowLength (p1_heap (preparePhase1 n))
                                (rowAddr (p1_matrix (preparePhase1 n)) 0) = n_colCount n).
      { apply (Rectangular_rowLength _ _ _ R1). rewrite Hm1, L1. cbn. lia. }
      destruct (run_store _ _ _ (List.length constraints + 3) _ _ _ Hrun1 Hbelow1)
        as (La & Ra & Sa); cbn [st_heap st_steps].
      { now rewrite Hrow1. }
      { constructor. }
      cbn [st_heap] in La, Ra. rewrite Hrow1 in Ra. rewrite L1 in La.
      destruct Hrest as [[-> ->] | (s2 & st2 & Hrun2 & -> & ->)].
      + rewrite La. auto.
      + unfold preparePhase2 in Hrun2. cbn [fst snd] in Hrun2.
        set (matrix2 := replaceRow0 (p1_matrix (preparePhase1 n))
                                    (p1_originalObjRow (preparePhase1 n))) in *.
        assert (Hm2 : matrix2
                      = (List.length constraints + 1) :: seq 1 (List.length constraints)).
        { unfold matrix2. rewrite Hm1, p1_originalObjRow_eq, HL. reflexivity. }
        assert (Hbelow2 : Forall (fun a => a < List.length constraints + 3) matrix2).
        { rewrite Hm2. constructor; [lia|]. apply Forall_forall. intros a Ha.
          apply in_seq in Ha. lia. }
        destruct (rezeroObjective_rect (n_colCount n) matrix2 (n_colCount n)
                    (st_basis st1) (st_heap st1) (le_n _) Ra) as [Rb Lb].
        assert (Hrow2 : rowLength (rezeroObjective matrix2 (n_colCount n) (st_basis st1)
                                                   (st_heap st1))
                                  (rowAddr matrix2 0) = n_colCount n).
        { apply (Rectangular_rowLength _ _ _ Rb). rewrite Lb, La.
          replace (rowAddr matrix2 0) with (List.length constraints + 1)
            by (rewrite Hm2; reflexivity).
          lia. }
        destruct (run_store _ _ _ (List.length constraints + 3) _ _ _ Hrun2 Hbelow2)
          as (Lc & Rc & Sc); cbn [st_heap st_steps].
        { now rewrite Hrow2. }
        { exact Sa. }
        cbn [st_heap] in Lc, Rc. rewrite Hrow2 in Rc.
        rewrite Lc, Lb, La. auto.
    - assert (Hbelow : Forall (fun a => a < List.length constraints + 1) (n_matrix n)).
      { rewrite Hm. apply Forall_forall. intros a Ha. apply in_seq in Ha. lia. }
      destruct (isBigM method && (0 <? List.length (artificialVars constraints))).
      + destruct RM as [RM LM].
        destruct (solveBigM_run _ _ _ Hr) as (s & st & Hrun & -> & ->).
        assert (Hrow : rowLength (prepareBigM n) (rowAddr (n_matrix n) 0) = n_colCount n).
        { apply (Rectangular_rowLength _ _ _ RM). rewrite Haddr0, LM. lia. }
        destruct (run_store _ _ _ (List.length constraints + 1) _ _ _ Hrun Hbelow)
          as (La & Ra & Sa); cbn [st_heap st_steps].
        { now rewrite Hrow. }
        { constructor. }
        cbn [st_heap] in La, Ra. rewrite Hrow in Ra. rewrite La, LM. auto.
      + destruct (solveStandard_run _ _ _ Hr) as (s & st & Hrun & -> & ->).
        assert (Hrow : rowLength (n_heap n) (rowAddr (n_matrix n) 0) = n_colCount n).
        { apply (Rectangular_rowLength _ _ _ R0). rewrite Haddr0, HL. lia. }
        destruct (run_store _ _ _ (List.length constraints + 1) _ _ _ Hrun Hbelow)
          as (La & Ra & Sa); cbn [st_heap st_steps].
        { now rewrite Hrow. }
        { constructor. }
        cbn [st_heap] in La, Ra. rewrite Hrow in Ra. rewrite La, HL. auto. }
  destruct Hkey as [Hrect Hshown].
  eapply Forall_impl; [|exact Hshown]. cbv beta. intros t [Hh Hrows].
  unfold shownCoefficients. apply Forall_map.
  eapply Forall_impl; [|exact Hrows]. cbv beta. intros row Hrow.
  rewrite Hh, <- (nf_colCount _ _ _ NF).
  apply (Rectangular_rowLength _ _ _ Hrect Hrow).
Qed.

(** The sample problem has two coefficients in every constraint. *)
Lemma shown_rows_have_one_cell_per_header_sample :
  Forall (fun c => List.length (coefficients c) <= 2) sampleConstraints
  /\ Forall (fun t =>
               Forall (fun row => List.length row = List.length (headers t))
                      (shownCoefficients
                         (store (solveLinearProgram SIMPLEX MAX [3%float; 5%float]
                                                    sampleConstraints)) t))
            (steps (solveLinearProgram SIMPLEX MAX [3%float; 5%float] sampleConstraints)).
Proof.
  assert (H : Forall (fun c => List.length (coefficients c) <= 2) sampleConstraints)
    by (repeat constructor).
  split; [exact H|].
  apply (shown_rows_have_one_cell_per_header SIMPLEX MAX [3%float; 5%float]
           sampleConstraints H).
Defined.
